(** * libosmium: the multipolygon area assembler and the diff handler

    A shallow embedding of [include/osmium/area/assembler.hpp],
    [include/osmium/diff_handler.hpp] and
    [include/osmium/thread/checked_task.hpp], and the properties the
    specification states about them.

    Conventions of the embedding.
    - C++ integers are [Z]; [object_id_type] is [int64_t] and its
      arithmetic is written with [wrap64].
    - [const char*] strings are [string]; a [TagList] is a [list Tag.t].
    - A [const osmium::Way*] is an address ([nat]) into a store of ways
      ([nat -> Way.t]); the input buffer of a relation is that store and a
      member offset is the address of its way.
    - [std::list<ProtoRing>] is a [list ProtoRing.t]; a [ProtoRing*] or a
      reference to an element is its index in that list.
    - The assembler's methods are computations in the state monad [M] over
      the record [Assembler.t]; the problem reporter behind
      [m_problem_reporter] is the list of calls it has received, and a null
      pointer is [None].
    - Debug output to [std::cerr] is not modelled.
    - The handlers in the parameter pack of the diff handler's [apply] are
      their positions ([nat]); a run of [apply] is the list of the calls it
      makes, in order, and whether it returns or throws. *)

From Stdlib Require Import ZArith String Ascii List Bool Lia Permutation Sorted.
From stdpp Require Import base list gmap strings.

Set Default Proof Using "Type".

(** ** OSM object model (the parts the assembler reads) *)

Definition int64_min : Z := (- 2 ^ 63)%Z.
Definition int64_max : Z := (2 ^ 63 - 1)%Z.

Definition in_int64 (z : Z) : Prop := (int64_min <= z <= int64_max)%Z.

(** Two's complement reduction of an integer into [int64_t]. *)
Definition wrap64 (z : Z) : Z := ((z + 2 ^ 63) mod 2 ^ 64 - 2 ^ 63)%Z.

Module Location.
(** Modelled from the spec: a 2-D integer coordinate (fixed-point lon/lat),
    equality-comparable by exact value, ordered by (x, then y). The class
    [osmium::Location] is declared in [osmium/osm/location.hpp]. *)
Record t : Type := mk { x : Z; y : Z }.

Definition eqb (a b : t) : bool := (x a =? x b)%Z && (y a =? y b)%Z.

Definition ltb (a b : t) : bool :=
  (x a <? x b)%Z || ((x a =? x b)%Z && (y a <? y b)%Z).
End Location.

Module NodeRef.
(** Modelled from the spec: a pair (node id, location);
    [osmium/osm/noderef.hpp]. *)
Record t : Type := mk { ref : Z; location : Location.t }.
End NodeRef.

Module Tag.
Record t : Type := mk { key : string; value : string }.

Definition eqb (a b : t) : bool :=
  String.eqb (key a) (key b) && String.eqb (value a) (value b).
End Tag.

Module Object.
(** The attributes of [osmium::Object] read by
    [initialize_area_from_object]. *)
Record t : Type := mk {
  id : Z;
  version : Z;
  changeset : Z;
  timestamp : Z;
  visible : bool;
  uid : Z;
  user : string;
  tags : list Tag.t
}.
End Object.

Module Way.
Record t : Type := mk { object : Object.t; nodes : list NodeRef.t }.

Definition id (w : t) : Z := Object.id (object w).
Definition tags (w : t) : list Tag.t := Object.tags (object w).

(** Modelled from the spec: a way is closed when its first and last node
    have the same id ([ends_have_same_id] and [is_closed] of
    [osmium/osm/way.hpp]). Both read [front()] and [back()], which a way
    without nodes does not have; the model answers [true] there. *)
Definition ends_have_same_id (w : t) : bool :=
  match head (nodes w), last (nodes w) with
  | Some a, Some b => (NodeRef.ref a =? NodeRef.ref b)%Z
  | _, _ => true
  end.

Definition is_closed (w : t) : bool := ends_have_same_id w.
End Way.

Module RelationMember.
Record t : Type := mk { role : string; ref : Z }.
End RelationMember.

Module Relation.
Record t : Type := mk { object : Object.t; members : list RelationMember.t }.

Definition id (r : t) : Z := Object.id (object r).
Definition tags (r : t) : list Tag.t := Object.tags (object r).
End Relation.

(** ** Segments *)

Module NodeRefSegment.
(** Modelled from the spec: an ordered pair (first, second) of node refs
    with the role string and the origin way; [osmium/area/segment.hpp]. *)
Record t : Type := mk {
  first : NodeRef.t;
  second : NodeRef.t;
  role : string;
  way : nat
}.

(** Modelled from the spec: the constructor orients a segment canonically,
    [first] being the lexicographically smaller endpoint by (x, y). *)
Definition make (nr1 nr2 : NodeRef.t) (r : string) (w : nat) : t :=
  if Location.ltb (NodeRef.location nr2) (NodeRef.location nr1)
  then mk nr2 nr1 r w
  else mk nr1 nr2 r w.

Definition swap_locations (s : t) : t :=
  mk (second s) (first s) (role s) (way s).

Definition role_outer (s : t) : bool := String.eqb (role s) "outer".
Definition role_inner (s : t) : bool := String.eqb (role s) "inner".

(** Modelled from the spec: two segments are equal iff both endpoints
    share locations (ids irrelevant). *)
Definition eqb (a b : t) : bool :=
  Location.eqb (NodeRef.location (first a)) (NodeRef.location (first b))
  && Location.eqb (NodeRef.location (second a)) (NodeRef.location (second b)).

(** Modelled from the spec: lexicographic on
    (first.x, first.y, second.x, second.y). *)
Definition ltb (a b : t) : bool :=
  Location.ltb (NodeRef.location (first a)) (NodeRef.location (first b))
  || (Location.eqb (NodeRef.location (first a)) (NodeRef.location (first b))
      && Location.ltb (NodeRef.location (second a))
                      (NodeRef.location (second b))).

(** Modelled from the spec: "if s2.first.x > s1.second.x, no later segment
    can intersect s1"; called as [outside_x_range s2 s1]. *)
Definition outside_x_range (s1 s2 : t) : bool :=
  (Location.x (NodeRef.location (second s2))
   <? Location.x (NodeRef.location (first s1)))%Z.

Definition y_min (s : t) : Z :=
  Z.min (Location.y (NodeRef.location (first s)))
        (Location.y (NodeRef.location (second s))).

Definition y_max (s : t) : Z :=
  Z.max (Location.y (NodeRef.location (first s)))
        (Location.y (NodeRef.location (second s))).

(** Modelled from the spec: the y-ranges of the two segments overlap. *)
Definition y_range_overlap (s1 s2 : t) : bool :=
  negb ((y_max s2 <? y_min s1)%Z || (y_max s1 <? y_min s2)%Z).
End NodeRefSegment.

(** ** std::sort and the segment list *)

Section StdSort.
Context {A : Type} (lt : A -> A -> bool).

Fixpoint sort_insert (a : A) (l : list A) : list A :=
  match l with
  | [] => [a]
  | b :: l' => if lt b a then b :: sort_insert a l' else a :: l
  end.

(** [std::sort] with comparator [lt]. The standard leaves the order of
    equivalent elements open; the model keeps them in their original
    order, and the properties proved below mention only what every
    conforming sort guarantees. *)
Definition std_sort (l : list A) : list A := foldr sort_insert [] l.
End StdSort.

Module SegmentList.
(** Modelled from the spec: the owned, ordered collection of segments of
    [osmium/area/detail/segment_list.hpp]. *)
Definition t : Type := list NodeRefSegment.t.

(** Modelled from the spec: for each way, iterate consecutive node pairs
    and emit one canonically oriented segment per pair with the member's
    role, skipping pairs whose two node ids are identical. *)
Fixpoint segments_of_nodes (role : string) (way : nat)
    (nodes : list NodeRef.t) : t :=
  match nodes with
  | nr1 :: (nr2 :: _) as rest =>
      if (NodeRef.ref nr1 =? NodeRef.ref nr2)%Z
      then segments_of_nodes role way rest
      else NodeRefSegment.make nr1 nr2 role way
           :: segments_of_nodes role way rest
  | _ => []
  end.

Definition sort (l : t) : t := std_sort NodeRefSegment.ltb l.

(** [std::adjacent_find] followed by [erase(it, it+2)]: the list without
    its first pair of adjacent equal segments, if there is one. *)
Fixpoint erase_first_pair (l : t) : option t :=
  match l with
  | a :: (b :: l'') as l' =>
      if NodeRefSegment.eqb a b then Some l''
      else cons a <$> erase_first_pair l'
  | _ => None
  end.

Fixpoint erase_loop (fuel : nat) (l : t) : t :=
  match fuel with
  | O => l
  | S fuel' =>
      match erase_first_pair l with
      | Some l' => erase_loop fuel' l'
      | None => l
      end
  end.

(** Modelled from the spec: adjacent equal segments (after sort) are
    paired and removed, until none is left. Every removal shortens the
    list by two, so [length l] rounds are more than enough. *)
Definition erase_duplicate_segments (l : t) : t := erase_loop (length l) l.
End SegmentList.

(** ** Proto-rings *)

Module ProtoRing.
(** Modelled from the spec: a mutable ordered sequence of segments
    forming a contiguous path, with the outer/inner flag and the
    non-owning list of the inner rings it encloses;
    [osmium/area/detail/proto_ring.hpp]. *)
Record t : Type := mk {
  segments : list NodeRefSegment.t;
  m_outer : bool;
  m_inner : list nat
}.

(** The constructors [ProtoRing(segment)] and [ProtoRing(begin, end)]. *)
Definition of_segments (l : list NodeRefSegment.t) : t := mk l true [].

Definition set_segments (l : list NodeRefSegment.t) (r : t) : t :=
  mk l (m_outer r) (m_inner r).

Definition undefined_noderef : NodeRef.t :=
  NodeRef.mk 0 (Location.mk 2147483647 2147483647).

(** [front()] and [back()] of an empty vector are undefined; the model
    reads a default-constructed segment there. *)
Definition undefined_segment : NodeRefSegment.t :=
  NodeRefSegment.mk undefined_noderef undefined_noderef "" 0.

Definition first_segment (r : t) : NodeRefSegment.t :=
  default undefined_segment (head (segments r)).

Definition last_segment (r : t) : NodeRefSegment.t :=
  default undefined_segment (last (segments r)).

(** Modelled from the spec: [closed()] iff the first endpoint of the
    first segment is co-located with the second endpoint of the last. *)
Definition closed (r : t) : bool :=
  Location.eqb (NodeRef.location (NodeRefSegment.first (first_segment r)))
               (NodeRef.location (NodeRefSegment.second (last_segment r))).

Definition outer (r : t) : bool := m_outer r.
Definition set_inner (r : t) : t := mk (segments r) false (m_inner r).
Definition inner_rings (r : t) : list nat := m_inner r.
Definition add_inner_ring (i : nat) (r : t) : t :=
  mk (segments r) (m_outer r) (m_inner r ++ [i]).

Definition add_segment_end (s : NodeRefSegment.t) (r : t) : t :=
  set_segments (segments r ++ [s]) r.

Definition add_segment_start (s : NodeRefSegment.t) (r : t) : t :=
  set_segments (s :: segments r) r.

(** [remove_segments(begin + i, begin + j)]. *)
Definition remove_segments (i j : nat) (r : t) : t :=
  set_segments (take i (segments r) ++ drop j (segments r)) r.

(** Modelled from the spec: reversing a ring turns every segment around
    and reverses their order. *)
Definition reverse (r : t) : t :=
  set_segments (rev (map NodeRefSegment.swap_locations (segments r))) r.

(** Modelled from the spec: splice the other ring onto the end of this
    one, as it is ([merge_ring]) or turned around
    ([merge_ring_reverse]). [swap_segments] exchanges the segment
    vectors of two rings and is written with [set_segments] where it is
    called. *)
Definition merge_ring (other : t) (r : t) : t :=
  set_segments (segments r ++ segments other) r.

Definition merge_ring_reverse (other : t) (r : t) : t :=
  set_segments
    (segments r ++ rev (map NodeRefSegment.swap_locations (segments other)))
    r.

Definition min_location (a b : NodeRef.t) : NodeRef.t :=
  if Location.ltb (NodeRef.location b) (NodeRef.location a) then b else a.

(** Modelled from the spec: [min_node()] is the endpoint with the
    smallest (x, then y) across all segments. *)
Definition min_node (r : t) : NodeRef.t :=
  match segments r with
  | [] => undefined_noderef
  | s :: l =>
      foldl (fun m s' => min_location (min_location m (NodeRefSegment.first s'))
                                      (NodeRefSegment.second s'))
            (min_location (NodeRefSegment.first s) (NodeRefSegment.second s))
            l
  end.

(** Modelled from the spec: a segment belongs to the ring when the ring
    has a segment with the same two endpoint locations, in either
    direction. *)
Definition contains (r : t) (s : NodeRefSegment.t) : bool :=
  existsb (fun s' => NodeRefSegment.eqb s' s
                     || NodeRefSegment.eqb s' (NodeRefSegment.swap_locations s))
          (segments r).

(** [get_ways(ways)]: the origin ways of the segments join the set. *)
Definition get_ways (r : t) (ways : gset nat) : gset nat :=
  foldl (fun acc s => {[ NodeRefSegment.way s ]} ∪ acc) ways (segments r).

Definition cross (s : NodeRefSegment.t) : Z :=
  (Location.x (NodeRef.location (NodeRefSegment.first s))
   * Location.y (NodeRef.location (NodeRefSegment.second s))
   - Location.x (NodeRef.location (NodeRefSegment.second s))
     * Location.y (NodeRef.location (NodeRefSegment.first s)))%Z.

(** Twice the signed area of the polygon (shoelace formula). *)
Definition sum_of (l : list NodeRefSegment.t) : Z :=
  foldr (fun s acc => (cross s + acc)%Z) 0%Z l.

Definition sum (r : t) : Z := sum_of (segments r).

(** Modelled from the spec: winding is derived from the signed area of
    the closed polygon; counter-clockwise is positive signed area, and a
    ring is clockwise when it is not counter-clockwise. *)
Definition is_cw (r : t) : bool := (sum r <=? 0)%Z.

(** Modelled from the spec: the polygon area, half the absolute signed
    sum (integer division truncates). *)
Definition area_of (l : list NodeRefSegment.t) : Z :=
  Z.abs (Z.quot (sum_of l) 2).

Definition area (r : t) : Z := area_of (segments r).

(** The node refs a ring builder receives: the first segment's first
    endpoint, then each segment's second endpoint. *)
Definition node_refs (r : t) : list NodeRef.t :=
  NodeRefSegment.first (first_segment r)
  :: map NodeRefSegment.second (segments r).
End ProtoRing.

(** The geometric predicates of [segment.hpp] and [proto_ring.hpp] that the
    assembler calls; their code is not part of the files at hand, so the
    assembler is verified for every implementation of them. *)
Class Geometry : Type := {
  (** [calculate_intersection(s1, s2)]: the intersection point, or an
      undefined location ([None]). *)
  calculate_intersection :
    NodeRefSegment.t -> NodeRefSegment.t -> option Location.t;
  (** [segment.to_left_of(location)] *)
  to_left_of : NodeRefSegment.t -> Location.t -> bool;
  (** [inner->is_in(outer)], a function of the two rings' segments *)
  is_in : list NodeRefSegment.t -> list NodeRefSegment.t -> bool
}.

(** ** The problem reporter *)

Inductive Problem : Type :=
| report_duplicate_node (node_id1 node_id2 : Z) (location : Location.t)
| report_intersection (object_id : Z)
    (way1_id : Z) (way1_seg_start way1_seg_end : Location.t)
    (way2_id : Z) (way2_seg_start way2_seg_end : Location.t)
    (intersection : Location.t)
| report_ring_not_closed (object_id : Z) (end1 end2 : Location.t)
| report_role_should_be_outer (object_id way_id : Z)
    (seg_start seg_end : Location.t)
| report_role_should_be_inner (object_id way_id : Z)
    (seg_start seg_end : Location.t).

(** ** The output buffer *)

Inductive RingItem : Type :=
| OuterRing (nodes : list NodeRef.t)
| InnerRing (nodes : list NodeRef.t).

Module Area.
Record t : Type := mk {
  id : Z;
  version : Z;
  changeset : Z;
  timestamp : Z;
  visible : bool;
  uid : Z;
  user : string;
  tags : list Tag.t;
  rings : list RingItem
}.

(** The area a fresh [AreaBuilder] puts into the buffer. *)
Definition empty : t := mk 0 0 0 0 false 0 "" [] [].

Definition add_tag (tg : Tag.t) (a : t) : t :=
  mk (id a) (version a) (changeset a) (timestamp a) (visible a) (uid a)
     (user a) (tags a ++ [tg]) (rings a).

Definition add_ring (r : RingItem) (a : t) : t :=
  mk (id a) (version a) (changeset a) (timestamp a) (visible a) (uid a)
     (user a) (tags a) (rings a ++ [r]).

(** An area without rings is defined to be invalid. *)
Definition header_only (a : t) : Prop := tags a = [] /\ rings a = [].
End Area.

Module Buffer.
(** The areas written into the buffer so far, and those of them visible
    to the reader since the last [commit()]. *)
Record t : Type := mk { written : list Area.t; committed : list Area.t }.

Definition commit (b : t) : t := mk (written b) (written b).

Definition modify (i : nat) (f : Area.t -> Area.t) (b : t) : t :=
  mk (alter f i (written b)) (committed b).
End Buffer.

(** ** Tag filters *)

Module KeyFilter.
(** Modelled from the spec: "ignoring the keys {...}". A
    [osmium::tags::KeyFilter] ([osmium/tags/key_filter.hpp]) holds a
    default result and an ordered list of rules; the first rule whose key
    equals the tag's key decides. *)
Record t : Type := mk { default_result : bool; rules : list (bool * string) }.

Definition add (result : bool) (key : string) (f : t) : t :=
  mk (default_result f) (rules f ++ [(result, key)]).

Fixpoint decide_key (rs : list (bool * string)) (dflt : bool) (k : string)
    : bool :=
  match rs with
  | [] => dflt
  | (result, key) :: rs' =>
      if String.eqb key k then result else decide_key rs' dflt k
  end.

Definition accepts (f : t) (tg : Tag.t) : bool :=
  decide_key (rules f) (default_result f) (Tag.key tg).

(** The tags a [KeyFilter::iterator] range runs over. *)
Definition filtered (f : t) (tags : list Tag.t) : list Tag.t :=
  List.filter (accepts f) tags.
End KeyFilter.

(** ** The assembler *)

Module Assembler.
Record t : Type := mk {
  m_problem_reporter : option (list Problem);
  m_debug : bool;
  m_segment_list : SegmentList.t;
  m_rings : list ProtoRing.t;
  m_object_id : Z;
  m_outer_rings : list nat;
  m_inner_rings : list nat;
  m_inner_outer_mismatches : Z
}.

(** [Assembler(problem_reporter = nullptr)] *)
Definition new (reporter : option (list Problem)) : t :=
  mk reporter false [] [] 0 [] [] 0.

Definition set_problem_reporter (f : option (list Problem) -> option (list Problem))
    (a : t) : t :=
  mk (f (m_problem_reporter a)) (m_debug a) (m_segment_list a) (m_rings a)
     (m_object_id a) (m_outer_rings a) (m_inner_rings a)
     (m_inner_outer_mismatches a).

Definition set_segment_list (f : SegmentList.t -> SegmentList.t) (a : t) : t :=
  mk (m_problem_reporter a) (m_debug a) (f (m_segment_list a)) (m_rings a)
     (m_object_id a) (m_outer_rings a) (m_inner_rings a)
     (m_inner_outer_mismatches a).

Definition set_rings (f : list ProtoRing.t -> list ProtoRing.t) (a : t) : t :=
  mk (m_problem_reporter a) (m_debug a) (m_segment_list a) (f (m_rings a))
     (m_object_id a) (m_outer_rings a) (m_inner_rings a)
     (m_inner_outer_mismatches a).

Definition set_outer_rings (f : list nat -> list nat) (a : t) : t :=
  mk (m_problem_reporter a) (m_debug a) (m_segment_list a) (m_rings a)
     (m_object_id a) (f (m_outer_rings a)) (m_inner_rings a)
     (m_inner_outer_mismatches a).

Definition set_inner_rings (f : list nat -> list nat) (a : t) : t :=
  mk (m_problem_reporter a) (m_debug a) (m_segment_list a) (m_rings a)
     (m_object_id a) (m_outer_rings a) (f (m_inner_rings a))
     (m_inner_outer_mismatches a).

Definition set_mismatches (f : Z -> Z) (a : t) : t :=
  mk (m_problem_reporter a) (m_debug a) (m_segment_list a) (m_rings a)
     (m_object_id a) (m_outer_rings a) (m_inner_rings a)
     (f (m_inner_outer_mismatches a)).

(** [enable_debug_output(debug)] *)
Definition enable_debug_output (debug : bool) (a : t) : t :=
  mk (m_problem_reporter a) debug (m_segment_list a) (m_rings a)
     (m_object_id a) (m_outer_rings a) (m_inner_rings a)
     (m_inner_outer_mismatches a).

(** [init_assembler(id)] *)
Definition init_assembler (id : Z) (a : t) : t :=
  mk (m_problem_reporter a) (m_debug a) [] [] id [] [] 0.

(** The calls the problem reporter has received ([[]] without one). *)
Definition reported (a : t) : list Problem :=
  default [] (m_problem_reporter a).
End Assembler.

(** The state monad of the assembler's methods. *)
Definition M (A : Type) : Type := Assembler.t -> A * Assembler.t.

Definition bindM {A B : Type} (m : M A) (f : A -> M B) : M B :=
  fun st => let '(a, st') := m st in f a st'.

#[global] Instance M_ret : MRet M := fun A a st => (a, st).
#[global] Instance M_bind : MBind M := fun A B f m => bindM m f.

Notation "x <- y ; z" := (bindM y (fun x => z))
  (at level 20, y at level 100, z at level 200, only parsing).
Notation "' x <- y ; z" := (bindM y (fun x => z))
  (at level 20, x pattern, y at level 100, z at level 200, only parsing).
Notation "y ;; z" := (bindM y (fun _ => z))
  (at level 100, z at level 200, only parsing, right associativity).

Definition gets {A : Type} (f : Assembler.t -> A) : M A := fun st => (f st, st).
Definition modify (f : Assembler.t -> Assembler.t) : M unit :=
  fun st => (tt, f st).

(** [if (m_problem_reporter) { m_problem_reporter->report_...(...) }] *)
Definition report (p : Problem) : M unit :=
  modify (Assembler.set_problem_reporter (fmap (fun l => l ++ [p]))).

(** The ring behind a [ProtoRing&] or a [ProtoRing*]. *)
Definition ring_at (n : nat) : M ProtoRing.t :=
  gets (fun st => default (ProtoRing.of_segments []) (Assembler.m_rings st !! n)).

Definition modify_ring (n : nat) (f : ProtoRing.t -> ProtoRing.t) : M unit :=
  modify (Assembler.set_rings (alter f n)).

Definition emplace_back (r : ProtoRing.t) : M unit :=
  modify (Assembler.set_rings (fun l => l ++ [r])).

Definition erase (j : nat) : M unit :=
  modify (Assembler.set_rings (delete j)).

(** Position of the first segment equal to [s] ([std::find_first_of] with a
    one-element range); the length of the list if there is none. *)
Fixpoint find_first_of (l : list NodeRefSegment.t) (s : NodeRefSegment.t) : nat :=
  match l with
  | [] => 0
  | s' :: l' => if NodeRefSegment.eqb s' s then 0 else S (find_first_of l' s)
  end.

Section AssemblerMethods.
Context {G : Geometry}.
(** The store of ways behind the [const osmium::Way*] of the segments and
    behind [in_buffer.get<const osmium::Way>(offset)]. *)
Context (in_buffer : nat -> Way.t).

Definition has_same_location (nr1 nr2 : NodeRef.t) : M bool :=
  if negb (Location.eqb (NodeRef.location nr1) (NodeRef.location nr2))
  then mret false
  else
    (if negb (NodeRef.ref nr1 =? NodeRef.ref nr2)%Z
     then report (report_duplicate_node (NodeRef.ref nr1) (NodeRef.ref nr2)
                                        (NodeRef.location nr1))
     else mret tt);;
    mret true.

Definition intersection_problem (object_id : Z) (s1 s2 : NodeRefSegment.t)
    (intersection : Location.t) : Problem :=
  report_intersection object_id
    (Way.id (in_buffer (NodeRefSegment.way s1)))
    (NodeRef.location (NodeRefSegment.first s1))
    (NodeRef.location (NodeRefSegment.second s1))
    (Way.id (in_buffer (NodeRefSegment.way s2)))
    (NodeRef.location (NodeRefSegment.first s2))
    (NodeRef.location (NodeRefSegment.second s2))
    intersection.

(** The inner loop of [find_intersections]: [l] runs from [it1+1] to the
    end of the segment list. *)
Fixpoint find_intersections_inner (s1 : NodeRefSegment.t)
    (l : list NodeRefSegment.t) (found_intersections : bool) : M bool :=
  match l with
  | [] => mret found_intersections
  | s2 :: l' =>
      if NodeRefSegment.eqb s1 s2
      then find_intersections_inner s1 l' found_intersections
      else if NodeRefSegment.outside_x_range s2 s1
      then mret found_intersections
      else if NodeRefSegment.y_range_overlap s1 s2
      then
        match calculate_intersection s1 s2 with
        | Some intersection =>
            object_id <- gets Assembler.m_object_id;
            report (intersection_problem object_id s1 s2 intersection);;
            find_intersections_inner s1 l' true
        | None => find_intersections_inner s1 l' found_intersections
        end
      else find_intersections_inner s1 l' found_intersections
  end.

(** The outer loop: [it1] runs from [begin()] to [end()-1]. *)
Fixpoint find_intersections_outer (l : list NodeRefSegment.t)
    (found_intersections : bool) : M bool :=
  match l with
  | s1 :: (_ :: _) as l' =>
      found <- find_intersections_inner s1 l' found_intersections;
      find_intersections_outer l' found
  | _ => mret found_intersections
  end.

Definition find_intersections : M bool :=
  l <- gets Assembler.m_segment_list;
  match l with
  | [] => mret false
  | _ => find_intersections_outer l false
  end.

(** ** Area attributes and tags *)

Definition initialize_area_from_object (object : Object.t) (id_offset : Z)
    (area : Area.t) : Area.t :=
  Area.mk (wrap64 (Object.id object * 2 + id_offset))
          (Object.version object) (Object.changeset object)
          (Object.timestamp object) (Object.visible object)
          (Object.uid object) (Object.user object)
          (Area.tags area) (Area.rings area).

(** [add_tags_to_area(builder, way)]: the tags the tag list builder
    receives. *)
Definition add_tags_to_area_way (way : Way.t) : list Tag.t := Way.tags way.

(** The key of the counter map: key, a zero byte, value. *)
Definition kv_string (tg : Tag.t) : string :=
  Tag.key tg +:+ String Ascii.zero (Tag.value tg).

(** [++counter[kv]] on a [std::map<std::string, size_t>]. The map is an
    association list with one entry per key; iterating over it goes
    through [map_in_key_order]. *)
Fixpoint counter_incr (kv : string) (counter : list (string * nat))
    : list (string * nat) :=
  match counter with
  | [] => [(kv, 1)]
  | (kv', c) :: rest =>
      if String.eqb kv kv' then (kv', S c) :: rest
      else (kv', c) :: counter_incr kv rest
  end.

Definition map_in_key_order (counter : list (string * nat))
    : list (string * nat) :=
  std_sort (fun a b => String.ltb (fst a) (fst b)) counter.

Definition count_tags (way_ptrs : list nat) : list (string * nat) :=
  foldl (fun counter way =>
           foldl (fun counter tg => counter_incr (kv_string tg) counter)
                 counter (Way.tags (in_buffer way)))
        [] way_ptrs.

(** The C string at the start of [s]: the bytes before the first zero
    byte. *)
Fixpoint c_str (s : string) : string :=
  match s with
  | EmptyString => EmptyString
  | String c s' =>
      if Ascii.eqb c Ascii.zero then EmptyString else String c (c_str s')
  end.

(** The bytes after the first zero byte: [s.c_str() + strlen(s.c_str()) + 1]. *)
Fixpoint after_c_str (s : string) : string :=
  match s with
  | EmptyString => EmptyString
  | String c s' => if Ascii.eqb c Ascii.zero then s' else after_c_str s'
  end.

Definition tag_of_kv (kv : string) : Tag.t :=
  Tag.mk (c_str kv) (c_str (after_c_str kv)).

Definition add_common_tags (ways : gset nat) : list Tag.t :=
  let counter := count_tags (elements ways) in
  let num_ways := size ways in
  omap (fun t_c : string * nat =>
          if (snd t_c =? num_ways)%nat then Some (tag_of_kv (fst t_c))
          else None)
       (map_in_key_order counter).

Definition relation_filter : KeyFilter.t :=
  KeyFilter.add false "test:section"
    (KeyFilter.add false "test:id"
      (KeyFilter.add false "note"
        (KeyFilter.add false "source"
          (KeyFilter.add false "created_by"
            (KeyFilter.add false "type" (KeyFilter.mk true [])))))).

Definition outer_ways (st : Assembler.t) : gset nat :=
  foldl (fun ways n =>
           ProtoRing.get_ways
             (default (ProtoRing.of_segments []) (Assembler.m_rings st !! n))
             ways)
        ∅ (Assembler.m_outer_rings st).

(** [add_tags_to_area(builder, relation)]: the tags the tag list builder
    receives. *)
Definition add_tags_to_area_relation (st : Assembler.t) (relation : Relation.t)
    : list Tag.t :=
  let count :=
    length (KeyFilter.filtered relation_filter (Relation.tags relation)) in
  if (0 <? count)%nat then
    List.filter (fun tg => negb (String.eqb (Tag.key tg) "type"))
                (Relation.tags relation)
  else
    let ways := outer_ways st in
    if (size ways =? 1)%nat then
      match elements ways with
      | way :: _ => Way.tags (in_buffer way)
      | [] => []
      end
    else add_common_tags ways.

(** ** Open rings *)

Definition ring_not_closed_problem (object_id : Z) (ring : ProtoRing.t)
    : Problem :=
  report_ring_not_closed object_id
    (NodeRef.location (NodeRefSegment.first (ProtoRing.first_segment ring)))
    (NodeRef.location (NodeRefSegment.second (ProtoRing.last_segment ring))).

Fixpoint check_for_open_rings_loop (rings : list ProtoRing.t)
    (open_rings : bool) : M bool :=
  match rings with
  | [] => mret open_rings
  | ring :: rings' =>
      if negb (ProtoRing.closed ring)
      then
        object_id <- gets Assembler.m_object_id;
        report (ring_not_closed_problem object_id ring);;
        check_for_open_rings_loop rings' true
      else check_for_open_rings_loop rings' open_rings
  end.

Definition check_for_open_rings : M bool :=
  rings <- gets Assembler.m_rings;
  check_for_open_rings_loop rings false.

(** ** Stitching

    A loop over [m_rings] that returns from the function in the very
    iteration that changes [m_rings] runs over the list as it was when
    the loop began; [j] counts the position of [it]. The reference
    [ring] is the index [n]; erasing a ring in front of it moves it down
    by one, so the functions that erase also return where [ring] now
    is. *)

Definition after_erase (j n : nat) : nat := if (j <? n)%nat then pred n else n.

Fixpoint possibly_combine_rings_end_loop (n : nat) (nr : NodeRef.t)
    (j : nat) (its : list ProtoRing.t) : M (bool * nat) :=
  match its with
  | [] => mret (false, n)
  | it :: its' =>
      if negb (j =? n)%nat && negb (ProtoRing.closed it) then
        same <- has_same_location nr
                 (NodeRefSegment.first (ProtoRing.first_segment it));
        if same then
          modify_ring n (ProtoRing.merge_ring it);;
          erase j;;
          mret (true, after_erase j n)
        else
          same <- has_same_location nr
                   (NodeRefSegment.second (ProtoRing.last_segment it));
          if same then
            modify_ring n (ProtoRing.merge_ring_reverse it);;
            erase j;;
            mret (true, after_erase j n)
          else possibly_combine_rings_end_loop n nr (S j) its'
      else possibly_combine_rings_end_loop n nr (S j) its'
  end.

Definition possibly_combine_rings_end (n : nat) : M (bool * nat) :=
  ring <- ring_at n;
  rings <- gets Assembler.m_rings;
  possibly_combine_rings_end_loop n
    (NodeRefSegment.second (ProtoRing.last_segment ring)) 0 rings.

Fixpoint possibly_combine_rings_start_loop (n : nat) (nr : NodeRef.t)
    (j : nat) (its : list ProtoRing.t) : M (bool * nat) :=
  match its with
  | [] => mret (false, n)
  | it :: its' =>
      if negb (j =? n)%nat && negb (ProtoRing.closed it) then
        same <- has_same_location nr
                 (NodeRefSegment.second (ProtoRing.last_segment it));
        if same then
          ring <- ring_at n;
          (* ring.swap_segments( *it ) *)
          modify_ring n (ProtoRing.set_segments (ProtoRing.segments it));;
          modify_ring j (ProtoRing.set_segments (ProtoRing.segments ring));;
          (* ring.merge_ring( *it ): it holds the former segments of ring *)
          modify_ring n (ProtoRing.merge_ring
                           (ProtoRing.set_segments (ProtoRing.segments ring) it));;
          erase j;;
          mret (true, after_erase j n)
        else
          same <- has_same_location nr
                   (NodeRefSegment.first (ProtoRing.first_segment it));
          if same then
            modify_ring n ProtoRing.reverse;;
            modify_ring n (ProtoRing.merge_ring it);;
            erase j;;
            mret (true, after_erase j n)
          else possibly_combine_rings_start_loop n nr (S j) its'
      else possibly_combine_rings_start_loop n nr (S j) its'
  end.

Definition possibly_combine_rings_start (n : nat) : M (bool * nat) :=
  ring <- ring_at n;
  rings <- gets Assembler.m_rings;
  possibly_combine_rings_start_loop n
    (NodeRefSegment.first (ProtoRing.first_segment ring)) 0 rings.

(** [its] are the segments from position [k] up to, and without, the
    last one of [segs]. *)
Fixpoint has_closed_subring_end_loop (n : nat) (nr : NodeRef.t)
    (segs : list NodeRefSegment.t) (k : nat) (its : list NodeRefSegment.t)
    : M bool :=
  match its with
  | [] => mret false
  | it :: its' =>
      same <- has_same_location nr (NodeRefSegment.first it);
      if same then
        let new_ring := ProtoRing.of_segments (drop k segs) in
        modify_ring n (ProtoRing.remove_segments k (length segs));;
        emplace_back new_ring;;
        mret true
      else has_closed_subring_end_loop n nr segs (S k) its'
  end.

Definition has_closed_subring_end (n : nat) (segment : NodeRefSegment.t)
    : M bool :=
  ring <- ring_at n;
  let segs := ProtoRing.segments ring in
  if (length segs <? 3)%nat then mret false
  else
    has_closed_subring_end_loop n (NodeRefSegment.second segment) segs 1
      (take (length segs - 2) (drop 1 segs)).

Fixpoint has_closed_subring_start_loop (n : nat) (nr : NodeRef.t)
    (segs : list NodeRefSegment.t) (k : nat) (its : list NodeRefSegment.t)
    : M bool :=
  match its with
  | [] => mret false
  | it :: its' =>
      same <- has_same_location nr (NodeRefSegment.second it);
      if same then
        let new_ring := ProtoRing.of_segments (take (S k) segs) in
        modify_ring n (ProtoRing.remove_segments 0 (S k));;
        emplace_back new_ring;;
        mret true
      else has_closed_subring_start_loop n nr segs (S k) its'
  end.

Definition has_closed_subring_start (n : nat) (segment : NodeRefSegment.t)
    : M bool :=
  ring <- ring_at n;
  let segs := ProtoRing.segments ring in
  if (length segs <? 3)%nat then mret false
  else
    has_closed_subring_start_loop n (NodeRefSegment.first segment) segs 1
      (take (length segs - 2) (drop 1 segs)).

(** [std::adjacent_find] with the predicate
    [has_same_location(s1.first(), s2.first())]. *)
Fixpoint adjacent_find_same_first (l : list NodeRefSegment.t)
    : M (option (NodeRefSegment.t * NodeRefSegment.t)) :=
  match l with
  | s1 :: (s2 :: _) as l' =>
      same <- has_same_location (NodeRefSegment.first s1)
                               (NodeRefSegment.first s2);
      if same then mret (Some (s1, s2)) else adjacent_find_same_first l'
  | _ => mret None
  end.

Definition check_for_closed_subring (n : nat) : M bool :=
  ring <- ring_at n;
  let segments := std_sort NodeRefSegment.ltb (ProtoRing.segments ring) in
  it <- adjacent_find_same_first segments;
  match it with
  | None => mret false
  | Some (s1, s2) =>
      let r1 := find_first_of (ProtoRing.segments ring) s1 in
      let r2 := find_first_of (ProtoRing.segments ring) s2 in
      let m_first := Nat.min r1 r2 in
      let m_second := Nat.max r1 r2 in
      let new_ring :=
        ProtoRing.of_segments
          (take (m_second - m_first) (drop m_first (ProtoRing.segments ring))) in
      modify_ring n (ProtoRing.remove_segments m_first m_second);;
      emplace_back new_ring;;
      mret true
  end.

Definition combine_rings (segment : NodeRefSegment.t) (n : nat)
    (at_end : bool) : M unit :=
  if at_end then
    modify_ring n (ProtoRing.add_segment_end segment);;
    has_closed_subring_end n segment;;
    ' (combined, n') <- possibly_combine_rings_end n;
    if combined then check_for_closed_subring n';; mret tt else mret tt
  else
    modify_ring n (ProtoRing.add_segment_start segment);;
    has_closed_subring_start n segment;;
    ' (combined, n') <- possibly_combine_rings_start n;
    if combined then check_for_closed_subring n';; mret tt else mret tt.

Fixpoint add_to_existing_ring_loop (segment : NodeRefSegment.t) (n : nat)
    (rings : list ProtoRing.t) : M bool :=
  match rings with
  | [] => mret false
  | ring :: rings' =>
      if ProtoRing.closed ring
      then add_to_existing_ring_loop segment (S n) rings'
      else
        same <- has_same_location
                 (NodeRefSegment.second (ProtoRing.last_segment ring))
                 (NodeRefSegment.first segment);
        if same then combine_rings segment n true;; mret true else
        same <- has_same_location
                 (NodeRefSegment.second (ProtoRing.last_segment ring))
                 (NodeRefSegment.second segment);
        if same then
          combine_rings (NodeRefSegment.swap_locations segment) n true;;
          mret true
        else
        same <- has_same_location
                 (NodeRefSegment.first (ProtoRing.first_segment ring))
                 (NodeRefSegment.first segment);
        if same then
          combine_rings (NodeRefSegment.swap_locations segment) n false;;
          mret true
        else
        same <- has_same_location
                 (NodeRefSegment.first (ProtoRing.first_segment ring))
                 (NodeRefSegment.second segment);
        if same then combine_rings segment n false;; mret true
        else add_to_existing_ring_loop segment (S n) rings'
  end.

Definition add_to_existing_ring (segment : NodeRefSegment.t) : M bool :=
  rings <- gets Assembler.m_rings;
  add_to_existing_ring_loop segment 0 rings.

(** ** Inner and outer rings *)

Definition x_of (nr : NodeRef.t) : Z := Location.x (NodeRef.location nr).
Definition y_of (nr : NodeRef.t) : Z := Location.y (NodeRef.location nr).

(** The loop of [check_inner_outer] over the sorted segment list; it
    stops at the first segment that starts to the right of [min_node]. *)
Fixpoint check_inner_outer_loop (ring : ProtoRing.t) (min_node : NodeRef.t)
    (l : list NodeRefSegment.t) (count above : Z) : Z * Z :=
  match l with
  | [] => (count, above)
  | it :: l' =>
      if (x_of (NodeRefSegment.first it) <=? x_of min_node)%Z then
        if negb (ProtoRing.contains ring it) then
          let count :=
            if to_left_of it (NodeRef.location min_node)
            then (count + 1)%Z else count in
          let above :=
            if Location.eqb (NodeRef.location (NodeRefSegment.first it))
                            (NodeRef.location min_node)
               && (y_of min_node <? y_of (NodeRefSegment.second it))%Z
            then (above + 1)%Z else above in
          let above :=
            if Location.eqb (NodeRef.location (NodeRefSegment.second it))
                            (NodeRef.location min_node)
               && (y_of min_node <? y_of (NodeRefSegment.first it))%Z
            then (above + 1)%Z else above in
          check_inner_outer_loop ring min_node l' count above
        else check_inner_outer_loop ring min_node l' count above
      else (count, above)
  end.

Definition check_inner_outer (n : nat) : M unit :=
  ring <- ring_at n;
  segment_list <- gets Assembler.m_segment_list;
  let '(count, above) :=
    check_inner_outer_loop ring (ProtoRing.min_node ring) segment_list 0 0 in
  let count := (count + Z.rem above 2)%Z in
  if negb (Z.rem count 2 =? 0)%Z
  then modify_ring n ProtoRing.set_inner
  else mret tt.

(** One round of the loop [for (auto& ring : m_rings)] of [stage2]
    (lines 783-796): classify the ring, normalise its winding, register
    it. *)
Definition classify_ring (n : nat) : M unit :=
  check_inner_outer n;;
  ring <- ring_at n;
  if ProtoRing.outer ring then
    (if negb (ProtoRing.is_cw ring)
     then modify_ring n ProtoRing.reverse else mret tt);;
    modify (Assembler.set_outer_rings (fun l => l ++ [n]))
  else
    (if ProtoRing.is_cw ring
     then modify_ring n ProtoRing.reverse else mret tt);;
    modify (Assembler.set_inner_rings (fun l => l ++ [n])).

Fixpoint classify_rings (n : nat) (rings : list ProtoRing.t) : M unit :=
  match rings with
  | [] => mret tt
  | _ :: rings' => classify_ring n;; classify_rings (S n) rings'
  end.

Fixpoint for_each {A : Type} (l : list A) (f : A -> M unit) : M unit :=
  match l with
  | [] => mret tt
  | a :: l' => f a;; for_each l' f
  end.

Definition ring_of (st : Assembler.t) (n : nat) : ProtoRing.t :=
  default (ProtoRing.of_segments []) (Assembler.m_rings st !! n).

(** The comparator of the sort of [m_outer_rings]:
    [a->area() < b->area()]. *)
Definition smaller_area (st : Assembler.t) (a b : nat) : bool :=
  (ProtoRing.area (ring_of st a) <? ProtoRing.area (ring_of st b))%Z.

(** The inner loop of lines 807-814, with its [break]. *)
Fixpoint add_to_first_outer_containing (inner : nat) (outers : list nat)
    : M unit :=
  match outers with
  | [] => mret tt
  | outer :: outers' =>
      inner_ring <- ring_at inner;
      outer_ring <- ring_at outer;
      if is_in (ProtoRing.segments inner_ring) (ProtoRing.segments outer_ring)
      then modify_ring outer (ProtoRing.add_inner_ring inner)
      else add_to_first_outer_containing inner outers'
  end.

(** Lines 798-815 of [stage2]. *)
Definition assign_inner_rings : M unit :=
  outer_rings <- gets Assembler.m_outer_rings;
  inner_rings <- gets Assembler.m_inner_rings;
  if (length outer_rings =? 1)%nat then
    for_each inner_rings (fun inner =>
      modify_ring (default 0%nat (head outer_rings))
                  (ProtoRing.add_inner_ring inner))
  else
    modify (fun st =>
      Assembler.set_outer_rings (std_sort (smaller_area st)) st);;
    outer_rings <- gets Assembler.m_outer_rings;
    for_each inner_rings (fun inner =>
      add_to_first_outer_containing inner outer_rings).

(** Lines 780-816 of [stage2]. *)
Definition find_inner_outer : M unit :=
  rings <- gets Assembler.m_rings;
  if (length rings =? 1)%nat then
    modify (Assembler.set_outer_rings (fun l => l ++ [0%nat]))
  else
    classify_rings 0 rings;;
    assign_inner_rings.

Definition role_problem (outer : bool) (object_id : Z)
    (segment : NodeRefSegment.t) : Problem :=
  (if outer then report_role_should_be_outer else report_role_should_be_inner)
    object_id
    (Way.id (in_buffer (NodeRefSegment.way segment)))
    (NodeRef.location (NodeRefSegment.first segment))
    (NodeRef.location (NodeRefSegment.second segment)).

Definition check_role (outer : bool) (segment : NodeRefSegment.t) : M unit :=
  if negb (if outer then NodeRefSegment.role_outer segment
           else NodeRefSegment.role_inner segment)
  then
    modify (Assembler.set_mismatches Z.succ);;
    object_id <- gets Assembler.m_object_id;
    report (role_problem outer object_id segment)
  else mret tt.

Definition check_inner_outer_roles : M unit :=
  outer_rings <- gets Assembler.m_outer_rings;
  for_each outer_rings (fun ringptr =>
    ring <- ring_at ringptr;
    for_each (ProtoRing.segments ring) (check_role true));;
  inner_rings <- gets Assembler.m_inner_rings;
  for_each inner_rings (fun ringptr =>
    ring <- ring_at ringptr;
    for_each (ProtoRing.segments ring) (check_role false)).

(** ** stage2 *)

(** Lines 746-756: every segment is tacked on to an existing ring, or
    starts a new one. *)
Definition add_segment (segment : NodeRefSegment.t) : M unit :=
  added <- add_to_existing_ring segment;
  if negb added then emplace_back (ProtoRing.of_segments [segment])
  else mret tt.

Definition build_rings : M unit :=
  segment_list <- gets Assembler.m_segment_list;
  for_each segment_list add_segment.

Definition prepare_segments : M unit :=
  modify (Assembler.set_segment_list SegmentList.sort);;
  modify (Assembler.set_segment_list SegmentList.erase_duplicate_segments).

Definition stage2 : M bool :=
  prepare_segments;;
  intersections <- find_intersections;
  if intersections then mret false else
  build_rings;;
  open_rings <- check_for_open_rings;
  if open_rings then mret false else
  find_inner_outer;;
  check_inner_outer_roles;;
  mret true.

(** ** Emitting the area *)

(** What one round of the loop of [add_rings_to_area] hands to the ring
    builders: the outer ring, then its inner rings. *)
Definition ring_group (st : Assembler.t) (outer : nat) : list RingItem :=
  OuterRing (ProtoRing.node_refs (ring_of st outer))
  :: map (fun inner => InnerRing (ProtoRing.node_refs (ring_of st inner)))
         (ProtoRing.inner_rings (ring_of st outer)).

Definition add_ring_group (st : Assembler.t) (builder : nat)
    (buffer : Buffer.t) (outer : nat) : Buffer.t :=
  Buffer.commit
    (foldl (fun b item => Buffer.modify builder (Area.add_ring item) b)
           buffer (ring_group st outer)).

Definition add_rings_to_area (st : Assembler.t) (builder : nat)
    (buffer : Buffer.t) : Buffer.t :=
  foldl (add_ring_group st builder) buffer (Assembler.m_outer_rings st).

Definition add_tags (tags : list Tag.t) (builder : nat) (buffer : Buffer.t)
    : Buffer.t :=
  foldl (fun b tg => Buffer.modify builder (Area.add_tag tg) b) buffer tags.

(** [osmium::osm::AreaBuilder builder(out_buffer)] followed by
    [initialize_area_from_object]: the builder is the position of its
    area in the buffer. *)
Definition new_area (object : Object.t) (id_offset : Z) (buffer : Buffer.t)
    : nat * Buffer.t :=
  (length (Buffer.written buffer),
   Buffer.mk (Buffer.written buffer
              ++ [initialize_area_from_object object id_offset Area.empty])
             (Buffer.committed buffer)).

(** [operator()(const osmium::Way&, osmium::memory::Buffer&)] *)
Definition assemble_way (way_ptr : nat) (out_buffer : Buffer.t) : M Buffer.t :=
  let way := in_buffer way_ptr in
  modify (Assembler.init_assembler (Way.id way));;
  (if negb (Way.ends_have_same_id way) then
     let front := default ProtoRing.undefined_noderef (head (Way.nodes way)) in
     let back := default ProtoRing.undefined_noderef (last (Way.nodes way)) in
     report (report_duplicate_node (NodeRef.ref front) (NodeRef.ref back)
                                   (NodeRef.location front))
   else mret tt);;
  modify (Assembler.set_segment_list (fun l =>
    l ++ SegmentList.segments_of_nodes "outer" way_ptr (Way.nodes way)));;
  let '(builder, out_buffer) := new_area (Way.object way) 0 out_buffer in
  let out_buffer := Buffer.commit out_buffer in
  ok <- stage2;
  if negb ok then mret out_buffer else
  let out_buffer := add_tags (add_tags_to_area_way way) builder out_buffer in
  st <- gets (fun st => st);
  mret (add_rings_to_area st builder out_buffer).

(** [std::equal(first1, last1, first2)]; when the second range is the
    shorter one the C++ reads past its end, and the model answers
    [past_end]. *)
Fixpoint std_equal (past_end : bool) (l1 l2 : list Tag.t) : bool :=
  match l1, l2 with
  | [], _ => true
  | a :: l1', b :: l2' => Tag.eqb a b && std_equal past_end l1' l2'
  | _ :: _, [] => past_end
  end.

Definition way_filter : KeyFilter.t :=
  KeyFilter.add false "test:section"
    (KeyFilter.add false "test:id"
      (KeyFilter.add false "note"
        (KeyFilter.add false "source"
          (KeyFilter.add false "created_by" (KeyFilter.mk true []))))).

Definition area_tags (builder : nat) (buffer : Buffer.t) : list Tag.t :=
  Area.tags (default Area.empty (Buffer.written buffer !! builder)).

(** The test of lines 703-717 on an inner member's way. *)
Definition inner_way_differs (way : Way.t) (area_tags : list Tag.t) : bool :=
  Way.is_closed way && (0 <? length (Way.tags way))%nat
  && (let fi := KeyFilter.filtered way_filter (Way.tags way) in
      let d := length fi in
      (0 <? d)%nat
      && (let area_fi := KeyFilter.filtered way_filter area_tags in
          negb (std_equal false fi area_fi)
          || negb (d =? length area_fi)%nat)).

(** The loop of lines 699-724; [memit] and [offset] advance together. *)
Fixpoint assemble_inner_ways (builder : nat)
    (members : list (RelationMember.t * nat)) (out_buffer : Buffer.t)
    : M Buffer.t :=
  match members with
  | [] => mret out_buffer
  | (member, offset) :: members' =>
      if String.eqb (RelationMember.role member) "inner"
         && inner_way_differs (in_buffer offset) (area_tags builder out_buffer)
      then
        out_buffer <- assemble_way offset out_buffer;
        assemble_inner_ways builder members' out_buffer
      else assemble_inner_ways builder members' out_buffer
  end.

(** [extract_segments_from_ways(relation, members, in_buffer)].
    Modelled from the spec: the relation's member list gives the role
    strings, aligned by index with the member offsets. *)
Definition extract_segments_from_ways (members : list (RelationMember.t * nat))
    : SegmentList.t :=
  flat_map (fun m : RelationMember.t * nat =>
              SegmentList.segments_of_nodes (RelationMember.role (fst m))
                (snd m) (Way.nodes (in_buffer (snd m))))
           members.

(** [operator()(const osmium::Relation&, const std::vector<size_t>&,
    const osmium::memory::Buffer&, osmium::memory::Buffer&)] *)
Definition assemble_relation (relation : Relation.t) (members : list nat)
    (out_buffer : Buffer.t) : M Buffer.t :=
  let aligned := zip (Relation.members relation) members in
  modify (Assembler.init_assembler (Relation.id relation));;
  modify (Assembler.set_segment_list (fun l =>
    l ++ extract_segments_from_ways aligned));;
  let '(builder, out_buffer) :=
    new_area (Relation.object relation) 1 out_buffer in
  let out_buffer := Buffer.commit out_buffer in
  ok <- stage2;
  if negb ok then mret out_buffer else
  st <- gets (fun st => st);
  let out_buffer :=
    add_tags (add_tags_to_area_relation st relation) builder out_buffer in
  let out_buffer := add_rings_to_area st builder out_buffer in
  if (Assembler.m_inner_outer_mismatches st =? 0)%Z
  then assemble_inner_ways builder aligned out_buffer
  else mret out_buffer.
End AssemblerMethods.

(** ** One implementation of the geometric predicates

    The assembler above is verified for every [Geometry]; the examples
    below run it with this implementation in exact integer arithmetic. *)

Module SpecGeometry.
Local Open Scope Z_scope.

Definition fx (s : NodeRefSegment.t) := Location.x (NodeRef.location (NodeRefSegment.first s)).
Definition fy (s : NodeRefSegment.t) := Location.y (NodeRef.location (NodeRefSegment.first s)).
Definition sx (s : NodeRefSegment.t) := Location.x (NodeRef.location (NodeRefSegment.second s)).
Definition sy (s : NodeRefSegment.t) := Location.y (NodeRef.location (NodeRefSegment.second s)).

Definition share_endpoint (s1 s2 : NodeRefSegment.t) : bool :=
  let l (nr : NodeRef.t) := NodeRef.location nr in
  Location.eqb (l (NodeRefSegment.first s1)) (l (NodeRefSegment.first s2))
  || Location.eqb (l (NodeRefSegment.first s1)) (l (NodeRefSegment.second s2))
  || Location.eqb (l (NodeRefSegment.second s1)) (l (NodeRefSegment.first s2))
  || Location.eqb (l (NodeRefSegment.second s1)) (l (NodeRefSegment.second s2)).

(** Modelled from the spec: the exact intersection point of the two
    segments; endpoints that merely touch (a shared vertex) do not count
    as intersections, and neither do parallel segments. The point is
    rounded towards the first endpoint of [s1]. *)
Definition calculate_intersection (s1 s2 : NodeRefSegment.t)
    : option Location.t :=
  if share_endpoint s1 s2 then None else
  let denom := (sy s2 - fy s2) * (sx s1 - fx s1) - (sx s2 - fx s2) * (sy s1 - fy s1) in
  let nume_a := (sx s2 - fx s2) * (fy s1 - fy s2) - (sy s2 - fy s2) * (fx s1 - fx s2) in
  let nume_b := (sx s1 - fx s1) * (fy s1 - fy s2) - (sy s1 - fy s1) * (fx s1 - fx s2) in
  if ((0 <? denom) && (0 <=? nume_a) && (nume_a <=? denom)
      && (0 <=? nume_b) && (nume_b <=? denom))
     || ((denom <? 0) && (nume_a <=? 0) && (denom <=? nume_a)
         && (nume_b <=? 0) && (denom <=? nume_b))
  then Some (Location.mk (fx s1 + Z.quot (nume_a * (sx s1 - fx s1)) denom)
                         (fy s1 + Z.quot (nume_a * (sy s1 - fy s1)) denom))
  else None.

(** Modelled from the spec: the segment crosses the leftward horizontal
    ray from the location, strictly to its left; a segment the location
    is an endpoint of is not counted. *)
Definition to_left_of (s : NodeRefSegment.t) (location : Location.t) : bool :=
  let lx := Location.x location in
  let ly := Location.y location in
  if Location.eqb (NodeRef.location (NodeRefSegment.first s)) location
     || Location.eqb (NodeRef.location (NodeRefSegment.second s)) location
  then false
  else
    let '(ax, ay, bx, by_) :=
      if sy s <? fy s then (sx s, sy s, fx s, fy s)
      else (fx s, fy s, sx s, sy s) in
    if (ly <=? ay) || (by_ <? ly) || (lx <? fx s) then false
    else (bx - ax) * (ly - ay) - (by_ - ay) * (lx - ax) <=? 0.

(** The vertices of a ring, as the first endpoints of its segments. *)
Definition vertices (l : list NodeRefSegment.t) : list Location.t :=
  map (fun s => NodeRef.location (NodeRefSegment.first s)) l.

(** One round of the crossing count: the edge from [pj] to [pi]. *)
Definition crosses (t pi pj : Location.t) : bool :=
  negb (Bool.eqb (Location.y t <? Location.y pi) (Location.y t <? Location.y pj))
  && (Location.x t
      <? Z.quot ((Location.x pj - Location.x pi) * (Location.y t - Location.y pi))
                (Location.y pj - Location.y pi)
         + Location.x pi).

Fixpoint crossings (t prev : Location.t) (vs : list Location.t) (inside : bool)
    : bool :=
  match vs with
  | [] => inside
  | v :: vs' =>
      crossings t v vs' (if crosses t v prev then negb inside else inside)
  end.

(** Modelled from the spec: point-in-polygon test of one vertex of the
    inner ring against the outer ring, strictly inside. *)
Definition is_in (inner outer : list NodeRefSegment.t) : bool :=
  match vertices inner, last (vertices outer) with
  | t :: _, Some prev => crossings t prev (vertices outer) false
  | _, _ => false
  end.

End SpecGeometry.

#[global] Instance spec_geometry : Geometry :=
  {| calculate_intersection := SpecGeometry.calculate_intersection;
     to_left_of := SpecGeometry.to_left_of;
     is_in := SpecGeometry.is_in |}.

(** ** The two entry points as one *)

Inductive Source : Type :=
| FromWay (way_ptr : nat)
| FromRelation (relation : Relation.t) (members : list nat).

Section Assemble.
Context {G : Geometry} (in_buffer : nat -> Way.t).

(** [assemble(way, out_buffer)] and
    [assemble(relation, member_offsets, in_buffer, out_buffer)] *)
Definition assemble (src : Source) (out_buffer : Buffer.t) : M Buffer.t :=
  match src with
  | FromWay way_ptr => assemble_way in_buffer way_ptr out_buffer
  | FromRelation relation members =>
      assemble_relation in_buffer relation members out_buffer
  end.

Definition source_object (src : Source) : Object.t :=
  match src with
  | FromWay way_ptr => Way.object (in_buffer way_ptr)
  | FromRelation relation _ => Relation.object relation
  end.

Definition origin_offset (src : Source) : Z :=
  match src with FromWay _ => 0%Z | FromRelation _ _ => 1%Z end.

(** The assembler when [stage2] is entered: initialised, with the
    segments of the source extracted. *)
Definition way_input (way_ptr : nat) (st : Assembler.t) : Assembler.t :=
  let way := in_buffer way_ptr in
  let st := Assembler.init_assembler (Way.id way) st in
  let st :=
    if negb (Way.ends_have_same_id way) then
      let front := default ProtoRing.undefined_noderef (head (Way.nodes way)) in
      let back := default ProtoRing.undefined_noderef (last (Way.nodes way)) in
      snd (report (report_duplicate_node (NodeRef.ref front) (NodeRef.ref back)
                                         (NodeRef.location front)) st)
    else st in
  Assembler.set_segment_list (fun l =>
    l ++ SegmentList.segments_of_nodes "outer" way_ptr (Way.nodes way)) st.

Definition relation_input (relation : Relation.t) (members : list nat)
    (st : Assembler.t) : Assembler.t :=
  Assembler.set_segment_list (fun l =>
    l ++ extract_segments_from_ways in_buffer
           (zip (Relation.members relation) members))
    (Assembler.init_assembler (Relation.id relation) st).

Definition stage2_input (src : Source) (st : Assembler.t) : Assembler.t :=
  match src with
  | FromWay way_ptr => way_input way_ptr st
  | FromRelation relation members => relation_input relation members st
  end.

(** The phases of [stage2]. *)
Definition prepared (st : Assembler.t) : Assembler.t :=
  snd (prepare_segments st).

(** After the intersection scan. *)
Definition scanned (st : Assembler.t) : Assembler.t :=
  snd (find_intersections in_buffer (prepared st)).

(** After all segments have been consumed into proto-rings. *)
Definition stitched (st : Assembler.t) : Assembler.t :=
  snd (build_rings (scanned st)).

(** After the check for open rings. *)
Definition checked (st : Assembler.t) : Assembler.t :=
  snd (check_for_open_rings (stitched st)).

(** After classification, winding normalisation and nesting. *)
Definition classified (st : Assembler.t) : Assembler.t :=
  snd (find_inner_outer (checked st)).

(** The ring items [add_rings_to_area] hands to the builders. *)
Definition emitted_rings (st : Assembler.t) : list RingItem :=
  flat_map (ring_group st) (Assembler.m_outer_rings st).

(** The area record of a source: its header, and what a successful
    [stage2] adds to it. *)
Definition area_header (src : Source) : Area.t :=
  initialize_area_from_object (source_object src) (origin_offset src)
                              Area.empty.

Definition source_tags (src : Source) (st : Assembler.t) : list Tag.t :=
  match src with
  | FromWay way_ptr => add_tags_to_area_way (in_buffer way_ptr)
  | FromRelation relation _ => add_tags_to_area_relation in_buffer st relation
  end.

Definition with_tags_and_rings (tags : list Tag.t) (items : list RingItem)
    (a : Area.t) : Area.t :=
  foldl (fun a item => Area.add_ring item a)
        (foldl (fun a tg => Area.add_tag tg a) a tags) items.
End Assemble.

(** * The diff handler ([osmium/diff_handler.hpp]) *)

Module item_type.
(** Modelled from the spec: the item types T of the type-boundary
    callbacks, node, way, relation and changeset; [undefined] is the
    value [apply] starts from. The enum is declared in
    [osmium/osm/item_type.hpp]. *)
Inductive t : Type := undefined | node | way | relation | changeset.

Definition eqb (a b : t) : bool :=
  match a, b with
  | undefined, undefined | node, node | way, way | relation, relation
  | changeset, changeset => true
  | _, _ => false
  end.

Lemma eqb_eq (a b : t) : eqb a b = true <-> a = b.
Proof. by destruct a, b. Qed.
End item_type.

Module DiffHandler.
(** An item of the stream: what [apply] reads of it, and its version to
    tell the items of one object apart. *)
Record Item : Type := mkItem { type : item_type.t; id : Z; version : Z }.

(** [DiffNode], [DiffWay], [DiffRelation]: previous, current and next
    item. *)
Record Diff : Type := mkDiff { prev : Item; curr : Item; next : Item }.

(** The member functions of a handler. *)
Inductive Callback : Type :=
| init
| before_nodes | after_nodes
| before_ways | after_ways
| before_relations | after_relations
| before_changesets | after_changesets
| done
| node (d : Diff)
| way (d : Diff)
| relation (d : Diff).

(** A call of a member function of the handler at a position of the
    parameter pack. *)
Definition Call : Type := nat * Callback.

(** How [apply] ends: it returns, or [std::runtime_error("unknown type")]
    leaves it. *)
Inductive Outcome : Type := Returned | UnknownType.

Definition after_callback (last : item_type.t) : list Callback :=
  match last with
  | item_type.undefined => [init]
  | item_type.node => [after_nodes]
  | item_type.way => [after_ways]
  | item_type.relation => [after_relations]
  | _ => []
  end.

Definition before_callback (current : item_type.t) : list Callback :=
  match current with
  | item_type.undefined => [done]
  | item_type.node => [before_nodes]
  | item_type.way => [before_ways]
  | item_type.relation => [before_relations]
  | _ => []
  end.

(** [apply_before_and_after_recurse(last, current, handler, more...)] *)
Fixpoint apply_before_and_after_recurse (last current : item_type.t)
    (handlers : list nat) : list Call :=
  match handlers with
  | [] => []
  | handler :: more =>
      map (pair handler) (after_callback last ++ before_callback current)
      ++ apply_before_and_after_recurse last current more
  end.

Definition same_object (a b : Item) : bool :=
  item_type.eqb (type a) (type b) && (id a =? id b)%Z.

(** The body of [apply_item_recurse] for one handler: the call, or
    [None] where the C++ throws. *)
Definition item_callback (prev it next : Item) : option Callback :=
  let prev := if negb (same_object prev it) then it else prev in
  let next := if negb (same_object next it) then it else next in
  match type it with
  | item_type.node => Some (node (mkDiff prev it next))
  | item_type.way => Some (way (mkDiff prev it next))
  | item_type.relation => Some (relation (mkDiff prev it next))
  | _ => None
  end.

(** [apply_item_recurse(prev, it, next, handler, more...)] *)
Fixpoint apply_item_recurse (prev it next : Item) (handlers : list nat)
    : list Call * Outcome :=
  match handlers with
  | [] => ([], Returned)
  | handler :: more =>
      match item_callback prev it next with
      | Some c =>
          let '(calls, outcome) := apply_item_recurse prev it next more in
          ((handler, c) :: calls, outcome)
      | None => ([], UnknownType)
      end
  end.

(** The loop of [apply]: [items] runs from [it] to [end], [prev] is the
    item behind the iterator [prev]. *)
Fixpoint apply_loop (last_type : item_type.t) (prev : Item)
    (items : list Item) (handlers : list nat) : list Call * Outcome :=
  match items with
  | [] => ([], Returned)
  | it :: rest =>
      let changed := negb (item_type.eqb last_type (type it)) in
      let calls1 :=
        if changed
        then apply_before_and_after_recurse last_type (type it) handlers
        else [] in
      let last_type := if changed then type it else last_type in
      match rest with
      | [] =>
          match apply_item_recurse prev it it handlers with
          | (calls2, Returned) =>
              (calls1 ++ calls2
               ++ apply_before_and_after_recurse last_type
                    item_type.undefined handlers,
               Returned)
          | (calls2, UnknownType) => (calls1 ++ calls2, UnknownType)
          end
      | next :: _ =>
          match apply_item_recurse prev it next handlers with
          | (calls2, Returned) =>
              let '(calls3, outcome) :=
                apply_loop last_type it rest handlers in
              (calls1 ++ calls2 ++ calls3, outcome)
          | (calls2, UnknownType) => (calls1 ++ calls2, UnknownType)
          end
      end
  end.

(** [apply(it, end, handlers...)] over the items from [it] to [end];
    the parameter pack holds at least one handler. *)
Definition apply (items : list Item) (handlers : list nat)
    : list Call * Outcome :=
  match items with
  | [] => ([], Returned)
  | it :: _ => apply_loop item_type.undefined it items handlers
  end.
End DiffHandler.

(** * Sample inputs *)

Module Sample.
Definition node_ref (ref x y : Z) : NodeRef.t :=
  NodeRef.mk ref (Location.mk x y).

Definition object (id : Z) (tags : list Tag.t) : Object.t :=
  Object.mk id 1 2 3 true 4 "u" tags.

(** A square, counter-clockwise as mapped. *)
Definition square : Way.t :=
  Way.mk (object 7 [Tag.mk "a" "b"])
         [node_ref 1 0 0; node_ref 2 10 0; node_ref 3 10 10;
          node_ref 4 0 10; node_ref 1 0 0].

(** A smaller square inside [square], with a tag of its own. *)
Definition hole : Way.t :=
  Way.mk (object 8 [Tag.mk "building" "yes"])
         [node_ref 11 1 1; node_ref 12 9 1; node_ref 13 9 9;
          node_ref 14 1 9; node_ref 11 1 1].

Definition triangle : Way.t :=
  Way.mk (object 9 [])
         [node_ref 1 0 0; node_ref 2 1 0; node_ref 3 2 10; node_ref 1 0 0].

(** A smaller square away from [square]. *)
Definition far_square : Way.t :=
  Way.mk (object 11 [Tag.mk "a" "b"; Tag.mk "n" "y"])
         [node_ref 21 30 0; node_ref 22 35 0; node_ref 23 35 5;
          node_ref 24 30 5; node_ref 21 30 0].

(** Two ways that cross in (5, 5). *)
Definition rising : Way.t :=
  Way.mk (object 12 []) [node_ref 1 0 0; node_ref 2 10 10].

Definition falling : Way.t :=
  Way.mk (object 13 []) [node_ref 3 0 10; node_ref 4 10 0].

(** Three sides of [square]. *)
Definition open_way : Way.t :=
  Way.mk (object 14 [])
         [node_ref 1 0 0; node_ref 2 10 0; node_ref 3 10 10;
          node_ref 4 0 10].

(** The input buffer, by offset. *)
Definition in_buffer (offset : nat) : Way.t :=
  match offset with
  | 1 => square
  | 2 => hole
  | 3 => triangle
  | 5 => far_square
  | 6 => rising
  | 7 => falling
  | 8 => open_way
  | _ => Way.mk (object 0 []) []
  end%nat.

Definition multipolygon (roles : list string) (tags : list Tag.t)
    : Relation.t :=
  Relation.mk (object 100 tags)
              (map (fun role => RelationMember.mk role 0) roles).

Definition out_buffer : Buffer.t := Buffer.mk [] [].

(** An assembler with a problem reporter, and one without. *)
Definition reporting : Assembler.t := Assembler.new (Some []).
Definition silent : Assembler.t := Assembler.new None.

Definition square_with_hole : Source :=
  FromRelation (multipolygon ["outer"; "inner"]
                             [Tag.mk "type" "multipolygon"]) [1; 2]%nat.

Definition two_squares : Source :=
  FromRelation (multipolygon ["outer"; "outer"]
                             [Tag.mk "type" "multipolygon"]) [1; 5]%nat.

Definition two_squares_with_hole : Source :=
  FromRelation (multipolygon ["outer"; "outer"; "inner"]
                             [Tag.mk "type" "multipolygon"]) [1; 5; 2]%nat.

Definition crossing : Source :=
  FromRelation (multipolygon ["outer"; "outer"]
                             [Tag.mk "type" "multipolygon"]) [6; 7]%nat.

Definition unclosed : Source :=
  FromRelation (multipolygon ["outer"]
                             [Tag.mk "type" "multipolygon"]) [8]%nat.

(** The assembler after [stage2] on a source. *)
Definition after_stage2 (src : Source) (st : Assembler.t) : Assembler.t :=
  snd (stage2 in_buffer (stage2_input in_buffer src st)).

(** The first ring after stitching. *)
Definition stitched_ring (src : Source) (st : Assembler.t) : ProtoRing.t :=
  ring_of (stitched in_buffer (stage2_input in_buffer src st)) 0.

(** A history stream: two versions of node 1, node 2, a way. *)
Definition history : list DiffHandler.Item :=
  [DiffHandler.mkItem item_type.node 1 1;
   DiffHandler.mkItem item_type.node 1 2;
   DiffHandler.mkItem item_type.node 2 1;
   DiffHandler.mkItem item_type.way 1 1].

Definition a_changeset : DiffHandler.Item :=
  DiffHandler.mkItem item_type.changeset 1 1.
End Sample.

(** * Properties *)

Arguments stage2 : simpl never.
Arguments find_intersections : simpl never.
Arguments build_rings : simpl never.
Arguments check_for_open_rings : simpl never.
Arguments find_inner_outer : simpl never.
Arguments check_inner_outer_roles : simpl never.
Arguments prepare_segments : simpl never.
Arguments assemble_way : simpl never.
Arguments add_rings_to_area : simpl never.
Arguments add_tags : simpl never.
Arguments emitted_rings : simpl never.
Arguments with_tags_and_rings : simpl never.
Arguments initialize_area_from_object : simpl never.

Lemma wrap64_in_range (z : Z) : in_int64 z -> wrap64 z = z.
Proof.
  unfold in_int64, int64_min, int64_max, wrap64. intros Hz.
  rewrite Z.mod_small; lia.
Qed.

Section AreaFacts.
Lemma add_tags_fold (tags : list Tag.t) (a : Area.t) :
  foldl (fun a tg => Area.add_tag tg a) a tags
  = Area.mk (Area.id a) (Area.version a) (Area.changeset a)
            (Area.timestamp a) (Area.visible a) (Area.uid a) (Area.user a)
            (Area.tags a ++ tags) (Area.rings a).
Proof.
  revert a. induction tags as [|tg tags IH]; intros a; simpl.
  - rewrite app_nil_r. by destruct a.
  - rewrite IH. simpl. by rewrite <- app_assoc.
Qed.

Lemma add_rings_fold (items : list RingItem) (a : Area.t) :
  foldl (fun a item => Area.add_ring item a) a items
  = Area.mk (Area.id a) (Area.version a) (Area.changeset a)
            (Area.timestamp a) (Area.visible a) (Area.uid a) (Area.user a)
            (Area.tags a) (Area.rings a ++ items).
Proof.
  revert a. induction items as [|item items IH]; intros a; simpl.
  - rewrite app_nil_r. by destruct a.
  - rewrite IH. simpl. by rewrite <- app_assoc.
Qed.

Lemma with_tags_and_rings_eq (tags : list Tag.t) (items : list RingItem)
    (a : Area.t) :
  with_tags_and_rings tags items a
  = Area.mk (Area.id a) (Area.version a) (Area.changeset a)
            (Area.timestamp a) (Area.visible a) (Area.uid a) (Area.user a)
            (Area.tags a ++ tags) (Area.rings a ++ items).
Proof. unfold with_tags_and_rings. by rewrite add_rings_fold, add_tags_fold. Qed.
End AreaFacts.

Section BufferFacts.
Context {G : Geometry} (in_buffer : nat -> Way.t).

Lemma written_modify_fold {A : Type} (f : A -> Area.t -> Area.t) (n : nat)
    (l : list A) (b : Buffer.t) :
  Buffer.written (foldl (fun b x => Buffer.modify n (f x) b) b l)
  = alter (fun a => foldl (fun a x => f x a) a l) n (Buffer.written b).
Proof.
  revert b. induction l as [|x l IH]; intros b; simpl.
  - by rewrite list_alter_id.
  - rewrite IH. simpl. by rewrite list_alter_alter_eq.
Qed.

Lemma written_add_tags (tags : list Tag.t) (n : nat) (b : Buffer.t) :
  Buffer.written (add_tags tags n b)
  = alter (with_tags_and_rings tags []) n (Buffer.written b).
Proof. unfold add_tags. by rewrite written_modify_fold. Qed.

Lemma written_add_ring_group (st : Assembler.t) (n o : nat) (b : Buffer.t) :
  Buffer.written (add_ring_group st n b o)
  = alter (with_tags_and_rings [] (ring_group st o)) n (Buffer.written b).
Proof.
  unfold add_ring_group. cbn [Buffer.commit Buffer.written].
  by rewrite written_modify_fold.
Qed.

Lemma written_add_rings (st : Assembler.t) (n : nat) (b : Buffer.t) :
  Buffer.written (add_rings_to_area st n b)
  = alter (with_tags_and_rings [] (emitted_rings st)) n (Buffer.written b).
Proof.
  unfold add_rings_to_area, emitted_rings.
  generalize (Assembler.m_outer_rings st). intros outers. revert b.
  induction outers as [|o outers IH]; intros b; cbn [foldl flat_map].
  - by rewrite list_alter_id.
  - rewrite IH, written_add_ring_group, list_alter_alter_eq.
    apply list_alter_ext; [|done]. intros a _. cbn [compose].
    rewrite !with_tags_and_rings_eq. cbn [Area.tags Area.rings Area.id].
    by rewrite !app_nil_r, app_assoc.
Qed.
End BufferFacts.

Section EntryPoints.
Context {G : Geometry} (in_buffer : nat -> Way.t).

Lemma stage2_eq (st : Assembler.t) :
  stage2 in_buffer st
  = if fst (find_intersections in_buffer (prepared st))
    then (false, scanned in_buffer st)
    else if fst (check_for_open_rings (stitched in_buffer st))
    then (false, checked in_buffer st)
    else (true, snd (check_inner_outer_roles in_buffer
                       (classified in_buffer st))).
Proof.
  unfold stage2, classified, checked, stitched, scanned, prepared, bindM.
  destruct (prepare_segments st) as [[] st1]. simpl.
  destruct (find_intersections in_buffer st1) as [[|] st2]; simpl; [done|].
  destruct (build_rings st2) as [[] st3]. simpl.
  destruct (check_for_open_rings st3) as [[|] st4]; simpl; [done|].
  destruct (find_inner_outer st4) as [[] st5]. simpl.
  by destruct (check_inner_outer_roles in_buffer st5) as [[] st6].
Qed.

(** The area record a source leaves in the buffer, given the outcome of
    [stage2]. *)
Definition area_of (src : Source) (ok : bool) (st' : Assembler.t) : Area.t :=
  if ok
  then with_tags_and_rings (source_tags in_buffer src st')
                           (emitted_rings st') (area_header in_buffer src)
  else area_header in_buffer src.

Lemma alter_snoc {A : Type} (f : A -> A) (l : list A) (a : A) :
  alter f (length l) (l ++ [a]) = l ++ [f a].
Proof.
  rewrite <- (Nat.add_0_r (length l)). by rewrite alter_app_r.
Qed.

Lemma assemble_way_eq (way_ptr : nat) (buf : Buffer.t) (st : Assembler.t) :
  let r := stage2 in_buffer (way_input in_buffer way_ptr st) in
  snd (assemble_way in_buffer way_ptr buf st) = snd r
  /\ Buffer.written (fst (assemble_way in_buffer way_ptr buf st))
     = Buffer.written buf ++ [area_of (FromWay way_ptr) (fst r) (snd r)]
  /\ (fst r = false ->
      Buffer.committed (fst (assemble_way in_buffer way_ptr buf st))
      = Buffer.written buf ++ [area_header in_buffer (FromWay way_ptr)]).
Proof.
  unfold assemble_way, way_input, bindM, new_area, area_of.
  cbn zeta.
  destruct (negb (Way.ends_have_same_id (in_buffer way_ptr))); cbn.
  all: match goal with
       | |- context [stage2 in_buffer ?s] =>
           destruct (stage2 in_buffer s) as [[|] st']
       end; cbn.
  all: split; [done|split; [|done]]; try done.
  all: rewrite written_add_rings, written_add_tags;
    cbn [Buffer.written Buffer.commit]; rewrite !alter_snoc.
  all: f_equal; f_equal; rewrite !with_tags_and_rings_eq; cbn;
    by rewrite !app_nil_r.
Qed.

(** The members whose ways the loop of lines 699-724 assembles on their
    own, given the tags of the relation's area. *)
Definition rescued (tags : list Tag.t)
    (members : list (RelationMember.t * nat)) : list nat :=
  map snd
    (List.filter
       (fun m : RelationMember.t * nat =>
          String.eqb (RelationMember.role (fst m)) "inner"
          && inner_way_differs (in_buffer (snd m)) tags)
       members).

(** A run of calls of [operator()(way, out_buffer)]. *)
Definition assemble_ways (offsets : list nat) (bs : Buffer.t * Assembler.t)
    : Buffer.t * Assembler.t :=
  foldl (fun bs offset => assemble_way in_buffer offset (fst bs) (snd bs))
        bs offsets.

Lemma area_tags_assemble_way (builder way_ptr : nat) (buf : Buffer.t)
    (st : Assembler.t) :
  builder < length (Buffer.written buf) ->
  area_tags builder (fst (assemble_way in_buffer way_ptr buf st))
  = area_tags builder buf.
Proof.
  intros Hlt. unfold area_tags.
  destruct (assemble_way_eq way_ptr buf st) as (_ & -> & _).
  by rewrite lookup_app_l.
Qed.

Lemma assemble_inner_ways_eq (builder : nat)
    (members : list (RelationMember.t * nat)) (buf : Buffer.t)
    (st : Assembler.t) :
  builder < length (Buffer.written buf) ->
  assemble_inner_ways in_buffer builder members buf st
  = assemble_ways (rescued (area_tags builder buf) members) (buf, st).
Proof.
  revert buf st. induction members as [|[member offset] members IH];
    intros buf st Hlt; [done|].
  unfold rescued. cbn [assemble_inner_ways List.filter fst snd].
  destruct (String.eqb _ _ && inner_way_differs _ _) eqn:Hcond.
  - unfold bindM. cbn [map assemble_ways foldl fst snd].
    destruct (assemble_way in_buffer offset buf st) as [buf' st'] eqn:Hway.
    pose proof (assemble_way_eq offset buf st) as (_ & Hw & _).
    pose proof (area_tags_assemble_way builder offset buf st Hlt) as Htags.
    rewrite Hway in Hw, Htags. cbn [fst] in Hw, Htags.
    rewrite IH by (rewrite Hw, length_app; lia).
    by rewrite Htags.
  - by rewrite IH.
Qed.

Lemma assemble_ways_prefix (offsets : list nat) (bs : Buffer.t * Assembler.t) :
  exists rest,
    Buffer.written (fst (assemble_ways offsets bs))
    = Buffer.written (fst bs) ++ rest.
Proof.
  revert bs. induction offsets as [|o offsets IH]; intros bs.
  - exists []. by rewrite app_nil_r.
  - cbn [assemble_ways foldl].
    destruct (IH (assemble_way in_buffer o (fst bs) (snd bs))) as [rest Hrest].
    unfold assemble_ways in Hrest. rewrite Hrest.
    destruct (assemble_way_eq o (fst bs) (snd bs)) as (_ & -> & _).
    eexists. by rewrite <- app_assoc.
Qed.

(** Every offset in the run is handed to [operator()(way, out_buffer)],
    and what that call wrote stays in the buffer. *)
Lemma assemble_ways_elem (offsets : list nat) (bs : Buffer.t * Assembler.t)
    (offset : nat) :
  offset ∈ offsets ->
  exists b_i s_i before rest,
    Buffer.written b_i = Buffer.written (fst bs) ++ before
    /\ Buffer.written (fst (assemble_ways offsets bs))
       = Buffer.written (fst (assemble_way in_buffer offset b_i s_i)) ++ rest.
Proof.
  revert bs. induction offsets as [|o offsets IH]; intros bs Hin.
  - by apply elem_of_nil in Hin.
  - cbn [assemble_ways foldl]. apply elem_of_cons in Hin as [->|Hin].
    + destruct (assemble_ways_prefix offsets
                  (assemble_way in_buffer o (fst bs) (snd bs))) as [rest Hrest].
      exists (fst bs), (snd bs), [], rest. by rewrite app_nil_r.
    + destruct (IH (assemble_way in_buffer o (fst bs) (snd bs)) Hin)
        as (b_i & s_i & before & rest & Hb & Hw).
      destruct (assemble_way_eq o (fst bs) (snd bs)) as (_ & Hw' & _).
      rewrite Hw', <- app_assoc in Hb. by eexists b_i, s_i, _, rest.
Qed.

Lemma assemble_relation_eq (relation : Relation.t) (members : list nat)
    (buf : Buffer.t) (st : Assembler.t) :
  let src := FromRelation relation members in
  let r := stage2 in_buffer (relation_input in_buffer relation members st) in
  exists b1,
    Buffer.written b1 = Buffer.written buf ++ [area_of src (fst r) (snd r)]
    /\ (fst r = false ->
        Buffer.committed b1
        = Buffer.written buf ++ [area_header in_buffer src])
    /\ assemble_relation in_buffer relation members buf st
       = if fst r && (Assembler.m_inner_outer_mismatches (snd r) =? 0)%Z
         then assemble_ways
                (rescued (Area.tags (area_of src (fst r) (snd r)))
                         (zip (Relation.members relation) members))
                (b1, snd r)
         else (b1, snd r).
Proof.
  intros src r. subst r.
  unfold assemble_relation, relation_input, bindM, new_area, area_of.
  cbn zeta. cbn [modify gets snd fst].
  destruct (stage2 in_buffer _) as [[|] st'] eqn:Hst; cbn [negb fst snd].
  - set (b1 := add_rings_to_area st' _ _).
    assert (Hb1 : Buffer.written b1
                  = Buffer.written buf
                    ++ [with_tags_and_rings (source_tags in_buffer src st')
                          (emitted_rings st') (area_header in_buffer src)]).
    { subst b1. rewrite written_add_rings, written_add_tags.
      cbn [Buffer.written Buffer.commit]. rewrite !alter_snoc.
      by f_equal. }
    exists b1. split; [done|]. split; [done|].
    cbn [andb]. destruct (_ =? _)%Z; [|done].
    rewrite assemble_inner_ways_eq by (rewrite Hb1, length_app; simpl; lia).
    unfold area_tags. rewrite Hb1.
    rewrite lookup_app_r by lia. by rewrite Nat.sub_diag.
  - exists (Buffer.commit
              {| Buffer.written :=
                   Buffer.written buf ++ [area_header in_buffer src];
                 Buffer.committed := Buffer.committed buf |}).
    done.
Qed.
End EntryPoints.

(** ** Identity and attributes of the emitted area *)

Section Identity.
Context {G : Geometry} (in_buffer : nat -> Way.t).

(** The attributes [initialize_area_from_object] copies. *)
Definition copied_from (object : Object.t) (area : Area.t) : Prop :=
  Area.version area = Object.version object
  /\ Area.changeset area = Object.changeset object
  /\ Area.timestamp area = Object.timestamp object
  /\ Area.visible area = Object.visible object
  /\ Area.uid area = Object.uid object
  /\ Area.user area = Object.user object.

Lemma area_of_attributes (src : Source) (ok : bool) (st' : Assembler.t) :
  let area := area_of in_buffer src ok st' in
  Area.id area
  = wrap64 (Object.id (source_object in_buffer src) * 2 + origin_offset src)
  /\ copied_from (source_object in_buffer src) area.
Proof.
  unfold area_of, copied_from. destruct ok;
    rewrite ?with_tags_and_rings_eq; by cbn.
Qed.

Lemma assemble_written (src : Source) (buf : Buffer.t) (st : Assembler.t) :
  let r := stage2 in_buffer (stage2_input in_buffer src st) in
  exists rest,
    Buffer.written (fst (assemble in_buffer src buf st))
    = Buffer.written buf ++ area_of in_buffer src (fst r) (snd r) :: rest
    /\ (forall way_ptr, src = FromWay way_ptr -> rest = []).
Proof.
  destruct src as [way_ptr|relation members]; cbn [assemble stage2_input].
  - destruct (assemble_way_eq in_buffer way_ptr buf st) as (_ & -> & _).
    by exists [].
  - destruct (assemble_relation_eq in_buffer relation members buf st)
      as (b1 & Hb1 & _ & ->).
    destruct (_ && _).
    + destruct (assemble_ways_prefix in_buffer
        (rescued in_buffer
           (Area.tags (area_of in_buffer (FromRelation relation members)
              (fst (stage2 in_buffer
                      (relation_input in_buffer relation members st)))
              (snd (stage2 in_buffer
                      (relation_input in_buffer relation members st)))))
           (zip (Relation.members relation) members))
        (b1, snd (stage2 in_buffer
                    (relation_input in_buffer relation members st))))
        as [rest Hrest].
      exists rest. rewrite Hrest. cbn [fst]. rewrite Hb1, <- app_assoc.
      done.
    + exists []. cbn [fst]. by rewrite Hb1.
Qed.

(** C6. Every assembly appends an area whose id is twice the id of its
    source object, plus 0 for a way and plus 1 for a relation, and whose
    version, changeset, timestamp, visibility, uid and user are those of
    the source object. (Ids are [int64_t]: the doubled id has to be
    representable.) A way-sourced assembly appends nothing else. *)
Theorem area_id_and_attributes (src : Source) (buf : Buffer.t)
    (st : Assembler.t) :
  in_int64 (Object.id (source_object in_buffer src) * 2 + origin_offset src) ->
  exists area rest,
    Buffer.written (fst (assemble in_buffer src buf st))
    = Buffer.written buf ++ area :: rest
    /\ Area.id area
       = (Object.id (source_object in_buffer src) * 2
          + match src with FromWay _ => 0 | FromRelation _ _ => 1 end)%Z
    /\ copied_from (source_object in_buffer src) area
    /\ (forall way_ptr, src = FromWay way_ptr -> rest = []).
Proof.
  intros Hrange.
  destruct (assemble_written src buf st) as (rest & Hw & Hrest).
  eexists _, rest. split; [exact Hw|].
  destruct (area_of_attributes src
              (fst (stage2 in_buffer (stage2_input in_buffer src st)))
              (snd (stage2 in_buffer (stage2_input in_buffer src st))))
    as [Hid Hcopied].
  rewrite Hid, wrap64_in_range by done.
  split; [by destruct src|]. done.
Qed.
End Identity.

(** ** The problem stream *)

(** The state after the reporter, if there is one, has received the calls
    [ps]. *)
Definition report_all (ps : list Problem) (st : Assembler.t) : Assembler.t :=
  Assembler.set_problem_reporter (fmap (fun l => l ++ ps)) st.

Lemma report_eq (p : Problem) (st : Assembler.t) :
  report p st = (tt, report_all [p] st).
Proof. done. Qed.

Lemma report_all_nil (st : Assembler.t) : report_all [] st = st.
Proof.
  destruct st as [[l|] ? ? ? ? ? ? ?];
    unfold report_all, Assembler.set_problem_reporter; cbn; [|done].
  by rewrite app_nil_r.
Qed.

Lemma report_all_app (ps qs : list Problem) (st : Assembler.t) :
  report_all qs (report_all ps st) = report_all (ps ++ qs) st.
Proof.
  destruct st as [[l|] ? ? ? ? ? ? ?];
    unfold report_all, Assembler.set_problem_reporter; cbn; [|done].
  by rewrite <- app_assoc.
Qed.

Lemma set_rings_report_all (f : list ProtoRing.t -> list ProtoRing.t)
    (ps : list Problem) (st : Assembler.t) :
  Assembler.set_rings f (report_all ps st)
  = report_all ps (Assembler.set_rings f st).
Proof. done. Qed.

Lemma reported_report_all (ps : list Problem) (st : Assembler.t) :
  Assembler.reported (report_all ps st)
  = match Assembler.m_problem_reporter st with
    | Some l => l ++ ps
    | None => []
    end.
Proof. by destruct st as [[l|] ? ? ? ? ? ? ?]. Qed.

(** ** The intersection scan *)

Fixpoint take_while {A : Type} (p : A -> bool) (l : list A) : list A :=
  match l with
  | [] => []
  | a :: l' => if p a then a :: take_while p l' else []
  end.

Section Intersections.
Context {G : Geometry} (in_buffer : nat -> Way.t).

(** The inner loop leaves [s1] at the first segment that differs from
    [s1] and starts to the right of its end. *)
Definition leaves_x_range (s1 s2 : NodeRefSegment.t) : bool :=
  negb (NodeRefSegment.eqb s1 s2) && NodeRefSegment.outside_x_range s2 s1.

(** The segments after [s1] that the scan compares with [s1]. *)
Definition compared_with (s1 : NodeRefSegment.t) (rest : list NodeRefSegment.t)
    : list NodeRefSegment.t :=
  take_while (fun s2 => negb (leaves_x_range s1 s2)) rest.

(** Two distinct segments whose y-ranges overlap and for which
    [calculate_intersection] yields a location. *)
Definition intersection_of (s1 s2 : NodeRefSegment.t) : option Location.t :=
  if negb (NodeRefSegment.eqb s1 s2) && NodeRefSegment.y_range_overlap s1 s2
  then calculate_intersection s1 s2
  else None.

Definition intersections_with (s1 : NodeRefSegment.t)
    (rest : list NodeRefSegment.t)
    : list (NodeRefSegment.t * NodeRefSegment.t * Location.t) :=
  omap (fun s2 => (fun p => (s1, s2, p)) <$> intersection_of s1 s2)
       (compared_with s1 rest).

(** The intersecting pairs the scan finds, in the order it finds them. *)
Fixpoint found_intersections (l : list NodeRefSegment.t)
    : list (NodeRefSegment.t * NodeRefSegment.t * Location.t) :=
  match l with
  | [] => []
  | s1 :: rest => intersections_with s1 rest ++ found_intersections rest
  end.

Definition intersection_problems (object_id : Z)
    (found : list (NodeRefSegment.t * NodeRefSegment.t * Location.t))
    : list Problem :=
  map (fun f : NodeRefSegment.t * NodeRefSegment.t * Location.t =>
         intersection_problem in_buffer object_id (fst (fst f)) (snd (fst f))
                              (snd f))
      found.

Definition nonempty {A : Type} (l : list A) : bool :=
  match l with [] => false | _ => true end.

Lemma nonempty_app {A : Type} (l1 l2 : list A) :
  nonempty (l1 ++ l2) = nonempty l1 || nonempty l2.
Proof. by destruct l1. Qed.

Lemma intersections_with_cons (s1 s2 : NodeRefSegment.t)
    (l : list NodeRefSegment.t) :
  intersections_with s1 (s2 :: l)
  = if leaves_x_range s1 s2 then []
    else match intersection_of s1 s2 with
         | Some p => (s1, s2, p) :: intersections_with s1 l
         | None => intersections_with s1 l
         end.
Proof.
  unfold intersections_with, compared_with. cbn [take_while].
  destruct (leaves_x_range s1 s2); [done|]. cbn [negb omap list_omap].
  by destruct (intersection_of s1 s2).
Qed.

Lemma find_intersections_inner_eq (s1 : NodeRefSegment.t)
    (l : list NodeRefSegment.t) (found : bool) (st : Assembler.t) :
  find_intersections_inner in_buffer s1 l found st
  = (found || nonempty (intersections_with s1 l),
     report_all (intersection_problems (Assembler.m_object_id st)
                   (intersections_with s1 l)) st).
Proof.
  revert found st. induction l as [|s2 l IH]; intros found st.
  - cbn. by rewrite orb_false_r, report_all_nil.
  - cbn [find_intersections_inner]. rewrite intersections_with_cons.
    unfold leaves_x_range, intersection_of.
    destruct (NodeRefSegment.eqb s1 s2); cbn [negb andb]; [by rewrite IH|].
    destruct (NodeRefSegment.outside_x_range s2 s1).
    { cbn. by rewrite orb_false_r, report_all_nil. }
    destruct (NodeRefSegment.y_range_overlap s1 s2); [|by rewrite IH].
    destruct (calculate_intersection s1 s2) as [p|]; [|by rewrite IH].
    unfold bindM, gets. rewrite report_eq, IH, report_all_app.
    cbn [nonempty]. by rewrite orb_true_r.
Qed.

Lemma find_intersections_outer_cons (s1 s2 : NodeRefSegment.t)
    (l : list NodeRefSegment.t) (found : bool) :
  find_intersections_outer in_buffer (s1 :: s2 :: l) found
  = (found' <- find_intersections_inner in_buffer s1 (s2 :: l) found;
     find_intersections_outer in_buffer (s2 :: l) found').
Proof. done. Qed.

Lemma find_intersections_outer_eq (l : list NodeRefSegment.t) (found : bool)
    (st : Assembler.t) :
  find_intersections_outer in_buffer l found st
  = (found || nonempty (found_intersections l),
     report_all (intersection_problems (Assembler.m_object_id st)
                   (found_intersections l)) st).
Proof.
  revert found st. induction l as [|s1 l IH]; intros found st.
  - cbn. by rewrite orb_false_r, report_all_nil.
  - destruct l as [|s2 l].
    + cbn. by rewrite orb_false_r, report_all_nil.
    + rewrite find_intersections_outer_cons. unfold bindM.
      rewrite find_intersections_inner_eq, IH.
      change (found_intersections (s1 :: s2 :: l))
        with (intersections_with s1 (s2 :: l) ++ found_intersections (s2 :: l)).
      rewrite report_all_app, nonempty_app, orb_assoc.
      unfold intersection_problems. rewrite map_app. reflexivity.
Qed.

Lemma find_intersections_eq (st : Assembler.t) :
  find_intersections in_buffer st
  = (nonempty (found_intersections (Assembler.m_segment_list st)),
     report_all (intersection_problems (Assembler.m_object_id st)
                   (found_intersections (Assembler.m_segment_list st))) st).
Proof.
  unfold find_intersections, bindM, gets.
  destruct (Assembler.m_segment_list st) as [|s l] eqn:Hl.
  - cbn. by rewrite report_all_nil.
  - by rewrite find_intersections_outer_eq.
Qed.
End Intersections.

Section IntersectionsAbort.
Context {G : Geometry} (in_buffer : nat -> Way.t).

Lemma header_only_area_header (src : Source) :
  Area.header_only (area_header in_buffer src).
Proof. done. Qed.

(** A failed [stage2] leaves the committed header and nothing else. *)
Lemma failed_stage2_header_only (src : Source) (buf : Buffer.t)
    (st : Assembler.t) :
  fst (stage2 in_buffer (stage2_input in_buffer src st)) = false ->
  let r := assemble in_buffer src buf st in
  snd r = snd (stage2 in_buffer (stage2_input in_buffer src st))
  /\ Buffer.written (fst r)
     = Buffer.written buf ++ [area_header in_buffer src]
  /\ Buffer.committed (fst r)
     = Buffer.written buf ++ [area_header in_buffer src].
Proof.
  intros Hfail. destruct src as [way_ptr|relation members];
    cbn [assemble stage2_input] in *.
  - destruct (assemble_way_eq in_buffer way_ptr buf st) as (Hs & Hw & Hc).
    rewrite Hw, Hs, (Hc Hfail), Hfail. done.
  - destruct (assemble_relation_eq in_buffer relation members buf st)
      as (b1 & Hb1 & Hc & ->).
    rewrite Hfail in *. cbn [andb fst snd].
    rewrite Hb1, (Hc eq_refl). done.
Qed.

(** C3, as the code has it. If the intersection scan returns true, then
    it has found at least one pair of distinct segments with an
    intersection; the problem reporter, if the assembler has one, has
    received one [report_intersection] per pair found, in the order of
    the scan, and without a reporter nothing is reported; [stage2]
    returns false right after the scan; and the record in the buffer is
    the committed header alone, without tags and without rings. *)
Theorem intersections_abort_area (src : Source) (buf : Buffer.t)
    (st : Assembler.t) :
  let st0 := prepared (stage2_input in_buffer src st) in
  let found := found_intersections (Assembler.m_segment_list st0) in
  let st' :=
    report_all (intersection_problems in_buffer (Assembler.m_object_id st0)
                                      found) st0 in
  fst (find_intersections in_buffer st0) = true ->
  found <> []
  /\ stage2 in_buffer (stage2_input in_buffer src st) = (false, st')
  /\ snd (assemble in_buffer src buf st) = st'
  /\ Buffer.written (fst (assemble in_buffer src buf st))
     = Buffer.written buf ++ [area_header in_buffer src]
  /\ Buffer.committed (fst (assemble in_buffer src buf st))
     = Buffer.written buf ++ [area_header in_buffer src]
  /\ Area.header_only (area_header in_buffer src).
Proof.
  intros st0 found st' Hscan.
  assert (Hstage : stage2 in_buffer (stage2_input in_buffer src st)
                   = (false, st')).
  { rewrite stage2_eq. fold st0. rewrite Hscan.
    unfold scanned. fold st0. by rewrite find_intersections_eq. }
  rewrite find_intersections_eq in Hscan. cbn [fst] in Hscan.
  split; [by intros Hnil; fold found in Hscan; rewrite Hnil in Hscan|].
  split; [done|].
  destruct (failed_stage2_header_only src buf st) as (Hs & Hw & Hc);
    [by rewrite Hstage|].
  rewrite Hstage in Hs. done.
Qed.
End IntersectionsAbort.

(** ** What stitching touches

    The ring builder changes [m_rings] and hands problems to the reporter;
    it leaves every other member of the assembler alone, and the rings it
    makes carry no classification yet. *)

Section Stitching.
(** A ring as its constructors leave it: outer, without inner rings. *)
Definition fresh (r : ProtoRing.t) : Prop :=
  ProtoRing.m_outer r = true /\ ProtoRing.m_inner r = [].

Definition segments_only (f : ProtoRing.t -> ProtoRing.t) : Prop :=
  forall r, ProtoRing.m_outer (f r) = ProtoRing.m_outer r
            /\ ProtoRing.m_inner (f r) = ProtoRing.m_inner r.

Definition rings_step (st st' : Assembler.t) : Prop :=
  exists rings ps,
    st' = report_all ps (Assembler.set_rings (fun _ => rings) st)
    /\ (Forall fresh (Assembler.m_rings st) -> Forall fresh rings).

Definition Stitching {A : Type} (m : M A) : Prop :=
  forall st, rings_step st (snd (m st)).

Lemma rings_step_refl (st : Assembler.t) : rings_step st st.
Proof.
  exists (Assembler.m_rings st), []. rewrite report_all_nil.
  split; [by destruct st|done].
Qed.

Lemma rings_step_trans (st1 st2 st3 : Assembler.t) :
  rings_step st1 st2 -> rings_step st2 st3 -> rings_step st1 st3.
Proof.
  intros (r1 & ps & -> & H1) (r2 & qs & -> & H2).
  exists r2, (ps ++ qs). split.
  - destruct st1 as [[l|] ? ? ? ? ? ? ?];
      unfold report_all, Assembler.set_problem_reporter, Assembler.set_rings;
      cbn; by rewrite ?app_assoc.
  - intros Hf. apply H2. destruct st1 as [[l|] ? ? ? ? ? ? ?]; by apply H1.
Qed.

Lemma Stitching_ret {A : Type} (a : A) : Stitching (mret a).
Proof. intros st. apply rings_step_refl. Qed.

Lemma Stitching_bind {A B : Type} (m : M A) (f : A -> M B) :
  Stitching m -> (forall a, Stitching (f a)) -> Stitching (bindM m f).
Proof.
  intros Hm Hf st. unfold bindM. specialize (Hm st).
  destruct (m st) as [a st1]. eapply rings_step_trans; [exact Hm|apply Hf].
Qed.

Lemma Stitching_gets {A : Type} (f : Assembler.t -> A) : Stitching (gets f).
Proof. intros st. apply rings_step_refl. Qed.

Lemma Stitching_ring_at (n : nat) : Stitching (ring_at n).
Proof. apply Stitching_gets. Qed.

Lemma Stitching_report (p : Problem) : Stitching (report p).
Proof.
  intros st. exists (Assembler.m_rings st), [p]. split; [|done].
  by destruct st.
Qed.

Lemma Stitching_set_rings (f : list ProtoRing.t -> list ProtoRing.t) :
  (forall l, Forall fresh l -> Forall fresh (f l)) ->
  Stitching (modify (Assembler.set_rings f)).
Proof.
  intros Hf st. exists (f (Assembler.m_rings st)), []. rewrite report_all_nil.
  split; [by destruct st|apply Hf].
Qed.

Lemma Stitching_modify_ring (n : nat) (f : ProtoRing.t -> ProtoRing.t) :
  segments_only f -> Stitching (modify_ring n f).
Proof.
  intros Hf. apply Stitching_set_rings. intros l Hl.
  apply Forall_alter; [done|]. intros r _. unfold fresh.
  by destruct (Hf r) as [-> ->].
Qed.

Lemma Stitching_emplace_back (l : list NodeRefSegment.t) :
  Stitching (emplace_back (ProtoRing.of_segments l)).
Proof.
  apply Stitching_set_rings. intros rs Hrs.
  apply Forall_app. split; [done|]. by apply Forall_singleton.
Qed.

Lemma Stitching_erase (j : nat) : Stitching (erase j).
Proof. apply Stitching_set_rings. intros rs Hrs. by apply Forall_delete. Qed.

Lemma Stitching_has_same_location (nr1 nr2 : NodeRef.t) :
  Stitching (has_same_location nr1 nr2).
Proof.
  unfold has_same_location. destruct (negb (Location.eqb _ _)).
  - apply Stitching_ret.
  - apply Stitching_bind; [|intros; apply Stitching_ret].
    destruct (negb _); [apply Stitching_report|apply Stitching_ret].
Qed.
End Stitching.

Ltac stitching_step :=
  first
    [ apply Stitching_ret
    | apply Stitching_has_same_location
    | apply Stitching_ring_at
    | apply Stitching_gets
    | apply Stitching_report
    | apply Stitching_emplace_back
    | apply Stitching_erase
    | apply Stitching_modify_ring; by intros []
    | apply Stitching_bind; [|intros ?]
    | match goal with
      | |- Stitching (if ?b then _ else _) => destruct b
      | |- Stitching (match ?x with _ => _ end) => destruct x
      | IH : forall _, Stitching _ |- _ => apply IH
      | IH : forall _ _, Stitching _ |- _ => apply IH
      end ].

Ltac stitching := repeat stitching_step.

Section StitchingFunctions.
Lemma Stitching_possibly_combine_rings_end (n : nat) :
  Stitching (possibly_combine_rings_end n).
Proof.
  unfold possibly_combine_rings_end.
  apply Stitching_bind; [stitching|intros ring].
  apply Stitching_bind; [stitching|intros rings].
  generalize (NodeRefSegment.second (ProtoRing.last_segment ring)), 0.
  intros nr j. revert j.
  induction rings as [|it its IH]; intros j;
    cbn [possibly_combine_rings_end_loop]; stitching.
Qed.

Lemma Stitching_possibly_combine_rings_start (n : nat) :
  Stitching (possibly_combine_rings_start n).
Proof.
  unfold possibly_combine_rings_start.
  apply Stitching_bind; [stitching|intros ring].
  apply Stitching_bind; [stitching|intros rings].
  generalize (NodeRefSegment.first (ProtoRing.first_segment ring)), 0.
  intros nr j. revert j.
  induction rings as [|it its IH]; intros j;
    cbn [possibly_combine_rings_start_loop]; stitching.
Qed.

Lemma Stitching_has_closed_subring_end (n : nat) (segment : NodeRefSegment.t) :
  Stitching (has_closed_subring_end n segment).
Proof.
  unfold has_closed_subring_end.
  apply Stitching_bind; [stitching|intros ring].
  destruct (_ <? _)%nat; [stitching|].
  generalize (take (length (ProtoRing.segments ring) - 2)
                   (drop 1 (ProtoRing.segments ring))).
  intros its. generalize 1. intros k. revert k.
  induction its as [|it its IH]; intros k;
    cbn [has_closed_subring_end_loop]; stitching.
Qed.

Lemma Stitching_has_closed_subring_start (n : nat) (segment : NodeRefSegment.t) :
  Stitching (has_closed_subring_start n segment).
Proof.
  unfold has_closed_subring_start.
  apply Stitching_bind; [stitching|intros ring].
  destruct (_ <? _)%nat; [stitching|].
  generalize (take (length (ProtoRing.segments ring) - 2)
                   (drop 1 (ProtoRing.segments ring))).
  intros its. generalize 1. intros k. revert k.
  induction its as [|it its IH]; intros k;
    cbn [has_closed_subring_start_loop]; stitching.
Qed.

Lemma Stitching_adjacent_find_same_first (l : list NodeRefSegment.t) :
  Stitching (adjacent_find_same_first l).
Proof.
  induction l as [|s1 l IH]; [stitching|].
  destruct l as [|s2 l]; [stitching|].
  change (adjacent_find_same_first (s1 :: s2 :: l))
    with (same <- has_same_location (NodeRefSegment.first s1)
                                    (NodeRefSegment.first s2);
          if same then mret (Some (s1, s2))
          else adjacent_find_same_first (s2 :: l)).
  apply Stitching_bind; [stitching|]. intros []; [stitching|exact IH].
Qed.

Lemma Stitching_check_for_closed_subring (n : nat) :
  Stitching (check_for_closed_subring n).
Proof.
  unfold check_for_closed_subring.
  apply Stitching_bind; [stitching|intros ring].
  apply Stitching_bind; [apply Stitching_adjacent_find_same_first|].
  intros [[s1 s2]|]; stitching.
Qed.

Lemma Stitching_combine_rings (segment : NodeRefSegment.t) (n : nat)
    (at_end : bool) :
  Stitching (combine_rings segment n at_end).
Proof.
  unfold combine_rings. destruct at_end.
  - apply Stitching_bind; [stitching|intros _].
    apply Stitching_bind; [apply Stitching_has_closed_subring_end|intros _].
    apply Stitching_bind; [apply Stitching_possibly_combine_rings_end|].
    intros [[|] n']; [|stitching].
    apply Stitching_bind; [apply Stitching_check_for_closed_subring|].
    intros; stitching.
  - apply Stitching_bind; [stitching|intros _].
    apply Stitching_bind; [apply Stitching_has_closed_subring_start|intros _].
    apply Stitching_bind; [apply Stitching_possibly_combine_rings_start|].
    intros [[|] n']; [|stitching].
    apply Stitching_bind; [apply Stitching_check_for_closed_subring|].
    intros; stitching.
Qed.

Lemma Stitching_add_to_existing_ring (segment : NodeRefSegment.t) :
  Stitching (add_to_existing_ring segment).
Proof.
  unfold add_to_existing_ring.
  apply Stitching_bind; [stitching|intros rings].
  generalize 0. induction rings as [|ring rings IH]; intros n;
    cbn [add_to_existing_ring_loop]; [stitching|].
  destruct (ProtoRing.closed ring); [apply IH|].
  repeat (apply Stitching_bind; [apply Stitching_has_same_location|];
          intros [];
          [apply Stitching_bind;
             [apply Stitching_combine_rings|intros; stitching]|]).
  apply IH.
Qed.

Lemma Stitching_for_each {A : Type} (l : list A) (f : A -> M unit) :
  (forall a, Stitching (f a)) -> Stitching (for_each l f).
Proof.
  intros Hf. induction l as [|a l IH]; cbn [for_each]; [stitching|].
  apply Stitching_bind; [apply Hf|intros _; apply IH].
Qed.

Lemma Stitching_add_segment (segment : NodeRefSegment.t) :
  Stitching (add_segment segment).
Proof.
  unfold add_segment.
  apply Stitching_bind; [apply Stitching_add_to_existing_ring|].
  intros []; stitching.
Qed.

Lemma Stitching_build_rings : Stitching build_rings.
Proof.
  unfold build_rings. apply Stitching_bind; [stitching|intros l].
  apply Stitching_for_each, Stitching_add_segment.
Qed.
End StitchingFunctions.

(** ** Open rings *)

Section OpenRings.
Context {G : Geometry} (in_buffer : nat -> Way.t).

Definition is_open (r : ProtoRing.t) : bool := negb (ProtoRing.closed r).

(** The rings that are still open, in the order of the ring list. *)
Definition open_rings (st : Assembler.t) : list ProtoRing.t :=
  List.filter is_open (Assembler.m_rings st).

Lemma check_for_open_rings_loop_eq (rings : list ProtoRing.t) (found : bool)
    (st : Assembler.t) :
  check_for_open_rings_loop rings found st
  = (found || nonempty (List.filter is_open rings),
     report_all (map (ring_not_closed_problem (Assembler.m_object_id st))
                     (List.filter is_open rings)) st).
Proof.
  revert found st. induction rings as [|ring rings IH]; intros found st.
  - cbn. by rewrite orb_false_r, report_all_nil.
  - cbn [check_for_open_rings_loop List.filter].
    change (negb (ProtoRing.closed ring)) with (is_open ring).
    destruct (is_open ring); [|apply IH].
    unfold bindM, gets. rewrite report_eq, IH, report_all_app.
    cbn [nonempty]. by rewrite orb_true_r.
Qed.

Lemma check_for_open_rings_eq (st : Assembler.t) :
  check_for_open_rings st
  = (nonempty (open_rings st),
     report_all (map (ring_not_closed_problem (Assembler.m_object_id st))
                     (open_rings st)) st).
Proof.
  unfold check_for_open_rings, bindM, gets.
  by rewrite check_for_open_rings_loop_eq.
Qed.

Lemma prepared_eq (st : Assembler.t) :
  prepared st
  = Assembler.set_segment_list
      (fun l => SegmentList.erase_duplicate_segments (SegmentList.sort l)) st.
Proof. done. Qed.

(** The assembler after stitching: the prepared one, with the rings
    built and the problems met on the way reported. *)
Lemma stitched_eq (st : Assembler.t) :
  exists rings ps,
    stitched in_buffer st
    = report_all ps (Assembler.set_rings (fun _ => rings) (prepared st))
    /\ (Forall fresh (Assembler.m_rings st) -> Forall fresh rings).
Proof.
  unfold stitched.
  destruct (Stitching_build_rings (scanned in_buffer st))
    as (rings & ps & -> & Hfresh).
  unfold scanned in *. rewrite find_intersections_eq in *. cbn [snd] in *.
  eexists rings, (_ ++ ps). split; [|done].
  by rewrite set_rings_report_all, report_all_app.
Qed.

Lemma stage2_input_fields (src : Source) (st : Assembler.t) :
  let st0 := stage2_input in_buffer src st in
  Assembler.m_rings st0 = []
  /\ Assembler.m_outer_rings st0 = []
  /\ Assembler.m_inner_rings st0 = []
  /\ Assembler.m_inner_outer_mismatches st0 = 0%Z
  /\ Assembler.m_object_id st0 = Object.id (source_object in_buffer src).
Proof.
  destruct src as [way_ptr|relation members];
    cbn [stage2_input source_object]; unfold way_input, relation_input;
    [destruct (negb _)|]; done.
Qed.

(** What stitching leaves of the assembler that entered [stage2]. *)
Lemma stitched_fields (src : Source) (st : Assembler.t) :
  let st3 := stitched in_buffer (stage2_input in_buffer src st) in
  Forall fresh (Assembler.m_rings st3)
  /\ Assembler.m_outer_rings st3 = []
  /\ Assembler.m_inner_rings st3 = []
  /\ Assembler.m_inner_outer_mismatches st3 = 0%Z
  /\ Assembler.m_object_id st3 = Object.id (source_object in_buffer src)
  /\ Assembler.m_segment_list st3
     = Assembler.m_segment_list (prepared (stage2_input in_buffer src st)).
Proof.
  destruct (stage2_input_fields src st) as (Hr & Ho & Hi & Hm & Hid).
  destruct (stitched_eq (stage2_input in_buffer src st))
    as (rings & ps & Heq & Hfresh).
  cbn zeta. rewrite Heq.
  split; [apply Hfresh; by rewrite Hr|]. done.
Qed.

(** C5, as the code has it. When the scan found no intersection and,
    after all segments have been consumed into proto-rings, some ring is
    still open, then [stage2] returns false; the problem reporter, if the
    assembler has one, has received for each open ring one
    [report_ring_not_closed] with the id of the source object, the
    location of the first endpoint of the ring's first segment and that
    of the second endpoint of its last segment, and without a reporter
    nothing is reported; and the record in the buffer is the committed
    header alone, without tags and without rings. *)
Theorem open_rings_abort_area (src : Source) (buf : Buffer.t)
    (st : Assembler.t) :
  let st0 := stage2_input in_buffer src st in
  let st3 := stitched in_buffer st0 in
  let st' :=
    report_all
      (map (fun ring =>
              report_ring_not_closed
                (Object.id (source_object in_buffer src))
                (NodeRef.location
                   (NodeRefSegment.first (ProtoRing.first_segment ring)))
                (NodeRef.location
                   (NodeRefSegment.second (ProtoRing.last_segment ring))))
           (open_rings st3))
      st3 in
  fst (find_intersections in_buffer (prepared st0)) = false ->
  open_rings st3 <> [] ->
  stage2 in_buffer st0 = (false, st')
  /\ snd (assemble in_buffer src buf st) = st'
  /\ Buffer.written (fst (assemble in_buffer src buf st))
     = Buffer.written buf ++ [area_header in_buffer src]
  /\ Buffer.committed (fst (assemble in_buffer src buf st))
     = Buffer.written buf ++ [area_header in_buffer src]
  /\ Area.header_only (area_header in_buffer src).
Proof.
  intros st0 st3 st' Hscan Hopen.
  assert (Hstage : stage2 in_buffer st0 = (false, st')).
  { rewrite stage2_eq, Hscan. unfold checked. fold st3.
    rewrite check_for_open_rings_eq. cbn [fst snd].
    destruct (open_rings st3) eqn:Ho; [done|]. cbn [nonempty].
    f_equal. subst st'. f_equal.
    destruct (stitched_fields src st) as (_ & _ & _ & _ & Hid & _).
    fold st0 st3 in Hid. rewrite Hid. done. }
  split; [done|].
  destruct (failed_stage2_header_only in_buffer src buf st) as (Hs & Hw & Hc);
    [by fold st0; rewrite Hstage|].
  fold st0 in Hs. rewrite Hstage in Hs. done.
Qed.
End OpenRings.

(** ** What [std::sort] guarantees *)

Section StdSortFacts.
Context {A : Type} (lt : A -> A -> bool).

Lemma sort_insert_perm (a : A) (l : list A) :
  Permutation (sort_insert lt a l) (a :: l).
Proof.
  induction l as [|b l IH]; cbn [sort_insert]; [done|].
  destruct (lt b a); [|done].
  rewrite IH. apply perm_swap.
Qed.

Lemma std_sort_perm (l : list A) : Permutation (std_sort lt l) l.
Proof.
  induction l as [|a l IH]; [done|].
  unfold std_sort in *. cbn [foldr]. rewrite sort_insert_perm.
  by apply perm_skip.
Qed.

Lemma length_std_sort (l : list A) : length (std_sort lt l) = length l.
Proof. apply Permutation_length, std_sort_perm. Qed.

(** [b] may stand after [a]: [b] is not smaller than [a]. *)
Definition not_after (a b : A) : Prop := lt b a = false.

Hypothesis lt_asym : forall a b, lt a b = true -> lt b a = false.

Lemma sort_insert_sorted (a : A) (l : list A) :
  Sorted not_after l -> Sorted not_after (sort_insert lt a l).
Proof using lt_asym.
  induction l as [|b l IH]; intros Hl; cbn [sort_insert].
  - by repeat constructor.
  - destruct (lt b a) eqn:Hba.
    + apply Sorted_inv in Hl as [Hl Hb]. constructor; [by apply IH|].
      destruct l as [|c l]; cbn [sort_insert].
      * constructor. by apply lt_asym.
      * destruct (lt c a); constructor.
        -- by apply HdRel_inv in Hb.
        -- by apply lt_asym.
    + constructor; [done|]. by constructor.
Qed.

Lemma std_sort_sorted (l : list A) : Sorted not_after (std_sort lt l).
Proof using lt_asym.
  induction l as [|a l IH]; [constructor|].
  unfold std_sort in *. cbn [foldr]. by apply sort_insert_sorted.
Qed.
End StdSortFacts.

(** ** Facts about proto-rings *)

Section ProtoRingFacts.
Lemma Location_eqb_sym (a b : Location.t) :
  Location.eqb a b = Location.eqb b a.
Proof. unfold Location.eqb. by rewrite (Z.eqb_sym (Location.x a)),
                                        (Z.eqb_sym (Location.y a)). Qed.

Lemma sum_of_app (l1 l2 : list NodeRefSegment.t) :
  ProtoRing.sum_of (l1 ++ l2)
  = (ProtoRing.sum_of l1 + ProtoRing.sum_of l2)%Z.
Proof.
  unfold ProtoRing.sum_of.
  induction l1 as [|s l1 IH]; cbn [foldr app]; [done|].
  rewrite IH. lia.
Qed.

Lemma cross_swap (s : NodeRefSegment.t) :
  ProtoRing.cross (NodeRefSegment.swap_locations s) = (- ProtoRing.cross s)%Z.
Proof. unfold ProtoRing.cross, NodeRefSegment.swap_locations. cbn. lia. Qed.

(** Reversing a ring negates its signed area. *)
Lemma sum_reverse (r : ProtoRing.t) :
  ProtoRing.sum (ProtoRing.reverse r) = (- ProtoRing.sum r)%Z.
Proof.
  unfold ProtoRing.sum, ProtoRing.reverse. cbn [ProtoRing.segments
    ProtoRing.set_segments].
  induction (ProtoRing.segments r) as [|s l IH]; [done|].
  cbn [map rev]. rewrite sum_of_app, IH.
  unfold ProtoRing.sum_of. cbn [foldr]. rewrite cross_swap. lia.
Qed.

Lemma head_rev {A : Type} (l : list A) : head (rev l) = last l.
Proof.
  induction l as [|a l IH] using rev_ind; [done|].
  by rewrite rev_app_distr, last_snoc.
Qed.

Lemma last_rev {A : Type} (l : list A) : last (rev l) = head l.
Proof. by rewrite <- head_rev, rev_involutive. Qed.

(** Reversing a ring keeps it closed, or open. *)
Lemma closed_reverse (r : ProtoRing.t) :
  ProtoRing.closed (ProtoRing.reverse r) = ProtoRing.closed r.
Proof.
  unfold ProtoRing.closed, ProtoRing.first_segment, ProtoRing.last_segment,
    ProtoRing.reverse.
  cbn [ProtoRing.segments ProtoRing.set_segments].
  rewrite head_rev, last_rev.
  change (map NodeRefSegment.swap_locations (ProtoRing.segments r))
    with (NodeRefSegment.swap_locations <$> ProtoRing.segments r).
  rewrite fmap_last.
  replace (head (NodeRefSegment.swap_locations <$> ProtoRing.segments r))
    with (NodeRefSegment.swap_locations <$> head (ProtoRing.segments r))
    by (by destruct (ProtoRing.segments r)).
  destruct (head (ProtoRing.segments r)) as [f|] eqn:Hh;
    destruct (last (ProtoRing.segments r)) as [l|] eqn:Hl; cbn.
  - apply Location_eqb_sym.
  - apply head_Some_elem_of in Hh. apply last_None in Hl.
    rewrite Hl in Hh. by apply elem_of_nil in Hh.
  - apply head_None in Hh. by rewrite Hh in Hl.
  - done.
Qed.

(** The node sequence of a ring starts and ends at the same location
    exactly when the ring is closed. *)
Definition nodes_closed (nodes : list NodeRef.t) : bool :=
  match head nodes, last nodes with
  | Some a, Some b => Location.eqb (NodeRef.location a) (NodeRef.location b)
  | _, _ => false
  end.

Lemma nodes_closed_node_refs (r : ProtoRing.t) :
  ProtoRing.segments r <> [] ->
  nodes_closed (ProtoRing.node_refs r) = ProtoRing.closed r.
Proof.
  intros Hne. unfold nodes_closed, ProtoRing.node_refs, ProtoRing.closed,
    ProtoRing.last_segment.
  cbn [head].
  destruct (ProtoRing.segments r) as [|s l] using rev_ind; [done|].
  rewrite map_app. cbn [map].
  rewrite (last_snoc (A:=NodeRefSegment.t)).
  change (?x :: ?l1 ++ [?y]) with ((x :: l1) ++ [y]).
  by rewrite last_snoc.
Qed.
End ProtoRingFacts.

(** ** Classification and winding normalisation *)

Section Classification.
Context {G : Geometry}.

(** The verdict of [check_inner_outer]: the crossing count is odd. *)
Definition is_inner (segment_list : SegmentList.t) (ring : ProtoRing.t)
    : bool :=
  let '(count, above) :=
    check_inner_outer_loop ring (ProtoRing.min_node ring) segment_list 0 0 in
  negb (Z.rem (count + Z.rem above 2) 2 =? 0)%Z.

(** Whether lines 785-795 reverse a ring that carries its
    classification. *)
Definition reversed_by_stage2 (ring : ProtoRing.t) : bool :=
  if ProtoRing.outer ring then negb (ProtoRing.is_cw ring)
  else ProtoRing.is_cw ring.

(** A ring after one round of the loop of lines 783-796. *)
Definition classify (segment_list : SegmentList.t) (ring : ProtoRing.t)
    : ProtoRing.t :=
  let ring :=
    if is_inner segment_list ring then ProtoRing.set_inner ring else ring in
  if reversed_by_stage2 ring then ProtoRing.reverse ring else ring.

Definition register (n : nat) (ring : ProtoRing.t) (st : Assembler.t)
    : Assembler.t :=
  if ProtoRing.outer ring
  then Assembler.set_outer_rings (fun l => l ++ [n]) st
  else Assembler.set_inner_rings (fun l => l ++ [n]) st.

Lemma alter_lookup_insert {A : Type} (f : A -> A) (n : nat) (l : list A)
    (a : A) :
  l !! n = Some a -> alter f n l = <[n:=f a]> l.
Proof.
  intros Hn. apply list_eq. intros i.
  destruct (decide (i = n)) as [->|Hne].
  - rewrite list_lookup_alter_eq, Hn, list_lookup_insert_eq;
      [done|by eapply lookup_lt_Some].
  - by rewrite list_lookup_alter_ne, list_lookup_insert_ne.
Qed.

Lemma outer_reverse (r : ProtoRing.t) :
  ProtoRing.outer (ProtoRing.reverse r) = ProtoRing.outer r.
Proof. done. Qed.

Lemma classify_ring_eq (n : nat) (st : Assembler.t) (r0 : ProtoRing.t) :
  Assembler.m_rings st !! n = Some r0 ->
  classify_ring n st
  = (tt, let r' := classify (Assembler.m_segment_list st) r0 in
         register n r' (Assembler.set_rings (fun l => <[n:=r']> l) st)).
Proof.
  intros Hn. destruct st as [rep dbg segs rings oid outs ins mm].
  cbn [Assembler.m_rings Assembler.m_segment_list] in *.
  assert (Hlt : n < length rings) by (by eapply lookup_lt_Some).
  unfold classify_ring, check_inner_outer, classify, is_inner,
    bindM, ring_at, gets, modify_ring, modify.
  cbn [Assembler.m_rings Assembler.m_segment_list]. rewrite Hn.
  cbn [default].
  destruct (check_inner_outer_loop _ _ _ _ _) as [count above].
  destruct (negb (Z.rem _ 2 =? 0)%Z).
  all: unfold Assembler.set_rings; cbn [mret M_ret Assembler.m_rings
         Assembler.m_problem_reporter Assembler.m_debug
         Assembler.m_segment_list Assembler.m_object_id
         Assembler.m_outer_rings Assembler.m_inner_rings
         Assembler.m_inner_outer_mismatches].
  all: rewrite ?list_lookup_alter_eq, ?Hn;
    cbn [fmap option_fmap option_map default].
  all: unfold id, reversed_by_stage2, register.
  all: match goal with
       | |- context [ProtoRing.outer ?r] =>
           destruct (ProtoRing.outer r) eqn:Ho;
           destruct (ProtoRing.is_cw r) eqn:Hcw
       end.
  all: cbn [negb mret M_ret]; rewrite ?outer_reverse, ?Ho.
  all: unfold Assembler.set_outer_rings, Assembler.set_inner_rings;
    cbn [Assembler.m_rings Assembler.m_problem_reporter Assembler.m_debug
         Assembler.m_segment_list Assembler.m_object_id
         Assembler.m_outer_rings Assembler.m_inner_rings
         Assembler.m_inner_outer_mismatches].
  all: rewrite ?list_alter_alter_eq, ?(alter_lookup_insert _ n _ r0 Hn),
         ?(list_insert_id _ _ _ Hn); done.
Qed.

(** The positions, counted from [k], of the rings registered as outer
    ([as_outer = true]) or as inner. *)
Fixpoint registered (as_outer : bool) (k : nat) (rings : list ProtoRing.t)
    : list nat :=
  match rings with
  | [] => []
  | r :: rings' =>
      (if Bool.eqb (ProtoRing.outer r) as_outer then [k] else [])
      ++ registered as_outer (S k) rings'
  end.

Definition classified_state (done todo : list ProtoRing.t)
    (st : Assembler.t) : Assembler.t :=
  let rings := map (classify (Assembler.m_segment_list st)) todo in
  Assembler.set_rings (fun _ => done ++ rings)
    (Assembler.set_outer_rings
       (fun l => l ++ registered true (length done) rings)
       (Assembler.set_inner_rings
          (fun l => l ++ registered false (length done) rings) st)).

Lemma classify_rings_eq (todo : list ProtoRing.t) :
  forall (snapshot done : list ProtoRing.t) (st : Assembler.t),
    length snapshot = length todo ->
    Assembler.m_rings st = done ++ todo ->
    classify_rings (length done) snapshot st
    = (tt, classified_state done todo st).
Proof.
  induction todo as [|r0 todo IH]; intros snapshot done st Hlen Hrings.
  - destruct snapshot; [|done]. cbn [classify_rings mret M_ret].
    unfold classified_state. cbn [map registered]. rewrite app_nil_r in *.
    destruct st; cbn in *. unfold Assembler.set_rings,
      Assembler.set_outer_rings, Assembler.set_inner_rings; cbn.
    by rewrite !app_nil_r, Hrings.
  - destruct snapshot as [|s snapshot]; [done|].
    cbn [classify_rings]. unfold bindM.
    assert (Hn : Assembler.m_rings st !! length done = Some r0).
    { rewrite Hrings, lookup_app_r by lia. by rewrite Nat.sub_diag. }
    rewrite (classify_ring_eq _ _ r0 Hn). cbn zeta.
    set (r' := classify (Assembler.m_segment_list st) r0).
    set (st1 := register _ _ _).
    assert (Hst1 : Assembler.m_rings st1 = (done ++ [r']) ++ todo).
    { subst st1. unfold register.
      destruct (ProtoRing.outer r'); cbn; rewrite Hrings;
        rewrite insert_app_r_alt by lia;
        by rewrite Nat.sub_diag, <- app_assoc. }
    assert (Hsegs : Assembler.m_segment_list st1 = Assembler.m_segment_list st).
    { subst st1. unfold register. by destruct (ProtoRing.outer r'). }
    specialize (IH snapshot (done ++ [r']) st1).
    rewrite length_app in IH. cbn [length] in IH.
    rewrite Nat.add_1_r in IH. rewrite IH by (done || by injection Hlen).
    f_equal. unfold classified_state. rewrite Hsegs.
    rewrite length_app. cbn [length map registered]. fold r'.
    rewrite Nat.add_1_r.
    subst st1. unfold register. clear IH Hst1 Hsegs Hn.
    destruct st as [rep dbg segs rings oid outs ins mm].
    unfold Assembler.set_rings, Assembler.set_outer_rings,
      Assembler.set_inner_rings.
    destruct (ProtoRing.outer r') eqn:Ho; cbn;
      by rewrite <- !app_assoc.
Qed.
End Classification.

(** ** Nesting *)

Section Nesting.
Context {G : Geometry}.

(** [inner->is_in(outer)] on the rings behind two pointers. *)
Definition encloses (st : Assembler.t) (inner outer : nat) : bool :=
  is_in (ProtoRing.segments (ring_of st inner))
        (ProtoRing.segments (ring_of st outer)).

(** The first ring of [outers], in the order of that list, that
    geometrically contains the ring [inner]. *)
Definition first_enclosing (st : Assembler.t) (outers : list nat)
    (inner : nat) : option nat :=
  List.find (encloses st inner) outers.

(** The ring list after every ring [i] of [inners] has been added to the
    inner rings of its target, if it has one. *)
Definition attach (target : nat -> option nat) (inners : list nat)
    (rings : list ProtoRing.t) : list ProtoRing.t :=
  foldl (fun rings i =>
           match target i with
           | Some o => alter (ProtoRing.add_inner_ring i) o rings
           | None => rings
           end)
        rings inners.

Lemma attach_ext (t1 t2 : nat -> option nat) (inners : list nat)
    (rings : list ProtoRing.t) :
  (forall i, t1 i = t2 i) -> attach t1 inners rings = attach t2 inners rings.
Proof.
  intros Ht. revert rings. induction inners as [|i inners IH]; intros rings;
    [done|].
  unfold attach in *. cbn [foldl]. rewrite Ht. apply IH.
Qed.

Lemma attach_lookup (target : nat -> option nat) (inners : list nat)
    (rings : list ProtoRing.t) (k : nat) :
  attach target inners rings !! k
  = (fun r => ProtoRing.mk (ProtoRing.segments r) (ProtoRing.m_outer r)
                (ProtoRing.m_inner r
                 ++ filter (fun i => target i = Some k) inners))
    <$> rings !! k.
Proof.
  revert rings. induction inners as [|i inners IH]; intros rings.
  - cbn. destruct (rings !! k) as [[]|]; [|done]. cbn.
    by rewrite app_nil_r.
  - unfold attach in *. cbn [foldl]. rewrite IH. rewrite filter_cons.
    destruct (target i) as [o|] eqn:Ht.
    + destruct (decide (o = k)) as [->|Hne].
      * rewrite list_lookup_alter_eq. rewrite decide_True by done.
        destruct (rings !! k) as [[]|]; [|done]. cbn.
        by rewrite <- app_assoc.
      * rewrite list_lookup_alter_ne by done.
        rewrite decide_False by congruence. done.
    + by rewrite decide_False by congruence.
Qed.

Lemma segments_attach (target : nat -> option nat) (inners : list nat)
    (st : Assembler.t) (k : nat) :
  ProtoRing.segments
    (ring_of (Assembler.set_rings (attach target inners) st) k)
  = ProtoRing.segments (ring_of st k).
Proof.
  unfold ring_of. cbn [Assembler.set_rings Assembler.m_rings].
  rewrite attach_lookup. by destruct (Assembler.m_rings st !! k).
Qed.

Lemma first_enclosing_attach (target : nat -> option nat)
    (inners : list nat) (st : Assembler.t) (outers : list nat) (i : nat) :
  first_enclosing (Assembler.set_rings (attach target inners) st) outers i
  = first_enclosing st outers i.
Proof.
  unfold first_enclosing. induction outers as [|o outers IH]; [done|].
  cbn [find]. unfold encloses at 1 3. rewrite !segments_attach.
  by rewrite IH.
Qed.

Lemma set_rings_set_rings (f g : list ProtoRing.t -> list ProtoRing.t)
    (st : Assembler.t) :
  Assembler.set_rings f (Assembler.set_rings g st)
  = Assembler.set_rings (fun l => f (g l)) st.
Proof. done. Qed.

Lemma set_rings_ext (f g : list ProtoRing.t -> list ProtoRing.t)
    (st : Assembler.t) :
  f (Assembler.m_rings st) = g (Assembler.m_rings st) ->
  Assembler.set_rings f st = Assembler.set_rings g st.
Proof. intros Hfg. unfold Assembler.set_rings. by rewrite Hfg. Qed.

Lemma set_rings_id (st : Assembler.t) :
  Assembler.set_rings (fun l => l) st = st.
Proof. by destruct st. Qed.

Lemma add_to_first_outer_containing_eq (inner : nat) (outers : list nat)
    (st : Assembler.t) :
  add_to_first_outer_containing inner outers st
  = (tt, Assembler.set_rings
           (attach (first_enclosing st outers) [inner]) st).
Proof.
  induction outers as [|o outers IH].
  - cbn. by rewrite set_rings_id.
  - cbn [add_to_first_outer_containing]. unfold bindM, ring_at, gets.
    fold (ring_of st inner) (ring_of st o).
    unfold first_enclosing, attach in *. cbn [find foldl] in *.
    unfold encloses at 1.
    destruct (is_in _ _); [done|]. by rewrite IH.
Qed.

Lemma for_each_first_outer_containing (inners outers : list nat)
    (st : Assembler.t) :
  for_each inners (fun inner => add_to_first_outer_containing inner outers) st
  = (tt, Assembler.set_rings (attach (first_enclosing st outers) inners) st).
Proof.
  revert st. induction inners as [|i inners IH]; intros st.
  - cbn. by rewrite set_rings_id.
  - cbn [for_each]. unfold bindM.
    rewrite add_to_first_outer_containing_eq, IH, set_rings_set_rings.
    f_equal. apply set_rings_ext.
    erewrite attach_ext; [done|]. intros j. cbn beta.
    apply first_enclosing_attach.
Qed.

Lemma for_each_single_outer (inners : list nat) (o : nat) (st : Assembler.t) :
  for_each inners
    (fun inner => modify_ring o (ProtoRing.add_inner_ring inner)) st
  = (tt, Assembler.set_rings (attach (fun _ => Some o) inners) st).
Proof.
  revert st. induction inners as [|i inners IH]; intros st.
  - cbn. by rewrite set_rings_id.
  - cbn [for_each]. unfold bindM, modify_ring, modify.
    by rewrite IH, set_rings_set_rings.
Qed.

(** The assembler after lines 798-815. *)
Definition nested_state (st : Assembler.t) : Assembler.t :=
  let inners := Assembler.m_inner_rings st in
  match Assembler.m_outer_rings st with
  | [o] => Assembler.set_rings (attach (fun _ => Some o) inners) st
  | outers =>
      let sorted := std_sort (smaller_area st) outers in
      Assembler.set_rings (attach (first_enclosing st sorted) inners)
        (Assembler.set_outer_rings (fun _ => sorted) st)
  end.

Lemma assign_inner_rings_eq (st : Assembler.t) :
  assign_inner_rings st = (tt, nested_state st).
Proof.
  unfold assign_inner_rings, nested_state, bindM, gets, modify.
  destruct (Assembler.m_outer_rings st) as [|o [|o' outers]] eqn:Ho;
    cbn [length Nat.eqb head default].
  - rewrite for_each_first_outer_containing.
    unfold Assembler.set_outer_rings. cbn [Assembler.m_outer_rings].
    by rewrite Ho.
  - apply for_each_single_outer.
  - rewrite for_each_first_outer_containing.
    unfold Assembler.set_outer_rings. cbn [Assembler.m_outer_rings].
    by rewrite Ho.
Qed.
End Nesting.

(** ** The role audit and the end of [stage2] *)

Section Audit.
Context {G : Geometry} (in_buffer : nat -> Way.t).

(** The role audit counts mismatches and reports them; it leaves the
    rings and their classification alone. *)
Definition audit_step (st st' : Assembler.t) : Prop :=
  exists m ps,
    st' = report_all ps (Assembler.set_mismatches (fun _ => m) st).

Lemma audit_step_refl (st : Assembler.t) : audit_step st st.
Proof.
  exists (Assembler.m_inner_outer_mismatches st), [].
  rewrite report_all_nil. by destruct st.
Qed.

Lemma audit_step_trans (st1 st2 st3 : Assembler.t) :
  audit_step st1 st2 -> audit_step st2 st3 -> audit_step st1 st3.
Proof.
  intros (m1 & ps & ->) (m2 & qs & ->). exists m2, (ps ++ qs).
  destruct st1 as [[l|] ? ? ? ? ? ? ?];
    unfold report_all, Assembler.set_problem_reporter,
      Assembler.set_mismatches; cbn; by rewrite ?app_assoc.
Qed.

Lemma audit_step_check_role (outer : bool) (segment : NodeRefSegment.t)
    (st : Assembler.t) :
  audit_step st (snd (check_role in_buffer outer segment st)).
Proof.
  unfold check_role. destruct (negb _); [|apply audit_step_refl].
  unfold bindM, modify, gets. rewrite report_eq. cbn [snd].
  by eexists _, _.
Qed.

Lemma audit_step_for_each {A : Type} (l : list A) (f : A -> M unit) :
  (forall a st, audit_step st (snd (f a st))) ->
  forall st, audit_step st (snd (for_each l f st)).
Proof.
  intros Hf. induction l as [|a l IH]; intros st; cbn [for_each].
  - apply audit_step_refl.
  - unfold bindM. specialize (Hf a st). destruct (f a st) as [[] st1].
    eapply audit_step_trans; [exact Hf|apply IH].
Qed.

Lemma audit_step_check_inner_outer_roles (st : Assembler.t) :
  audit_step st (snd (check_inner_outer_roles in_buffer st)).
Proof.
  unfold check_inner_outer_roles, bindM, gets.
  pose proof (audit_step_for_each (Assembler.m_outer_rings st)
    (fun ringptr =>
       ring <- ring_at ringptr;
       for_each (ProtoRing.segments ring) (check_role in_buffer true))) as H1.
  match type of H1 with ?P -> _ => assert (Hp : P) end.
  { intros a s. unfold bindM, ring_at, gets.
    apply audit_step_for_each, audit_step_check_role. }
  specialize (H1 Hp st). destruct (for_each _ _ st) as [[] st1].
  eapply audit_step_trans; [exact H1|].
  apply audit_step_for_each. intros a s. unfold bindM, ring_at, gets.
  apply audit_step_for_each, audit_step_check_role.
Qed.

Lemma find_inner_outer_eq (st : Assembler.t) :
  find_inner_outer st
  = (tt, match Assembler.m_rings st with
         | [_] => Assembler.set_outer_rings (fun l => l ++ [0]) st
         | rings => nested_state (classified_state [] rings st)
         end).
Proof.
  unfold find_inner_outer, bindM, gets.
  destruct (Assembler.m_rings st) as [|r [|r' rings]] eqn:Hr;
    cbn [length Nat.eqb]; [|done|].
  - by rewrite (classify_rings_eq [] [] [] st), assign_inner_rings_eq.
  - rewrite (classify_rings_eq (r :: r' :: rings) (r :: r' :: rings) [] st)
      by done.
    by rewrite assign_inner_rings_eq.
Qed.

(** A successful [stage2]: no intersection, no open ring, and the
    assembler it leaves. *)
Lemma stage2_success (st0 st' : Assembler.t) :
  stage2 in_buffer st0 = (true, st') ->
  let st3 := stitched in_buffer st0 in
  fst (find_intersections in_buffer (prepared st0)) = false
  /\ open_rings st3 = []
  /\ audit_step (snd (find_inner_outer st3)) st'.
Proof.
  rewrite stage2_eq. intros Hst. cbn zeta.
  destruct (fst (find_intersections in_buffer (prepared st0))); [done|].
  unfold classified, checked in Hst.
  rewrite check_for_open_rings_eq in Hst. cbn [fst snd] in Hst.
  destruct (open_rings (stitched in_buffer st0)) eqn:Ho; [|done].
  cbn [nonempty map] in Hst. rewrite report_all_nil in Hst.
  injection Hst as <-. split; [done|]. split; [done|].
  apply audit_step_check_inner_outer_roles.
Qed.


Lemma audit_step_fields (st st' : Assembler.t) :
  audit_step st st' ->
  Assembler.m_rings st' = Assembler.m_rings st
  /\ Assembler.m_outer_rings st' = Assembler.m_outer_rings st
  /\ Assembler.m_inner_rings st' = Assembler.m_inner_rings st
  /\ Assembler.m_segment_list st' = Assembler.m_segment_list st.
Proof. by intros (m & ps & ->). Qed.

Lemma audit_step_emitted (st st' : Assembler.t) :
  audit_step st st' -> emitted_rings st' = emitted_rings st.
Proof. by intros (m & ps & ->). Qed.
End Audit.

(** ** A single ring *)

Section SingleRing.
Context {G : Geometry} (in_buffer : nat -> Way.t).

End SingleRing.

(** ** The rings of a successful assembly *)

Section Classified.
Context {G : Geometry} (in_buffer : nat -> Way.t).

Lemma elem_of_registered (b : bool) (k i : nat) (rings : list ProtoRing.t) :
  i ∈ registered b k rings
  <-> k <= i /\ exists r, rings !! (i - k) = Some r /\ ProtoRing.outer r = b.
Proof.
  revert k. induction rings as [|r rings IH]; intros k;
    cbn [registered].
  - split; [by intros ?%elem_of_nil|]. by intros (_ & r & ? & _).
  - rewrite elem_of_app, IH. split.
    + intros [Hin|(Hle & r' & Hr' & Ho)].
      * destruct (Bool.eqb (ProtoRing.outer r) b) eqn:Hb;
          [|by apply elem_of_nil in Hin].
        apply list_elem_of_singleton in Hin as ->. split; [done|].
        exists r. rewrite Nat.sub_diag. split; [done|].
        by apply Bool.eqb_prop.
      * split; [lia|]. exists r'. split; [|done].
        replace (i - k) with (S (i - S k)) by lia. done.
    + intros (Hle & r' & Hr' & Ho).
      destruct (decide (i = k)) as [->|Hne].
      * left. rewrite Nat.sub_diag in Hr'. injection Hr' as ->.
        rewrite Ho, Bool.eqb_reflx. by apply list_elem_of_singleton.
      * right. split; [lia|]. exists r'. split; [|done].
        replace (i - k) with (S (i - S k)) in Hr' by lia. done.
Qed.

Lemma length_attach (target : nat -> option nat) (inners : list nat)
    (rings : list ProtoRing.t) :
  length (attach target inners rings) = length rings.
Proof.
  revert rings. induction inners as [|i inners IH]; intros rings; [done|].
  unfold attach in *. cbn [foldl]. rewrite IH.
  destruct (target i); [apply length_alter|done].
Qed.

Lemma outer_set_inner_is_cw (r : ProtoRing.t) :
  ProtoRing.is_cw (ProtoRing.set_inner r) = ProtoRing.is_cw r.
Proof. done. Qed.

Lemma is_cw_reverse_of_ccw (r : ProtoRing.t) :
  ProtoRing.is_cw r = false -> ProtoRing.is_cw (ProtoRing.reverse r) = true.
Proof.
  unfold ProtoRing.is_cw. rewrite sum_reverse. intros H.
  apply Z.leb_gt in H. apply Z.leb_le. lia.
Qed.

(** An outer ring leaves the loop clockwise. *)
Lemma classify_outer_cw (segs : SegmentList.t) (r0 : ProtoRing.t) :
  ProtoRing.outer (classify segs r0) = true ->
  ProtoRing.is_cw (classify segs r0) = true.
Proof.
  unfold classify, reversed_by_stage2.
  set (r := if is_inner segs r0 then ProtoRing.set_inner r0 else r0).
  destruct (ProtoRing.outer r) eqn:Ho.
  - intros _. destruct (ProtoRing.is_cw r) eqn:Hcw; cbn [negb]; [done|].
    by apply is_cw_reverse_of_ccw.
  - destruct (ProtoRing.is_cw r); rewrite ?outer_reverse, Ho; done.
Qed.

(** An inner ring leaves the loop with a signed area that is not
    negative: counter-clockwise, or of area zero. *)
Lemma classify_inner_ccw (segs : SegmentList.t) (r0 : ProtoRing.t) :
  ProtoRing.outer (classify segs r0) = false ->
  (0 <= ProtoRing.sum (classify segs r0))%Z.
Proof.
  unfold classify, reversed_by_stage2.
  set (r := if is_inner segs r0 then ProtoRing.set_inner r0 else r0).
  destruct (ProtoRing.outer r) eqn:Ho.
  - destruct (negb (ProtoRing.is_cw r)); rewrite ?outer_reverse, Ho; done.
  - intros _. destruct (ProtoRing.is_cw r) eqn:Hcw.
    + rewrite sum_reverse. apply Z.leb_le in Hcw. lia.
    + apply Z.leb_gt in Hcw. lia.
Qed.

Lemma closed_set_inner (r : ProtoRing.t) :
  ProtoRing.closed (ProtoRing.set_inner r) = ProtoRing.closed r.
Proof. done. Qed.

Lemma closed_classify (segs : SegmentList.t) (r0 : ProtoRing.t) :
  ProtoRing.closed (classify segs r0) = ProtoRing.closed r0.
Proof.
  unfold classify. destruct (is_inner segs r0);
    destruct (reversed_by_stage2 _);
    by rewrite ?closed_reverse, ?closed_set_inner.
Qed.

Lemma m_inner_classify (segs : SegmentList.t) (r0 : ProtoRing.t) :
  ProtoRing.m_inner (classify segs r0) = ProtoRing.m_inner r0.
Proof.
  unfold classify. by destruct (is_inner segs r0);
    destruct (reversed_by_stage2 _).
Qed.

(** What the loop does to the segments of a ring: it reverses an outer
    ring that is not clockwise and an inner ring that is clockwise, and
    leaves every other ring as it is. *)
Lemma segments_classify (segs : SegmentList.t) (r0 : ProtoRing.t) :
  ProtoRing.segments (classify segs r0)
  = ProtoRing.segments
      (if (if ProtoRing.outer (classify segs r0)
           then negb (ProtoRing.is_cw r0) else ProtoRing.is_cw r0)
       then ProtoRing.reverse r0 else r0).
Proof.
  unfold classify, reversed_by_stage2.
  destruct (is_inner segs r0).
  - rewrite outer_set_inner_is_cw.
    destruct (ProtoRing.is_cw r0); cbn; done.
  - destruct (ProtoRing.outer r0) eqn:Ho;
      destruct (ProtoRing.is_cw r0); cbn [negb];
      rewrite ?outer_reverse, ?Ho; done.
Qed.

(** The same ring up to its list of inner rings. *)
Definition same_ring (r r' : ProtoRing.t) : Prop :=
  ProtoRing.segments r' = ProtoRing.segments r
  /\ ProtoRing.m_outer r' = ProtoRing.m_outer r.

Lemma same_ring_facts (r r' : ProtoRing.t) :
  same_ring r r' ->
  ProtoRing.closed r' = ProtoRing.closed r
  /\ ProtoRing.is_cw r' = ProtoRing.is_cw r
  /\ ProtoRing.sum r' = ProtoRing.sum r
  /\ ProtoRing.area r' = ProtoRing.area r
  /\ ProtoRing.node_refs r' = ProtoRing.node_refs r
  /\ ProtoRing.outer r' = ProtoRing.outer r.
Proof.
  intros [Hs Ho].
  unfold ProtoRing.closed, ProtoRing.is_cw, ProtoRing.sum, ProtoRing.area,
    ProtoRing.node_refs, ProtoRing.first_segment, ProtoRing.last_segment,
    ProtoRing.outer.
  by rewrite Hs, Ho.
Qed.

(** The outcome of lines 780-816 for a ring list that is not a single
    ring, read off the rings as the stitching left them. *)
Definition multi_ring_outcome (st3 st' : Assembler.t) : Prop :=
  let rings := map (classify (Assembler.m_segment_list st3))
                   (Assembler.m_rings st3) in
  let outers := registered true 0 rings in
  let inners := registered false 0 rings in
  let stc := classified_state [] (Assembler.m_rings st3) st3 in
  Assembler.m_inner_rings st' = inners
  /\ ((exists o, outers = [o]
                 /\ Assembler.m_outer_rings st' = [o]
                 /\ Assembler.m_rings st'
                    = attach (fun _ => Some o) inners rings)
      \/ (length outers <> 1
          /\ Assembler.m_outer_rings st'
             = std_sort (smaller_area stc) outers
          /\ Assembler.m_rings st'
             = attach (first_enclosing stc
                         (std_sort (smaller_area stc) outers))
                      inners rings)).

Lemma stage2_success_multi (src : Source) (st st' : Assembler.t) :
  let st3 := stitched in_buffer (stage2_input in_buffer src st) in
  stage2 in_buffer (stage2_input in_buffer src st) = (true, st') ->
  length (Assembler.m_rings st') <> 1 ->
  Forall fresh (Assembler.m_rings st3)
  /\ Forall (fun r => ProtoRing.closed r = true) (Assembler.m_rings st3)
  /\ multi_ring_outcome st3 st'.
Proof.
  intros st3 Hst Hlen.
  destruct (stage2_success in_buffer _ _ Hst) as (_ & Hopen & Haudit).
  fold st3 in Hopen, Haudit.
  destruct (stitched_fields in_buffer src st) as (Hfresh & Ho & Hi & _).
  fold st3 in Hfresh, Ho, Hi.
  split; [done|]. split.
  { unfold open_rings in Hopen. apply Forall_forall. intros r Hr.
    destruct (ProtoRing.closed r) eqn:Hc; [done|].
    assert (Hin : In r (List.filter is_open (Assembler.m_rings st3))).
    { apply filter_In. split; [by apply list_elem_of_In|].
      unfold is_open. by rewrite Hc. }
    rewrite Hopen in Hin. done. }
  destruct (audit_step_fields _ _ Haudit) as (Hr' & Ho' & Hi' & _).
  rewrite find_inner_outer_eq in Hr', Ho', Hi'. cbn [snd] in Hr', Ho', Hi'.
  assert (Hmulti :
    forall rings3, Assembler.m_rings st3 = rings3 -> length rings3 <> 1 ->
      Assembler.m_rings st'
      = Assembler.m_rings (nested_state (classified_state [] rings3 st3))
      /\ Assembler.m_outer_rings st'
         = Assembler.m_outer_rings
             (nested_state (classified_state [] rings3 st3))
      /\ Assembler.m_inner_rings st'
         = Assembler.m_inner_rings
             (nested_state (classified_state [] rings3 st3))).
  { intros rings3 Heq Hne. rewrite Heq in Hr', Ho', Hi'.
    destruct rings3 as [|r [|r' rings3]]; done. }
  assert (Hne : length (Assembler.m_rings st3) <> 1).
  { intros Hone. apply Hlen. rewrite Hr'.
    destruct (Assembler.m_rings st3) as [|r [|r' rings3]] eqn:E; [done| |done].
    cbn. by rewrite E. }
  destruct (Hmulti _ eq_refl Hne) as (Hr & Hout & Hinn). clear Hmulti.
  unfold multi_ring_outcome. cbn zeta.
  set (stc := classified_state [] (Assembler.m_rings st3) st3) in *.
  set (rings := map (classify (Assembler.m_segment_list st3))
                    (Assembler.m_rings st3)) in *.
  assert (Hc_rings : Assembler.m_rings stc = rings) by done.
  assert (Hc_out : Assembler.m_outer_rings stc = registered true 0 rings).
  { subst stc. unfold classified_state. cbn. by rewrite Ho. }
  assert (Hc_inn : Assembler.m_inner_rings stc = registered false 0 rings).
  { subst stc. unfold classified_state. cbn. by rewrite Hi. }
  assert (Hinn' : Assembler.m_inner_rings st' = registered false 0 rings).
  { rewrite Hinn, <- Hc_inn. unfold nested_state.
    by destruct (Assembler.m_outer_rings stc) as [|o [|o' outers]]. }
  split; [done|]. clear Hinn.
  unfold nested_state in Hr, Hout.
  rewrite Hc_out, Hc_inn in *.
  destruct (registered true 0 rings) as [|o [|o' outers]] eqn:Hreg;
    cbn [Assembler.m_rings Assembler.set_rings Assembler.m_outer_rings
         Assembler.set_outer_rings] in Hr, Hout; rewrite ?Hc_rings in Hr.
  - right. done.
  - left. exists o. by rewrite Hout, Hc_out.
  - right. done.
Qed.
End Classified.

Section MultiRing.
Context {G : Geometry} (in_buffer : nat -> Way.t).

Lemma ring_of_rings (s1 s2 : Assembler.t) (k : nat) :
  Assembler.m_rings s1 = Assembler.m_rings s2 -> ring_of s1 k = ring_of s2 k.
Proof. unfold ring_of. by intros ->. Qed.

Lemma Sorted_weaken {A : Type} (R1 R2 : A -> A -> Prop) (l : list A) :
  (forall a b, R1 a b -> R2 a b) -> Sorted R1 l -> Sorted R2 l.
Proof.
  intros HR. induction 1 as [|a l Hl IH Hhd]; constructor; [done|].
  destruct Hhd; constructor. by apply HR.
Qed.

(** The rings of a successful [stage2] over more than one ring, ring by
    ring: [target] says to which outer ring an inner ring went. *)
Lemma multi_ring_rings (st3 st' : Assembler.t) :
  Forall fresh (Assembler.m_rings st3) ->
  multi_ring_outcome st3 st' ->
  let rings := map (classify (Assembler.m_segment_list st3))
                   (Assembler.m_rings st3) in
  let outers := registered true 0 rings in
  let inners := registered false 0 rings in
  exists target,
    ((exists o, Assembler.m_outer_rings st' = [o] /\ outers = [o]
                /\ target = (fun _ => Some o))
     \/ (length (Assembler.m_outer_rings st') <> 1
         /\ Permutation (Assembler.m_outer_rings st') outers
         /\ Sorted (fun a b => (ProtoRing.area (ring_of st' a)
                                <= ProtoRing.area (ring_of st' b))%Z)
                   (Assembler.m_outer_rings st')
         /\ target = first_enclosing st' (Assembler.m_outer_rings st')))
    /\ Assembler.m_inner_rings st' = inners
    /\ (forall k, same_ring (default (ProtoRing.of_segments []) (rings !! k))
                            (ring_of st' k))
    /\ (forall k r, rings !! k = Some r ->
                    ProtoRing.m_inner (ring_of st' k)
                    = filter (fun i => target i = Some k) inners).
Proof.
  intros Hfresh (Hinn & Hcases). cbn zeta.
  set (rings := map (classify (Assembler.m_segment_list st3))
                    (Assembler.m_rings st3)) in *.
  set (stc := classified_state [] (Assembler.m_rings st3) st3) in *.
  assert (Hgen : forall target,
    Assembler.m_rings st' = attach target (registered false 0 rings) rings ->
    (forall k, same_ring (default (ProtoRing.of_segments []) (rings !! k))
                         (ring_of st' k))
    /\ (forall k r, rings !! k = Some r ->
                    ProtoRing.m_inner (ring_of st' k)
                    = filter (fun i => target i = Some k)
                             (registered false 0 rings))).
  { intros target Hr. split.
    - intros k. unfold ring_of. rewrite Hr, attach_lookup.
      by destruct (rings !! k).
    - intros k r Hk. unfold ring_of. rewrite Hr, attach_lookup, Hk. cbn.
      subst rings. rewrite list_lookup_fmap in Hk.
      destruct (Assembler.m_rings st3 !! k) as [r0|] eqn:Hk0; [|done].
      injection Hk as <-. rewrite m_inner_classify.
      rewrite Forall_lookup in Hfresh.
      destruct (Hfresh k r0 Hk0) as [_ ->]. done. }
  destruct Hcases as [(o & Hreg & Hout & Hr)|(Hlen & Hout & Hr)].
  - exists (fun _ => Some o). split; [left; by exists o|].
    split; [done|]. by apply Hgen.
  - destruct (Hgen _ Hr) as [Hsame Hinner].
    assert (Hsegs : forall k, ProtoRing.segments (ring_of st' k)
                              = ProtoRing.segments (ring_of stc k)).
    { intros k. destruct (Hsame k) as [-> _]. done. }
    assert (Henc : forall outers i,
              first_enclosing st' outers i = first_enclosing stc outers i).
    { intros outers i. unfold first_enclosing.
      induction outers as [|o outers IH]; [done|]. cbn [find].
      unfold encloses at 1 3. by rewrite !Hsegs, IH. }
    exists (first_enclosing st' (Assembler.m_outer_rings st')).
    split; [right|split; [done|split; [done|]]].
    + split; [by rewrite Hout, length_std_sort|].
      split; [rewrite Hout; apply std_sort_perm|]. split; [|done].
      rewrite Hout.
      eapply Sorted_weaken; [|apply std_sort_sorted].
      * intros a b Hab. unfold not_after, smaller_area in Hab.
        apply Z.ltb_ge in Hab. unfold ProtoRing.area.
        by rewrite !Hsegs.
      * intros a b Hab. unfold smaller_area in *.
        apply Z.ltb_lt in Hab. apply Z.ltb_ge. lia.
    + intros k r Hk. rewrite (Hinner k r Hk).
      apply list_filter_iff. intros i. by rewrite Henc, Hout.
Qed.
End MultiRing.

(** ** Winding and nesting of the emitted rings *)

Section Winding.
Context {G : Geometry} (in_buffer : nat -> Way.t).

Lemma area_of_rings (src : Source) (st' : Assembler.t) :
  Area.rings (area_of in_buffer src true st') = emitted_rings st'.
Proof. unfold area_of. rewrite with_tags_and_rings_eq. done. Qed.

(** The rings of a successful [stage2] over more than one ring: each ring
    of the ring list is the ring the stitching left at that position,
    closed, registered as outer or as inner according to its flag, and
    reversed or not by the loop after classification; and every ring
    handed to a ring builder is a registered ring. *)
Lemma normalised_rings (src : Source) (st st' : Assembler.t) :
  let st0 := stage2_input in_buffer src st in
  stage2 in_buffer st0 = (true, st') ->
  length (Assembler.m_rings st') <> 1 ->
  (forall n r0,
      Assembler.m_rings (stitched in_buffer st0) !! n = Some r0 ->
      exists r1,
        Assembler.m_rings st' !! n = Some r1
        /\ ProtoRing.closed r1 = true
        /\ (n ∈ Assembler.m_outer_rings st' <-> ProtoRing.outer r1 = true)
        /\ (n ∈ Assembler.m_inner_rings st' <-> ProtoRing.outer r1 = false)
        /\ ProtoRing.segments r1
           = ProtoRing.segments
               (if (if ProtoRing.outer r1 then negb (ProtoRing.is_cw r0)
                    else ProtoRing.is_cw r0)
                then ProtoRing.reverse r0 else r0)
        /\ (ProtoRing.outer r1 = true -> ProtoRing.is_cw r1 = true)
        /\ (ProtoRing.outer r1 = false -> (0 <= ProtoRing.sum r1)%Z))
  /\ (forall item, item ∈ emitted_rings st' ->
        exists n r0,
          Assembler.m_rings (stitched in_buffer st0) !! n = Some r0
          /\ ((item = OuterRing (ProtoRing.node_refs (ring_of st' n))
               /\ n ∈ Assembler.m_outer_rings st')
              \/ (item = InnerRing (ProtoRing.node_refs (ring_of st' n))
                  /\ n ∈ Assembler.m_inner_rings st'))).
Proof.
  intros st0 Hst Hlen.
  destruct (stage2_success_multi in_buffer src st st' Hst Hlen)
    as (Hfresh & Hclosed & Hout).
  fold st0 in Hfresh, Hclosed, Hout.
  set (st3 := stitched in_buffer st0) in *.
  destruct (multi_ring_rings st3 st' Hfresh Hout)
    as (target & Hcases & Hinn & Hsame & Hinner).
  set (segs := Assembler.m_segment_list st3) in *.
  set (rings := map (classify segs) (Assembler.m_rings st3)) in *.
  assert (Hring : forall k r0,
    Assembler.m_rings st3 !! k = Some r0 ->
    rings !! k = Some (classify segs r0)
    /\ same_ring (classify segs r0) (ring_of st' k)
    /\ ProtoRing.closed r0 = true).
  { intros k r0 Hk.
    assert (Hk' : rings !! k = Some (classify segs r0))
      by (subst rings; by rewrite list_lookup_fmap, Hk).
    split; [done|]. split.
    - specialize (Hsame k). by rewrite Hk' in Hsame.
    - rewrite Forall_lookup in Hclosed. by eapply Hclosed. }
  assert (Hreg : forall b k, k ∈ registered b 0 rings ->
    exists r0, Assembler.m_rings st3 !! k = Some r0
               /\ ProtoRing.outer (classify segs r0) = b).
  { intros b k (_ & r & Hk & Ho)%elem_of_registered.
    rewrite Nat.sub_0_r in Hk. subst rings.
    rewrite list_lookup_fmap in Hk.
    destruct (Assembler.m_rings st3 !! k) as [r0|]; [|done].
    injection Hk as <-. by exists r0. }
  assert (Houters : forall o, o ∈ Assembler.m_outer_rings st'
                              <-> o ∈ registered true 0 rings).
  { intros o. destruct Hcases as [(o' & Ho' & Hr & _)|(_ & Hp & _)].
    - by rewrite Hr, <- Ho'.
    - by rewrite Hp. }
  assert (Hflag : forall b k r0,
    Assembler.m_rings st3 !! k = Some r0 ->
    k ∈ registered b 0 rings <-> ProtoRing.outer (classify segs r0) = b).
  { intros b k r0 Hk. destruct (Hring k r0 Hk) as (Hk' & _).
    rewrite elem_of_registered, Nat.sub_0_r, Hk'. split.
    - by intros (_ & r & [= <-] & ?).
    - intros Hb. split; [lia|]. by eexists. }
  split.
  - intros n r0 Hn. destruct (Hring n r0 Hn) as (Hk & Hsr & Hcl).
    assert (Hlt : n < length (Assembler.m_rings st')).
    { destruct Hout as (_ & [(o & _ & _ & ->)|(_ & _ & ->)]);
        rewrite length_attach; subst rings; rewrite length_map;
        by eapply lookup_lt_Some. }
    apply lookup_lt_is_Some in Hlt as [r1 Hr1].
    exists r1. split; [done|].
    assert (Heq : ring_of st' n = r1) by (unfold ring_of; by rewrite Hr1).
    rewrite Heq in Hsr.
    destruct (same_ring_facts _ _ Hsr) as (Hc & Hcw & Hsum & _ & _ & Ho).
    destruct Hsr as [Hs _].
    split; [by rewrite Hc, closed_classify|].
    split; [by rewrite Houters, (Hflag true n r0 Hn), Ho|].
    split; [by rewrite Hinn, (Hflag false n r0 Hn), Ho|].
    split; [rewrite Hs, Ho; apply segments_classify|].
    split.
    + rewrite Ho, Hcw. apply classify_outer_cw.
    + rewrite Ho, Hsum. apply classify_inner_ccw.
  - intros item Hitem. unfold emitted_rings in Hitem.
    apply list_elem_of_In, in_flat_map in Hitem as (o & Ho & Hitem).
    apply list_elem_of_In in Ho. apply list_elem_of_In in Hitem.
    destruct (Hreg true o (proj1 (Houters o) Ho)) as (r0 & Hk & Hor).
    destruct (Hring o r0 Hk) as (Hk' & Hsr & Hcl).
    unfold ring_group in Hitem. apply elem_of_cons in Hitem as [->|Hitem].
    + exists o, r0. split; [done|]. by left.
    + apply list_elem_of_fmap in Hitem as (i & -> & Hi).
      unfold ProtoRing.inner_rings in Hi.
      rewrite (Hinner o _ Hk') in Hi.
      apply list_elem_of_filter in Hi as [_ Hi].
      destruct (Hreg false i Hi) as (ri & Hki & Hoi).
      exists i, ri. split; [done|]. right. split; [done|].
      by rewrite Hinn.
Qed.

Lemma stage2_success_single (src : Source) (st st' : Assembler.t)
    (ring : ProtoRing.t) :
  stage2 in_buffer (stage2_input in_buffer src st) = (true, st') ->
  Assembler.m_rings (stitched in_buffer (stage2_input in_buffer src st))
  = [ring] ->
  Assembler.m_rings st' = [ring]
  /\ Assembler.m_outer_rings st' = [0]
  /\ Assembler.m_inner_rings st' = []
  /\ fresh ring.
Proof.
  intros Hst Hrings.
  destruct (stage2_success in_buffer _ _ Hst) as (_ & _ & Haudit).
  rewrite find_inner_outer_eq, Hrings in Haudit. cbn [snd] in Haudit.
  destruct (stitched_fields in_buffer src st) as (Hfresh & Ho & Hi & _).
  destruct (audit_step_fields _ _ Haudit) as (Hr' & Ho' & Hi' & _).
  cbn in Hr', Ho', Hi'. rewrite Hrings in Hr'. rewrite Ho in Ho'.
  rewrite Hi in Hi'. rewrite Hrings in Hfresh.
  apply Forall_inv in Hfresh. done.
Qed.

Lemma stage2_rings_length (src : Source) (st st' : Assembler.t) :
  stage2 in_buffer (stage2_input in_buffer src st) = (true, st') ->
  length (Assembler.m_rings st')
  = length (Assembler.m_rings
              (stitched in_buffer (stage2_input in_buffer src st))).
Proof.
  intros Hst.
  destruct (stage2_success in_buffer _ _ Hst) as (_ & _ & Haudit).
  destruct (audit_step_fields _ _ Haudit) as (-> & _).
  rewrite find_inner_outer_eq. cbn [snd].
  destruct (Assembler.m_rings (stitched in_buffer _))
    as [|r [|r' rings]] eqn:Hr.
  - unfold nested_state.
    destruct (Assembler.m_outer_rings _) as [|o [|o' outers]];
      cbn [Assembler.m_rings Assembler.set_rings Assembler.set_outer_rings];
      by rewrite length_attach.
  - cbn. by rewrite Hr.
  - unfold nested_state.
    destruct (Assembler.m_outer_rings _) as [|o [|o' outers]];
      cbn [Assembler.m_rings Assembler.set_rings Assembler.set_outer_rings];
      rewrite length_attach; cbn; by rewrite length_map.
Qed.

(** C7. In a successful assembly: when the classification yields exactly
    one outer ring, its inner rings are all the inner rings, in the order
    of their classification, whatever the containment test would say;
    otherwise the outer rings are kept in ascending order of their
    polygon area, and the inner rings of an outer ring are exactly the
    inner rings for which it is the first ring in that order that
    geometrically contains them. *)
Theorem inner_rings_nesting (src : Source) (st st' : Assembler.t) :
  stage2 in_buffer (stage2_input in_buffer src st) = (true, st') ->
  let outers := Assembler.m_outer_rings st' in
  let inners := Assembler.m_inner_rings st' in
  (forall o, outers = [o] ->
             ProtoRing.inner_rings (ring_of st' o) = inners)
  /\ (length outers <> 1 ->
      Sorted (fun a b => (ProtoRing.area (ring_of st' a)
                          <= ProtoRing.area (ring_of st' b))%Z) outers
      /\ forall o, o ∈ outers ->
           ProtoRing.inner_rings (ring_of st' o)
           = filter (fun i => first_enclosing st' outers i = Some o) inners).
Proof.
  intros Hst.
  destruct (decide (length (Assembler.m_rings st') = 1)) as [Hone|Hlen].
  { rewrite (stage2_rings_length src st st' Hst) in Hone.
    destruct (Assembler.m_rings (stitched in_buffer _))
      as [|ring [|r' rings]] eqn:Hr; try done.
    destruct (stage2_success_single src st st' ring Hst Hr)
      as (Hr' & Ho' & Hi' & [_ Hin]).
    cbn zeta. rewrite Ho', Hi'. split; [|done].
    intros o [= <-]. unfold ring_of. by rewrite Hr'. }
  destruct (stage2_success_multi in_buffer src st st' Hst Hlen)
    as (Hfresh & Hclosed & Hout).
  set (st3 := stitched in_buffer (stage2_input in_buffer src st)) in *.
  destruct (multi_ring_rings st3 st' Hfresh Hout)
    as (target & Hcases & Hinn & Hsame & Hinner).
  set (rings := map (classify (Assembler.m_segment_list st3))
                    (Assembler.m_rings st3)) in *.
  assert (Hlookup : forall o, o ∈ registered true 0 rings ->
                              exists r, rings !! o = Some r).
  { intros o (_ & r & Hk & _)%elem_of_registered.
    rewrite Nat.sub_0_r in Hk. by exists r. }
  cbn zeta. rewrite Hinn.
  destruct Hcases as [(o & Ho & Hreg & ->)|(Hne & Hperm & Hsorted & ->)].
  - split.
    + intros o' Ho'. rewrite Ho in Ho'. injection Ho' as <-.
      destruct (Hlookup o) as [r Hr];
        [rewrite Hreg; by apply list_elem_of_singleton|].
      unfold ProtoRing.inner_rings. rewrite (Hinner o r Hr).
      generalize (registered false 0 rings). intros l.
      induction l as [|i l IH]; [done|].
      by rewrite filter_cons_True, IH.
    + rewrite Ho. done.
  - split; [intros o Ho; by rewrite Ho in Hne|].
    intros _. split; [done|]. intros o Ho.
    destruct (Hlookup o) as [r Hr]; [by rewrite <- Hperm|].
    unfold ProtoRing.inner_rings. by rewrite (Hinner o r Hr).
Qed.
End Winding.

(** ** Attaching a segment to the first matching ring *)

Section FirstMatch.
(** The four endpoint tests of [add_to_existing_ring], in the order in
    which they are made. *)
Inductive EndpointTest : Type :=
| LastIsFirst     (* ring.last == segment.first: append unchanged *)
| LastIsSecond    (* ring.last == segment.second: swap, append *)
| FirstIsFirst    (* ring.first == segment.first: swap, prepend *)
| FirstIsSecond.  (* ring.first == segment.second: prepend unchanged *)

Definition endpoint_tests : list EndpointTest :=
  [LastIsFirst; LastIsSecond; FirstIsFirst; FirstIsSecond].

Definition ring_end (t : EndpointTest) (ring : ProtoRing.t) : NodeRef.t :=
  match t with
  | LastIsFirst | LastIsSecond =>
      NodeRefSegment.second (ProtoRing.last_segment ring)
  | FirstIsFirst | FirstIsSecond =>
      NodeRefSegment.first (ProtoRing.first_segment ring)
  end.

Definition segment_end (t : EndpointTest) (segment : NodeRefSegment.t)
    : NodeRef.t :=
  match t with
  | LastIsFirst | FirstIsFirst => NodeRefSegment.first segment
  | LastIsSecond | FirstIsSecond => NodeRefSegment.second segment
  end.

Definition co_located (a b : NodeRef.t) : bool :=
  Location.eqb (NodeRef.location a) (NodeRef.location b).

Definition test_holds (ring : ProtoRing.t) (segment : NodeRefSegment.t)
    (t : EndpointTest) : bool :=
  co_located (ring_end t ring) (segment_end t segment).

(** The first of the four tests that holds. *)
Definition first_test (ring : ProtoRing.t) (segment : NodeRefSegment.t)
    : option EndpointTest :=
  List.find (test_holds ring segment) endpoint_tests.

(** The segment as it is attached, and the end it is attached to. *)
Definition oriented (t : EndpointTest) (segment : NodeRefSegment.t)
    : NodeRefSegment.t :=
  match t with
  | LastIsFirst | FirstIsSecond => segment
  | LastIsSecond | FirstIsFirst => NodeRefSegment.swap_locations segment
  end.

Definition at_end (t : EndpointTest) : bool :=
  match t with
  | LastIsFirst | LastIsSecond => true
  | FirstIsFirst | FirstIsSecond => false
  end.

(** A ring takes the segment: it is open and one of the tests holds. *)
Definition takes (segment : NodeRefSegment.t) (ring : ProtoRing.t) : Prop :=
  ProtoRing.closed ring = false /\ is_Some (first_test ring segment).

#[global] Instance takes_dec segment ring : Decision (takes segment ring).
Proof. unfold takes. apply _. Defined.

(** The first ring of the list, in list order, that takes the segment. *)
Definition first_match (rings : list ProtoRing.t)
    (segment : NodeRefSegment.t) : option (nat * ProtoRing.t) :=
  list_find (takes segment) rings.

(** What happens to a segment given the first match. *)
Definition attach_segment (segment : NodeRefSegment.t)
    (found : option (nat * ProtoRing.t)) (st : Assembler.t) : Assembler.t :=
  match found with
  | None =>
      Assembler.set_rings (fun l => l ++ [ProtoRing.of_segments [segment]]) st
  | Some (n, ring) =>
      match first_test ring segment with
      | Some t =>
          snd (combine_rings (oriented t segment) n (at_end t)
                 (snd (has_same_location (ring_end t ring)
                                         (segment_end t segment) st)))
      | None => st
      end
  end.

Lemma has_same_location_false (a b : NodeRef.t) (st : Assembler.t) :
  co_located a b = false -> has_same_location a b st = (false, st).
Proof. unfold has_same_location, co_located. by intros ->. Qed.

Lemma has_same_location_true (a b : NodeRef.t) (st : Assembler.t) :
  co_located a b = true -> fst (has_same_location a b st) = true.
Proof.
  unfold has_same_location, co_located. intros ->. cbn [negb].
  unfold bindM. by destruct (negb _).
Qed.

Lemma first_test_cases (ring : ProtoRing.t) (segment : NodeRefSegment.t) :
  first_test ring segment
  = if test_holds ring segment LastIsFirst then Some LastIsFirst
    else if test_holds ring segment LastIsSecond then Some LastIsSecond
    else if test_holds ring segment FirstIsFirst then Some FirstIsFirst
    else if test_holds ring segment FirstIsSecond then Some FirstIsSecond
    else None.
Proof. done. Qed.

(** One of the four tests of the loop body, when it holds. *)
Lemma endpoint_test_taken (t : EndpointTest) (ring : ProtoRing.t)
    (segment : NodeRefSegment.t) (n : nat) (st : Assembler.t)
    (otherwise : bool -> M bool) :
  test_holds ring segment t = true ->
  (same <- has_same_location (ring_end t ring) (segment_end t segment);
   if same then combine_rings (oriented t segment) n (at_end t);; mret true
   else otherwise same) st
  = (true,
     snd (combine_rings (oriented t segment) n (at_end t)
            (snd (has_same_location (ring_end t ring)
                                    (segment_end t segment) st)))).
Proof.
  intros Ht. unfold bindM.
  pose proof (has_same_location_true _ _ st Ht) as Hsame.
  destruct (has_same_location _ _ st) as [[|] st1]; [|done].
  cbn [snd]. by destruct (combine_rings _ _ _ st1) as [[] st2].
Qed.

Lemma endpoint_test_not_taken (t : EndpointTest) (ring : ProtoRing.t)
    (segment : NodeRefSegment.t) (st : Assembler.t)
    (taken otherwise : M bool) :
  test_holds ring segment t = false ->
  (same <- has_same_location (ring_end t ring) (segment_end t segment);
   if same then taken else otherwise) st
  = otherwise st.
Proof.
  intros Ht. unfold bindM. by rewrite has_same_location_false.
Qed.

Lemma add_to_existing_ring_loop_eq (segment : NodeRefSegment.t)
    (rings : list ProtoRing.t) (n : nat) (st : Assembler.t) :
  add_to_existing_ring_loop segment n rings st
  = match first_match rings segment with
    | None => (false, st)
    | Some (k, ring) =>
        (true, attach_segment segment (Some (n + k, ring)) st)
    end.
Proof.
  revert n. induction rings as [|ring rings IH]; intros n; [done|].
  cbn [add_to_existing_ring_loop]. unfold first_match in *.
  cbn [list_find].
  assert (Hskip :
    ~ takes segment ring ->
    add_to_existing_ring_loop segment (S n) rings st
    = match
        (if decide (takes segment ring) then Some (0, ring)
         else prod_map S id <$> list_find (takes segment) rings)
      with
      | Some (k, ring0) =>
          (true, attach_segment segment (Some (n + k, ring0)) st)
      | None => (false, st)
      end).
  { intros Hno. rewrite decide_False by done. rewrite IH.
    destruct (list_find _ rings) as [[k r]|]; [|done].
    cbn. by rewrite Nat.add_succ_r. }
  destruct (ProtoRing.closed ring) eqn:Hclosed.
  { apply Hskip. intros [? _]. congruence. }
  assert (Htake : forall t,
    first_test ring segment = Some t ->
    (true,
     snd (combine_rings (oriented t segment) n (at_end t)
            (snd (has_same_location (ring_end t ring)
                                    (segment_end t segment) st))))
    = match
        (if decide (takes segment ring) then Some (0, ring)
         else prod_map S id <$> list_find (takes segment) rings)
      with
      | Some (k, ring0) =>
          (true, attach_segment segment (Some (n + k, ring0)) st)
      | None => (false, st)
      end).
  { intros t Ht. rewrite decide_True by (split; [done|by eexists]).
    unfold attach_segment. by rewrite Nat.add_0_r, Ht. }
  pose proof (first_test_cases ring segment) as Hcases.
  destruct (test_holds ring segment LastIsFirst) eqn:H1.
  { rewrite <- (Htake _ Hcases).
    apply (endpoint_test_taken LastIsFirst ring segment n st); done. }
  etrans; [apply (endpoint_test_not_taken LastIsFirst ring segment st); done|].
  destruct (test_holds ring segment LastIsSecond) eqn:H2.
  { rewrite <- (Htake _ Hcases).
    apply (endpoint_test_taken LastIsSecond ring segment n st); done. }
  etrans; [apply (endpoint_test_not_taken LastIsSecond ring segment st); done|].
  destruct (test_holds ring segment FirstIsFirst) eqn:H3.
  { rewrite <- (Htake _ Hcases).
    apply (endpoint_test_taken FirstIsFirst ring segment n st); done. }
  etrans; [apply (endpoint_test_not_taken FirstIsFirst ring segment st); done|].
  destruct (test_holds ring segment FirstIsSecond) eqn:H4.
  { rewrite <- (Htake _ Hcases).
    apply (endpoint_test_taken FirstIsSecond ring segment n st); done. }
  etrans; [apply (endpoint_test_not_taken FirstIsSecond ring segment st); done|].
  apply Hskip. intros [_ [t Ht]]. congruence.
Qed.

End FirstMatch.

(** ** Tags *)

Section TagCounter.
(** [counter[kv]] *)
Fixpoint counter_get (kv : string) (counter : list (string * nat)) : nat :=
  match counter with
  | [] => 0
  | (kv', c) :: rest => if String.eqb kv kv' then c else counter_get kv rest
  end.

(** How often [kv] occurs in a list of keys. *)
Definition occurrences (kv : string) (l : list string) : nat :=
  length (filter (fun k => k = kv) l).

Lemma occurrences_app (kv : string) (l1 l2 : list string) :
  occurrences kv (l1 ++ l2) = occurrences kv l1 + occurrences kv l2.
Proof. unfold occurrences. by rewrite filter_app, length_app. Qed.

Lemma occurrences_pos (kv : string) (l : list string) :
  0 < occurrences kv l <-> kv ∈ l.
Proof.
  unfold occurrences. induction l as [|k l IH].
  - cbn. split; [lia|by intros ?%elem_of_nil].
  - rewrite filter_cons, elem_of_cons. destruct (decide (k = kv)) as [->|Hne].
    + cbn. split; [by left|lia].
    + rewrite IH. split; [by right|]. intros [?|?]; [congruence|done].
Qed.


Lemma counter_get_incr (kv kv' : string) (counter : list (string * nat)) :
  counter_get kv' (counter_incr kv counter)
  = if String.eqb kv' kv then S (counter_get kv' counter)
    else counter_get kv' counter.
Proof.
  induction counter as [|[k c] counter IH]; cbn [counter_incr counter_get].
  - by destruct (String.eqb kv' kv).
  - destruct (String.eqb kv k) eqn:Hk; cbn [counter_get].
    + apply String.eqb_eq in Hk as ->.
      by destruct (String.eqb kv' k).
    + destruct (String.eqb kv' k) eqn:Hk'; [|done].
      apply String.eqb_eq in Hk' as ->.
      by rewrite String.eqb_sym, Hk.
Qed.

Lemma counter_get_fold (kv : string) (l : list string)
    (counter : list (string * nat)) :
  counter_get kv (foldl (fun c k => counter_incr k c) counter l)
  = counter_get kv counter + occurrences kv l.
Proof.
  revert counter. induction l as [|k l IH]; intros counter; cbn [foldl].
  - unfold occurrences. cbn. lia.
  - rewrite IH, counter_get_incr.
    change (k :: l) with ([k] ++ l). rewrite occurrences_app.
    unfold occurrences at 2. rewrite filter_cons, filter_nil.
    destruct (String.eqb kv k) eqn:Hk.
    + apply String.eqb_eq in Hk as ->. rewrite decide_True by done.
      cbn. lia.
    + apply String.eqb_neq in Hk. rewrite decide_False by congruence.
      cbn. lia.
Qed.

(** A counter built by [++counter[kv]] alone: one entry per key, and no
    entry with count zero. *)
Definition counter_ok (counter : list (string * nat)) : Prop :=
  NoDup counter.*1 /\ Forall (fun e => 0 < snd e) counter.

Lemma counter_incr_keys (kv : string) (counter : list (string * nat)) :
  (counter_incr kv counter).*1
  = if decide (kv ∈ counter.*1) then counter.*1 else counter.*1 ++ [kv].
Proof.
  induction counter as [|[k c] counter IH]; cbn [counter_incr fmap list_fmap].
  - by rewrite decide_False by (by intros ?%elem_of_nil).
  - destruct (String.eqb kv k) eqn:Hk.
    + apply String.eqb_eq in Hk as ->. cbn.
      by rewrite decide_True by (by left).
    + apply String.eqb_neq in Hk. cbn [fmap list_fmap fst].
      change (list_fmap _ _ fst ?l) with (l.*1). rewrite IH.
      destruct (decide (kv ∈ counter.*1)).
      * by rewrite decide_True by (by right).
      * rewrite decide_False; [done|].
        intros [?|?]%elem_of_cons; [congruence|done].
Qed.

Lemma counter_ok_incr (kv : string) (counter : list (string * nat)) :
  counter_ok counter -> counter_ok (counter_incr kv counter).
Proof.
  intros [Hnd Hpos]. split.
  - rewrite counter_incr_keys. destruct (decide _); [done|].
    apply NoDup_app. split; [done|]. split; [|apply NoDup_singleton].
    intros k Hk ->%list_elem_of_singleton. done.
  - clear Hnd. induction counter as [|[k c] counter IH];
      cbn [counter_incr].
    + repeat constructor.
    + apply Forall_cons in Hpos as [Hc Hpos].
      destruct (String.eqb kv k).
      * constructor; [cbn in *; lia|done].
      * constructor; [done|by apply IH].
Qed.

Lemma counter_ok_fold (l : list string) (counter : list (string * nat)) :
  counter_ok counter ->
  counter_ok (foldl (fun c k => counter_incr k c) counter l).
Proof.
  revert counter. induction l as [|k l IH]; intros counter Hok; [done|].
  cbn [foldl]. by apply IH, counter_ok_incr.
Qed.

Lemma elem_of_counter (kv : string) (n : nat)
    (counter : list (string * nat)) :
  counter_ok counter ->
  (kv, n) ∈ counter <-> 0 < n /\ counter_get kv counter = n.
Proof.
  intros [Hnd Hpos]. induction counter as [|[k c] counter IH].
  - cbn. split; [by intros ?%elem_of_nil|lia].
  - cbn [fmap list_fmap fst] in Hnd. apply NoDup_cons in Hnd as [Hk Hnd].
    apply Forall_cons in Hpos as [Hc Hpos]. cbn [snd] in Hc.
    rewrite elem_of_cons, (IH Hnd Hpos). cbn [counter_get].
    destruct (String.eqb kv k) eqn:Heq.
    + apply String.eqb_eq in Heq as ->. split.
      * intros [[= ->]|[Hn Hget]]; [done|].
        exfalso. apply Hk. apply list_elem_of_fmap.
        exists (k, n). split; [done|].
        clear -Hn Hget. induction counter as [|[k' c'] counter IH];
          cbn [counter_get] in Hget; [lia|].
        destruct (String.eqb k k') eqn:E.
        -- apply String.eqb_eq in E as ->. subst. by left.
        -- right. by apply IH.
      * intros [Hn ->]. by left.
    + apply String.eqb_neq in Heq. split.
      * intros [[= -> ->]|?]; [done|done].
      * intros ?. by right.
Qed.
End TagCounter.

Section CStrings.
(** A string that can be a C string: no zero byte in it. *)
Definition is_c_string (s : string) : Prop := c_str s = s.

Definition c_tag (tg : Tag.t) : Prop :=
  is_c_string (Tag.key tg) /\ is_c_string (Tag.value tg).

Lemma append_cons (c : ascii) (s1 s2 : string) :
  String c s1 +:+ s2 = String c (s1 +:+ s2).
Proof. done. Qed.

Lemma c_str_kv (k v : string) :
  is_c_string k -> c_str (k +:+ String Ascii.zero v) = k.
Proof.
  unfold is_c_string. induction k as [|c k IH].
  - intros _. change ("" +:+ ?s) with s. cbn [c_str].
    by rewrite Ascii.eqb_refl.
  - rewrite append_cons. cbn [c_str].
    destruct (Ascii.eqb c Ascii.zero); [done|].
    intros [= Hk]. by rewrite IH.
Qed.

Lemma after_c_str_kv (k v : string) :
  is_c_string k -> after_c_str (k +:+ String Ascii.zero v) = v.
Proof.
  unfold is_c_string. induction k as [|c k IH].
  - intros _. change ("" +:+ ?s) with s. cbn [after_c_str].
    by rewrite Ascii.eqb_refl.
  - rewrite append_cons. cbn [c_str after_c_str].
    destruct (Ascii.eqb c Ascii.zero); [done|].
    intros [= Hk]. by apply IH.
Qed.

(** Splitting the key of the counter map gives the tag back. *)
Lemma tag_of_kv_string (tg : Tag.t) :
  c_tag tg -> tag_of_kv (kv_string tg) = tg.
Proof.
  intros [Hk Hv]. unfold tag_of_kv, kv_string.
  rewrite c_str_kv, after_c_str_kv by done.
  unfold is_c_string in Hv. rewrite Hv. by destruct tg.
Qed.

End CStrings.

Section CommonTags.
Context (in_buffer : nat -> Way.t).

(** The keys counted for a list of ways, in the order of counting. *)
Definition counted_keys (way_ptrs : list nat) : list string :=
  flat_map (fun way => map kv_string (Way.tags (in_buffer way))) way_ptrs.

Lemma count_tags_eq (way_ptrs : list nat) :
  count_tags in_buffer way_ptrs
  = foldl (fun c k => counter_incr k c) [] (counted_keys way_ptrs).
Proof.
  unfold count_tags, counted_keys. generalize (@nil (string * nat)).
  induction way_ptrs as [|w ws IH]; intros counter; [done|].
  cbn [foldl flat_map]. rewrite foldl_app, IH. f_equal.
  generalize (Way.tags (in_buffer w)). intros tags. revert counter.
  induction tags as [|tg tags IHt]; intros counter; [done|].
  cbn [foldl map]. apply IHt.
Qed.











End CommonTags.

Section RelationTags.
Context {G : Geometry} (in_buffer : nat -> Way.t).

(** The keys that do not count as tags of the relation. *)
Definition ignored_keys : list string :=
  ["type"; "created_by"; "source"; "note"; "test:id"; "test:section"].






End RelationTags.

(** ** Inner ways with tags of their own *)

Section InnerWays.
Context {G : Geometry} (in_buffer : nat -> Way.t).

(** The keys ignored in the comparison of lines 704-717: those of the
    relation filter without type. *)
Definition ignored_way_keys : list string :=
  ["created_by"; "source"; "note"; "test:id"; "test:section"].

Lemma accepts_way_filter (tg : Tag.t) :
  KeyFilter.accepts way_filter tg
  = bool_decide (Tag.key tg ∉ ignored_way_keys).
Proof.
  unfold ignored_way_keys.
  cbv [way_filter KeyFilter.add KeyFilter.accepts KeyFilter.rules
       KeyFilter.default_result app KeyFilter.decide_key].
  repeat match goal with
  | |- context [String.eqb ?a (Tag.key tg)] =>
      destruct (String.eqb_spec a (Tag.key tg)) as [<-|?]
  end;
  solve [ symmetry; apply bool_decide_eq_false; intros Hn; apply Hn;
          repeat first [by left | right]
        | symmetry; apply bool_decide_eq_true;
          intros Hin; repeat (apply elem_of_cons in Hin as [?|Hin];
                              [congruence|]);
          by apply elem_of_nil in Hin ].
Qed.

Lemma filtered_way_filter (tags : list Tag.t) :
  KeyFilter.filtered way_filter tags
  = filter (fun tg => Tag.key tg ∉ ignored_way_keys) tags.
Proof.
  unfold KeyFilter.filtered. induction tags as [|tg tags IH]; [done|].
  cbn [List.filter]. rewrite filter_cons, accepts_way_filter, IH.
  by destruct (decide (Tag.key tg ∉ ignored_way_keys));
    [rewrite bool_decide_eq_true_2|rewrite bool_decide_eq_false_2].
Qed.

(** Ignoring type as well filters further. *)
Lemma filter_ignored_keys (tags : list Tag.t) :
  filter (fun tg => Tag.key tg ∉ ignored_keys) tags
  = filter (fun tg => Tag.key tg <> "type")
           (filter (fun tg => Tag.key tg ∉ ignored_way_keys) tags).
Proof.
  induction tags as [|tg tags IH]; [done|].
  rewrite !filter_cons.
  destruct (decide (Tag.key tg ∉ ignored_keys)) as [Hin|Hin].
  - rewrite decide_True.
    + rewrite filter_cons, decide_True, IH; [done|].
      intros Heq. apply Hin. rewrite Heq. by left.
    + intros Hw. apply Hin. by right.
  - destruct (decide (Tag.key tg ∉ ignored_way_keys)) as [Hw|Hw]; [|done].
    rewrite filter_cons, decide_False; [done|].
    intros Hne. apply Hin. intros [?|?]%elem_of_cons; done.
Qed.

Lemma Tag_eqb_eq (a b : Tag.t) : Tag.eqb a b = true <-> a = b.
Proof.
  unfold Tag.eqb. rewrite andb_true_iff, !String.eqb_eq.
  destruct a, b; cbn. split; [by intros [-> ->]|by intros [= -> ->]].
Qed.

(** Whatever [std::equal] answers past the end of the shorter range, the
    test of line 717 says whether the two filtered ranges differ. *)
Lemma ranges_differ (past_end : bool) (l1 l2 : list Tag.t) :
  negb (std_equal past_end l1 l2) || negb (length l1 =? length l2)%nat = true
  <-> l1 <> l2.
Proof.
  revert l2. induction l1 as [|a l1 IH]; intros [|b l2]; cbn; try done.
  - by rewrite orb_true_r.
  - destruct (Tag.eqb a b) eqn:Hab; cbn.
    + apply Tag_eqb_eq in Hab as ->. rewrite IH. split; [congruence|].
      intros Hne Heq. apply Hne. by f_equal.
    + split; [|done]. intros _ [= -> _].
      assert (Tag.eqb b b = true) by (by apply Tag_eqb_eq). congruence.
Qed.

(** Exactly when the loop assembles the way of an inner member on its
    own. *)
Lemma inner_way_differs_iff (way : Way.t) (area_tags : list Tag.t) :
  inner_way_differs way area_tags = true
  <-> Way.is_closed way = true
      /\ filter (fun tg => Tag.key tg ∉ ignored_way_keys) (Way.tags way) <> []
      /\ filter (fun tg => Tag.key tg ∉ ignored_way_keys) (Way.tags way)
         <> filter (fun tg => Tag.key tg ∉ ignored_way_keys) area_tags.
Proof.
  unfold inner_way_differs. cbn zeta.
  rewrite !andb_true_iff, ranges_differ, !filtered_way_filter.
  rewrite !Nat.ltb_lt. split.
  - intros [[Hc Ht] [Hd Hne]]. split; [done|]. split; [|done].
    intros Hnil. rewrite Hnil in Hd. cbn in Hd. lia.
  - intros (Hc & Hd & Hne). split; [split; [done|]|split; [|done]].
    + destruct (Way.tags way); [done|cbn; lia].
    + destruct (filter _ (Way.tags way)); [done|cbn; lia].
Qed.

End InnerWays.

(** * The calls of the diff handler *)

Section DiffHandlerFacts.
Import item_type.

(** The item types [apply_item_recurse] has a case for. *)
Definition dispatched (t : item_type.t) : bool :=
  match t with
  | node | way | relation => true
  | _ => false
  end.

Definition before_T (t : item_type.t) : list DiffHandler.Callback :=
  match t with
  | node => [DiffHandler.before_nodes]
  | way => [DiffHandler.before_ways]
  | relation => [DiffHandler.before_relations]
  | _ => []
  end.

Definition after_T (t : item_type.t) : list DiffHandler.Callback :=
  match t with
  | node => [DiffHandler.after_nodes]
  | way => [DiffHandler.after_ways]
  | relation => [DiffHandler.after_relations]
  | _ => []
  end.

Definition item_T (t : item_type.t) (d : DiffHandler.Diff)
    : list DiffHandler.Callback :=
  match t with
  | node => [DiffHandler.node d]
  | way => [DiffHandler.way d]
  | relation => [DiffHandler.relation d]
  | _ => []
  end.

(** The neighbour of [it] in its window: the adjacent item when there is
    one of the same type and id, the item itself otherwise. *)
Definition neighbour (adjacent : option DiffHandler.Item)
    (it : DiffHandler.Item) : DiffHandler.Item :=
  match adjacent with
  | Some other => if DiffHandler.same_object other it then other else it
  | None => it
  end.

Definition window (preceding : option DiffHandler.Item)
    (it : DiffHandler.Item) (following : option DiffHandler.Item)
    : DiffHandler.Diff :=
  DiffHandler.mkDiff (neighbour preceding it) it (neighbour following it).

(** Every handler of the pack gets the callbacks [cs], one handler after
    the other. *)
Definition to_all (handlers : list nat) (cs : list DiffHandler.Callback)
    : list DiffHandler.Call :=
  handlers ≫= λ handler, map (pair handler) cs.

(** The calls made for the item [it] between [preceding] and
    [following]. *)
Definition calls_at (handlers : list nat)
    (preceding : option DiffHandler.Item) (it : DiffHandler.Item)
    (following : option DiffHandler.Item) : list DiffHandler.Call :=
  let t := DiffHandler.type it in
  match preceding with
  | None => to_all handlers (DiffHandler.init :: before_T t)
  | Some p =>
      if item_type.eqb (DiffHandler.type p) t then []
      else to_all handlers (after_T (DiffHandler.type p) ++ before_T t)
  end
  ++ to_all handlers (item_T t (window preceding it following))
  ++ match following with
     | Some _ => []
     | None => to_all handlers (after_T t ++ [DiffHandler.done])
     end.

(** The calls of a whole run, item by item. *)
Definition expected_calls (handlers : list nat)
    (items : list DiffHandler.Item) : list DiffHandler.Call :=
  mjoin (imap (λ i it,
                 calls_at handlers
                   (match i with O => None | S j => items !! j end)
                   it (items !! S i))
              items).

Fixpoint calls_from (handlers : list nat)
    (preceding : option DiffHandler.Item) (items : list DiffHandler.Item)
    : list DiffHandler.Call :=
  match items with
  | [] => []
  | it :: rest =>
      calls_at handlers preceding it (head rest)
      ++ calls_from handlers (Some it) rest
  end.

Lemma expected_calls_from (handlers : list nat)
    (before items : list DiffHandler.Item) :
  mjoin (imap (λ i it,
                 calls_at handlers
                   (match length before + i with
                    | O => None
                    | S j => (before ++ items) !! j
                    end)
                   it ((before ++ items) !! S (length before + i)))
              items)
  = calls_from handlers (last before) items.
Proof.
  revert before. induction items as [|it rest IH]; intros before; [done|].
  cbn [imap calls_from mjoin list_join].
  f_equal.
  - rewrite Nat.add_0_r. f_equal.
    + destruct before as [|b before _] using rev_ind; [done|].
      rewrite last_snoc, length_app. cbn [length].
      rewrite Nat.add_1_r, <- app_assoc.
      by rewrite lookup_app_r, Nat.sub_diag by lia.
    + rewrite lookup_app_r by lia.
      replace (S (length before) - length before) with 1 by lia.
      by destruct rest.
  - specialize (IH (before ++ [it])).
    rewrite last_snoc in IH. rewrite <- IH.
    f_equal. apply imap_ext. intros i x _. cbn.
    rewrite length_app, <- !app_assoc. cbn [length app].
    by replace (length before + 1 + i) with (length before + S i) by lia.
Qed.

Lemma expected_calls_eq (handlers : list nat)
    (items : list DiffHandler.Item) :
  expected_calls handlers items = calls_from handlers None items.
Proof. exact (expected_calls_from handlers [] items). Qed.

Lemma to_all_cons (handler : nat) (more : list nat)
    (cs : list DiffHandler.Callback) :
  to_all (handler :: more) cs = map (pair handler) cs ++ to_all more cs.
Proof. done. Qed.

Lemma apply_before_and_after_recurse_eq (last current : item_type.t)
    (handlers : list nat) :
  DiffHandler.apply_before_and_after_recurse last current handlers
  = to_all handlers
      (DiffHandler.after_callback last
       ++ DiffHandler.before_callback current).
Proof.
  induction handlers as [|handler more IH]; [done|].
  cbn [DiffHandler.apply_before_and_after_recurse].
  by rewrite IH, to_all_cons.
Qed.

Lemma apply_item_recurse_eq (prev it next : DiffHandler.Item)
    (handlers : list nat) :
  dispatched (DiffHandler.type it) = true ->
  DiffHandler.apply_item_recurse prev it next handlers
  = (to_all handlers
       (item_T (DiffHandler.type it) (window (Some prev) it (Some next))),
     DiffHandler.Returned).
Proof.
  intros Ht. induction handlers as [|handler more IH]; [done|].
  cbn [DiffHandler.apply_item_recurse]. rewrite IH, to_all_cons.
  unfold DiffHandler.item_callback, window, neighbour.
  destruct (DiffHandler.type it); try discriminate Ht;
    by destruct (DiffHandler.same_object prev it),
                (DiffHandler.same_object next it).
Qed.

Lemma neighbour_self (it : DiffHandler.Item) :
  neighbour (Some it) it = it.
Proof. unfold neighbour. by destruct (DiffHandler.same_object it it). Qed.

Lemma apply_loop_eq (handlers : list nat)
    (items : list DiffHandler.Item) :
  forall (last_type : item_type.t) (prev : DiffHandler.Item)
         (preceding : option DiffHandler.Item),
    Forall (λ it, dispatched (DiffHandler.type it) = true) items ->
    match preceding with
    | Some p =>
        last_type = DiffHandler.type p /\ prev = p
        /\ dispatched (DiffHandler.type p) = true
    | None => last_type = undefined /\ head items = Some prev
    end ->
    DiffHandler.apply_loop last_type prev items handlers
    = (calls_from handlers preceding items, DiffHandler.Returned).
Proof.
  induction items as [|it rest IH]; intros last_type prev preceding Hall Hp;
    [done|].
  apply Forall_cons in Hall as [Ht Hall].
  set (opening :=
         if negb (item_type.eqb last_type (DiffHandler.type it))
         then DiffHandler.apply_before_and_after_recurse last_type
                (DiffHandler.type it) handlers
         else []).
  assert (opening
          = match preceding with
            | None =>
                to_all handlers
                  (DiffHandler.init :: before_T (DiffHandler.type it))
            | Some p =>
                if item_type.eqb (DiffHandler.type p) (DiffHandler.type it)
                then []
                else to_all handlers
                       (after_T (DiffHandler.type p)
                        ++ before_T (DiffHandler.type it))
            end) as Hopening.
  { unfold opening. rewrite apply_before_and_after_recurse_eq.
    destruct preceding as [p|].
    - destruct Hp as (-> & _ & Hdisp).
      destruct (DiffHandler.type p), (DiffHandler.type it);
        done || discriminate.
    - destruct Hp as [-> _].
      by destruct (DiffHandler.type it). }
  assert ((if negb (item_type.eqb last_type (DiffHandler.type it))
           then DiffHandler.type it else last_type)
          = DiffHandler.type it) as Hlast.
  { destruct (item_type.eqb last_type (DiffHandler.type it)) eqn:E; [|done].
    by apply item_type.eqb_eq in E. }
  assert (neighbour (Some prev) it = neighbour preceding it) as Hprev.
  { destruct preceding as [p|].
    - by destruct Hp as (_ & -> & _).
    - destruct Hp as [_ [= ->]]. apply neighbour_self. }
  cbn [DiffHandler.apply_loop calls_from]. fold opening.
  rewrite Hlast, Hopening. clear opening Hopening Hlast.
  destruct rest as [|next rest].
  - rewrite apply_item_recurse_eq, apply_before_and_after_recurse_eq by done.
    cbn [calls_from head]. rewrite app_nil_r.
    unfold calls_at, window. rewrite Hprev, neighbour_self.
    do 4 f_equal. by destruct (DiffHandler.type it).
  - rewrite apply_item_recurse_eq by done.
    rewrite (IH (DiffHandler.type it) it (Some it)) by done.
    cbn [head]. unfold calls_at, window. rewrite Hprev.
    by rewrite app_nil_r, <- !app_assoc.
Qed.

(** C9 (amended): over a sequence of nodes, ways and relations [apply]
    returns, and the calls it makes are, item by item: [init] and the
    [before_] callback of the item's type at the first item, the [after_]
    callback of the previous type and the [before_] callback of the new
    one wherever the type changes, then the item callback with the window
    (previous, current, next), in which previous is the preceding item if
    that has the type and id of the current one and the current item
    otherwise (so at the first item), and next is the following item if
    that has the type and id of the current one and the current item
    otherwise (so at the last item), and behind the last item the
    [after_] callback of its type and [done]; with several handlers each
    of these steps addresses the handlers in their order. *)
Theorem diff_handler_windows_and_order (handlers : list nat)
    (items : list DiffHandler.Item) :
  Forall (λ it, dispatched (DiffHandler.type it) = true) items ->
  DiffHandler.apply items handlers
  = (expected_calls handlers items, DiffHandler.Returned).
Proof.
  intros Hall. rewrite expected_calls_eq. unfold DiffHandler.apply.
  destruct items as [|it rest] eqn:E; [done|].
  by apply apply_loop_eq.
Qed.
End DiffHandlerFacts.

(** * The properties on the sample inputs *)

Section OnSamples.
Import Sample.

(** The area of the square way carries the id 14 and the attributes of
    the way. *)
Lemma area_id_of_square :
  in_int64 (Object.id (source_object in_buffer (FromWay 1)) * 2
            + origin_offset (FromWay 1))
  /\ exists area,
       Buffer.written (fst (assemble in_buffer (FromWay 1) out_buffer
                                     reporting)) = [area]
       /\ Area.id area = 14%Z
       /\ Area.user area = "u".
Proof.
  assert (in_int64 (Object.id (source_object in_buffer (FromWay 1)) * 2
                    + origin_offset (FromWay 1))) as Hid
    by (vm_compute; split; discriminate).
  split; [exact Hid|].
  destruct (area_id_and_attributes in_buffer (FromWay 1) out_buffer
              reporting Hid) as (area & rest & Hw & Ha & Hc & Hrest).
  exists area. rewrite Hw, (Hrest 1%nat eq_refl).
  split; [reflexivity|]. split; [exact Ha|].
  destruct Hc as (_ & _ & _ & _ & _ & Hu). exact Hu.
Defined.
(** With a problem reporter, the crossing of the two ways is reported and
    the area stays a committed header. *)
Lemma crossing_ways_with_reporter :
  fst (find_intersections in_buffer
         (prepared (stage2_input in_buffer crossing reporting))) = true
  /\ Assembler.reported (snd (assemble in_buffer crossing out_buffer reporting))
     = [report_intersection 100 12 (Location.mk 0 0) (Location.mk 10 10)
                            13 (Location.mk 0 10) (Location.mk 10 0)
                            (Location.mk 5 5)]
  /\ Buffer.committed (fst (assemble in_buffer crossing out_buffer reporting))
     = [area_header in_buffer crossing].
Proof.
  assert (fst (find_intersections in_buffer
                 (prepared (stage2_input in_buffer crossing reporting)))
          = true) as Hscan by (vm_compute; reflexivity).
  destruct (intersections_abort_area in_buffer crossing out_buffer reporting
              Hscan) as (_ & _ & Hst & _ & Hc & _).
  split; [exact Hscan|]. split; [|exact Hc].
  rewrite Hst. vm_compute. reflexivity.
Defined.

(** C3 as stated fails without a problem reporter: the scan finds the
    crossing of the two ways and returns true, and no
    [report_intersection] takes place. *)
Lemma crossing_ways_without_reporter :
  fst (find_intersections in_buffer
         (prepared (stage2_input in_buffer crossing silent))) = true
  /\ found_intersections
       (Assembler.m_segment_list
          (prepared (stage2_input in_buffer crossing silent))) <> []
  /\ Assembler.m_problem_reporter
       (snd (assemble in_buffer crossing out_buffer silent)) = None
  /\ ~ (exists way1 a1 b1 way2 a2 b2 at_location,
          report_intersection 100 way1 a1 b1 way2 a2 b2 at_location
          ∈ Assembler.reported
              (snd (assemble in_buffer crossing out_buffer silent))).
Proof.
  split; [vm_compute; reflexivity|].
  split; [vm_compute; discriminate|].
  split; [vm_compute; reflexivity|].
  intros (way1 & a1 & b1 & way2 & a2 & b2 & at_location & Hin).
  vm_compute in Hin. inversion Hin.
Qed.

(** With a problem reporter, the ring of the open way is reported with its
    two ends. *)
Lemma unclosed_way_with_reporter :
  fst (find_intersections in_buffer
         (prepared (stage2_input in_buffer unclosed reporting))) = false
  /\ open_rings (stitched in_buffer (stage2_input in_buffer unclosed reporting))
     <> []
  /\ Assembler.reported (snd (assemble in_buffer unclosed out_buffer reporting))
     = [report_ring_not_closed 100 (Location.mk 0 0) (Location.mk 0 10)]
  /\ Buffer.committed (fst (assemble in_buffer unclosed out_buffer reporting))
     = [area_header in_buffer unclosed].
Proof.
  assert (fst (find_intersections in_buffer
                 (prepared (stage2_input in_buffer unclosed reporting)))
          = false) as Hscan by (vm_compute; reflexivity).
  assert (open_rings (stitched in_buffer
                        (stage2_input in_buffer unclosed reporting)) <> [])
    as Hopen by (vm_compute; discriminate).
  destruct (open_rings_abort_area in_buffer unclosed out_buffer reporting
              Hscan Hopen) as (_ & Hst & _ & Hc & _).
  split; [exact Hscan|]. split; [exact Hopen|]. split; [|exact Hc].
  rewrite Hst. vm_compute. reflexivity.
Defined.

(** C5 as stated fails without a problem reporter: the ring of the open
    way, from (0, 0) to (0, 10), is still open after stitching, and no
    [report_ring_not_closed] takes place. *)
Lemma unclosed_way_without_reporter :
  map (fun ring =>
         (NodeRef.location (NodeRefSegment.first (ProtoRing.first_segment ring)),
          NodeRef.location (NodeRefSegment.second (ProtoRing.last_segment ring))))
      (open_rings (stitched in_buffer (stage2_input in_buffer unclosed silent)))
  = [(Location.mk 0 0, Location.mk 0 10)]
  /\ Assembler.m_problem_reporter
       (snd (assemble in_buffer unclosed out_buffer silent)) = None
  /\ report_ring_not_closed 100 (Location.mk 0 0) (Location.mk 0 10)
     ∉ Assembler.reported (snd (assemble in_buffer unclosed out_buffer silent)).
Proof.
  split; [vm_compute; reflexivity|].
  split; [vm_compute; reflexivity|].
  intros Hin. vm_compute in Hin. inversion Hin.
Qed.
(** Twice the signed area of a ring as the builders receive it (shoelace
    formula): positive for a counter-clockwise ring, negative for a
    clockwise one. *)
Fixpoint shoelace (nodes : list NodeRef.t) : Z :=
  match nodes with
  | a :: (b :: _) as rest =>
      (Location.x (NodeRef.location a) * Location.y (NodeRef.location b)
       - Location.x (NodeRef.location b) * Location.y (NodeRef.location a)
       + shoelace rest)%Z
  | _ => 0%Z
  end.


(** The triangle way stitches into one ring too, counter-clockwise, and its
    area carries that ring, counter-clockwise. *)
Lemma triangle_way_stays_counter_clockwise :
  Assembler.m_rings (stitched in_buffer
                       (stage2_input in_buffer (FromWay 3) reporting))
  = [stitched_ring (FromWay 3) reporting]
  /\ ProtoRing.is_cw (stitched_ring (FromWay 3) reporting) = false
  /\ map Area.rings
         (Buffer.written (fst (assemble in_buffer (FromWay 3) out_buffer
                                        reporting)))
     = [[OuterRing (ProtoRing.node_refs
                      (stitched_ring (FromWay 3) reporting))]].
Proof. repeat split; vm_compute; reflexivity. Qed.

(** C1 as stated fails on the square with a hole: the assembly succeeds,
    the outer ring is emitted clockwise (negative signed area) and the
    inner ring counter-clockwise (positive signed area). Both rings were
    clockwise when stitched: the outer ring was left as it was and the
    inner ring was reversed. *)
Lemma square_with_hole_is_wound_the_other_way :
  exists outer inner,
    fst (stage2 in_buffer (stage2_input in_buffer square_with_hole reporting))
    = true
    /\ map Area.rings
           (Buffer.written (fst (assemble in_buffer square_with_hole
                                          out_buffer reporting)))
       !! 0%nat = Some [OuterRing outer; InnerRing inner]
    /\ (shoelace outer < 0)%Z
    /\ (0 < shoelace inner)%Z
    /\ map ProtoRing.is_cw
           (Assembler.m_rings
              (stitched in_buffer
                 (stage2_input in_buffer square_with_hole reporting)))
       = [true; true]
    /\ map (fun r => (ProtoRing.outer r, ProtoRing.is_cw r))
           (Assembler.m_rings (after_stage2 square_with_hole reporting))
       = [(true, true); (false, false)].
Proof.
  eexists _, _.
  split; [vm_compute; reflexivity|].
  split; [vm_compute; reflexivity|].
  repeat split; vm_compute; reflexivity.
Qed.

(** Two squares and a hole in the larger one: the smaller square comes
    first among the outer rings, and the hole goes to the larger square,
    the first outer ring in that order around it. *)
Lemma nesting_of_two_squares_with_hole :
  stage2 in_buffer (stage2_input in_buffer two_squares_with_hole reporting)
  = (true, after_stage2 two_squares_with_hole reporting)
  /\ Assembler.m_outer_rings (after_stage2 two_squares_with_hole reporting)
     = [2; 0]
  /\ Assembler.m_inner_rings (after_stage2 two_squares_with_hole reporting)
     = [1]
  /\ map (fun o => ProtoRing.area
                     (ring_of (after_stage2 two_squares_with_hole reporting) o))
         [2; 0] = [25; 100]%Z
  /\ ProtoRing.inner_rings
       (ring_of (after_stage2 two_squares_with_hole reporting) 2)
     = filter (fun i => first_enclosing
                          (after_stage2 two_squares_with_hole reporting)
                          [2; 0] i = Some 2) [1]
  /\ ProtoRing.inner_rings
       (ring_of (after_stage2 two_squares_with_hole reporting) 0)
     = filter (fun i => first_enclosing
                          (after_stage2 two_squares_with_hole reporting)
                          [2; 0] i = Some 0) [1]
  /\ first_enclosing (after_stage2 two_squares_with_hole reporting) [2; 0] 1
     = Some 0.
Proof.
  assert (stage2 in_buffer
            (stage2_input in_buffer two_squares_with_hole reporting)
          = (true, after_stage2 two_squares_with_hole reporting)) as Hst
    by (vm_compute; reflexivity).
  assert (Assembler.m_outer_rings
            (after_stage2 two_squares_with_hole reporting) = [2; 0])
    as Houters by (vm_compute; reflexivity).
  assert (Assembler.m_inner_rings
            (after_stage2 two_squares_with_hole reporting) = [1])
    as Hinners by (vm_compute; reflexivity).
  destruct (inner_rings_nesting in_buffer two_squares_with_hole reporting _
              Hst) as [_ Hmany].
  rewrite Houters, Hinners in Hmany.
  destruct (Hmany ltac:(discriminate)) as [_ Hattached].
  split; [exact Hst|]. split; [exact Houters|]. split; [exact Hinners|].
  split; [vm_compute; reflexivity|].
  split; [apply Hattached; repeat constructor|].
  split; [apply Hattached; repeat constructor|].
  vm_compute; reflexivity.
Defined.

(** The calls for the history stream with two handlers. *)
Lemma calls_for_history :
  Forall (fun it => dispatched (DiffHandler.type it) = true) history
  /\ DiffHandler.apply history [0; 1]
     = (expected_calls [0; 1] history, DiffHandler.Returned)
  /\ omap (fun call : DiffHandler.Call =>
             if (fst call =? 0)%nat then Some (snd call) else None)
          (expected_calls [0; 1] history)
     = [DiffHandler.init;
        DiffHandler.before_nodes;
        DiffHandler.node (DiffHandler.mkDiff
                            (DiffHandler.mkItem item_type.node 1 1)
                            (DiffHandler.mkItem item_type.node 1 1)
                            (DiffHandler.mkItem item_type.node 1 2));
        DiffHandler.node (DiffHandler.mkDiff
                            (DiffHandler.mkItem item_type.node 1 1)
                            (DiffHandler.mkItem item_type.node 1 2)
                            (DiffHandler.mkItem item_type.node 1 2));
        DiffHandler.node (DiffHandler.mkDiff
                            (DiffHandler.mkItem item_type.node 2 1)
                            (DiffHandler.mkItem item_type.node 2 1)
                            (DiffHandler.mkItem item_type.node 2 1));
        DiffHandler.after_nodes;
        DiffHandler.before_ways;
        DiffHandler.way (DiffHandler.mkDiff
                           (DiffHandler.mkItem item_type.way 1 1)
                           (DiffHandler.mkItem item_type.way 1 1)
                           (DiffHandler.mkItem item_type.way 1 1));
        DiffHandler.after_ways;
        DiffHandler.done].
Proof.
  assert (Forall (fun it => dispatched (DiffHandler.type it) = true) history)
    as Hall by (repeat constructor).
  split; [exact Hall|].
  split; [exact (diff_handler_windows_and_order [0; 1] history Hall)|].
  vm_compute; reflexivity.
Defined.

(** C9 as stated fails on a stream that holds a changeset: [init] is
    called, no [before_changesets], no item callback, and the run ends in
    the exception, without [done]. *)
Lemma changeset_ends_the_run :
  DiffHandler.apply [a_changeset] [0]
  = ([(0, DiffHandler.init)], DiffHandler.UnknownType)
  /\ ((0, DiffHandler.done) ∉ fst (DiffHandler.apply [a_changeset] [0]))
  /\ ((0, DiffHandler.before_changesets)
      ∉ fst (DiffHandler.apply [a_changeset] [0])).
Proof.
  split; [reflexivity|].
  split; intros Hin; vm_compute in Hin;
    inversion Hin as [|? ? ? Hin']; inversion Hin'.
Qed.
End OnSamples.

(** * More on the diff handler

    What one handler of the pack sees of a run of [apply], whatever the
    items are. *)

Section HandlerScript.
Import item_type.

(** The calls a handler receives, out of the calls of a run. *)
Definition calls_of (handler : nat) (calls : list DiffHandler.Call)
    : list DiffHandler.Callback :=
  omap (fun call : DiffHandler.Call =>
          if (fst call =? handler)%nat then Some (snd call) else None)
       calls.

(** The item an item callback is called for. *)
Definition visited (c : DiffHandler.Callback) : option DiffHandler.Item :=
  match c with
  | DiffHandler.node d | DiffHandler.way d | DiffHandler.relation d =>
      Some (DiffHandler.curr d)
  | _ => None
  end.

(** The loop of [apply] as the steps it takes, each step the callbacks it
    sends to every handler of the pack in turn. *)
Fixpoint script (last_type : item_type.t) (prev : DiffHandler.Item)
    (items : list DiffHandler.Item)
    : list (list DiffHandler.Callback) * DiffHandler.Outcome :=
  match items with
  | [] => ([], DiffHandler.Returned)
  | it :: rest =>
      let changed := negb (item_type.eqb last_type (DiffHandler.type it)) in
      let opening :=
        if changed
        then [DiffHandler.after_callback last_type
              ++ DiffHandler.before_callback (DiffHandler.type it)]
        else [] in
      let last_type := if changed then DiffHandler.type it else last_type in
      match rest with
      | [] =>
          match DiffHandler.item_callback prev it it with
          | Some c =>
              (opening
               ++ [[c]; DiffHandler.after_callback last_type
                        ++ DiffHandler.before_callback undefined],
               DiffHandler.Returned)
          | None => (opening, DiffHandler.UnknownType)
          end
      | next :: _ =>
          match DiffHandler.item_callback prev it next with
          | Some c =>
              let '(steps, outcome) := script last_type it rest in
              (opening ++ [c] :: steps, outcome)
          | None => (opening, DiffHandler.UnknownType)
          end
      end
  end.

Definition script_of (items : list DiffHandler.Item)
    : list (list DiffHandler.Callback) * DiffHandler.Outcome :=
  match items with
  | [] => ([], DiffHandler.Returned)
  | it :: _ => script undefined it items
  end.

Definition broadcast (handlers : list nat)
    (steps : list (list DiffHandler.Callback)) : list DiffHandler.Call :=
  mjoin (map (to_all handlers) steps).

Lemma broadcast_app (handlers : list nat)
    (s1 s2 : list (list DiffHandler.Callback)) :
  broadcast handlers (s1 ++ s2) = broadcast handlers s1 ++ broadcast handlers s2.
Proof. unfold broadcast. by rewrite map_app, join_app. Qed.

Lemma broadcast_cons (handlers : list nat) (cs : list DiffHandler.Callback)
    (steps : list (list DiffHandler.Callback)) :
  broadcast handlers (cs :: steps) = to_all handlers cs ++ broadcast handlers steps.
Proof. done. Qed.

Lemma apply_item_recurse_cases (prev it next : DiffHandler.Item)
    (handlers : list nat) :
  handlers <> [] ->
  DiffHandler.apply_item_recurse prev it next handlers
  = match DiffHandler.item_callback prev it next with
    | Some c => (to_all handlers [c], DiffHandler.Returned)
    | None => ([], DiffHandler.UnknownType)
    end.
Proof.
  intros Hne. destruct (DiffHandler.item_callback prev it next) as [c|] eqn:Hc.
  - clear Hne. induction handlers as [|handler more IH]; [done|].
    cbn [DiffHandler.apply_item_recurse]. by rewrite Hc, IH.
  - destruct handlers as [|handler more]; [done|].
    cbn [DiffHandler.apply_item_recurse]. by rewrite Hc.
Qed.

Lemma apply_loop_script (handlers : list nat) (items : list DiffHandler.Item) :
  handlers <> [] ->
  forall (last_type : item_type.t) (prev : DiffHandler.Item),
    DiffHandler.apply_loop last_type prev items handlers
    = (broadcast handlers (fst (script last_type prev items)),
       snd (script last_type prev items)).
Proof.
  intros Hne. induction items as [|it rest IH]; intros last_type prev; [done|].
  cbn [DiffHandler.apply_loop script].
  set (opening := if negb (item_type.eqb last_type (DiffHandler.type it))
                  then [_] else []).
  set (last' := if negb (item_type.eqb last_type (DiffHandler.type it))
                then DiffHandler.type it else last_type).
  assert ((if negb (item_type.eqb last_type (DiffHandler.type it))
           then DiffHandler.apply_before_and_after_recurse last_type
                  (DiffHandler.type it) handlers
           else []) = broadcast handlers opening) as ->.
  { unfold opening. destruct (negb _); [|done].
    rewrite apply_before_and_after_recurse_eq. unfold broadcast. cbn.
    by rewrite app_nil_r. }
  destruct rest as [|next rest].
  - rewrite apply_item_recurse_cases by done.
    destruct (DiffHandler.item_callback prev it it) as [c|]; cbn [fst snd].
    + rewrite apply_before_and_after_recurse_eq, !broadcast_app.
      unfold broadcast at 3. cbn. by rewrite app_nil_r.
    + by rewrite app_nil_r.
  - rewrite apply_item_recurse_cases by done.
    destruct (DiffHandler.item_callback prev it next) as [c|]; cbn [fst snd].
    + rewrite IH. destruct (script last' it (next :: rest)) as [steps outcome].
      cbn [fst snd]. by rewrite broadcast_app, broadcast_cons.
    + by rewrite app_nil_r.
Qed.

Lemma apply_script (handlers : list nat) (items : list DiffHandler.Item) :
  handlers <> [] ->
  DiffHandler.apply items handlers
  = (broadcast handlers (fst (script_of items)), snd (script_of items)).
Proof.
  intros Hne. unfold DiffHandler.apply, script_of.
  destruct items as [|it rest]; [done|]. by apply apply_loop_script.
Qed.

Lemma calls_of_app (handler : nat) (l1 l2 : list DiffHandler.Call) :
  calls_of handler (l1 ++ l2) = calls_of handler l1 ++ calls_of handler l2.
Proof. apply omap_app. Qed.

Lemma calls_of_pair (handler other : nat) (cs : list DiffHandler.Callback) :
  calls_of handler (map (pair other) cs)
  = if (other =? handler)%nat then cs else [].
Proof.
  unfold calls_of. destruct (other =? handler)%nat eqn:Heq;
    induction cs as [|c cs IH]; [done| |done|].
  - cbn. rewrite Heq. cbn. by f_equal.
  - cbn. rewrite Heq. cbn. done.
Qed.

Lemma calls_of_to_all_other (handler : nat) (handlers : list nat)
    (cs : list DiffHandler.Callback) :
  handler ∉ handlers -> calls_of handler (to_all handlers cs) = [].
Proof.
  induction handlers as [|other more IH]; intros Hnotin; [done|].
  apply not_elem_of_cons in Hnotin as [Hne Hnotin].
  rewrite to_all_cons, calls_of_app, calls_of_pair, IH by done.
  apply Nat.eqb_neq in Hne. rewrite Nat.eqb_sym in Hne. by rewrite Hne.
Qed.

Lemma calls_of_to_all (handler : nat) (handlers : list nat)
    (cs : list DiffHandler.Callback) :
  NoDup handlers -> handler ∈ handlers ->
  calls_of handler (to_all handlers cs) = cs.
Proof.
  induction 1 as [|other more Hnotin Hnd IH]; intros Hin.
  - by apply elem_of_nil in Hin.
  - rewrite to_all_cons, calls_of_app, calls_of_pair.
    destruct (decide (other = handler)) as [->|Hne].
    + rewrite Nat.eqb_refl, calls_of_to_all_other by done. apply app_nil_r.
    + apply elem_of_cons in Hin as [->|Hin]; [done|].
      apply Nat.eqb_neq in Hne. rewrite Hne. by apply IH.
Qed.

Lemma calls_of_broadcast (handler : nat) (handlers : list nat)
    (steps : list (list DiffHandler.Callback)) :
  NoDup handlers -> handler ∈ handlers ->
  calls_of handler (broadcast handlers steps) = mjoin steps.
Proof.
  intros Hnd Hin. induction steps as [|cs steps IH]; [done|].
  rewrite broadcast_cons, calls_of_app, calls_of_to_all, IH by done. done.
Qed.
End HandlerScript.

Section HandlerRuns.
Import item_type.

Lemma item_callback_cases (prev it next : DiffHandler.Item) :
  if dispatched (DiffHandler.type it)
  then exists c, DiffHandler.item_callback prev it next = Some c
                 /\ visited c = Some it
  else DiffHandler.item_callback prev it next = None.
Proof.
  unfold DiffHandler.item_callback.
  destruct (DiffHandler.type it); cbn; eauto.
Qed.

Lemma visited_boundary (last current : item_type.t) :
  omap visited (DiffHandler.after_callback last
                ++ DiffHandler.before_callback current) = [].
Proof. by destruct last, current. Qed.

Lemma steps_cons (cs : list DiffHandler.Callback)
    (steps : list (list DiffHandler.Callback)) :
  mjoin (cs :: steps) = cs ++ mjoin steps.
Proof. done. Qed.

Lemma omap_visited_cons (c : DiffHandler.Callback)
    (l : list DiffHandler.Callback) :
  omap visited (c :: l)
  = match visited c with
    | Some it => it :: omap visited l
    | None => omap visited l
    end.
Proof. done. Qed.

Lemma script_visited (items : list DiffHandler.Item) :
  forall (last_type : item_type.t) (prev : DiffHandler.Item),
    omap visited (mjoin (fst (script last_type prev items)))
    = take_while (fun it => dispatched (DiffHandler.type it)) items
    /\ snd (script last_type prev items)
       = if forallb (fun it => dispatched (DiffHandler.type it)) items
         then DiffHandler.Returned else DiffHandler.UnknownType.
Proof.
  induction items as [|it rest IH]; intros last_type prev; [done|].
  cbn [script take_while forallb].
  set (last' := if negb (item_type.eqb last_type (DiffHandler.type it))
                then DiffHandler.type it else last_type).
  assert (forall steps,
             omap visited
               (mjoin ((if negb (item_type.eqb last_type (DiffHandler.type it))
                        then [DiffHandler.after_callback last_type
                              ++ DiffHandler.before_callback
                                   (DiffHandler.type it)]
                        else []) ++ steps))
             = omap visited (mjoin steps)) as Hopening.
  { intros steps. destruct (negb _); [|done].
    cbn [app]. by rewrite steps_cons, omap_app, visited_boundary. }
  destruct rest as [|next rest].
  - pose proof (item_callback_cases prev it it) as Hc.
    destruct (dispatched (DiffHandler.type it)).
    + destruct Hc as (c & -> & Hv). cbn [fst snd andb forallb take_while].
      split; [|done]. rewrite Hopening, !steps_cons. cbn [app].
      by rewrite omap_visited_cons, Hv, app_nil_r, visited_boundary.
    + rewrite Hc. cbn [fst snd andb]. split; [|done].
      rewrite <- (app_nil_r (if negb _ then _ else _)). by rewrite Hopening.
  - pose proof (item_callback_cases prev it next) as Hc.
    destruct (dispatched (DiffHandler.type it)).
    + destruct Hc as (c & -> & Hv).
      destruct (IH last' it) as [IHv IHo].
      destruct (script last' it (next :: rest)) as [steps outcome].
      cbn [fst snd andb] in *. split; [|done].
      rewrite Hopening, steps_cons. cbn [app].
      by rewrite omap_visited_cons, Hv, IHv.
    + rewrite Hc. cbn [fst snd andb]. split; [|done].
      rewrite <- (app_nil_r (if negb _ then _ else _)). by rewrite Hopening.
Qed.

(** X2. Every handler of the pack is called for the items of the stream
    one by one and in their order, up to, and without, the first item that
    is neither a node, a way nor a relation; the run returns when there is
    no such item and ends in the exception otherwise. *)
Theorem items_are_visited_in_order (items : list DiffHandler.Item)
    (handlers : list nat) (handler : nat) :
  NoDup handlers -> handler ∈ handlers ->
  omap visited (calls_of handler (fst (DiffHandler.apply items handlers)))
  = take_while (fun it => dispatched (DiffHandler.type it)) items
  /\ snd (DiffHandler.apply items handlers)
     = if forallb (fun it => dispatched (DiffHandler.type it)) items
       then DiffHandler.Returned else DiffHandler.UnknownType.
Proof.
  intros Hnd Hin.
  rewrite (apply_script handlers) by (by intros ->; apply elem_of_nil in Hin).
  cbn [fst snd]. rewrite calls_of_broadcast by done.
  unfold script_of. destruct items as [|it rest]; [done|].
  apply script_visited.
Qed.
End HandlerRuns.

Section HandlerCalls.
Import item_type.

(** The three items of a window are one object of type [t]. *)
Definition one_object (t : item_type.t) (d : DiffHandler.Diff) : Prop :=
  DiffHandler.type (DiffHandler.curr d) = t
  /\ DiffHandler.same_object (DiffHandler.prev d) (DiffHandler.curr d) = true
  /\ DiffHandler.same_object (DiffHandler.next d) (DiffHandler.curr d) = true.

Definition well_formed (c : DiffHandler.Callback) : Prop :=
  match c with
  | DiffHandler.node d => one_object node d
  | DiffHandler.way d => one_object way d
  | DiffHandler.relation d => one_object relation d
  | _ => True
  end.

Lemma same_object_refl (it : DiffHandler.Item) :
  DiffHandler.same_object it it = true.
Proof.
  unfold DiffHandler.same_object. rewrite Z.eqb_refl.
  by destruct (DiffHandler.type it).
Qed.

Lemma item_callback_well_formed (prev it next : DiffHandler.Item)
    (c : DiffHandler.Callback) :
  DiffHandler.item_callback prev it next = Some c -> well_formed c.
Proof.
  unfold DiffHandler.item_callback.
  assert (forall other,
             DiffHandler.same_object
               (if negb (DiffHandler.same_object other it) then it else other)
               it = true) as Hsame.
  { intros other. destruct (DiffHandler.same_object other it) eqn:Ho; [done|].
    apply same_object_refl. }
  destruct (DiffHandler.type it) eqn:Ht; intros [= <-]; cbn;
    unfold one_object; cbn; by rewrite !Hsame.
Qed.

Lemma boundary_well_formed (last current : item_type.t) :
  Forall well_formed (DiffHandler.after_callback last
                      ++ DiffHandler.before_callback current).
Proof. destruct last, current; by repeat constructor. Qed.

Lemma before_and_after_well_formed (last current : item_type.t)
    (handlers : list nat) :
  Forall (fun call : DiffHandler.Call => well_formed (snd call))
         (DiffHandler.apply_before_and_after_recurse last current handlers).
Proof.
  induction handlers as [|handler more IH]; [constructor|].
  cbn [DiffHandler.apply_before_and_after_recurse].
  apply Forall_app. split; [|done].
  apply Forall_fmap. eapply Forall_impl; [apply boundary_well_formed|done].
Qed.

Lemma apply_item_recurse_well_formed (prev it next : DiffHandler.Item)
    (handlers : list nat) :
  Forall (fun call : DiffHandler.Call => well_formed (snd call))
         (fst (DiffHandler.apply_item_recurse prev it next handlers)).
Proof.
  induction handlers as [|handler more IH]; [constructor|].
  cbn [DiffHandler.apply_item_recurse].
  destruct (DiffHandler.item_callback prev it next) as [c|] eqn:Hc;
    [|constructor].
  destruct (DiffHandler.apply_item_recurse prev it next more) as [calls o].
  cbn [fst] in *. constructor; [|done].
  by apply (item_callback_well_formed prev it next).
Qed.

Lemma apply_loop_well_formed (handlers : list nat)
    (items : list DiffHandler.Item) :
  forall (last_type : item_type.t) (prev : DiffHandler.Item),
    Forall (fun call : DiffHandler.Call => well_formed (snd call))
           (fst (DiffHandler.apply_loop last_type prev items handlers)).
Proof.
  induction items as [|it rest IH]; intros last_type prev; [constructor|].
  cbn [DiffHandler.apply_loop].
  assert (Forall (fun call : DiffHandler.Call => well_formed (snd call))
            (if negb (item_type.eqb last_type (DiffHandler.type it))
             then DiffHandler.apply_before_and_after_recurse last_type
                    (DiffHandler.type it) handlers
             else [])) as Hopening.
  { destruct (negb _); [apply before_and_after_well_formed|constructor]. }
  destruct rest as [|next rest].
  - pose proof (apply_item_recurse_well_formed prev it it handlers) as Hitem.
    destruct (DiffHandler.apply_item_recurse prev it it handlers)
      as [calls []]; cbn [fst] in *.
    + rewrite !Forall_app. split; [done|]. split; [done|].
      apply before_and_after_well_formed.
    + rewrite Forall_app. done.
  - pose proof (apply_item_recurse_well_formed prev it next handlers) as Hitem.
    destruct (DiffHandler.apply_item_recurse prev it next handlers)
      as [calls []]; cbn [fst] in *.
    + match goal with
      | |- context [DiffHandler.apply_loop ?l ?p ?r ?h] =>
          specialize (IH l p); destruct (DiffHandler.apply_loop l p r h)
      end.
      cbn [fst] in *. rewrite !Forall_app. done.
    + rewrite Forall_app. done.
Qed.

(** X3. In every item callback of a run, whatever the stream holds, the
    three items of the window are one object: the current item has the
    type of the callback (a node for [node], a way for [way], a relation
    for [relation]), and the previous and the next item have the type and
    the id of the current one. *)
Theorem windows_hold_one_object (items : list DiffHandler.Item)
    (handlers : list nat) (call : DiffHandler.Call) :
  call ∈ fst (DiffHandler.apply items handlers) -> well_formed (snd call).
Proof.
  unfold DiffHandler.apply. destruct items as [|it rest].
  - intros Hin. by apply elem_of_nil in Hin.
  - revert call. apply Forall_forall, apply_loop_well_formed.
Qed.
End HandlerCalls.

Section HandlerLifecycle.
Import item_type.

Definition is_init (c : DiffHandler.Callback) : bool :=
  match c with DiffHandler.init => true | _ => false end.

Definition is_done (c : DiffHandler.Callback) : bool :=
  match c with DiffHandler.done => true | _ => false end.

(** How often a handler receives a callback. *)
Definition times (p : DiffHandler.Callback -> bool)
    (calls : list DiffHandler.Callback) : nat :=
  length (List.filter p calls).

Definition is_item (it : DiffHandler.Item) : bool :=
  negb (item_type.eqb (DiffHandler.type it) undefined).

Lemma times_app (p : DiffHandler.Callback -> bool)
    (l1 l2 : list DiffHandler.Callback) :
  times p (l1 ++ l2) = times p l1 + times p l2.
Proof. unfold times. by rewrite List.filter_app, length_app. Qed.

Lemma item_callback_neither (prev it next : DiffHandler.Item)
    (c : DiffHandler.Callback) :
  DiffHandler.item_callback prev it next = Some c ->
  is_init c = false /\ is_done c = false.
Proof.
  unfold DiffHandler.item_callback.
  by destruct (DiffHandler.type it); intros [= <-].
Qed.

Lemma script_step (last_type : item_type.t)
    (prev it next : DiffHandler.Item) (rest : list DiffHandler.Item) :
  script last_type prev (it :: next :: rest)
  = let changed := negb (item_type.eqb last_type (DiffHandler.type it)) in
    let opening :=
      if changed
      then [DiffHandler.after_callback last_type
            ++ DiffHandler.before_callback (DiffHandler.type it)]
      else [] in
    match DiffHandler.item_callback prev it next with
    | Some c =>
        (opening
         ++ [c] :: fst (script (if changed then DiffHandler.type it
                                else last_type) it (next :: rest)),
         snd (script (if changed then DiffHandler.type it else last_type)
                     it (next :: rest)))
    | None => (opening, DiffHandler.UnknownType)
    end.
Proof.
  cbn zeta. change (script last_type prev (it :: next :: rest)) with
    (let changed := negb (item_type.eqb last_type (DiffHandler.type it)) in
     let opening :=
       if changed
       then [DiffHandler.after_callback last_type
             ++ DiffHandler.before_callback (DiffHandler.type it)]
       else [] in
     let last_type := if changed then DiffHandler.type it else last_type in
     match DiffHandler.item_callback prev it next with
     | Some c =>
         let '(steps, outcome) := script last_type it (next :: rest) in
         (opening ++ [c] :: steps, outcome)
     | None => (opening, DiffHandler.UnknownType)
     end).
  cbn zeta. destruct (DiffHandler.item_callback prev it next); [|done].
  by destruct (script _ it (next :: rest)).
Qed.

Lemma script_lifecycle (rest : list DiffHandler.Item) :
  forall (it : DiffHandler.Item) (last_type : item_type.t)
         (prev : DiffHandler.Item),
    forallb is_item (it :: rest) = true ->
    let calls := mjoin (fst (script last_type prev (it :: rest))) in
    let outcome := snd (script last_type prev (it :: rest)) in
    times is_init calls = (if item_type.eqb last_type undefined then 1 else 0)
    /\ (last_type = undefined -> head calls = Some DiffHandler.init)
    /\ times is_done calls
       = match outcome with
         | DiffHandler.Returned => 1
         | DiffHandler.UnknownType => 0
         end
    /\ (outcome = DiffHandler.Returned -> last calls = Some DiffHandler.done).
Proof.
  induction rest as [|next rest IH]; intros it last_type prev Hitems.
  - cbn [forallb] in Hitems. rewrite andb_true_r in Hitems.
    unfold is_item in Hitems. cbn [script].
    destruct (DiffHandler.item_callback prev it it) as [c|] eqn:Hc.
    + destruct (item_callback_neither _ _ _ _ Hc) as [Hi Hd].
      destruct last_type, (DiffHandler.type it); try discriminate Hitems;
        cbn; unfold times; cbn; rewrite ?Hi, ?Hd; cbn; done.
    + destruct last_type, (DiffHandler.type it); try discriminate Hitems;
        cbn; unfold times; cbn; done.
  - cbn [forallb] in Hitems. apply andb_true_iff in Hitems as [Hit Hitems].
    specialize (IH next (DiffHandler.type it) it Hitems).
    rewrite script_step. cbn zeta.
    assert ((if negb (item_type.eqb last_type (DiffHandler.type it))
             then DiffHandler.type it else last_type)
            = DiffHandler.type it) as ->.
    { destruct (item_type.eqb last_type (DiffHandler.type it)) eqn:E; [|done].
      by apply item_type.eqb_eq in E. }
    destruct (DiffHandler.item_callback prev it next) as [c|] eqn:Hc.
    + destruct (item_callback_neither _ _ _ _ Hc) as [Hi Hd].
      destruct (script (DiffHandler.type it) it (next :: rest))
        as [steps outcome].
      cbn [fst snd] in *. cbn zeta in IH.
      destruct IH as (IHi & _ & IHd & IHl).
      unfold is_item in Hit.
      assert (item_type.eqb (DiffHandler.type it) undefined = false) as Hnz
        by (by destruct (item_type.eqb _ _)).
      rewrite Hnz in IHi.
      assert (forall p : DiffHandler.Callback -> bool,
                 p c = false -> times p (c :: mjoin steps) = times p (mjoin steps))
        as Hskip.
      { intros p Hp. unfold times. cbn. by rewrite Hp. }
      assert (forall l : list DiffHandler.Callback,
                 last (mjoin steps) = Some DiffHandler.done ->
                 last (l ++ c :: mjoin steps) = Some DiffHandler.done) as Hlast.
      { intros l Hl. rewrite last_app, last_cons, Hl. done. }
      destruct (negb (item_type.eqb last_type (DiffHandler.type it))) eqn:Hch.
      * cbn [app]. rewrite !steps_cons. cbn [app].
        rewrite !times_app, !Hskip, IHi, IHd by done.
        split; [|split; [|split]].
        -- destruct last_type, (DiffHandler.type it); try discriminate Hit;
             done.
        -- intros ->. by destruct (DiffHandler.type it).
        -- destruct last_type, (DiffHandler.type it); try discriminate Hit;
             done.
        -- intros Ho. apply Hlast, IHl, Ho.
      * cbn [app]. rewrite !steps_cons. cbn [app].
        rewrite !Hskip, IHi, IHd by done.
        apply negb_false_iff, item_type.eqb_eq in Hch. subst last_type.
        rewrite Hnz. split; [done|]. split; [|split; [done|]].
        -- intros Hu. rewrite Hu in Hnz. done.
        -- intros Ho. apply (Hlast []), IHl, Ho.
    + unfold is_item in Hit. cbn [fst snd].
      destruct last_type, (DiffHandler.type it); try discriminate Hit;
        cbn; unfold times; cbn; done.
Qed.

(** X4. On a non-empty stream of items (none of the undefined type), each
    handler of the pack gets [init] exactly once, as its first call.
    It gets [done] exactly once, as its last call, when the run returns,
    and never when the run ends in the exception. *)
Theorem init_once_and_done_only_on_return (items : list DiffHandler.Item)
    (handlers : list nat) (handler : nat) :
  NoDup handlers -> handler ∈ handlers ->
  items <> [] -> forallb is_item items = true ->
  let calls := calls_of handler (fst (DiffHandler.apply items handlers)) in
  times is_init calls = 1
  /\ head calls = Some DiffHandler.init
  /\ match snd (DiffHandler.apply items handlers) with
     | DiffHandler.Returned =>
         times is_done calls = 1 /\ last calls = Some DiffHandler.done
     | DiffHandler.UnknownType => times is_done calls = 0
     end.
Proof.
  intros Hnd Hin Hne Hitems.
  rewrite (apply_script handlers) by (by intros ->; apply elem_of_nil in Hin).
  cbn [fst snd]. rewrite calls_of_broadcast by done.
  unfold script_of. destruct items as [|it rest]; [done|].
  destruct (script_lifecycle rest it undefined it Hitems)
    as (Hi & Hh & Hd & Hl).
  cbn zeta. split; [exact Hi|]. split; [by apply Hh|].
  destruct (snd (script undefined it (it :: rest))); [|done].
  split; [done|by apply Hl].
Qed.
End HandlerLifecycle.

(** * More on the assembler *)

(** ** What a run keeps of the assembler it finds *)

Section Reporting.
Context {G : Geometry} (in_buffer : nat -> Way.t).

(** The step of a run as the reporter and the debug flag see it: problems
    are added behind those reported before, if there is a reporter, and
    the flag stays. *)
Definition reports_step (st st' : Assembler.t) : Prop :=
  exists ps,
    Assembler.m_problem_reporter st'
    = (fun l => l ++ ps) <$> Assembler.m_problem_reporter st
    /\ Assembler.m_debug st' = Assembler.m_debug st.

Lemma reports_step_refl (st : Assembler.t) : reports_step st st.
Proof.
  exists []. split; [|done].
  destruct (Assembler.m_problem_reporter st); cbn; by rewrite ?app_nil_r.
Qed.

Lemma reports_step_trans (st1 st2 st3 : Assembler.t) :
  reports_step st1 st2 -> reports_step st2 st3 -> reports_step st1 st3.
Proof.
  intros (ps & Hp & Hd) (qs & Hq & He). exists (ps ++ qs).
  rewrite Hq, Hp, He, Hd. split; [|done].
  destruct (Assembler.m_problem_reporter st1); cbn; by rewrite ?app_assoc.
Qed.

Lemma reports_step_report_all (ps : list Problem) (st st' : Assembler.t) :
  Assembler.m_problem_reporter st' = Assembler.m_problem_reporter st ->
  Assembler.m_debug st' = Assembler.m_debug st ->
  reports_step st (report_all ps st').
Proof.
  intros Hp Hd. exists ps. destruct st' as [r ? ? ? ? ? ? ?]. cbn in *.
  by rewrite Hp, Hd.
Qed.

Lemma reports_step_same (st st' : Assembler.t) :
  Assembler.m_problem_reporter st' = Assembler.m_problem_reporter st ->
  Assembler.m_debug st' = Assembler.m_debug st ->
  reports_step st st'.
Proof.
  intros Hp Hd. rewrite <- (report_all_nil st').
  by apply reports_step_report_all.
Qed.

Lemma reports_step_stage2 (st : Assembler.t) :
  reports_step st (snd (stage2 in_buffer st)).
Proof.
  assert (reports_step st (scanned in_buffer st)) as Hscanned.
  { unfold scanned. rewrite find_intersections_eq. cbn [snd].
    by apply reports_step_report_all. }
  assert (reports_step st (stitched in_buffer st)) as Hstitched.
  { eapply reports_step_trans; [exact Hscanned|]. unfold stitched.
    destruct (Stitching_build_rings (scanned in_buffer st))
      as (rings & ps & -> & _).
    by apply reports_step_report_all. }
  assert (reports_step st (checked in_buffer st)) as Hchecked.
  { eapply reports_step_trans; [exact Hstitched|]. unfold checked.
    rewrite check_for_open_rings_eq. cbn [snd].
    by apply reports_step_report_all. }
  rewrite stage2_eq.
  destruct (fst (find_intersections in_buffer (prepared st))); [done|].
  destruct (fst (check_for_open_rings (stitched in_buffer st))); [done|].
  cbn [snd]. eapply reports_step_trans; [exact Hchecked|].
  apply (reports_step_trans _ (classified in_buffer st)).
  - unfold classified. rewrite find_inner_outer_eq. cbn [snd].
    apply reports_step_same.
    + destruct (Assembler.m_rings _) as [|r [|r' rings]]; [|done|];
        unfold nested_state;
        match goal with
        | |- context [match Assembler.m_outer_rings ?s with _ => _ end] =>
            destruct (Assembler.m_outer_rings s) as [|o [|o' outers]]
        end; done.
    + destruct (Assembler.m_rings _) as [|r [|r' rings]]; [|done|];
        unfold nested_state;
        match goal with
        | |- context [match Assembler.m_outer_rings ?s with _ => _ end] =>
            destruct (Assembler.m_outer_rings s) as [|o [|o' outers]]
        end; done.
  - destruct (audit_step_check_inner_outer_roles in_buffer
                (classified in_buffer st)) as (m & ps & ->).
    by apply reports_step_report_all.
Qed.
End Reporting.

Section Runs.
Context {G : Geometry} (in_buffer : nat -> Way.t).

Lemma reports_step_way_input (way_ptr : nat) (st : Assembler.t) :
  reports_step st (way_input in_buffer way_ptr st).
Proof.
  unfold way_input. destruct (negb _).
  - rewrite report_eq. cbn [snd].
    exists [report_duplicate_node
              (NodeRef.ref (default ProtoRing.undefined_noderef
                              (head (Way.nodes (in_buffer way_ptr)))))
              (NodeRef.ref (default ProtoRing.undefined_noderef
                              (last (Way.nodes (in_buffer way_ptr)))))
              (NodeRef.location (default ProtoRing.undefined_noderef
                                   (head (Way.nodes (in_buffer way_ptr)))))].
    done.
  - by apply reports_step_same.
Qed.

Lemma reports_step_assemble_way (way_ptr : nat) (buf : Buffer.t)
    (st : Assembler.t) :
  reports_step st (snd (assemble_way in_buffer way_ptr buf st)).
Proof.
  destruct (assemble_way_eq in_buffer way_ptr buf st) as (-> & _).
  eapply reports_step_trans; [apply reports_step_way_input|].
  apply reports_step_stage2.
Qed.

Lemma reports_step_assemble_ways (offsets : list nat)
    (bs : Buffer.t * Assembler.t) :
  reports_step (snd bs) (snd (assemble_ways in_buffer offsets bs)).
Proof.
  revert bs. induction offsets as [|o offsets IH]; intros bs.
  - apply reports_step_refl.
  - cbn [assemble_ways foldl]. eapply reports_step_trans; [|apply IH].
    apply reports_step_assemble_way.
Qed.

(** X5. A run of the assembler, from a way or from a relation, leaves the
    calls the problem reporter had received where they were and only adds
    calls behind them; an assembler without a reporter stays without one;
    and the debug flag is left as it was. *)
Theorem reports_are_only_added (src : Source) (buf : Buffer.t)
    (st : Assembler.t) :
  exists ps,
    Assembler.m_problem_reporter (snd (assemble in_buffer src buf st))
    = (fun l => l ++ ps) <$> Assembler.m_problem_reporter st
    /\ Assembler.m_debug (snd (assemble in_buffer src buf st))
       = Assembler.m_debug st.
Proof.
  change (reports_step st (snd (assemble in_buffer src buf st))).
  destruct src as [way_ptr|relation members]; cbn [assemble].
  - apply reports_step_assemble_way.
  - destruct (assemble_relation_eq in_buffer relation members buf st)
      as (b1 & _ & _ & ->).
    assert (reports_step st
              (snd (stage2 in_buffer
                      (relation_input in_buffer relation members st))))
      as Hstage.
    { eapply reports_step_trans; [|apply reports_step_stage2].
      by apply reports_step_same. }
    destruct (_ && _); [|done].
    eapply reports_step_trans; [exact Hstage|].
    apply (reports_step_assemble_ways _ (b1, _)).
Qed.

(** X6. When the first and the last node of a way differ in their ids and
    the assembler has a problem reporter, the first call the reporter
    receives in the run for that way is [report_duplicate_node] with the
    two ids and the location of the first node. The run goes on after it:
    [stage2] is entered with that report made and with the segments of the
    way, the assembler after the run is the assembler after that [stage2],
    and when it succeeds the area gets the tags of the way and its
    rings. *)
Theorem way_with_unequal_end_ids_is_reported (way_ptr : nat) (buf : Buffer.t)
    (st : Assembler.t) (log : list Problem) :
  Way.ends_have_same_id (in_buffer way_ptr) = false ->
  Assembler.m_problem_reporter st = Some log ->
  exists front back ps,
    head (Way.nodes (in_buffer way_ptr)) = Some front
    /\ last (Way.nodes (in_buffer way_ptr)) = Some back
    /\ Assembler.m_problem_reporter (way_input in_buffer way_ptr st)
       = Some (log ++ [report_duplicate_node (NodeRef.ref front)
                         (NodeRef.ref back) (NodeRef.location front)])
    /\ Assembler.m_segment_list (way_input in_buffer way_ptr st)
       = SegmentList.segments_of_nodes "outer" way_ptr
           (Way.nodes (in_buffer way_ptr))
    /\ snd (assemble_way in_buffer way_ptr buf st)
       = snd (stage2 in_buffer (way_input in_buffer way_ptr st))
    /\ Assembler.m_problem_reporter
         (snd (assemble_way in_buffer way_ptr buf st))
       = Some (log ++ report_duplicate_node (NodeRef.ref front)
                        (NodeRef.ref back) (NodeRef.location front) :: ps)
    /\ (forall st',
          stage2 in_buffer (way_input in_buffer way_ptr st) = (true, st') ->
          exists area,
            Buffer.written (fst (assemble_way in_buffer way_ptr buf st))
            = Buffer.written buf ++ [area]
            /\ Area.tags area = Way.tags (in_buffer way_ptr)
            /\ Area.rings area = emitted_rings st').
Proof.
  intros Hends Hlog.
  destruct (assemble_way_eq in_buffer way_ptr buf st) as (Hs & Hw & _).
  cbn zeta in Hs, Hw.
  destruct (reports_step_stage2 in_buffer (way_input in_buffer way_ptr st))
    as (ps & Hps & _).
  pose proof Hends as Hends'. unfold Way.ends_have_same_id in Hends'.
  destruct (head (Way.nodes (in_buffer way_ptr))) as [front|] eqn:Hfront;
    [|done].
  destruct (last (Way.nodes (in_buffer way_ptr))) as [back|] eqn:Hback;
    [|done].
  assert (Assembler.m_problem_reporter (way_input in_buffer way_ptr st)
          = Some (log ++ [report_duplicate_node (NodeRef.ref front)
                            (NodeRef.ref back) (NodeRef.location front)])
          /\ Assembler.m_segment_list (way_input in_buffer way_ptr st)
             = SegmentList.segments_of_nodes "outer" way_ptr
                 (Way.nodes (in_buffer way_ptr))) as [Hin Hsegs].
  { unfold way_input. rewrite Hends, Hfront, Hback. cbn [negb default].
    rewrite report_eq. cbn [snd].
    destruct st as [r ? ? ? ? ? ? ?]. cbn in Hlog. subst r. done. }
  exists front, back, ps. split; [done|]. split; [done|].
  split; [exact Hin|]. split; [exact Hsegs|]. split; [exact Hs|].
  split.
  - rewrite Hs, Hps, Hin. cbn. by rewrite <- app_assoc.
  - intros st' Hst. rewrite Hst in Hw. cbn [fst snd] in Hw.
    eexists. split; [exact Hw|]. unfold area_of.
    by rewrite with_tags_and_rings_eq.
Qed.

Lemma init_assembler_forgets (id : Z) (st1 st2 : Assembler.t) :
  Assembler.m_problem_reporter st1 = Assembler.m_problem_reporter st2 ->
  Assembler.m_debug st1 = Assembler.m_debug st2 ->
  Assembler.init_assembler id st1 = Assembler.init_assembler id st2.
Proof. unfold Assembler.init_assembler. by intros -> ->. Qed.

(** X7. A run depends on the assembler it starts from only through the
    problem reporter and the debug flag: whatever an earlier run has left
    in the segment list, the rings, the outer and inner ring lists, the
    object id and the mismatch count, the buffer and the assembler after
    the run are the same. *)
Theorem assembler_can_be_reused (src : Source) (buf : Buffer.t)
    (st1 st2 : Assembler.t) :
  Assembler.m_problem_reporter st1 = Assembler.m_problem_reporter st2 ->
  Assembler.m_debug st1 = Assembler.m_debug st2 ->
  assemble in_buffer src buf st1 = assemble in_buffer src buf st2.
Proof.
  intros Hp Hd. destruct src as [way_ptr|relation members]; cbn [assemble].
  - unfold assemble_way. unfold bindM at 1. unfold bindM at 4.
    cbn [modify].
    by rewrite (init_assembler_forgets _ st1 st2).
  - unfold assemble_relation. unfold bindM at 1. unfold bindM at 3.
    cbn [modify].
    by rewrite (init_assembler_forgets _ st1 st2).
Qed.

(** X8. The area of a way whose [stage2] succeeds is the only record the
    run writes; it carries all the tags of the way, in their order and
    none left out, and the rings handed to the ring builders. *)
Theorem way_area_carries_the_tags_of_the_way (way_ptr : nat) (buf : Buffer.t)
    (st st' : Assembler.t) :
  stage2 in_buffer (way_input in_buffer way_ptr st) = (true, st') ->
  exists area,
    Buffer.written (fst (assemble_way in_buffer way_ptr buf st))
    = Buffer.written buf ++ [area]
    /\ Area.tags area = Way.tags (in_buffer way_ptr)
    /\ Area.rings area = emitted_rings st'
    /\ snd (assemble_way in_buffer way_ptr buf st) = st'.
Proof.
  intros Hst.
  destruct (assemble_way_eq in_buffer way_ptr buf st) as (Hs & Hw & _).
  rewrite Hst in Hs, Hw. cbn [fst snd] in Hs, Hw.
  eexists. split; [exact Hw|]. unfold area_of.
  rewrite with_tags_and_rings_eq. done.
Qed.

(** X9. [stage2] returns true exactly when the scan of the sorted segments
    without duplicates finds no intersection and stitching leaves no ring
    open. *)
Theorem stage2_succeeds_iff (st : Assembler.t) :
  fst (stage2 in_buffer st) = true
  <-> fst (find_intersections in_buffer (prepared st)) = false
      /\ open_rings (stitched in_buffer st) = [].
Proof.
  rewrite stage2_eq.
  destruct (fst (find_intersections in_buffer (prepared st))).
  { cbn. by split; [|intros []]. }
  rewrite check_for_open_rings_eq. cbn [fst].
  destruct (open_rings (stitched in_buffer st)); cbn; by split; [|intros []].
Qed.
End Runs.

(** ** Nothing to assemble *)

Section NoSegments.
Context {G : Geometry} (in_buffer : nat -> Way.t).

Lemma stage2_without_segments (st : Assembler.t) :
  Assembler.m_segment_list (prepared st) = [] ->
  Assembler.m_rings st = [] ->
  Assembler.m_outer_rings st = [] ->
  Assembler.m_inner_rings st = [] ->
  stage2 in_buffer st = (true, prepared st).
Proof.
  intros Hsegs Hrings Houter Hinner.
  assert (scanned in_buffer st = prepared st) as Hscanned.
  { unfold scanned. rewrite find_intersections_eq, Hsegs. cbn.
    apply report_all_nil. }
  assert (stitched in_buffer st = prepared st) as Hstitched.
  { unfold stitched, build_rings, bindM, gets. by rewrite Hscanned, Hsegs. }
  assert (Assembler.m_rings (prepared st) = []) as Hr by done.
  assert (checked in_buffer st = prepared st) as Hchecked.
  { unfold checked. rewrite check_for_open_rings_eq, Hstitched.
    unfold open_rings. rewrite Hr. cbn. apply report_all_nil. }
  assert (classified in_buffer st = prepared st) as Hclassified.
  { unfold classified. rewrite find_inner_outer_eq, Hchecked, Hr. cbn [snd].
    unfold nested_state, classified_state.
    destruct st as [r d sl rings id outers inners m]. cbn in *. subst.
    done. }
  rewrite stage2_eq, find_intersections_eq, Hsegs. cbn [fst nonempty].
  rewrite check_for_open_rings_eq, Hstitched. unfold open_rings.
  rewrite Hr. cbn [List.filter nonempty fst]. rewrite Hclassified.
  unfold check_inner_outer_roles, bindM, gets.
  destruct st as [r d sl rings id outers inners m]. cbn in *. by subst.
Qed.

(** X10. When sorting the segments of the source and erasing the
    duplicates leaves no segment (a way with fewer than two nodes, a way
    that runs forth and back, members that cancel each other), [stage2]
    returns true without building a ring or reporting a problem, and the
    area of the source is written with its tags and without any ring. *)
Theorem nothing_to_assemble (src : Source) (buf : Buffer.t)
    (st : Assembler.t) :
  let st0 := stage2_input in_buffer src st in
  Assembler.m_segment_list (prepared st0) = [] ->
  stage2 in_buffer st0 = (true, prepared st0)
  /\ Assembler.m_rings (prepared st0) = []
  /\ Assembler.m_problem_reporter (prepared st0)
     = Assembler.m_problem_reporter st0
  /\ exists area rest,
       Buffer.written (fst (assemble in_buffer src buf st))
       = Buffer.written buf ++ area :: rest
       /\ Area.tags area = source_tags in_buffer src (prepared st0)
       /\ Area.rings area = [].
Proof.
  intros st0 Hsegs.
  destruct (stage2_input_fields in_buffer src st) as (Hr & Ho & Hi & _).
  fold st0 in Hr, Ho, Hi.
  pose proof (stage2_without_segments st0 Hsegs Hr Ho Hi) as Hst.
  split; [exact Hst|]. split; [exact Hr|]. split; [done|].
  destruct (assemble_written in_buffer src buf st) as (rest & Hw & _).
  fold st0 in Hw. rewrite Hst in Hw. cbn [fst snd] in Hw.
  eexists _, rest. split; [exact Hw|].
  unfold area_of. rewrite with_tags_and_rings_eq. cbn.
  split; [done|]. unfold emitted_rings.
  change (Assembler.m_outer_rings (prepared st0))
    with (Assembler.m_outer_rings st0).
  by rewrite Ho.
Qed.
End NoSegments.

(** ** The role audit *)

Section RoleAudit.
Context {G : Geometry} (in_buffer : nat -> Way.t).

(** A segment of an outer ring ([outer = true]) that does not have the
    role outer, or one of an inner ring that does not have the role
    inner. *)
Definition misplaced (outer : bool) (segment : NodeRefSegment.t) : bool :=
  negb (if outer then NodeRefSegment.role_outer segment
        else NodeRefSegment.role_inner segment).

(** The misplaced segments of the rings behind [ringptrs], ring by ring. *)
Definition misplaced_in (outer : bool) (st : Assembler.t)
    (ringptrs : list nat) : list NodeRefSegment.t :=
  flat_map (fun n => List.filter (misplaced outer)
                       (ProtoRing.segments (ring_of st n)))
           ringptrs.

Definition audited (ps : list Problem) (st : Assembler.t) : Assembler.t :=
  report_all ps
    (Assembler.set_mismatches (fun m => (m + Z.of_nat (length ps))%Z) st).

Lemma audited_nil (st : Assembler.t) : audited [] st = st.
Proof.
  unfold audited. rewrite report_all_nil. destruct st.
  unfold Assembler.set_mismatches. cbn [length]. f_equal.
  apply Z.add_0_r.
Qed.

Lemma audited_app (ps qs : list Problem) (st : Assembler.t) :
  audited qs (audited ps st) = audited (ps ++ qs) st.
Proof.
  unfold audited, report_all, Assembler.set_problem_reporter,
    Assembler.set_mismatches.
  destruct st as [[l|] ? ? ? ? ? ? m]; cbn; f_equal;
    rewrite ?length_app, <- ?app_assoc; try done; lia.
Qed.

Lemma audited_fields (ps : list Problem) (st : Assembler.t) :
  Assembler.m_object_id (audited ps st) = Assembler.m_object_id st
  /\ Assembler.m_rings (audited ps st) = Assembler.m_rings st
  /\ Assembler.m_outer_rings (audited ps st) = Assembler.m_outer_rings st
  /\ Assembler.m_inner_rings (audited ps st) = Assembler.m_inner_rings st
  /\ Assembler.m_inner_outer_mismatches (audited ps st)
     = (Assembler.m_inner_outer_mismatches st + Z.of_nat (length ps))%Z.
Proof. by destruct st as [[l|] ? ? ? ? ? ? m]. Qed.

Lemma check_role_eq (outer : bool) (segment : NodeRefSegment.t)
    (st : Assembler.t) :
  check_role in_buffer outer segment st
  = (tt, audited (if misplaced outer segment
                  then [role_problem in_buffer outer
                          (Assembler.m_object_id st) segment]
                  else []) st).
Proof.
  unfold check_role. fold (misplaced outer segment).
  destruct (misplaced outer segment).
  - unfold bindM, modify, gets. rewrite report_eq.
    unfold audited, report_all, Assembler.set_problem_reporter,
      Assembler.set_mismatches.
    destruct st as [[l|] ? ? ? ? ? ? m]; cbn; do 2 f_equal; lia.
  - by rewrite audited_nil.
Qed.

Lemma for_each_check_role (outer : bool) (segments : list NodeRefSegment.t) :
  forall st,
    for_each segments (check_role in_buffer outer) st
    = (tt, audited (map (role_problem in_buffer outer
                           (Assembler.m_object_id st))
                        (List.filter (misplaced outer) segments)) st).
Proof.
  induction segments as [|s segments IH]; intros st.
  - cbn. by rewrite audited_nil.
  - cbn [for_each List.filter]. unfold bindM.
    rewrite check_role_eq, IH.
    destruct (audited_fields
                (if misplaced outer s
                 then [role_problem in_buffer outer
                         (Assembler.m_object_id st) s]
                 else []) st) as (-> & _).
    rewrite audited_app. by destruct (misplaced outer s).
Qed.

Lemma for_each_ring_check_role (outer : bool) (st0 : Assembler.t)
    (ringptrs : list nat) :
  forall st,
    Assembler.m_rings st = Assembler.m_rings st0 ->
    Assembler.m_object_id st = Assembler.m_object_id st0 ->
    for_each ringptrs
      (fun ringptr =>
         ring <- ring_at ringptr;
         for_each (ProtoRing.segments ring) (check_role in_buffer outer)) st
    = (tt, audited (map (role_problem in_buffer outer
                           (Assembler.m_object_id st0))
                        (misplaced_in outer st0 ringptrs)) st).
Proof.
  induction ringptrs as [|n ringptrs IH]; intros st Hr Hid.
  - cbn. by rewrite audited_nil.
  - cbn [for_each misplaced_in flat_map]. unfold bindM at 1.
    unfold bindM at 1. unfold ring_at, gets.
    rewrite for_each_check_role, IH.
    + rewrite audited_app, map_app, Hid. unfold ring_of. by rewrite Hr.
    + by destruct (audited_fields
                     (map (role_problem in_buffer outer
                             (Assembler.m_object_id st))
                          (List.filter (misplaced outer)
                             (ProtoRing.segments
                                (default (ProtoRing.of_segments [])
                                         (Assembler.m_rings st !! n))))) st)
        as (_ & -> & _).
    + by destruct (audited_fields
                     (map (role_problem in_buffer outer
                             (Assembler.m_object_id st))
                          (List.filter (misplaced outer)
                             (ProtoRing.segments
                                (default (ProtoRing.of_segments [])
                                         (Assembler.m_rings st !! n))))) st)
        as (-> & _).
Qed.

(** The problems the role audit reports, in the order of its two loops. *)
Definition role_problems (st : Assembler.t) : list Problem :=
  map (role_problem in_buffer true (Assembler.m_object_id st))
      (misplaced_in true st (Assembler.m_outer_rings st))
  ++ map (role_problem in_buffer false (Assembler.m_object_id st))
         (misplaced_in false st (Assembler.m_inner_rings st)).

Lemma check_inner_outer_roles_eq (st : Assembler.t) :
  check_inner_outer_roles in_buffer st = (tt, audited (role_problems st) st).
Proof.
  unfold check_inner_outer_roles, bindM, gets.
  rewrite (for_each_ring_check_role true st) by done.
  destruct (audited_fields
              (map (role_problem in_buffer true (Assembler.m_object_id st))
                   (misplaced_in true st (Assembler.m_outer_rings st))) st)
    as (Hid & Hr & _ & Hi & _).
  rewrite (for_each_ring_check_role false st) by done.
  by rewrite Hi, audited_app.
Qed.
End RoleAudit.

Section RoleAuditOutcome.
Context {G : Geometry} (in_buffer : nat -> Way.t).

Lemma misplaced_in_nil (outer : bool) (st : Assembler.t)
    (ringptrs : list nat) :
  misplaced_in outer st ringptrs = []
  <-> forall n s, n ∈ ringptrs ->
                  s ∈ ProtoRing.segments (ring_of st n) ->
                  misplaced outer s = false.
Proof.
  unfold misplaced_in. induction ringptrs as [|n ringptrs IH].
  - split; [|done]. intros _ n s Hn. by apply elem_of_nil in Hn.
  - cbn [flat_map]. split.
    + intros [Hhere Hrest]%app_eq_nil n' s [->|Hn']%elem_of_cons Hs.
      * destruct (misplaced outer s) eqn:Hm; [|done].
        assert (s ∈ List.filter (misplaced outer)
                      (ProtoRing.segments (ring_of st n))) as Hin.
        { apply list_elem_of_In, filter_In. split; [|done].
          by apply list_elem_of_In. }
        rewrite Hhere in Hin. by apply elem_of_nil in Hin.
      * by apply (proj1 IH Hrest n').
    + intros Hall.
      enough (List.filter (misplaced outer)
                (ProtoRing.segments (ring_of st n)) = []
              /\ flat_map
                   (fun n => List.filter (misplaced outer)
                               (ProtoRing.segments (ring_of st n)))
                   ringptrs = []) as [-> ->] by done.
      split.
      * destruct (List.filter _ _) as [|s l] eqn:Hf; [done|].
        assert (In s (List.filter (misplaced outer)
                        (ProtoRing.segments (ring_of st n)))) as Hin
          by (rewrite Hf; by left).
        apply filter_In in Hin as [Hin Hm].
        rewrite (Hall n s) in Hm; [done|by left|by apply list_elem_of_In].
      * apply IH. intros n' s Hn'. apply Hall. by right.
Qed.

Lemma classified_mismatches (src : Source) (st : Assembler.t) :
  let st0 := stage2_input in_buffer src st in
  open_rings (stitched in_buffer st0) = [] ->
  Assembler.m_inner_outer_mismatches (classified in_buffer st0) = 0%Z.
Proof.
  intros st0 Hopen.
  destruct (stitched_fields in_buffer src st) as (_ & _ & _ & Hm & _).
  fold st0 in Hm. unfold classified, checked.
  rewrite check_for_open_rings_eq, Hopen. cbn [snd map].
  rewrite report_all_nil, find_inner_outer_eq. cbn [snd].
  destruct (Assembler.m_rings _) as [|r [|r' rings]]; [|done|];
    unfold nested_state;
    match goal with
    | |- context [match Assembler.m_outer_rings ?s with _ => _ end] =>
        destruct (Assembler.m_outer_rings s) as [|o [|o' outers]]
    end; done.
Qed.

(** X11. After a successful [stage2] the mismatch count is the number of
    segments of outer rings that do not have the role outer plus the
    number of segments of inner rings that do not have the role inner. So
    the count is zero exactly when every segment of every outer ring
    comes from a member with role outer and every segment of every inner
    ring from a member with role inner. *)
Theorem role_audit_counts_misplaced_segments (src : Source)
    (st st' : Assembler.t) :
  stage2 in_buffer (stage2_input in_buffer src st) = (true, st') ->
  Assembler.m_inner_outer_mismatches st'
  = Z.of_nat
      (length (misplaced_in true st' (Assembler.m_outer_rings st'))
       + length (misplaced_in false st' (Assembler.m_inner_rings st')))
  /\ (Assembler.m_inner_outer_mismatches st' = 0%Z
      <-> (forall n s,
              n ∈ Assembler.m_outer_rings st' ->
              s ∈ ProtoRing.segments (ring_of st' n) ->
              NodeRefSegment.role s = "outer")
          /\ (forall n s,
                 n ∈ Assembler.m_inner_rings st' ->
                 s ∈ ProtoRing.segments (ring_of st' n) ->
                 NodeRefSegment.role s = "inner")).
Proof.
  intros Hst.
  destruct (stage2_success in_buffer _ _ Hst) as (Hscan & Hopen & _).
  pose proof (classified_mismatches src st Hopen) as Hzero.
  rewrite stage2_eq, Hscan, check_for_open_rings_eq, Hopen in Hst.
  cbn [fst nonempty] in Hst. rewrite check_inner_outer_roles_eq in Hst.
  injection Hst as <-.
  set (c := classified in_buffer (stage2_input in_buffer src st)) in *.
  destruct (audited_fields (role_problems in_buffer c) c)
    as (_ & Hr & Ho & Hi & Hm).
  assert (forall outer ptrs,
             misplaced_in outer (audited (role_problems in_buffer c) c) ptrs
             = misplaced_in outer c ptrs) as Hsame.
  { intros outer ptrs. unfold misplaced_in, ring_of. by rewrite Hr. }
  rewrite Hm, Hzero, Ho, Hi, !Hsame.
  unfold ring_of. rewrite Hr. fold (ring_of c). unfold role_problems.
  rewrite length_app, !length_map. split; [done|]. cbn [Z.add].
  split.
  - intros Hsum.
    assert (length (misplaced_in true c (Assembler.m_outer_rings c)) = 0
            /\ length (misplaced_in false c (Assembler.m_inner_rings c)) = 0)
      as [Ha Hb] by lia.
    apply length_zero_iff_nil in Ha, Hb.
    pose proof (proj1 (misplaced_in_nil _ _ _) Ha) as Ha'.
    pose proof (proj1 (misplaced_in_nil _ _ _) Hb) as Hb'.
    split; intros n s Hn Hs.
    + specialize (Ha' n s Hn Hs). unfold misplaced in Ha'.
      apply negb_false_iff in Ha'. by apply String.eqb_eq in Ha'.
    + specialize (Hb' n s Hn Hs). unfold misplaced in Hb'.
      apply negb_false_iff in Hb'. by apply String.eqb_eq in Hb'.
  - intros [Ha Hb].
    assert (misplaced_in true c (Assembler.m_outer_rings c) = []) as ->.
    { apply misplaced_in_nil. intros n s Hn Hs. unfold misplaced.
      apply negb_false_iff. apply String.eqb_eq. by apply (Ha n). }
    assert (misplaced_in false c (Assembler.m_inner_rings c) = []) as ->.
    { apply misplaced_in_nil. intros n s Hn Hs. unfold misplaced.
      apply negb_false_iff. apply String.eqb_eq. by apply (Hb n). }
    done.
Qed.
End RoleAuditOutcome.

(** ** The areas a relation leaves in the buffer *)

Section WrittenAreas.
Context {G : Geometry} (in_buffer : nat -> Way.t).

Lemma assemble_ways_ids (offsets : list nat) (bs : Buffer.t * Assembler.t) :
  map Area.id (Buffer.written (fst (assemble_ways in_buffer offsets bs)))
  = map Area.id (Buffer.written (fst bs))
    ++ map (fun offset => wrap64 (Way.id (in_buffer offset) * 2)) offsets.
Proof.
  revert bs. induction offsets as [|o offsets IH]; intros bs.
  - cbn. by rewrite app_nil_r.
  - cbn [assemble_ways foldl map].
    change (foldl _ ?b offsets) with (assemble_ways in_buffer offsets b).
    rewrite IH.
    destruct (assemble_way_eq in_buffer o (fst bs) (snd bs)) as (_ & -> & _).
    rewrite map_app, <- app_assoc. cbn [map app]. do 2 f_equal.
    destruct (area_of_attributes in_buffer (FromWay o)
                (fst (stage2 in_buffer (way_input in_buffer o (snd bs))))
                (snd (stage2 in_buffer (way_input in_buffer o (snd bs)))))
      as [-> _].
    cbn [source_object origin_offset]. unfold Way.id. f_equal. lia.
Qed.

(** X12. A run for a relation writes the area of the relation, with the
    id of the relation doubled plus one, and behind it one area for each
    inner member it assembles on its own, in the order of the members and
    with the id of the member's way doubled. It assembles such members
    only when [stage2] succeeded without a role mismatch; otherwise the
    area of the relation is all it writes. *)
Theorem areas_written_for_a_relation (relation : Relation.t)
    (members : list nat) (buf : Buffer.t) (st : Assembler.t) :
  let src := FromRelation relation members in
  let r := stage2 in_buffer (stage2_input in_buffer src st) in
  map Area.id (Buffer.written (fst (assemble in_buffer src buf st)))
  = map Area.id (Buffer.written buf)
    ++ wrap64 (Relation.id relation * 2 + 1)
       :: map (fun offset => wrap64 (Way.id (in_buffer offset) * 2))
              (if fst r && (Assembler.m_inner_outer_mismatches (snd r) =? 0)%Z
               then rescued in_buffer
                      (Area.tags (area_of in_buffer src (fst r) (snd r)))
                      (zip (Relation.members relation) members)
               else []).
Proof.
  intros src r. cbn [assemble src].
  destruct (assemble_relation_eq in_buffer relation members buf st)
    as (b1 & Hb1 & _ & ->).
  fold src. change (stage2 in_buffer (relation_input in_buffer relation members st))
    with r in *.
  destruct (area_of_attributes in_buffer src (fst r) (snd r)) as [Hid _].
  cbn [source_object origin_offset src] in Hid.
  fold src in Hb1. unfold Relation.id.
  destruct (fst r && _).
  - rewrite assemble_ways_ids. cbn [fst]. rewrite Hb1, map_app, <- app_assoc.
    cbn [map app]. by rewrite Hid.
  - cbn [fst map]. rewrite Hb1, map_app. cbn [map]. by rewrite Hid.
Qed.
End WrittenAreas.

(** ** Every ring is registered once *)

Section Registration.
Context {G : Geometry} (in_buffer : nat -> Way.t).

Lemma registered_partition (rings : list ProtoRing.t) :
  forall k,
    Permutation (registered true k rings ++ registered false k rings)
                (seq k (length rings)).
Proof.
  induction rings as [|r rings IH]; intros k; [done|].
  cbn [registered length seq].
  destruct (ProtoRing.outer r); cbn [Bool.eqb app].
  - constructor. apply IH.
  - rewrite <- Permutation_middle. constructor. apply IH.
Qed.

(** X13. After a successful [stage2] every ring of the ring list is
    registered exactly once, among the outer rings when its flag says
    outer and among the inner rings when it says inner: the two lists
    together are the positions of the ring list, none missing and none
    twice. *)
Theorem every_ring_is_registered_once (src : Source) (st st' : Assembler.t) :
  stage2 in_buffer (stage2_input in_buffer src st) = (true, st') ->
  Permutation (Assembler.m_outer_rings st' ++ Assembler.m_inner_rings st')
              (seq 0 (length (Assembler.m_rings st')))
  /\ (forall n, n ∈ Assembler.m_outer_rings st' ->
                ProtoRing.outer (ring_of st' n) = true)
  /\ (forall n, n ∈ Assembler.m_inner_rings st' ->
                ProtoRing.outer (ring_of st' n) = false).
Proof.
  intros Hst.
  destruct (decide (length (Assembler.m_rings st') = 1)) as [Hone|Hlen].
  - pose proof Hone as Hone'.
    rewrite (stage2_rings_length in_buffer src st st' Hst) in Hone'.
    destruct (Assembler.m_rings (stitched in_buffer _))
      as [|ring [|r' rings]] eqn:Hr; try done.
    destruct (stage2_success_single in_buffer src st st' ring Hst Hr)
      as (Hr' & Ho & Hi & Hfresh & _).
    rewrite Ho, Hi, Hr'. split; [done|]. split.
    + intros n ->%list_elem_of_singleton. unfold ring_of. rewrite Hr'.
      cbn. apply Hfresh.
    + intros n Hn. by apply elem_of_nil in Hn.
  - destruct (stage2_success_multi in_buffer src st st' Hst Hlen)
      as (Hfresh & _ & Hout).
    destruct (multi_ring_rings _ st' Hfresh Hout)
      as (target & Hcases & Hinn & Hsame & _).
    set (rings := map (classify (Assembler.m_segment_list
                                   (stitched in_buffer
                                      (stage2_input in_buffer src st))))
                      (Assembler.m_rings
                         (stitched in_buffer
                            (stage2_input in_buffer src st)))) in *.
    assert (Permutation (Assembler.m_outer_rings st') (registered true 0 rings))
      as Hperm.
    { destruct Hcases as [(o & -> & -> & _)|(_ & Hp & _)]; done. }
    assert (length (Assembler.m_rings st') = length rings) as Hlen'.
    { rewrite (stage2_rings_length in_buffer src st st' Hst).
      subst rings. by rewrite length_map. }
    assert (forall b n, n ∈ registered b 0 rings ->
                        ProtoRing.outer (ring_of st' n) = b) as Hflag.
    { intros b n (_ & r & Hn & Hb)%elem_of_registered.
      rewrite Nat.sub_0_r in Hn.
      destruct (same_ring_facts _ _ (Hsame n)) as (_ & _ & _ & _ & _ & ->).
      by rewrite Hn. }
    split; [|split].
    + rewrite Hperm, Hinn, Hlen'. apply registered_partition.
    + intros n Hn. apply Hflag. by rewrite <- Hperm.
    + intros n Hn. apply Hflag. by rewrite <- Hinn.
Qed.
End Registration.

(** ** The early exit of the intersection scan *)

Section EarlyExit.
Context {G : Geometry}.

(** The scan of [s1] against all segments behind it, where a segment
    outside the x-range of [s1] is passed over instead of ending the
    loop. *)
Definition intersections_with_all (s1 : NodeRefSegment.t)
    (rest : list NodeRefSegment.t)
    : list (NodeRefSegment.t * NodeRefSegment.t * Location.t) :=
  omap (fun s2 =>
          if NodeRefSegment.outside_x_range s2 s1 then None
          else (fun p => (s1, s2, p)) <$> intersection_of s1 s2)
       rest.

(** All pairs of a segment and a later one that are in each other's
    x-range, distinct, overlap in their y-ranges and intersect. *)
Fixpoint all_intersections (l : list NodeRefSegment.t)
    : list (NodeRefSegment.t * NodeRefSegment.t * Location.t) :=
  match l with
  | [] => []
  | s1 :: rest => intersections_with_all s1 rest ++ all_intersections rest
  end.

Definition first_x (s : NodeRefSegment.t) : Z :=
  Location.x (NodeRef.location (NodeRefSegment.first s)).

Definition lex_lt (a b : Location.t) : Prop :=
  (Location.x a < Location.x b
   \/ (Location.x a = Location.x b /\ Location.y a < Location.y b))%Z.

Lemma Location_ltb_spec (a b : Location.t) :
  Location.ltb a b = true <-> lex_lt a b.
Proof.
  unfold Location.ltb, lex_lt.
  rewrite orb_true_iff, andb_true_iff, !Z.ltb_lt, Z.eqb_eq. done.
Qed.

Lemma Location_eqb_spec (a b : Location.t) :
  Location.eqb a b = true
  <-> Location.x a = Location.x b /\ Location.y a = Location.y b.
Proof. unfold Location.eqb. by rewrite andb_true_iff, !Z.eqb_eq. Qed.

Lemma segment_ltb_spec (a b : NodeRefSegment.t) :
  NodeRefSegment.ltb a b = true
  <-> lex_lt (NodeRef.location (NodeRefSegment.first a))
             (NodeRef.location (NodeRefSegment.first b))
      \/ ((Location.x (NodeRef.location (NodeRefSegment.first a))
           = Location.x (NodeRef.location (NodeRefSegment.first b))
           /\ Location.y (NodeRef.location (NodeRefSegment.first a))
              = Location.y (NodeRef.location (NodeRefSegment.first b)))
          /\ lex_lt (NodeRef.location (NodeRefSegment.second a))
                    (NodeRef.location (NodeRefSegment.second b))).
Proof.
  unfold NodeRefSegment.ltb.
  by rewrite orb_true_iff, andb_true_iff, !Location_ltb_spec,
    Location_eqb_spec.
Qed.

Lemma segment_ltb_asym (a b : NodeRefSegment.t) :
  NodeRefSegment.ltb a b = true -> NodeRefSegment.ltb b a = false.
Proof.
  rewrite <- not_true_iff_false, !segment_ltb_spec. unfold lex_lt. lia.
Qed.

Lemma not_after_trans (a b c : NodeRefSegment.t) :
  not_after NodeRefSegment.ltb a b -> not_after NodeRefSegment.ltb b c ->
  not_after NodeRefSegment.ltb a c.
Proof.
  unfold not_after. rewrite <- !not_true_iff_false, !segment_ltb_spec.
  unfold lex_lt. lia.
Qed.

Lemma not_after_first_x (a b : NodeRefSegment.t) :
  not_after NodeRefSegment.ltb a b -> (first_x a <= first_x b)%Z.
Proof.
  unfold not_after, first_x. rewrite <- not_true_iff_false, segment_ltb_spec.
  unfold lex_lt. lia.
Qed.

Lemma sort_strongly_sorted (l : list NodeRefSegment.t) :
  StronglySorted (not_after NodeRefSegment.ltb) (SegmentList.sort l).
Proof.
  apply Sorted_StronglySorted.
  - intros a b c. apply not_after_trans.
  - apply std_sort_sorted, segment_ltb_asym.
Qed.

Lemma erase_first_pair_sorted (l l' : list NodeRefSegment.t) :
  SegmentList.erase_first_pair l = Some l' ->
  StronglySorted (not_after NodeRefSegment.ltb) l ->
  StronglySorted (not_after NodeRefSegment.ltb) l'
  /\ forall s, Forall (not_after NodeRefSegment.ltb s) l ->
               Forall (not_after NodeRefSegment.ltb s) l'.
Proof.
  revert l'. induction l as [|a l IH]; intros l' Herase Hsorted; [done|].
  destruct l as [|b l]; [done|].
  change (SegmentList.erase_first_pair (a :: b :: l))
    with (if NodeRefSegment.eqb a b then Some l
          else cons a <$> SegmentList.erase_first_pair (b :: l)) in Herase.
  apply StronglySorted_inv in Hsorted as [Hsorted Ha].
  destruct (NodeRefSegment.eqb a b).
  - injection Herase as <-.
    apply StronglySorted_inv in Hsorted as [Hsorted _]. split; [done|].
    intros s Hs. by do 2 apply Forall_inv_tail in Hs.
  - destruct (SegmentList.erase_first_pair (b :: l)) as [l''|] eqn:Hl'';
      [|done].
    injection Herase as <-.
    destruct (IH l'' eq_refl Hsorted) as [Hs'' Hall].
    split.
    + constructor; [done|]. by apply Hall.
    + intros s Hs. apply Forall_cons in Hs as [Hsa Hs].
      apply Forall_cons. split; [done|]. by apply Hall.
Qed.

Lemma erase_duplicate_segments_sorted (l : list NodeRefSegment.t) :
  StronglySorted (not_after NodeRefSegment.ltb) l ->
  StronglySorted (not_after NodeRefSegment.ltb)
                 (SegmentList.erase_duplicate_segments l).
Proof.
  unfold SegmentList.erase_duplicate_segments. generalize (length l) at 1.
  intros fuel. revert l. induction fuel as [|fuel IH]; intros l Hl; [done|].
  cbn [SegmentList.erase_loop].
  destruct (SegmentList.erase_first_pair l) as [l'|] eqn:Hl'; [|done].
  apply IH. by apply (erase_first_pair_sorted l l').
Qed.
End EarlyExit.

Section EarlyExitIsSound.
Context {G : Geometry} (in_buffer : nat -> Way.t).

Lemma intersections_with_all_outside (s1 : NodeRefSegment.t)
    (rest : list NodeRefSegment.t) :
  Forall (fun s2 => NodeRefSegment.outside_x_range s2 s1 = true) rest ->
  intersections_with_all s1 rest = [].
Proof.
  unfold intersections_with_all.
  induction 1 as [|s2 rest Hs2 Hrest IH]; [done|].
  cbn [omap list_omap]. by rewrite Hs2.
Qed.

Lemma intersections_with_sorted (s1 : NodeRefSegment.t)
    (rest : list NodeRefSegment.t) :
  StronglySorted (not_after NodeRefSegment.ltb) rest ->
  intersections_with s1 rest = intersections_with_all s1 rest.
Proof.
  induction 1 as [|s2 rest Hsorted IH Hs2]; [done|].
  rewrite intersections_with_cons.
  change (intersections_with_all s1 (s2 :: rest))
    with (match (if NodeRefSegment.outside_x_range s2 s1 then None
                 else (fun p => (s1, s2, p)) <$> intersection_of s1 s2) with
          | Some f => f :: intersections_with_all s1 rest
          | None => intersections_with_all s1 rest
          end).
  unfold leaves_x_range, intersection_of.
  destruct (NodeRefSegment.eqb s1 s2) eqn:Heq; cbn [negb andb].
  - rewrite IH. by destruct (NodeRefSegment.outside_x_range s2 s1).
  - destruct (NodeRefSegment.outside_x_range s2 s1) eqn:Hout.
    + symmetry. apply intersections_with_all_outside.
      eapply Forall_impl; [exact Hs2|]. intros s3 Hs3.
      apply not_after_first_x in Hs3.
      unfold NodeRefSegment.outside_x_range, first_x in *.
      apply Z.ltb_lt in Hout. apply Z.ltb_lt. lia.
    + rewrite IH.
      by destruct (if NodeRefSegment.y_range_overlap s1 s2
                   then calculate_intersection s1 s2 else None).
Qed.

Lemma found_intersections_sorted (l : list NodeRefSegment.t) :
  StronglySorted (not_after NodeRefSegment.ltb) l ->
  found_intersections l = all_intersections l.
Proof.
  induction 1 as [|s1 rest Hsorted IH Hs1]; [done|].
  cbn [found_intersections all_intersections].
  by rewrite IH, intersections_with_sorted.
Qed.

(** X14. In [stage2] the early exit of the intersection scan loses
    nothing: on the sorted segment list without duplicates, leaving the
    inner loop at the first segment outside the x-range of [s1] finds and
    reports the same intersections, in the same order, as passing over
    that segment and looking at all segments behind it. *)
Theorem early_exit_of_the_scan_loses_nothing (st : Assembler.t) :
  let segments := Assembler.m_segment_list (prepared st) in
  StronglySorted (not_after NodeRefSegment.ltb) segments
  /\ find_intersections in_buffer (prepared st)
     = (nonempty (all_intersections segments),
        report_all (intersection_problems in_buffer
                      (Assembler.m_object_id (prepared st))
                      (all_intersections segments))
                   (prepared st)).
Proof.
  cbn zeta.
  assert (StronglySorted (not_after NodeRefSegment.ltb)
            (Assembler.m_segment_list (prepared st))) as Hsorted.
  { rewrite prepared_eq. destruct st. cbn.
    apply erase_duplicate_segments_sorted, sort_strongly_sorted. }
  split; [exact Hsorted|].
  by rewrite find_intersections_eq, found_intersections_sorted.
Qed.
End EarlyExitIsSound.

(** ** Stitching keeps the segments

    Segments are compared up to their direction: stitching turns
    segments around. *)

Section SegmentsUpToDirection.
(** [a] before [b] by location, then by id. *)
Definition node_before (a b : NodeRef.t) : bool :=
  Location.ltb (NodeRef.location a) (NodeRef.location b)
  || (Location.eqb (NodeRef.location a) (NodeRef.location b)
      && (NodeRef.ref a <? NodeRef.ref b)%Z).

(** The segment with its endpoints in the order of [node_before]. *)
Definition undirected (s : NodeRefSegment.t) : NodeRefSegment.t :=
  if node_before (NodeRefSegment.second s) (NodeRefSegment.first s)
  then NodeRefSegment.swap_locations s else s.

Lemma node_before_spec (a b : NodeRef.t) :
  node_before a b = true
  <-> lex_lt (NodeRef.location a) (NodeRef.location b)
      \/ ((Location.x (NodeRef.location a) = Location.x (NodeRef.location b)
           /\ Location.y (NodeRef.location a)
              = Location.y (NodeRef.location b))
          /\ (NodeRef.ref a < NodeRef.ref b)%Z).
Proof.
  unfold node_before.
  by rewrite orb_true_iff, andb_true_iff, Location_ltb_spec,
    Location_eqb_spec, Z.ltb_lt.
Qed.

Lemma node_before_total (a b : NodeRef.t) :
  node_before a b = false -> node_before b a = false -> a = b.
Proof.
  rewrite <- !not_true_iff_false, !node_before_spec. unfold lex_lt.
  destruct a as [ra [xa ya]], b as [rb [xb yb]]. cbn. intros Hab Hba.
  assert (xa = xb /\ ya = yb /\ ra = rb) as (-> & -> & ->) by lia. done.
Qed.

Lemma node_before_asym (a b : NodeRef.t) :
  node_before a b = true -> node_before b a = false.
Proof.
  rewrite <- not_true_iff_false, !node_before_spec. unfold lex_lt. lia.
Qed.

Lemma undirected_swap (s : NodeRefSegment.t) :
  undirected (NodeRefSegment.swap_locations s) = undirected s.
Proof.
  unfold undirected. destruct s as [a b r w]. cbn.
  destruct (node_before a b) eqn:Hab, (node_before b a) eqn:Hba; try done.
  - by rewrite (node_before_asym _ _ Hab) in Hba.
  - by rewrite (node_before_total _ _ Hab Hba).
Qed.

#[global] Instance Location_eq_dec : EqDecision Location.t.
Proof. solve_decision. Defined.

#[global] Instance NodeRef_eq_dec : EqDecision NodeRef.t.
Proof. solve_decision. Defined.

#[global] Instance NodeRefSegment_eq_dec : EqDecision NodeRefSegment.t.
Proof. solve_decision. Defined.

(** How often the segment [k], up to direction, is among [l]. *)
Definition occurs (k : NodeRefSegment.t) (l : list NodeRefSegment.t) : nat :=
  count_occ NodeRefSegment_eq_dec (map undirected l) k.

(** The segments of all rings of a ring list. *)
Definition all_segments (rings : list ProtoRing.t) : list NodeRefSegment.t :=
  flat_map ProtoRing.segments rings.

Lemma occurs_app (k : NodeRefSegment.t) (l1 l2 : list NodeRefSegment.t) :
  occurs k (l1 ++ l2) = occurs k l1 + occurs k l2.
Proof. unfold occurs. by rewrite map_app, count_occ_app. Qed.

Lemma occurs_turned (k : NodeRefSegment.t) (l : list NodeRefSegment.t) :
  occurs k (rev (map NodeRefSegment.swap_locations l)) = occurs k l.
Proof.
  unfold occurs. rewrite map_rev, count_occ_rev, map_map. f_equal.
  apply map_ext. intros s. apply undirected_swap.
Qed.

Lemma occurs_swap (k s : NodeRefSegment.t) :
  occurs k [NodeRefSegment.swap_locations s] = occurs k [s].
Proof. unfold occurs. cbn [map]. by rewrite undirected_swap. Qed.

Lemma occurs_take_drop (k : NodeRefSegment.t) (i : nat)
    (l : list NodeRefSegment.t) :
  occurs k (take i l) + occurs k (drop i l) = occurs k l.
Proof. by rewrite <- occurs_app, take_drop. Qed.

Lemma occurs_cut (k : NodeRefSegment.t) (i j : nat)
    (l : list NodeRefSegment.t) :
  i <= j ->
  occurs k (take (j - i) (drop i l)) + occurs k (take i l ++ drop j l)
  = occurs k l.
Proof.
  intros Hij. rewrite occurs_app.
  pose proof (occurs_take_drop k i l) as Hl.
  pose proof (occurs_take_drop k (j - i) (drop i l)) as Hd.
  rewrite drop_drop in Hd. replace (i + (j - i)) with j in Hd by lia. lia.
Qed.

Lemma all_segments_app (l1 l2 : list ProtoRing.t) :
  all_segments (l1 ++ l2) = all_segments l1 ++ all_segments l2.
Proof. apply flat_map_app. Qed.

Lemma occurs_alter (k : NodeRefSegment.t) (g : ProtoRing.t -> ProtoRing.t)
    (rings : list ProtoRing.t) :
  forall n r,
    rings !! n = Some r ->
    occurs k (all_segments (alter g n rings)) + occurs k (ProtoRing.segments r)
    = occurs k (all_segments rings) + occurs k (ProtoRing.segments (g r)).
Proof.
  induction rings as [|r0 rings IH]; intros n r Hn; [done|].
  destruct n as [|n].
  - injection Hn as ->. cbn [alter list_alter all_segments flat_map].
    rewrite !occurs_app. lia.
  - cbn [alter list_alter all_segments flat_map]. rewrite !occurs_app.
    specialize (IH n r Hn). unfold all_segments in IH. lia.
Qed.

Lemma occurs_delete (k : NodeRefSegment.t) (rings : list ProtoRing.t) :
  forall j r,
    rings !! j = Some r ->
    occurs k (all_segments (delete j rings)) + occurs k (ProtoRing.segments r)
    = occurs k (all_segments rings).
Proof.
  induction rings as [|r0 rings IH]; intros j r Hj; [done|].
  destruct j as [|j].
  - injection Hj as ->. change (delete 0 (r :: rings)) with rings.
    unfold all_segments. cbn [flat_map]. rewrite occurs_app. lia.
  - change (delete (S j) (r0 :: rings)) with (r0 :: delete j rings).
    unfold all_segments. cbn [flat_map]. rewrite !occurs_app.
    specialize (IH j r Hj). unfold all_segments in IH. lia.
Qed.

Lemma occurs_snoc (k : NodeRefSegment.t) (rings : list ProtoRing.t)
    (l : list NodeRefSegment.t) :
  occurs k (all_segments (rings ++ [ProtoRing.of_segments l]))
  = occurs k (all_segments rings) + occurs k l.
Proof.
  rewrite all_segments_app, occurs_app. cbn. by rewrite app_nil_r.
Qed.
End SegmentsUpToDirection.

Section OnRings.
Context {G : Geometry}.

(** What a method does to the ring list: started on the ring list [rs0],
    it returns [a] and leaves the ring list [rs] with [Q a rs]. *)
Definition on_rings {A : Type} (rs0 : list ProtoRing.t) (m : M A)
    (Q : A -> list ProtoRing.t -> Prop) : Prop :=
  forall st, Assembler.m_rings st = rs0 ->
             Q (fst (m st)) (Assembler.m_rings (snd (m st))).

Lemma on_rings_ret {A : Type} (rs0 : list ProtoRing.t) (a : A)
    (Q : A -> list ProtoRing.t -> Prop) :
  Q a rs0 -> on_rings rs0 (mret a) Q.
Proof. by intros HQ st <-. Qed.

Lemma on_rings_bind {A B : Type} (rs0 : list ProtoRing.t) (m : M A)
    (f : A -> M B) (Q : B -> list ProtoRing.t -> Prop) :
  on_rings rs0 m (fun a rs1 => on_rings rs1 (f a) Q) ->
  on_rings rs0 (bindM m f) Q.
Proof.
  intros Hm st Hst. unfold bindM. specialize (Hm st Hst).
  destruct (m st) as [a st1]. by apply Hm.
Qed.

Lemma on_rings_conseq {A : Type} (rs0 : list ProtoRing.t) (m : M A)
    (Q1 Q : A -> list ProtoRing.t -> Prop) :
  on_rings rs0 m Q1 -> (forall a rs, Q1 a rs -> Q a rs) -> on_rings rs0 m Q.
Proof. intros Hm HQ st Hst. by apply HQ, Hm. Qed.

Lemma on_rings_gets_rings (rs0 : list ProtoRing.t)
    (Q : list ProtoRing.t -> list ProtoRing.t -> Prop) :
  Q rs0 rs0 -> on_rings rs0 (gets Assembler.m_rings) Q.
Proof. by intros HQ st <-. Qed.

Lemma on_rings_ring_at (rs0 : list ProtoRing.t) (n : nat)
    (Q : ProtoRing.t -> list ProtoRing.t -> Prop) :
  Q (default (ProtoRing.of_segments []) (rs0 !! n)) rs0 ->
  on_rings rs0 (ring_at n) Q.
Proof. by intros HQ st <-. Qed.

Lemma on_rings_set_rings (rs0 : list ProtoRing.t)
    (f : list ProtoRing.t -> list ProtoRing.t)
    (Q : unit -> list ProtoRing.t -> Prop) :
  Q tt (f rs0) -> on_rings rs0 (modify (Assembler.set_rings f)) Q.
Proof. by intros HQ st <-. Qed.

Lemma on_rings_has_same_location (rs0 : list ProtoRing.t)
    (nr1 nr2 : NodeRef.t) (Q : bool -> list ProtoRing.t -> Prop) :
  (forall same, Q same rs0) ->
  on_rings rs0 (has_same_location nr1 nr2) Q.
Proof.
  intros HQ st <-. unfold has_same_location.
  destruct (negb (Location.eqb _ _)); [apply HQ|].
  unfold bindM. destruct (negb (_ =? _)%Z); [|apply HQ].
  rewrite report_eq. cbn [fst snd mret M_ret].
  match goal with
  | |- Q _ (Assembler.m_rings (report_all ?ps st)) =>
      replace (Assembler.m_rings (report_all ps st))
        with (Assembler.m_rings st) by (by destruct st)
  end.
  apply HQ.
Qed.

Lemma lookup_of_drop {A : Type} (l l' : list A) (j : nat) (x : A) :
  drop j l = x :: l' -> l !! j = Some x /\ drop (S j) l = l'.
Proof.
  intros Hd. split.
  - assert (drop j l !! 0 = Some x) as Hx by (by rewrite Hd).
    rewrite lookup_drop in Hx. by rewrite Nat.add_0_r in Hx.
  - assert (drop 1 (drop j l) = l') as Hl' by (by rewrite Hd).
    rewrite drop_drop in Hl'. by rewrite Nat.add_1_r in Hl'.
Qed.
End OnRings.

Section Subrings.
Context {G : Geometry} (k : NodeRefSegment.t).

(** The ring list holds the same segments, up to direction, and no ring
    has gone. *)
Definition same_segments (rs0 rs : list ProtoRing.t) : Prop :=
  occurs k (all_segments rs) = occurs k (all_segments rs0)
  /\ length rs0 <= length rs.

Lemma same_segments_split (rs0 : list ProtoRing.t) (n : nat)
    (r : ProtoRing.t) (g : ProtoRing.t -> ProtoRing.t)
    (cut : list NodeRefSegment.t) :
  rs0 !! n = Some r ->
  occurs k cut + occurs k (ProtoRing.segments (g r))
  = occurs k (ProtoRing.segments r) ->
  same_segments rs0 (alter g n rs0 ++ [ProtoRing.of_segments cut]).
Proof.
  intros Hn Hsplit. split.
  - rewrite occurs_snoc.
    pose proof (occurs_alter k g rs0 n r Hn) as Ha. lia.
  - rewrite length_app, length_alter. lia.
Qed.

Lemma has_closed_subring_end_loop_segments (n : nat) (nr : NodeRef.t)
    (segs : list NodeRefSegment.t) (rs0 : list ProtoRing.t) (r : ProtoRing.t) :
  rs0 !! n = Some r -> ProtoRing.segments r = segs ->
  forall its i,
    on_rings rs0 (has_closed_subring_end_loop n nr segs i its)
             (fun _ rs => same_segments rs0 rs).
Proof.
  intros Hn Hsegs its. induction its as [|it its IH]; intros i.
  - apply on_rings_ret. by split.
  - cbn [has_closed_subring_end_loop]. apply on_rings_bind.
    apply on_rings_has_same_location. intros [|]; [|apply IH].
    apply on_rings_bind, on_rings_set_rings.
    apply on_rings_bind, on_rings_set_rings.
    apply on_rings_ret.
    apply (same_segments_split rs0 n r); [done|].
    cbn [ProtoRing.remove_segments ProtoRing.set_segments ProtoRing.segments].
    rewrite Hsegs, drop_all, app_nil_r.
    pose proof (occurs_take_drop k i segs). lia.
Qed.

Lemma has_closed_subring_start_loop_segments (n : nat) (nr : NodeRef.t)
    (segs : list NodeRefSegment.t) (rs0 : list ProtoRing.t) (r : ProtoRing.t) :
  rs0 !! n = Some r -> ProtoRing.segments r = segs ->
  forall its i,
    on_rings rs0 (has_closed_subring_start_loop n nr segs i its)
             (fun _ rs => same_segments rs0 rs).
Proof.
  intros Hn Hsegs its. induction its as [|it its IH]; intros i.
  - apply on_rings_ret. by split.
  - cbn [has_closed_subring_start_loop]. apply on_rings_bind.
    apply on_rings_has_same_location. intros [|]; [|apply IH].
    apply on_rings_bind, on_rings_set_rings.
    apply on_rings_bind, on_rings_set_rings.
    apply on_rings_ret.
    apply (same_segments_split rs0 n r); [done|].
    cbn [ProtoRing.remove_segments ProtoRing.set_segments ProtoRing.segments].
    rewrite Hsegs. change (take 0 segs ++ drop (S i) segs) with (drop (S i) segs).
    pose proof (occurs_take_drop k (S i) segs). lia.
Qed.

Lemma ring_with_segments (rs0 : list ProtoRing.t) (n : nat) :
  ProtoRing.segments (default (ProtoRing.of_segments []) (rs0 !! n)) <> [] ->
  exists r, rs0 !! n = Some r
            /\ default (ProtoRing.of_segments []) (rs0 !! n) = r.
Proof. destruct (rs0 !! n) as [r|]; [by exists r|done]. Qed.

Lemma has_closed_subring_end_segments (n : nat) (segment : NodeRefSegment.t)
    (rs0 : list ProtoRing.t) :
  on_rings rs0 (has_closed_subring_end n segment)
           (fun _ rs => same_segments rs0 rs).
Proof.
  unfold has_closed_subring_end. apply on_rings_bind, on_rings_ring_at.
  destruct (_ <? 3) eqn:Hlen; [apply on_rings_ret; by split|].
  destruct (ring_with_segments rs0 n) as (r & Hn & Hr).
  { intros Hnil. rewrite Hnil in Hlen. done. }
  rewrite Hr. by apply (has_closed_subring_end_loop_segments n _ _ rs0 r).
Qed.

Lemma has_closed_subring_start_segments (n : nat) (segment : NodeRefSegment.t)
    (rs0 : list ProtoRing.t) :
  on_rings rs0 (has_closed_subring_start n segment)
           (fun _ rs => same_segments rs0 rs).
Proof.
  unfold has_closed_subring_start. apply on_rings_bind, on_rings_ring_at.
  destruct (_ <? 3) eqn:Hlen; [apply on_rings_ret; by split|].
  destruct (ring_with_segments rs0 n) as (r & Hn & Hr).
  { intros Hnil. rewrite Hnil in Hlen. done. }
  rewrite Hr. by apply (has_closed_subring_start_loop_segments n _ _ rs0 r).
Qed.

Lemma adjacent_find_same_first_rings (l : list NodeRefSegment.t)
    (rs0 : list ProtoRing.t) :
  on_rings rs0 (adjacent_find_same_first l)
           (fun found rs => rs = rs0 /\ (is_Some found -> l <> [])).
Proof.
  induction l as [|s1 l IH].
  - apply on_rings_ret. split; [done|]. by intros [? ?].
  - destruct l as [|s2 l].
    + apply on_rings_ret. split; [done|]. by intros [? ?].
    + change (adjacent_find_same_first (s1 :: s2 :: l))
        with (same <- has_same_location (NodeRefSegment.first s1)
                                        (NodeRefSegment.first s2);
              if same then mret (Some (s1, s2))
              else adjacent_find_same_first (s2 :: l)).
      apply on_rings_bind, on_rings_has_same_location. intros [|].
      * by apply on_rings_ret.
      * eapply on_rings_conseq; [exact IH|]. by intros found rs [-> _].
Qed.

Lemma check_for_closed_subring_segments (n : nat) (rs0 : list ProtoRing.t) :
  on_rings rs0 (check_for_closed_subring n)
           (fun _ rs => same_segments rs0 rs).
Proof.
  unfold check_for_closed_subring. apply on_rings_bind, on_rings_ring_at.
  apply on_rings_bind.
  eapply on_rings_conseq; [apply adjacent_find_same_first_rings|].
  intros found rs [-> Hfound]. cbn beta.
  destruct found as [[s1 s2]|]; [|apply on_rings_ret; by split].
  destruct (ring_with_segments rs0 n) as (r & Hn & Hr).
  { intros Hnil. apply Hfound; [done|]. by rewrite Hnil. }
  rewrite Hr.
  apply on_rings_bind, on_rings_set_rings.
  apply on_rings_bind, on_rings_set_rings.
  apply on_rings_ret.
  apply (same_segments_split rs0 n r); [done|].
  cbn [ProtoRing.remove_segments ProtoRing.set_segments ProtoRing.segments].
  apply occurs_cut. lia.
Qed.
End Subrings.

Section Combining.
Context {G : Geometry} (k : NodeRefSegment.t).

(** The ring list after two rings have become one: the same segments, up
    to direction, and the reference to the combined ring is a ring of
    the list. *)
Definition combined_segments (rs0 : list ProtoRing.t)
    (result : bool * nat) (rs : list ProtoRing.t) : Prop :=
  occurs k (all_segments rs) = occurs k (all_segments rs0)
  /\ snd result < length rs.

Lemma after_erase_lt (j n len : nat) :
  j <> n -> j < len -> n < len -> after_erase j n < len - 1.
Proof.
  intros Hne Hj Hn. unfold after_erase.
  destruct (j <? n) eqn:Hlt; [apply Nat.ltb_lt in Hlt|apply Nat.ltb_ge in Hlt];
    lia.
Qed.

(** One ring takes over the segments of another, which is erased. *)
Lemma merged_segments (rs0 rs : list ProtoRing.t) (n j : nat)
    (r it merged erased : ProtoRing.t) :
  rs0 !! n = Some r -> rs0 !! j = Some it -> j <> n ->
  length rs = length rs0 ->
  rs !! n = Some merged -> rs !! j = Some erased ->
  (forall i, i <> n -> i <> j -> rs !! i = rs0 !! i) ->
  occurs k (ProtoRing.segments merged)
  = occurs k (ProtoRing.segments r) + occurs k (ProtoRing.segments it) ->
  combined_segments rs0 (true, after_erase j n) (delete j rs).
Proof.
  intros Hn Hj Hne Hlen Hn' Hj' Hothers Hmerged. split.
  - pose proof (occurs_delete k rs j erased Hj') as Hd.
    assert (occurs k (all_segments rs) + occurs k (ProtoRing.segments r)
            + occurs k (ProtoRing.segments it)
            = occurs k (all_segments rs0)
              + occurs k (ProtoRing.segments merged)
              + occurs k (ProtoRing.segments erased)) as Hboth.
    { assert (rs = <[j:=erased]> (<[n:=merged]> rs0)) as ->.
      { apply list_eq. intros i.
        destruct (decide (i = j)) as [->|Hij].
        - rewrite Hj', list_lookup_insert_eq; [done|].
          rewrite length_insert. by apply lookup_lt_Some in Hj.
        - rewrite list_lookup_insert_ne by done.
          destruct (decide (i = n)) as [->|Hin].
          + rewrite Hn', list_lookup_insert_eq; [done|].
            by apply lookup_lt_Some in Hn.
          + rewrite list_lookup_insert_ne by done. by apply Hothers. }
      pose proof (occurs_alter k (fun _ => merged) rs0 n r Hn) as H1.
      rewrite (alter_lookup_insert _ n rs0 r Hn) in H1.
      assert (<[n:=merged]> rs0 !! j = Some it) as Hj1
        by (by rewrite list_lookup_insert_ne).
      pose proof (occurs_alter k (fun _ => erased) _ j it Hj1) as H2.
      rewrite (alter_lookup_insert _ j _ it Hj1) in H2. lia. }
    lia.
  - cbn [snd]. rewrite length_delete by done. rewrite Hlen.
    apply after_erase_lt; [done|by apply lookup_lt_Some in Hj
                           |by apply lookup_lt_Some in Hn].
Qed.
End Combining.

Section CombiningLoops.
Context {G : Geometry} (k : NodeRefSegment.t).

Ltac alter_lookups :=
  repeat first
    [ rewrite list_lookup_alter_eq
    | rewrite list_lookup_alter_ne by congruence
    | rewrite length_alter ].

Ltac ring_segments :=
  cbn [ProtoRing.merge_ring ProtoRing.merge_ring_reverse ProtoRing.reverse
       ProtoRing.set_segments ProtoRing.segments];
  rewrite ?occurs_app, ?occurs_turned.

Lemma possibly_combine_rings_end_loop_segments (n : nat) (nr : NodeRef.t)
    (rs0 : list ProtoRing.t) :
  n < length rs0 ->
  forall its j,
    drop j rs0 = its ->
    on_rings rs0 (possibly_combine_rings_end_loop n nr j its)
             (combined_segments k rs0).
Proof.
  intros Hn its. induction its as [|it its IH]; intros j Hdrop.
  - apply on_rings_ret. by split.
  - apply lookup_of_drop in Hdrop as [Hj Hdrop].
    destruct (lookup_lt_is_Some_2 rs0 n Hn) as [r Hr].
    cbn [possibly_combine_rings_end_loop].
    destruct (negb (j =? n) && negb (ProtoRing.closed it)) eqn:Hcond;
      [|by apply IH].
    apply andb_true_iff in Hcond as [Hne%negb_true_iff%Nat.eqb_neq _].
    apply on_rings_bind, on_rings_has_same_location. intros [|].
    { apply on_rings_bind, on_rings_set_rings.
      apply on_rings_bind, on_rings_set_rings. apply on_rings_ret.
      apply (merged_segments k rs0 _ n j r it (ProtoRing.merge_ring it r) it
               Hr Hj Hne).
      - by alter_lookups.
      - alter_lookups. by rewrite Hr.
      - by alter_lookups.
      - intros i Hin Hij. by alter_lookups.
      - by ring_segments. }
    apply on_rings_bind, on_rings_has_same_location. intros [|];
      [|by apply IH].
    apply on_rings_bind, on_rings_set_rings.
    apply on_rings_bind, on_rings_set_rings. apply on_rings_ret.
    apply (merged_segments k rs0 _ n j r it
             (ProtoRing.merge_ring_reverse it r) it Hr Hj Hne).
    + by alter_lookups.
    + alter_lookups. by rewrite Hr.
    + by alter_lookups.
    + intros i Hin Hij. by alter_lookups.
    + by ring_segments.
Qed.

Lemma possibly_combine_rings_end_segments (n : nat) (rs0 : list ProtoRing.t) :
  n < length rs0 ->
  on_rings rs0 (possibly_combine_rings_end n) (combined_segments k rs0).
Proof.
  intros Hn. unfold possibly_combine_rings_end.
  apply on_rings_bind, on_rings_ring_at.
  apply on_rings_bind, on_rings_gets_rings.
  by apply possibly_combine_rings_end_loop_segments.
Qed.

Lemma possibly_combine_rings_start_loop_segments (n : nat) (nr : NodeRef.t)
    (rs0 : list ProtoRing.t) :
  n < length rs0 ->
  forall its j,
    drop j rs0 = its ->
    on_rings rs0 (possibly_combine_rings_start_loop n nr j its)
             (combined_segments k rs0).
Proof.
  intros Hn its. induction its as [|it its IH]; intros j Hdrop.
  - apply on_rings_ret. by split.
  - apply lookup_of_drop in Hdrop as [Hj Hdrop].
    destruct (lookup_lt_is_Some_2 rs0 n Hn) as [r Hr].
    cbn [possibly_combine_rings_start_loop].
    destruct (negb (j =? n) && negb (ProtoRing.closed it)) eqn:Hcond;
      [|by apply IH].
    apply andb_true_iff in Hcond as [Hne%negb_true_iff%Nat.eqb_neq _].
    apply on_rings_bind, on_rings_has_same_location. intros [|].
    { apply on_rings_bind, on_rings_ring_at. rewrite Hr. cbn [default].
      apply on_rings_bind, on_rings_set_rings.
      apply on_rings_bind, on_rings_set_rings.
      apply on_rings_bind, on_rings_set_rings.
      apply on_rings_bind, on_rings_set_rings. apply on_rings_ret.
      apply (merged_segments k rs0 _ n j r it
               (ProtoRing.merge_ring
                  (ProtoRing.set_segments (ProtoRing.segments r) it)
                  (ProtoRing.set_segments (ProtoRing.segments it) r))
               (ProtoRing.set_segments (ProtoRing.segments r) it)
               Hr Hj Hne).
      - by alter_lookups.
      - alter_lookups. by rewrite Hr.
      - alter_lookups. by rewrite Hj.
      - intros i Hin Hij. by alter_lookups.
      - ring_segments. lia. }
    apply on_rings_bind, on_rings_has_same_location. intros [|];
      [|by apply IH].
    apply on_rings_bind, on_rings_set_rings.
    apply on_rings_bind, on_rings_set_rings.
    apply on_rings_bind, on_rings_set_rings. apply on_rings_ret.
    apply (merged_segments k rs0 _ n j r it
             (ProtoRing.merge_ring it (ProtoRing.reverse r)) it Hr Hj Hne).
    + by alter_lookups.
    + alter_lookups. by rewrite Hr.
    + by alter_lookups.
    + intros i Hin Hij. by alter_lookups.
    + by ring_segments.
Qed.

Lemma possibly_combine_rings_start_segments (n : nat)
    (rs0 : list ProtoRing.t) :
  n < length rs0 ->
  on_rings rs0 (possibly_combine_rings_start n) (combined_segments k rs0).
Proof.
  intros Hn. unfold possibly_combine_rings_start.
  apply on_rings_bind, on_rings_ring_at.
  apply on_rings_bind, on_rings_gets_rings.
  by apply possibly_combine_rings_start_loop_segments.
Qed.
End CombiningLoops.

Section StitchingKeepsSegments.
Context {G : Geometry} (in_buffer : nat -> Way.t).

(** The ring list has taken up the segments [added]. *)
Definition taken_up (k : NodeRefSegment.t) (added : list NodeRefSegment.t)
    (rs0 rs : list ProtoRing.t) : Prop :=
  occurs k (all_segments rs) = occurs k (all_segments rs0) + occurs k added.

Lemma combine_rings_segments (k segment : NodeRefSegment.t) (n : nat)
    (at_end : bool) (rs0 : list ProtoRing.t) :
  n < length rs0 ->
  on_rings rs0 (combine_rings segment n at_end)
           (fun _ rs => taken_up k [segment] rs0 rs).
Proof.
  intros Hn. destruct (lookup_lt_is_Some_2 rs0 n Hn) as [r Hr].
  unfold combine_rings. destruct at_end.
  - apply on_rings_bind, on_rings_set_rings.
    pose proof (occurs_alter k (ProtoRing.add_segment_end segment) rs0 n r Hr)
      as H1.
    cbn [ProtoRing.add_segment_end ProtoRing.set_segments ProtoRing.segments]
      in H1. rewrite occurs_app in H1.
    apply on_rings_bind.
    eapply on_rings_conseq; [apply (has_closed_subring_end_segments k)|].
    intros _ rs2 [H2 Hlen2]. rewrite length_alter in Hlen2.
    apply on_rings_bind.
    eapply on_rings_conseq;
      [apply (possibly_combine_rings_end_segments k); lia|].
    intros [combined n'] rs3 [H3 Hn']. cbn [snd] in Hn'.
    destruct combined.
    + apply on_rings_bind.
      eapply on_rings_conseq; [apply (check_for_closed_subring_segments k)|].
      intros _ rs4 [H4 _]. apply on_rings_ret. unfold taken_up. lia.
    + apply on_rings_ret. unfold taken_up. lia.
  - apply on_rings_bind, on_rings_set_rings.
    pose proof (occurs_alter k (ProtoRing.add_segment_start segment) rs0 n r
                  Hr) as H1.
    cbn [ProtoRing.add_segment_start ProtoRing.set_segments
         ProtoRing.segments] in H1.
    change (segment :: ProtoRing.segments r)
      with ([segment] ++ ProtoRing.segments r) in H1.
    rewrite occurs_app in H1.
    apply on_rings_bind.
    eapply on_rings_conseq; [apply (has_closed_subring_start_segments k)|].
    intros _ rs2 [H2 Hlen2]. rewrite length_alter in Hlen2.
    apply on_rings_bind.
    eapply on_rings_conseq;
      [apply (possibly_combine_rings_start_segments k); lia|].
    intros [combined n'] rs3 [H3 Hn']. cbn [snd] in Hn'.
    destruct combined.
    + apply on_rings_bind.
      eapply on_rings_conseq; [apply (check_for_closed_subring_segments k)|].
      intros _ rs4 [H4 _]. apply on_rings_ret. unfold taken_up. lia.
    + apply on_rings_ret. unfold taken_up. lia.
Qed.

Lemma add_to_existing_ring_loop_segments (k segment : NodeRefSegment.t)
    (rs0 : list ProtoRing.t) :
  forall rings n,
    drop n rs0 = rings ->
    on_rings rs0 (add_to_existing_ring_loop segment n rings)
             (fun added rs =>
                if added then taken_up k [segment] rs0 rs else rs = rs0).
Proof.
  intros rings. induction rings as [|ring rings IH]; intros n Hdrop.
  - by apply on_rings_ret.
  - apply lookup_of_drop in Hdrop as [Hn Hdrop].
    pose proof (lookup_lt_Some _ _ _ Hn) as Hlt.
    cbn [add_to_existing_ring_loop].
    destruct (ProtoRing.closed ring); [by apply IH|].
    assert (forall s at_end,
               occurs k [s] = occurs k [segment] ->
               on_rings rs0 (combine_rings s n at_end;; mret true)
                 (fun added rs =>
                    if added then taken_up k [segment] rs0 rs else rs = rs0))
      as Hcombine.
    { intros s at_end Hs. apply on_rings_bind.
      eapply on_rings_conseq; [by apply (combine_rings_segments k)|].
      intros [] rs Hrs. cbn beta in Hrs. apply on_rings_ret.
      unfold taken_up in *. by rewrite <- Hs. }
    apply on_rings_bind, on_rings_has_same_location. intros [|];
      [by apply Hcombine|].
    apply on_rings_bind, on_rings_has_same_location. intros [|];
      [apply Hcombine, occurs_swap|].
    apply on_rings_bind, on_rings_has_same_location. intros [|];
      [apply Hcombine, occurs_swap|].
    apply on_rings_bind, on_rings_has_same_location. intros [|];
      [by apply Hcombine|].
    by apply IH.
Qed.

Lemma add_segment_segments (k segment : NodeRefSegment.t)
    (rs0 : list ProtoRing.t) :
  on_rings rs0 (add_segment segment) (fun _ rs => taken_up k [segment] rs0 rs).
Proof.
  unfold add_segment, add_to_existing_ring. apply on_rings_bind.
  apply on_rings_bind, on_rings_gets_rings.
  eapply on_rings_conseq;
    [by apply (add_to_existing_ring_loop_segments k segment rs0)|].
  intros [|] rs Hrs; cbn [negb].
  - by apply on_rings_ret.
  - rewrite Hrs. apply on_rings_set_rings. unfold taken_up.
    by rewrite occurs_snoc.
Qed.

Lemma for_each_add_segment_segments (k : NodeRefSegment.t)
    (l : list NodeRefSegment.t) :
  forall rs0,
    on_rings rs0 (for_each l add_segment) (fun _ rs => taken_up k l rs0 rs).
Proof.
  induction l as [|s l IH]; intros rs0.
  - apply on_rings_ret. unfold taken_up, occurs. cbn. lia.
  - cbn [for_each]. apply on_rings_bind.
    eapply on_rings_conseq; [apply (add_segment_segments k)|].
    intros [] rs1 H1. cbn beta in H1. eapply on_rings_conseq; [apply IH|].
    intros [] rs2 H2. cbn beta in H2. unfold taken_up in *.
    change (s :: l) with ([s] ++ l). rewrite occurs_app. lia.
Qed.

(** X15. Stitching neither loses nor duplicates a segment: after all
    segments have been consumed, the segments of the rings of the ring
    list are, up to their order and their direction, exactly the segments
    of the sorted segment list without duplicates. *)
Theorem stitching_keeps_the_segments (src : Source) (st : Assembler.t) :
  let st0 := stage2_input in_buffer src st in
  Permutation
    (map undirected (all_segments (Assembler.m_rings (stitched in_buffer st0))))
    (map undirected (Assembler.m_segment_list (prepared st0))).
Proof.
  intros st0. apply (Permutation_count_occ NodeRefSegment_eq_dec).
  intros k. fold (occurs k (all_segments
                              (Assembler.m_rings (stitched in_buffer st0)))).
  fold (occurs k (Assembler.m_segment_list (prepared st0))).
  assert (scanned in_buffer st0
          = report_all
              (intersection_problems in_buffer
                 (Assembler.m_object_id (prepared st0))
                 (found_intersections
                    (Assembler.m_segment_list (prepared st0))))
              (prepared st0)) as Hscanned.
  { unfold scanned. by rewrite find_intersections_eq. }
  destruct (stage2_input_fields in_buffer src st) as (Hrings & _).
  fold st0 in Hrings.
  assert (Assembler.m_rings (scanned in_buffer st0) = []) as Hr.
  { rewrite Hscanned. by destruct st0. }
  assert (Assembler.m_segment_list (scanned in_buffer st0)
          = Assembler.m_segment_list (prepared st0)) as Hl.
  { rewrite Hscanned. by destruct (prepared st0) as [[?|] ? ? ? ? ? ? ?]. }
  unfold stitched, build_rings, bindM, gets. rewrite Hl.
  pose proof (for_each_add_segment_segments k
                (Assembler.m_segment_list (prepared st0)) []
                (scanned in_buffer st0) Hr) as Hkeep.
  unfold taken_up in Hkeep. cbn beta in Hkeep. rewrite Hkeep. done.
Qed.
End StitchingKeepsSegments.

(** * More sample inputs *)

Module MoreSamples.
(** A way that runs forth and back over one segment. *)
Definition there_and_back : Way.t :=
  Way.mk (Sample.object 15 [Tag.mk "highway" "path"])
         [Sample.node_ref 1 0 0; Sample.node_ref 2 10 0;
          Sample.node_ref 1 0 0].

(** The input buffer of [Sample], with [there_and_back] at offset 9. *)
Definition in_buffer (offset : nat) : Way.t :=
  match offset with
  | 9 => there_and_back
  | _ => Sample.in_buffer offset
  end%nat.

(** The square with a hole, with both members in the role inner. *)
Definition mislabelled : Source :=
  FromRelation (Sample.multipolygon ["inner"; "inner"]
                                    [Tag.mk "type" "multipolygon"])
               [1; 2]%nat.

(** A stream with a changeset between two nodes. *)
Definition interrupted : list DiffHandler.Item :=
  [DiffHandler.mkItem item_type.node 1 1;
   DiffHandler.mkItem item_type.changeset 5 1;
   DiffHandler.mkItem item_type.node 2 1].
End MoreSamples.

Section OnMoreSamples.
Import Sample MoreSamples.

Lemma interrupted_stream_stops_at_the_changeset :
  NoDup [0; 1] /\ 0 ∈ [0; 1]
  /\ omap visited (calls_of 0 (fst (DiffHandler.apply interrupted [0; 1])))
     = [DiffHandler.mkItem item_type.node 1 1]
  /\ snd (DiffHandler.apply interrupted [0; 1]) = DiffHandler.UnknownType.
Proof.
  assert (NoDup [0; 1]) as Hnd.
  { apply NoDup_cons. split; [|apply NoDup_singleton].
    by intros ?%list_elem_of_singleton. }
  assert (0 ∈ [0; 1]) as Hin by (repeat constructor).
  split; [exact Hnd|]. split; [exact Hin|].
  destruct (items_are_visited_in_order interrupted [0; 1] 0 Hnd Hin)
    as [Hv Ho].
  split; [exact Hv|exact Ho].
Defined.

Lemma window_of_the_second_version :
  (0, DiffHandler.node
        (DiffHandler.mkDiff (DiffHandler.mkItem item_type.node 1 1)
                            (DiffHandler.mkItem item_type.node 1 2)
                            (DiffHandler.mkItem item_type.node 1 2)))
  ∈ fst (DiffHandler.apply history [0])
  /\ one_object item_type.node
       (DiffHandler.mkDiff (DiffHandler.mkItem item_type.node 1 1)
                           (DiffHandler.mkItem item_type.node 1 2)
                           (DiffHandler.mkItem item_type.node 1 2)).
Proof.
  assert ((0, DiffHandler.node
                (DiffHandler.mkDiff (DiffHandler.mkItem item_type.node 1 1)
                                    (DiffHandler.mkItem item_type.node 1 2)
                                    (DiffHandler.mkItem item_type.node 1 2)))
          ∈ fst (DiffHandler.apply history [0])) as Hin.
  { vm_compute. repeat constructor. }
  split; [exact Hin|].
  exact (windows_hold_one_object history [0] _ Hin).
Defined.

Lemma lifecycle_of_the_interrupted_stream :
  NoDup [0; 1] /\ 1 ∈ [0; 1] /\ interrupted <> []
  /\ forallb is_item interrupted = true
  /\ times is_init (calls_of 1 (fst (DiffHandler.apply interrupted [0; 1]))) = 1
  /\ times is_done (calls_of 1 (fst (DiffHandler.apply interrupted [0; 1]))) = 0.
Proof.
  assert (NoDup [0; 1]) as Hnd.
  { apply NoDup_cons. split; [|apply NoDup_singleton].
    by intros ?%list_elem_of_singleton. }
  assert (1 ∈ [0; 1]) as Hin by (repeat constructor).
  assert (interrupted <> []) as Hne by discriminate.
  assert (forallb is_item interrupted = true) as Hitems by reflexivity.
  split; [exact Hnd|]. split; [exact Hin|]. split; [exact Hne|].
  split; [exact Hitems|].
  destruct (init_once_and_done_only_on_return interrupted [0; 1] 1
              Hnd Hin Hne Hitems) as (Hi & _ & Hd).
  split; [exact Hi|].
  replace (snd (DiffHandler.apply interrupted [0; 1]))
    with DiffHandler.UnknownType in Hd by reflexivity.
  exact Hd.
Defined.
End OnMoreSamples.

Section OnMoreWays.
Import Sample.

Lemma assembler_after_the_crossing_ways :
  Assembler.m_problem_reporter
    (snd (assemble in_buffer crossing out_buffer silent))
  = Assembler.m_problem_reporter silent
  /\ Assembler.m_debug (snd (assemble in_buffer crossing out_buffer silent))
     = Assembler.m_debug silent
  /\ Assembler.m_segment_list
       (snd (assemble in_buffer crossing out_buffer silent)) <> []
  /\ assemble in_buffer square_with_hole out_buffer
       (snd (assemble in_buffer crossing out_buffer silent))
     = assemble in_buffer square_with_hole out_buffer silent.
Proof.
  assert (Assembler.m_problem_reporter
            (snd (assemble in_buffer crossing out_buffer silent))
          = Assembler.m_problem_reporter silent) as Hp
    by (vm_compute; reflexivity).
  assert (Assembler.m_debug
            (snd (assemble in_buffer crossing out_buffer silent))
          = Assembler.m_debug silent) as Hd
    by (vm_compute; reflexivity).
  split; [exact Hp|]. split; [exact Hd|].
  split; [vm_compute; discriminate|].
  exact (assembler_can_be_reused in_buffer square_with_hole out_buffer
           _ silent Hp Hd).
Defined.

Lemma tags_of_the_square_way :
  stage2 in_buffer (way_input in_buffer 1 reporting)
  = (true, after_stage2 (FromWay 1) reporting)
  /\ exists area,
       Buffer.written (fst (assemble_way in_buffer 1 out_buffer reporting))
       = [area]
       /\ Area.tags area = [Tag.mk "a" "b"].
Proof.
  assert (stage2 in_buffer (way_input in_buffer 1 reporting)
          = (true, after_stage2 (FromWay 1) reporting)) as Hst
    by (vm_compute; reflexivity).
  split; [exact Hst|].
  destruct (way_area_carries_the_tags_of_the_way in_buffer 1 out_buffer
              reporting _ Hst) as (area & Hw & Htags & _).
  exists area. split; [exact Hw|exact Htags].
Defined.

Lemma way_forth_and_back_has_no_ring :
  Assembler.m_segment_list
    (prepared (stage2_input MoreSamples.in_buffer (FromWay 9) reporting)) = []
  /\ fst (stage2 MoreSamples.in_buffer
            (stage2_input MoreSamples.in_buffer (FromWay 9) reporting)) = true
  /\ exists area rest,
       Buffer.written (fst (assemble MoreSamples.in_buffer (FromWay 9)
                                     out_buffer reporting))
       = area :: rest
       /\ Area.tags area = [Tag.mk "highway" "path"]
       /\ Area.rings area = [].
Proof.
  assert (Assembler.m_segment_list
            (prepared (stage2_input MoreSamples.in_buffer (FromWay 9)
                                    reporting)) = []) as Hsegs
    by (vm_compute; reflexivity).
  split; [exact Hsegs|].
  destruct (nothing_to_assemble MoreSamples.in_buffer (FromWay 9) out_buffer
              reporting Hsegs)
    as (Hst & _ & _ & area & rest & Hw & Htags & Hrings).
  split; [by rewrite Hst|].
  exists area, rest. split; [exact Hw|]. split; [exact Htags|exact Hrings].
Defined.

Lemma mislabelled_square_counts_four :
  stage2 in_buffer (stage2_input in_buffer MoreSamples.mislabelled reporting)
  = (true, after_stage2 MoreSamples.mislabelled reporting)
  /\ Assembler.m_inner_outer_mismatches
       (after_stage2 MoreSamples.mislabelled reporting) = 4%Z
  /\ length (misplaced_in true
               (after_stage2 MoreSamples.mislabelled reporting)
               (Assembler.m_outer_rings
                  (after_stage2 MoreSamples.mislabelled reporting)))
     + length (misplaced_in false
                 (after_stage2 MoreSamples.mislabelled reporting)
                 (Assembler.m_inner_rings
                    (after_stage2 MoreSamples.mislabelled reporting)))
     = 4.
Proof.
  assert (stage2 in_buffer
            (stage2_input in_buffer MoreSamples.mislabelled reporting)
          = (true, after_stage2 MoreSamples.mislabelled reporting)) as Hst
    by (vm_compute; reflexivity).
  split; [exact Hst|]. split; [vm_compute; reflexivity|].
  destruct (role_audit_counts_misplaced_segments in_buffer
              MoreSamples.mislabelled reporting _ Hst) as [Hcount _].
  apply Nat2Z.inj. rewrite <- Hcount. vm_compute. reflexivity.
Defined.

Lemma rings_of_two_squares_with_hole_are_registered :
  stage2 in_buffer (stage2_input in_buffer two_squares_with_hole reporting)
  = (true, after_stage2 two_squares_with_hole reporting)
  /\ Permutation
       (Assembler.m_outer_rings (after_stage2 two_squares_with_hole reporting)
        ++ Assembler.m_inner_rings
             (after_stage2 two_squares_with_hole reporting))
       (seq 0 3).
Proof.
  assert (stage2 in_buffer
            (stage2_input in_buffer two_squares_with_hole reporting)
          = (true, after_stage2 two_squares_with_hole reporting)) as Hst
    by (vm_compute; reflexivity).
  split; [exact Hst|].
  destruct (every_ring_is_registered_once in_buffer two_squares_with_hole
              reporting _ Hst) as [Hperm _].
  replace (length (Assembler.m_rings
                     (after_stage2 two_squares_with_hole reporting)))
    with 3 in Hperm by (vm_compute; reflexivity).
  exact Hperm.
Defined.
End OnMoreWays.

(** ** The rings of an area are closed *)

Section ClosedRings.
Context {G : Geometry} (in_buffer : nat -> Way.t).

Definition nodes_of (item : RingItem) : list NodeRef.t :=
  match item with OuterRing nodes | InnerRing nodes => nodes end.

Lemma nodes_closed_of_ring (r : ProtoRing.t) :
  nodes_closed (ProtoRing.node_refs r) = ProtoRing.closed r.
Proof.
  destruct (ProtoRing.segments r) as [|s l] eqn:Hs.
  - unfold nodes_closed, ProtoRing.node_refs, ProtoRing.closed,
      ProtoRing.first_segment, ProtoRing.last_segment.
    by rewrite Hs.
  - apply nodes_closed_node_refs. by rewrite Hs.
Qed.

Lemma rings_closed_after_stage2 (src : Source) (st st' : Assembler.t) :
  stage2 in_buffer (stage2_input in_buffer src st) = (true, st') ->
  forall n, ProtoRing.closed (ring_of st' n) = true.
Proof.
  intros Hst n.
  destruct (stage2_success in_buffer _ _ Hst) as (_ & Hopen & _).
  assert (Forall (fun r => ProtoRing.closed r = true)
                 (Assembler.m_rings
                    (stitched in_buffer (stage2_input in_buffer src st))))
    as Hclosed.
  { apply Forall_forall. intros r Hr.
    destruct (ProtoRing.closed r) eqn:Hc; [done|].
    assert (In r (open_rings
                    (stitched in_buffer (stage2_input in_buffer src st))))
      as Hin.
    { apply filter_In. split; [by apply list_elem_of_In|].
      unfold is_open. by rewrite Hc. }
    rewrite Hopen in Hin. done. }
  destruct (decide (length (Assembler.m_rings st') = 1)) as [Hone|Hlen].
  - pose proof Hone as Hone'.
    rewrite (stage2_rings_length in_buffer src st st' Hst) in Hone'.
    destruct (Assembler.m_rings (stitched in_buffer _))
      as [|ring [|r' rings]] eqn:Hr; try done.
    destruct (stage2_success_single in_buffer src st st' ring Hst Hr)
      as (Hr' & _).
    unfold ring_of. rewrite Hr'. apply Forall_inv in Hclosed.
    by destruct n as [|[|n]].
  - destruct (stage2_success_multi in_buffer src st st' Hst Hlen)
      as (Hfresh & _ & Hout).
    destruct (multi_ring_rings _ st' Hfresh Hout)
      as (target & _ & _ & Hsame & _).
    destruct (same_ring_facts _ _ (Hsame n)) as (-> & _).
    rewrite list_lookup_fmap.
    destruct (Assembler.m_rings (stitched in_buffer _) !! n) as [r0|] eqn:Hn;
      [|done].
    cbn. rewrite closed_classify.
    by apply (Forall_lookup_1 _ _ _ _ Hclosed Hn).
Qed.

(** X16. Every ring of an area whose [stage2] succeeded, outer or inner,
    from one ring or from many, is a closed sequence of node refs: its
    first and its last node ref are at the same location. *)
Theorem rings_of_an_area_are_closed (src : Source) (st st' : Assembler.t)
    (item : RingItem) :
  stage2 in_buffer (stage2_input in_buffer src st) = (true, st') ->
  item ∈ emitted_rings st' ->
  nodes_closed (nodes_of item) = true.
Proof.
  intros Hst Hitem.
  pose proof (rings_closed_after_stage2 src st st' Hst) as Hclosed.
  unfold emitted_rings in Hitem.
  apply list_elem_of_In, in_flat_map in Hitem as (o & _ & Hitem).
  unfold ring_group in Hitem. destruct Hitem as [<-|Hitem].
  - cbn [nodes_of]. by rewrite nodes_closed_of_ring.
  - apply in_map_iff in Hitem as (i & <- & _).
    cbn [nodes_of]. by rewrite nodes_closed_of_ring.
Qed.
End ClosedRings.

Section OnClosedRings.
Import Sample.

Lemma rings_of_the_square_with_hole_are_closed :
  stage2 in_buffer (stage2_input in_buffer square_with_hole reporting)
  = (true, after_stage2 square_with_hole reporting)
  /\ length (emitted_rings (after_stage2 square_with_hole reporting)) = 2
  /\ Forall (fun item => nodes_closed (nodes_of item) = true)
            (emitted_rings (after_stage2 square_with_hole reporting)).
Proof.
  assert (stage2 in_buffer (stage2_input in_buffer square_with_hole reporting)
          = (true, after_stage2 square_with_hole reporting)) as Hst
    by (vm_compute; reflexivity).
  split; [exact Hst|]. split; [vm_compute; reflexivity|].
  apply Forall_forall. intros item Hitem.
  exact (rings_of_an_area_are_closed in_buffer square_with_hole reporting
           _ item Hst Hitem).
Defined.
End OnClosedRings.

(** ** The order of the common tags *)

Section StringOrder.
Definition string_lt (a b : string) : Prop := String.compare a b = Lt.

Lemma string_lt_trans (a b c : string) :
  string_lt a b -> string_lt b c -> string_lt a c.
Proof.
  unfold string_lt. revert b c.
  induction a as [|x a IH]; intros [|y b] [|z c]; cbn [String.compare];
    try done.
  unfold Ascii.compare.
  destruct (N.compare_spec (N_of_ascii x) (N_of_ascii y)) as [Hxy|Hxy|Hxy];
    destruct (N.compare_spec (N_of_ascii y) (N_of_ascii z)) as [Hyz|Hyz|Hyz];
    try done;
    destruct (N.compare_spec (N_of_ascii x) (N_of_ascii z)) as [Hxz|Hxz|Hxz];
    try done; try lia.
  apply IH.
Qed.

Lemma string_lt_total (a b : string) :
  string_lt a b \/ a = b \/ string_lt b a.
Proof.
  unfold string_lt. rewrite (String.compare_antisym b a).
  destruct (String.compare a b) eqn:Hc.
  - right. left. by apply String.compare_eq_iff.
  - by left.
  - right. by right.
Qed.

Lemma string_lt_asym (a b : string) : string_lt a b -> ~ string_lt b a.
Proof.
  unfold string_lt. rewrite (String.compare_antisym b a).
  by intros ->.
Qed.

Lemma string_ltb_lt (a b : string) : String.ltb a b = true <-> string_lt a b.
Proof.
  unfold String.ltb, string_lt. by destruct (String.compare a b).
Qed.

Lemma compare_zero (c : ascii) :
  c <> Ascii.zero -> Ascii.compare Ascii.zero c = Lt.
Proof.
  intros Hc. unfold Ascii.compare.
  destruct (N.compare_spec (N_of_ascii Ascii.zero) (N_of_ascii c))
    as [Heq|Hlt|Hgt]; [|done|].
  - exfalso. apply Hc. rewrite <- (ascii_N_embedding c), <- Heq. done.
  - change (N_of_ascii Ascii.zero) with 0%N in Hgt. lia.
Qed.

(** Comparing the keys of the counter map is comparing the keys of the
    tags and, for equal keys, their values. *)
Lemma compare_kv_string (a b : Tag.t) :
  is_c_string (Tag.key a) -> is_c_string (Tag.key b) ->
  String.compare (kv_string a) (kv_string b)
  = match String.compare (Tag.key a) (Tag.key b) with
    | Eq => String.compare (Tag.value a) (Tag.value b)
    | c => c
    end.
Proof.
  unfold kv_string, is_c_string.
  generalize (Tag.value a) (Tag.value b). intros va vb.
  generalize (Tag.key b). induction (Tag.key a) as [|x ka IH];
    intros [|y kb]; cbn [c_str].
  - intros _ _. change ("" +:+ ?s) with s. cbn [String.compare].
    by replace (Ascii.compare Ascii.zero Ascii.zero) with Eq by done.
  - destruct (Ascii.eqb y Ascii.zero) eqn:Hy; [done|]. intros _ _.
    apply Ascii.eqb_neq in Hy.
    change ("" +:+ ?s) with s. rewrite append_cons. cbn [String.compare].
    by rewrite compare_zero.
  - destruct (Ascii.eqb x Ascii.zero) eqn:Hx; [done|]. intros _ _.
    apply Ascii.eqb_neq in Hx.
    change ("" +:+ ?s) with s. rewrite append_cons. cbn [String.compare].
    rewrite Ascii.compare_antisym, compare_zero by done. done.
  - destruct (Ascii.eqb x Ascii.zero) eqn:Hx; [done|].
    destruct (Ascii.eqb y Ascii.zero) eqn:Hy; [done|].
    intros [= Ha] [= Hb]. rewrite !append_cons. cbn [String.compare].
    destruct (Ascii.compare x y); [|done|done].
    by apply IH.
Qed.
End StringOrder.

Section SortedLists.
Context {A B : Type}.

Lemma StronglySorted_omap (R : A -> A -> Prop) (R' : B -> B -> Prop)
    (f : A -> option B) (l : list A) :
  (forall a b a' b', a ∈ l -> b ∈ l -> R a b ->
                     f a = Some a' -> f b = Some b' -> R' a' b') ->
  StronglySorted R l -> StronglySorted R' (omap f l).
Proof.
  intros HR Hsorted. induction Hsorted as [|a l Hsorted IH Ha].
  - constructor.
  - assert (StronglySorted R' (omap f l)) as Hrest.
    { apply IH. intros x y x' y' Hx Hy. apply HR; by right. }
    change (omap f (a :: l))
      with (match f a with Some a' => a' :: omap f l | None => omap f l end).
    destruct (f a) as [a'|] eqn:Hfa; [|done].
    constructor; [done|].
    apply Forall_forall. intros b' (b & Hb & Hfb)%list_elem_of_omap.
    apply (HR a b); [by left|by right| |done|done].
    rewrite Forall_forall in Ha. by apply Ha.
Qed.

Lemma StronglySorted_strict (R : A -> A -> Prop) (key : A -> B)
    (l : list A) :
  StronglySorted R l -> NoDup (key <$> l) ->
  StronglySorted (fun a b => R a b /\ key a <> key b) l.
Proof.
  induction 1 as [|a l Hsorted IH Ha]; [constructor|].
  rewrite fmap_cons. intros [Hnin Hnd]%NoDup_cons.
  constructor; [by apply IH|].
  rewrite Forall_forall in Ha. apply Forall_forall. intros b Hb.
  split; [by apply Ha|].
  intros Heq. apply Hnin. rewrite Heq. apply list_elem_of_fmap. by exists b.
Qed.

Lemma StronglySorted_impl (R R' : A -> A -> Prop) (l : list A) :
  (forall a b, R a b -> R' a b) ->
  StronglySorted R l -> StronglySorted R' l.
Proof.
  intros HR. induction 1 as [|a l Hsorted IH Ha]; constructor; [done|].
  eapply Forall_impl; [exact Ha|]. intros b. apply HR.
Qed.
End SortedLists.

Section CommonTagsOrder.
Context (in_buffer : nat -> Way.t).

(** The order of two tags: by key and, for equal keys, by value, both as
    byte strings. *)
Definition tag_before (a b : Tag.t) : Prop :=
  string_lt (Tag.key a) (Tag.key b)
  \/ (Tag.key a = Tag.key b /\ string_lt (Tag.value a) (Tag.value b)).

Lemma kv_string_before (a b : Tag.t) :
  c_tag a -> c_tag b ->
  string_lt (kv_string a) (kv_string b) -> tag_before a b.
Proof.
  intros [Ha _] [Hb _]. unfold string_lt, tag_before.
  rewrite compare_kv_string by done.
  destruct (String.compare (Tag.key a) (Tag.key b)) eqn:Hk; [|by left|done].
  apply String.compare_eq_iff in Hk. intros Hv. by right.
Qed.

Lemma occurs_in_list (kv : string) (l : list string) :
  0 < occurrences kv l -> kv ∈ l.
Proof.
  unfold occurrences. intros Hpos.
  destruct (filter (fun k => k = kv) l) as [|k rest] eqn:Hf;
    [cbn in Hpos; lia|].
  assert (k ∈ filter (fun k => k = kv) l) as Hk by (rewrite Hf; by left).
  by apply list_elem_of_filter in Hk as [-> ?].
Qed.

Lemma counted_key_is_a_tag (kv : string) (way_ptrs : list nat) :
  kv ∈ counted_keys in_buffer way_ptrs ->
  exists w tg, w ∈ way_ptrs /\ tg ∈ Way.tags (in_buffer w)
               /\ kv = kv_string tg.
Proof.
  unfold counted_keys. intros Hkv.
  apply list_elem_of_In, in_flat_map in Hkv as (w & Hw & Hkv).
  apply in_map_iff in Hkv as (tg & <- & Htg).
  exists w, tg. by rewrite !list_elem_of_In.
Qed.

Lemma map_in_key_order_sorted (counter : list (string * nat)) :
  counter_ok counter ->
  StronglySorted (fun a b => string_lt (fst a) (fst b))
                 (map_in_key_order counter).
Proof.
  intros [Hnd _]. unfold map_in_key_order.
  set (lt := fun a b : string * nat => String.ltb (fst a) (fst b)).
  assert (StronglySorted (not_after lt) (std_sort lt counter)) as Hsorted.
  { apply Sorted_StronglySorted.
    - intros a b c. unfold not_after, lt.
      rewrite <- !not_true_iff_false, !string_ltb_lt. intros Hab Hbc Hca.
      destruct (string_lt_total (fst a) (fst b)) as [Hlt|[Heq|Hgt]].
      + apply Hbc. by apply (string_lt_trans _ (fst a)).
      + apply Hbc. by rewrite <- Heq.
      + done.
    - apply std_sort_sorted. intros a b. unfold lt.
      rewrite <- not_true_iff_false, !string_ltb_lt.
      apply string_lt_asym. }
  apply (StronglySorted_strict _ fst) in Hsorted.
  - eapply StronglySorted_impl; [|exact Hsorted].
    intros a b [Hab Hne]. unfold not_after, lt in Hab.
    rewrite <- not_true_iff_false, string_ltb_lt in Hab.
    destruct (string_lt_total (fst a) (fst b)) as [?|[?|?]]; done.
  - by rewrite std_sort_perm.
Qed.

(** X17. The tags [add_common_tags] writes come out in strictly ascending
    order of their key and, for equal keys, of their value, both compared
    as byte strings, whatever the order of the ways and of their tags: no
    tag is written twice. *)
Theorem common_tags_come_in_key_order (ways : gset nat) :
  (forall w, w ∈ ways -> Forall c_tag (Way.tags (in_buffer w))) ->
  StronglySorted tag_before (add_common_tags in_buffer ways).
Proof.
  intros Hc. unfold add_common_tags.
  assert (counter_ok (count_tags in_buffer (elements ways))) as Hok.
  { rewrite count_tags_eq. apply counter_ok_fold.
    split; [constructor|constructor]. }
  assert (forall e, e ∈ map_in_key_order
                          (count_tags in_buffer (elements ways)) ->
                    exists tg, c_tag tg /\ fst e = kv_string tg) as Htag.
  { intros [kv n]. unfold map_in_key_order. rewrite std_sort_perm.
    rewrite (elem_of_counter kv n _ Hok), count_tags_eq, counter_get_fold.
    cbn [counter_get]. intros [Hpos Hocc].
    destruct (counted_key_is_a_tag kv (elements ways))
      as (w & tg & Hw & Htg & ->); [apply occurs_in_list; lia|].
    exists tg. split; [|done].
    apply elem_of_elements, Hc in Hw. rewrite Forall_forall in Hw.
    by apply Hw. }
  eapply StronglySorted_omap;
    [|apply map_in_key_order_sorted, Hok].
  intros a b a' b' Ha Hb Hab Hfa Hfb. cbn beta in Hab.
  destruct (Htag a Ha) as (ta & Hta & Hka).
  destruct (Htag b Hb) as (tb & Htb & Hkb).
  rewrite Hka in Hfa, Hab. rewrite Hkb in Hfb, Hab.
  destruct (_ =? _)%nat in Hfa; [|done].
  destruct (_ =? _)%nat in Hfb; [|done].
  rewrite tag_of_kv_string in Hfa, Hfb by done.
  injection Hfa as <-. injection Hfb as <-.
  by apply kv_string_before.
Qed.
End CommonTagsOrder.

Module TagSamples.
(** Two ways that share three tags, listed in different orders. *)
Definition first_way : Way.t :=
  Way.mk (Sample.object 21
            [Tag.mk "name" "y"; Tag.mk "a" "b"; Tag.mk "a" "a"])
         [].

Definition second_way : Way.t :=
  Way.mk (Sample.object 22
            [Tag.mk "a" "b"; Tag.mk "x" "1"; Tag.mk "name" "y";
             Tag.mk "a" "a"])
         [].

Definition in_buffer (offset : nat) : Way.t :=
  match offset with
  | 1 => first_way
  | _ => second_way
  end%nat.

Definition ways : gset nat := {[ 1; 2 ]}.
End TagSamples.

Section OnTagSamples.
Import TagSamples.

Lemma common_tags_of_two_ways_are_ordered :
  (forall w, w ∈ ways -> Forall c_tag (Way.tags (in_buffer w)))
  /\ add_common_tags in_buffer ways
     = [Tag.mk "a" "a"; Tag.mk "a" "b"; Tag.mk "name" "y"]
  /\ StronglySorted tag_before (add_common_tags in_buffer ways).
Proof.
  assert (forall w, w ∈ ways -> Forall c_tag (Way.tags (in_buffer w)))
    as Hc.
  { intros w [->%elem_of_singleton| ->%elem_of_singleton]%elem_of_union;
      repeat constructor. }
  split; [exact Hc|]. split; [vm_compute; reflexivity|].
  exact (common_tags_come_in_key_order in_buffer ways Hc).
Defined.
End OnTagSamples.

(** * The checked task *)

(** [osmium::thread::CheckedTask<T>] of [osmium/thread/checked_task.hpp], as
    the thread that owns the object sees it. The task runs in a thread of
    its own; what the owner can observe of it is whether it has finished
    ([wait_for] of zero seconds) and, once it has, what it ended with: the
    packaged task stores the value returned or the exception thrown in the
    shared state of the future. The standard library is modelled from the
    C++ standard: after construction the thread is joinable and the future
    valid; [get] gives up the shared state, whether it returns or throws;
    [join] leaves the thread not joinable; [wait_for] and [get] on a future
    without shared state and [join] on a thread that is not joinable have
    no defined outcome here ([misuse]). The task is taken to finish:
    [get] and [join] return once it has. *)
Module CheckedTask.
Section WithExceptions.
Context {E : Type}.

(** What the task ended with. *)
Inductive Outcome : Type :=
| value (b : bool)
| exception (e : E).

(** How a call ends for the caller. *)
Inductive Exit : Type :=
| returned
| thrown (e : E)
| misuse.

Inductive future_status : Type := ready | timeout.

(** [m_thread] is the thread as far as [joinable()] tells, [m_future]
    the future as far as [valid()] tells. *)
Record t : Type := mk {
  task : Outcome;
  m_thread : bool;
  m_future : bool
}.

Definition new (task : Outcome) : t := mk task true true.

Definition future_get (c : t) : Exit * t :=
  if m_future c then
    (match task c with value _ => returned | exception e => thrown e end,
     mk (task c) (m_thread c) false)
  else (misuse, c).

Definition future_wait_for (finished : bool) (c : t) : option future_status :=
  if m_future c then Some (if finished then ready else timeout) else None.

Definition thread_join (c : t) : Exit * t :=
  if m_thread c then (returned, mk (task c) false (m_future c))
  else (misuse, c).

(** [~CheckedTask()] *)
Definition destructor (c : t) : Exit * t :=
  if m_thread c then thread_join c else (returned, c).

(** [check_for_exception()], called when the task has or has not
    [finished]. *)
Definition check_for_exception (finished : bool) (c : t) : Exit * t :=
  if m_future c then
    match future_wait_for finished c with
    | Some ready => future_get c
    | Some timeout => (returned, c)
    | None => (misuse, c)
    end
  else (returned, c).

(** [close()] *)
Definition close (c : t) : Exit * t :=
  let '(exit, c1) := if m_future c then future_get c else (returned, c) in
  match exit with
  | returned => if m_thread c1 then thread_join c1 else (returned, c1)
  | _ => (exit, c1)
  end.

(** The calls of the owner, each [check_for_exception] with what the task
    has done by then. *)
Inductive Call : Type :=
| check (finished : bool)
| closing.

Definition call (k : Call) (c : t) : Exit * t :=
  match k with
  | check finished => check_for_exception finished c
  | closing => close c
  end.

(** A sequence of calls, the caller catching what is thrown and going
    on. *)
Fixpoint calls (ks : list Call) (c : t) : list Exit * t :=
  match ks with
  | [] => ([], c)
  | k :: ks' =>
      let '(exit, c1) := call k c in
      let '(exits, c2) := calls ks' c1 in
      (exit :: exits, c2)
  end.

Definition is_thrown (exit : Exit) : bool :=
  match exit with thrown _ => true | _ => false end.
End WithExceptions.
Arguments Outcome : clear implicits.
Arguments Exit : clear implicits.
Arguments t : clear implicits.
End CheckedTask.

Section CheckedTaskFacts.
Context {E : Type}.
Import CheckedTask.

(** The thread is joined only by a [close] that has found the future
    without shared state or has taken its value. *)
Definition joined_after_get (c : t E) : Prop :=
  m_future c = true -> m_thread c = true.

Lemma joined_after_get_call (k : Call) (c : t E) :
  joined_after_get c -> joined_after_get (snd (call k c)).
Proof.
  unfold joined_after_get. destruct c as [tk th fu], k as [[]|];
    cbn; destruct fu, th, tk; cbn; done.
Qed.

Lemma task_call (k : Call) (c : t E) : task (snd (call k c)) = task c.
Proof. destruct c as [tk th fu], k as [[]|]; destruct fu, th, tk; done. Qed.

Lemma calls_cons (k : Call) (ks : list Call) (c : t E) :
  calls (k :: ks) c
  = (fst (call k c) :: fst (calls ks (snd (call k c))),
     snd (calls ks (snd (call k c)))).
Proof.
  cbn [calls]. destruct (call k c) as [exit c1]. cbn [fst snd].
  by destruct (calls ks c1).
Qed.

Lemma joined_after_get_calls (ks : list Call) (c : t E) :
  joined_after_get c -> joined_after_get (snd (calls ks c)).
Proof.
  revert c. induction ks as [|k ks IH]; intros c Hc; [done|].
  rewrite calls_cons. cbn [snd]. by apply IH, joined_after_get_call.
Qed.

Lemma task_calls (ks : list Call) (c : t E) :
  task (snd (calls ks c)) = task c.
Proof.
  revert c. induction ks as [|k ks IH]; intros c; [done|].
  rewrite calls_cons. cbn [snd]. by rewrite IH, task_call.
Qed.

(** Once the future has no shared state, nothing is thrown. *)
Lemma calls_without_future (ks : list Call) (c : t E) :
  m_future c = false ->
  Forall (fun exit => exit = returned) (fst (calls ks c)).
Proof.
  revert c. induction ks as [|k ks IH]; intros c Hc; [constructor|].
  rewrite calls_cons. cbn [fst]. constructor.
  - destruct c as [tk th fu], k as [[]|]; cbn in Hc; subst fu;
      destruct th; done.
  - apply IH. destruct c as [tk th fu], k as [[]|]; cbn in Hc; subst fu;
      destruct th; done.
Qed.

Definition throws (exits : list (Exit E)) : nat :=
  length (filter (fun exit => is_thrown exit = true) exits).

Lemma throws_of_returns (exits : list (Exit E)) :
  Forall (fun exit => exit = returned) exits -> throws exits = 0.
Proof.
  unfold throws. induction 1 as [|exit exits -> _ IH]; [done|].
  by rewrite filter_cons_False by done.
Qed.
End CheckedTaskFacts.

Section CheckedTaskRuns.
Context {E : Type}.
Import CheckedTask.

Lemma throws_cons (exit : Exit E) (exits : list (Exit E)) :
  throws (exit :: exits)
  = (if is_thrown exit then 1 else 0) + throws exits.
Proof.
  unfold throws. destruct (is_thrown exit) eqn:Hx.
  - by rewrite filter_cons_True by done.
  - rewrite filter_cons_False; [done|]. by rewrite Hx.
Qed.

(** The first call that takes the result from the future. *)
Definition takes_result (k : Call) : bool :=
  match k with check finished => finished | closing => true end.

Lemma call_takes_result (k : Call) (c : t E) :
  m_future c = true -> m_thread c = true -> takes_result k = true ->
  fst (call k c)
  = match task c with value _ => returned | exception e => thrown e end
  /\ m_future (snd (call k c)) = false.
Proof.
  destruct c as [tk th fu]. cbn. intros -> -> Hk.
  destruct k as [[]|]; try done; by destruct tk.
Qed.

Lemma call_leaves_result (k : Call) (c : t E) :
  m_future c = true -> takes_result k = false -> call k c = (returned, c).
Proof.
  destruct c as [tk th fu]. cbn. intros -> Hk. by destruct k as [[]|].
Qed.

Lemma calls_with_future (ks : list Call) (c : t E) :
  m_future c = true -> m_thread c = true ->
  let exits := fst (calls ks c) in
  Forall (fun exit => exit = returned
                      \/ exists e, task c = exception e /\ exit = thrown e)
         exits
  /\ throws exits <= 1
  /\ (forall b, task c = value b -> throws exits = 0)
  /\ (forall e, task c = exception e -> closing ∈ ks -> throws exits = 1).
Proof.
  intros Hfu Hth. induction ks as [|k ks IH].
  - cbn. split; [constructor|]. split; [unfold throws; cbn; lia|].
    split; [done|]. by intros e _ ?%elem_of_nil.
  - cbn zeta in *. rewrite calls_cons. cbn [fst].
    destruct (takes_result k) eqn:Hk.
    + destruct (call_takes_result k c Hfu Hth Hk) as [Hexit Hgone].
      pose proof (calls_without_future ks _ Hgone) as Hrest.
      rewrite throws_cons, (throws_of_returns _ Hrest), Hexit.
      split; [|split; [|split]].
      * constructor.
        -- destruct (task c) as [b|e]; [by left|right; by exists e].
        -- eapply Forall_impl; [exact Hrest|]. intros exit ->. by left.
      * destruct (task c); cbn; lia.
      * by intros b ->.
      * by intros e ->.
    + rewrite (call_leaves_result k c Hfu Hk). cbn [fst snd].
      destruct IH as (Hall & Hle & Hvalue & Hexception).
      rewrite throws_cons. cbn [is_thrown]. split; [|split; [|split]].
      * constructor; [by left|done].
      * lia.
      * intros b Hb. by rewrite (Hvalue b Hb).
      * intros e He [Heq|Hin]%elem_of_cons; [by subst k|].
        by rewrite (Hexception e He Hin).
Qed.

(** X18. Whatever the owner calls, [check_for_exception] and [close] in
    any order and at any stage of the task, catching what is thrown: every
    call returns or throws the exception the task ended with; at most one
    call throws; none throws when the task ended with a value; and when
    the task ended with an exception and [close] is among the calls,
    exactly one call throws it. *)
Theorem task_exception_is_rethrown_once (tk : Outcome E) (ks : list Call) :
  let exits := fst (calls ks (new tk)) in
  Forall (fun exit => exit = returned
                      \/ exists e, tk = exception e /\ exit = thrown e)
         exits
  /\ throws exits <= 1
  /\ (forall b, tk = value b -> throws exits = 0)
  /\ (forall e, tk = exception e -> closing ∈ ks -> throws exits = 1).
Proof.
  intros exits.
  destruct (calls_with_future ks (new tk)) as (Hall & Hle & Hvalue & Hthrown);
    [done|done|].
  split; [exact Hall|]. split; [exact Hle|].
  split; [exact Hvalue|exact Hthrown].
Qed.

(** X19. After any calls, a [close] that returns has joined the thread
    and left the future without shared state. A [close] that throws, and
    it throws only the exception of the task, has not joined the thread:
    the thread stays joinable until the next [close] or the destructor,
    which join it and return. *)
Theorem close_joins_unless_it_throws (tk : Outcome E) (ks : list Call) :
  let c := snd (calls ks (new tk)) in
  match fst (close c) with
  | returned =>
      m_thread (snd (close c)) = false /\ m_future (snd (close c)) = false
  | thrown e =>
      tk = exception e
      /\ m_thread (snd (close c)) = true
      /\ m_future (snd (close c)) = false
      /\ close (snd (close c)) = (returned, mk tk false false)
      /\ destructor (snd (close c)) = (returned, mk tk false false)
  | misuse => False
  end.
Proof.
  intros c.
  assert (joined_after_get c) as Hinv
    by (by apply joined_after_get_calls).
  assert (task c = tk) as Htask by apply task_calls.
  destruct c as [tk' th fu]. unfold joined_after_get in Hinv.
  cbn in Hinv, Htask. subst tk'.
  destruct fu; [rewrite Hinv by done|destruct th]; cbn;
    by destruct tk.
Qed.
End CheckedTaskRuns.

(** * The areas of inner ways *)

Section InnerWayAreas.
Context {G : Geometry} (in_buffer : nat -> Way.t).

(** Every offset in a run of calls of the way entry point is handed to
    it, with the buffer and the assembler as the calls before have left
    them; the record that call appends stays in the buffer. *)
Lemma assemble_ways_run (offsets : list nat) (bs : Buffer.t * Assembler.t)
    (offset : nat) :
  offset ∈ offsets ->
  exists b_i s_i before rest,
    Buffer.written b_i = Buffer.written (fst bs) ++ before
    /\ reports_step (snd bs) s_i
    /\ Buffer.written (fst (assemble_ways in_buffer offsets bs))
       = Buffer.written (fst (assemble_way in_buffer offset b_i s_i)) ++ rest.
Proof.
  revert bs. induction offsets as [|o offsets IH]; intros bs Hin.
  - by apply elem_of_nil in Hin.
  - cbn [assemble_ways foldl]. apply elem_of_cons in Hin as [->|Hin].
    + destruct (assemble_ways_prefix in_buffer offsets
                  (assemble_way in_buffer o (fst bs) (snd bs)))
        as [rest Hrest].
      exists (fst bs), (snd bs), [], rest. rewrite app_nil_r.
      split; [done|]. split; [apply reports_step_refl|done].
    + destruct (IH (assemble_way in_buffer o (fst bs) (snd bs)) Hin)
        as (b_i & s_i & before & rest & Hb & Hs & Hw).
      destruct (assemble_way_eq in_buffer o (fst bs) (snd bs))
        as (_ & Hw' & _).
      rewrite Hw', <- app_assoc in Hb.
      eexists b_i, s_i, _, rest. split; [exact Hb|]. split; [|done].
      eapply reports_step_trans; [|exact Hs].
      apply reports_step_assemble_way.
Qed.

(** The record a run for a way appends: its header is that of the way,
    and it has the tags of the way and the rings of the way's own
    [stage2] when that succeeds, and neither when it fails. *)
Lemma area_of_way (way_ptr : nat) (ok : bool) (sw : Assembler.t) :
  let way_area := area_of in_buffer (FromWay way_ptr) ok sw in
  Area.id way_area = wrap64 (Way.id (in_buffer way_ptr) * 2)
  /\ copied_from (Way.object (in_buffer way_ptr)) way_area
  /\ (ok = true ->
      Area.tags way_area = Way.tags (in_buffer way_ptr)
      /\ Area.rings way_area = emitted_rings sw)
  /\ (ok = false -> Area.header_only way_area).
Proof.
  cbn zeta.
  destruct (area_of_attributes in_buffer (FromWay way_ptr) ok sw)
    as [Hid Hcopied].
  cbn [source_object origin_offset] in Hid, Hcopied.
  rewrite Z.add_0_r in Hid. split; [exact Hid|]. split; [exact Hcopied|].
  split; intros ->; unfold area_of.
  - by rewrite with_tags_and_rings_eq.
  - apply header_only_area_header.
Qed.

(** C4. In a successful relation-sourced assembly whose role audit found
    no mismatch, every member with role inner whose way is closed, has
    tags left after ignoring the keys type, created_by, source, note,
    test:id and test:section, and differs in those tags from the area
    built for the relation, gets an area of its own from the way entry
    point, called on the assembler as the calls before have left it
    (problems added to the reporter, if there is one, and the debug flag
    as it was). That area stands in the buffer behind the area of the
    relation; its id is twice the id of the way and its attributes are
    those of the way; when the [stage2] of that call succeeds it has all
    the tags of the way and the rings stitched from the way alone, and
    when it fails it is a header without tags and rings. When the role
    audit found a mismatch, the buffer holds the area of the relation and
    no area of an inner way. *)
Theorem inner_ways_assembled_on_their_own (relation : Relation.t)
    (members : list nat) (buf : Buffer.t) (st st' : Assembler.t) :
  let src := FromRelation relation members in
  let area := area_of in_buffer src true st' in
  let result := assemble in_buffer src buf st in
  stage2 in_buffer (stage2_input in_buffer src st) = (true, st') ->
  (Assembler.m_inner_outer_mismatches st' = 0%Z ->
   forall i member offset,
     zip (Relation.members relation) members !! i = Some (member, offset) ->
     RelationMember.role member = "inner" ->
     Way.is_closed (in_buffer offset) = true ->
     filter (fun tg => Tag.key tg ∉ ignored_keys)
            (Way.tags (in_buffer offset)) <> [] ->
     filter (fun tg => Tag.key tg ∉ ignored_keys)
            (Way.tags (in_buffer offset))
     <> filter (fun tg => Tag.key tg ∉ ignored_keys) (Area.tags area) ->
     exists b_i s_i before rest way_area,
       Buffer.written b_i = Buffer.written buf ++ area :: before
       /\ reports_step st s_i
       /\ Buffer.written (fst result)
          = Buffer.written b_i ++ way_area :: rest
       /\ Area.id way_area = wrap64 (Way.id (in_buffer offset) * 2)
       /\ copied_from (Way.object (in_buffer offset)) way_area
       /\ (forall sw,
             stage2 in_buffer (way_input in_buffer offset s_i) = (true, sw) ->
             Area.tags way_area = Way.tags (in_buffer offset)
             /\ Area.rings way_area = emitted_rings sw)
       /\ (fst (stage2 in_buffer (way_input in_buffer offset s_i)) = false ->
           Area.header_only way_area))
  /\ (Assembler.m_inner_outer_mismatches st' <> 0%Z ->
      Buffer.written (fst result) = Buffer.written buf ++ [area]).
Proof.
  intros src area result Hst. subst result. cbn [assemble src].
  change (stage2_input in_buffer src st)
    with (relation_input in_buffer relation members st) in Hst.
  destruct (assemble_relation_eq in_buffer relation members buf st)
    as (b1 & Hb1 & _ & Heq).
  assert (reports_step st st') as Hstep.
  { pose proof (reports_step_stage2 in_buffer
                  (relation_input in_buffer relation members st)) as Hs.
    rewrite Hst in Hs. cbn [snd] in Hs.
    eapply reports_step_trans; [|exact Hs]. by apply reports_step_same. }
  rewrite Hst in Hb1, Heq. cbn [fst snd andb] in Hb1, Heq.
  fold src in Hb1, Heq. fold area in Hb1, Heq.
  rewrite Heq. split.
  - intros Hzero i member offset Hi Hrole Hclosed Hne Hdiff.
    rewrite Hzero. cbn.
    assert (Hin : offset ∈ rescued in_buffer (Area.tags area)
                             (zip (Relation.members relation) members)).
    { unfold rescued. apply list_elem_of_fmap. exists (member, offset).
      split; [done|]. apply list_elem_of_In, filter_In. split.
      - apply list_elem_of_In. by eapply list_elem_of_lookup_2.
      - cbn [fst snd]. rewrite Hrole. cbn [String.eqb].
        apply andb_true_iff. split; [done|].
        apply inner_way_differs_iff. split; [done|].
        rewrite filter_ignored_keys in Hne.
        rewrite (filter_ignored_keys (Way.tags (in_buffer offset))),
          (filter_ignored_keys (Area.tags area)) in Hdiff.
        split.
        + intros Hnil. by rewrite Hnil in Hne.
        + intros Hsame. by rewrite Hsame in Hdiff. }
    destruct (assemble_ways_run _ (b1, st') offset Hin)
      as (b_i & s_i & before & rest & Hb & Hs & Hw).
    cbn [fst snd] in Hb, Hs.
    destruct (assemble_way_eq in_buffer offset b_i s_i) as (_ & Hway & _).
    cbn zeta in Hway. rewrite Hway, <- app_assoc in Hw.
    destruct (area_of_way offset
                (fst (stage2 in_buffer (way_input in_buffer offset s_i)))
                (snd (stage2 in_buffer (way_input in_buffer offset s_i))))
      as (Hid & Hcopied & Hok & Hfailed).
    eexists b_i, s_i, before, rest, _.
    split; [by rewrite Hb, Hb1, <- app_assoc|].
    split; [by eapply reports_step_trans|].
    split; [exact Hw|]. split; [exact Hid|]. split; [exact Hcopied|].
    split; [|exact Hfailed].
    intros sw Hsw. rewrite Hsw. rewrite Hsw in Hok. by apply Hok.
  - intros Hnz. apply Z.eqb_neq in Hnz. by rewrite Hnz.
Qed.
End InnerWayAreas.

Section OnInnerWayAreas.
Import Sample.

(** The hole of the square with a hole is a building of its own: the
    relation's area is followed by the area of the hole, with the id, the
    tag and the ring of the hole. *)
Lemma hole_is_assembled_on_its_own :
  stage2 in_buffer (stage2_input in_buffer square_with_hole reporting)
  = (true, after_stage2 square_with_hole reporting)
  /\ Assembler.m_inner_outer_mismatches
       (after_stage2 square_with_hole reporting) = 0%Z
  /\ (exists b_i s_i before rest way_area,
        Buffer.written b_i
        = Buffer.written out_buffer
          ++ area_of in_buffer square_with_hole true
               (after_stage2 square_with_hole reporting) :: before
        /\ Buffer.written (fst (assemble in_buffer square_with_hole out_buffer
                                         reporting))
           = Buffer.written b_i ++ way_area :: rest
        /\ Area.id way_area = wrap64 (Way.id (in_buffer 2) * 2)
        /\ (forall sw,
              stage2 in_buffer (way_input in_buffer 2 s_i) = (true, sw) ->
              Area.tags way_area = Way.tags (in_buffer 2)
              /\ Area.rings way_area = emitted_rings sw))
  /\ map (fun a => (Area.id a, Area.tags a, length (Area.rings a)))
         (Buffer.written (fst (assemble in_buffer square_with_hole out_buffer
                                        reporting)))
     = [(201%Z, [Tag.mk "a" "b"], 2); (16%Z, [Tag.mk "building" "yes"], 1)].
Proof.
  assert (stage2 in_buffer (stage2_input in_buffer square_with_hole reporting)
          = (true, after_stage2 square_with_hole reporting)) as Hst
    by (vm_compute; reflexivity).
  assert (Assembler.m_inner_outer_mismatches
            (after_stage2 square_with_hole reporting) = 0%Z) as Hzero
    by (vm_compute; reflexivity).
  destruct (inner_ways_assembled_on_their_own in_buffer
              (multipolygon ["outer"; "inner"] [Tag.mk "type" "multipolygon"])
              [1; 2] out_buffer reporting _ Hst) as [Hrescue _].
  split; [exact Hst|]. split; [exact Hzero|]. split.
  - destruct (Hrescue Hzero 1 (RelationMember.mk "inner" 0) 2)
      as (b_i & s_i & before & rest & way_area & Hb & _ & Hw & Hid & _
          & Hok & _).
    + vm_compute; reflexivity.
    + reflexivity.
    + vm_compute; reflexivity.
    + vm_compute; discriminate.
    + vm_compute; discriminate.
    + exists b_i, s_i, before, rest, way_area.
      split; [exact Hb|]. split; [exact Hw|]. split; [exact Hid|exact Hok].
  - vm_compute; reflexivity.
Defined.
End OnInnerWayAreas.

(** * A way closed by a duplicate node *)

Module DuplicateNodeSample.
(** A square whose last node is another node at the location of the
    first. *)
Definition square_with_two_corner_nodes : Way.t :=
  Way.mk (Sample.object 17 [Tag.mk "landuse" "grass"])
         [Sample.node_ref 1 0 0; Sample.node_ref 2 10 0;
          Sample.node_ref 3 10 10; Sample.node_ref 4 0 10;
          Sample.node_ref 5 0 0].

Definition in_buffer (offset : nat) : Way.t :=
  match offset with
  | 10 => square_with_two_corner_nodes
  | _ => Sample.in_buffer offset
  end%nat.
End DuplicateNodeSample.

Section OnDuplicateNodeSample.
Import Sample DuplicateNodeSample.

Lemma way_closed_by_a_duplicate_node_is_assembled :
  Way.ends_have_same_id (DuplicateNodeSample.in_buffer 10) = false
  /\ Assembler.m_problem_reporter reporting = Some []
  /\ fst (stage2 DuplicateNodeSample.in_buffer
            (way_input DuplicateNodeSample.in_buffer 10 reporting)) = true
  /\ (exists ps,
        Assembler.m_problem_reporter
          (snd (assemble_way DuplicateNodeSample.in_buffer 10 out_buffer
                             reporting))
        = Some (report_duplicate_node 1 5 (Location.mk 0 0) :: ps))
  /\ exists area,
       Buffer.written (fst (assemble_way DuplicateNodeSample.in_buffer 10
                                         out_buffer reporting)) = [area]
       /\ Area.tags area = [Tag.mk "landuse" "grass"]
       /\ length (Area.rings area) = 1.
Proof.
  assert (Way.ends_have_same_id (DuplicateNodeSample.in_buffer 10) = false)
    as Hends by reflexivity.
  assert (Assembler.m_problem_reporter reporting = Some []) as Hlog
    by reflexivity.
  assert (stage2 DuplicateNodeSample.in_buffer
            (way_input DuplicateNodeSample.in_buffer 10 reporting)
          = (true,
             snd (stage2 DuplicateNodeSample.in_buffer
                    (way_input DuplicateNodeSample.in_buffer 10 reporting))))
    as Hst by (vm_compute; reflexivity).
  split; [exact Hends|]. split; [exact Hlog|].
  split; [by rewrite Hst|].
  destruct (way_with_unequal_end_ids_is_reported DuplicateNodeSample.in_buffer
              10 out_buffer reporting [] Hends Hlog)
    as (front & back & ps & Hfront & Hback & _ & _ & _ & Hreported & Harea).
  injection Hfront as <-. injection Hback as <-.
  split; [exists ps; exact Hreported|].
  destruct (Harea _ Hst) as (area & Hw & Htags & Hrings).
  exists area. split; [exact Hw|]. split; [exact Htags|].
  rewrite Hrings. vm_compute. reflexivity.
Defined.
End OnDuplicateNodeSample.

(** * A tag that a way carries twice *)

Module RepeatedTagSample.
(** The square and the far square of [Sample], the first with the tag
    x=1 twice and the second without it. *)
Definition twice : Way.t :=
  Way.mk (Sample.object 31
            [Tag.mk "x" "1"; Tag.mk "x" "1"; Tag.mk "k" "v"])
         (Way.nodes Sample.square).

Definition once : Way.t :=
  Way.mk (Sample.object 32 [Tag.mk "k" "v"]) (Way.nodes Sample.far_square).

Definition in_buffer (offset : nat) : Way.t :=
  match offset with
  | 1 => twice
  | _ => once
  end%nat.

End RepeatedTagSample.

Section OnRepeatedTagSample.
Import RepeatedTagSample.

End OnRepeatedTagSample.

(** * Where a segment goes *)

Section SegmentAttached.
Context {G : Geometry}.

(** The ring with the segment attached: at its end, or at its start. *)
Definition attached (t : EndpointTest) (segment : NodeRefSegment.t)
    (ring : ProtoRing.t) : ProtoRing.t :=
  if at_end t then ProtoRing.add_segment_end (oriented t segment) ring
  else ProtoRing.add_segment_start (oriented t segment) ring.

(** What [combine_rings] does after it has attached the segment (lines
    442-445 and 448-451): split off a closed sub-ring, combine the ring
    with another one, and split again. *)
Definition split_and_merge (segment : NodeRefSegment.t) (n : nat)
    (at_end : bool) : M unit :=
  if at_end then
    has_closed_subring_end n segment;;
    ' (combined, n') <- possibly_combine_rings_end n;
    if combined then check_for_closed_subring n';; mret tt else mret tt
  else
    has_closed_subring_start n segment;;
    ' (combined, n') <- possibly_combine_rings_start n;
    if combined then check_for_closed_subring n';; mret tt else mret tt.

Lemma combine_rings_attaches (t : EndpointTest) (segment : NodeRefSegment.t)
    (n : nat) (st : Assembler.t) :
  combine_rings (oriented t segment) n (at_end t) st
  = split_and_merge (oriented t segment) n (at_end t)
      (Assembler.set_rings (alter (attached t segment) n) st).
Proof.
  unfold combine_rings, split_and_merge, attached.
  by destruct (at_end t).
Qed.

Lemma has_same_location_rings (a b : NodeRef.t) (st : Assembler.t) :
  Assembler.m_rings (snd (has_same_location a b st)) = Assembler.m_rings st.
Proof.
  unfold has_same_location. destruct (negb (Location.eqb _ _)); [done|].
  unfold bindM. destruct (negb (_ =? _)%Z); [|done].
  rewrite report_eq. by destruct st.
Qed.

(** C8. A segment goes to the first ring, in the order of the ring list,
    that is open and for which one of the four endpoint tests holds;
    closed rings are skipped. The tests are made in the order
    ring-last = segment-first, ring-last = segment-second,
    ring-first = segment-first, ring-first = segment-second, and the
    first that holds decides: that ring gets the segment appended
    unchanged, swapped and appended, swapped and prepended, or prepended
    unchanged, and the sub-ring and merge checks of [combine_rings] follow
    on the ring list with the segment attached. A segment that no ring
    takes starts a new ring of its own at the end of the list. Either
    way the ring list afterwards holds the segments it held and the new
    segment, up to direction. The segments are consumed in the order of
    the sorted segment list. *)
Theorem segment_goes_to_first_match (segment : NodeRefSegment.t)
    (st : Assembler.t) :
  let rings := Assembler.m_rings st in
  match first_match rings segment with
  | None =>
      Forall (fun ring => ~ takes segment ring) rings
      /\ add_segment segment st
         = (tt, Assembler.set_rings
                  (fun l => l ++ [ProtoRing.of_segments [segment]]) st)
  | Some (n, ring) =>
      rings !! n = Some ring
      /\ takes segment ring
      /\ (forall k r, rings !! k = Some r -> k < n -> ~ takes segment r)
      /\ exists t st1,
           first_test ring segment = Some t
           /\ has_same_location (ring_end t ring) (segment_end t segment) st
              = (true, st1)
           /\ Assembler.m_rings
                (Assembler.set_rings (alter (attached t segment) n) st1)
              = <[n := attached t segment ring]> rings
           /\ ProtoRing.segments (attached t segment ring)
              = (if at_end t
                 then ProtoRing.segments ring ++ [oriented t segment]
                 else oriented t segment :: ProtoRing.segments ring)
           /\ add_segment segment st
              = (tt, snd (split_and_merge (oriented t segment) n (at_end t)
                            (Assembler.set_rings
                               (alter (attached t segment) n) st1)))
  end
  /\ Permutation
       (map undirected
            (all_segments (Assembler.m_rings (snd (add_segment segment st)))))
       (map undirected (all_segments rings ++ [segment]))
  /\ build_rings st
     = (tt, foldl (fun st segment => snd (add_segment segment st)) st
                  (Assembler.m_segment_list st)).
Proof.
  intros rings. split; [|split].
  - assert (add_segment segment st
            = match first_match rings segment with
              | None =>
                  (tt, Assembler.set_rings
                         (fun l => l ++ [ProtoRing.of_segments [segment]]) st)
              | Some (n, ring) =>
                  (tt, attach_segment segment (Some (n, ring)) st)
              end) as Hadd.
    { unfold add_segment, add_to_existing_ring, bindM, gets.
      rewrite add_to_existing_ring_loop_eq. fold rings.
      by destruct (first_match rings segment) as [[k ring]|]. }
    unfold first_match in *.
    destruct (list_find (takes segment) rings) as [[n ring]|] eqn:Hfind.
    + apply list_find_Some in Hfind as (Hn & Htakes & Hfirst).
      split; [done|]. split; [done|]. split; [exact Hfirst|].
      destruct Htakes as [Hopen [t Ht]].
      assert (test_holds ring segment t = true) as Hholds.
      { unfold first_test in Ht. by apply find_some in Ht as [_ ?]. }
      pose proof (has_same_location_true _ _ st Hholds) as Hsame.
      pose proof (has_same_location_rings (ring_end t ring)
                    (segment_end t segment) st) as Hrings.
      destruct (has_same_location (ring_end t ring) (segment_end t segment) st)
        as [same st1] eqn:Hst1.
      cbn [fst snd] in Hsame, Hrings. subst same.
      exists t, st1. split; [done|]. split; [done|]. split.
      { cbn [Assembler.set_rings Assembler.m_rings]. rewrite Hrings.
        fold rings. by apply alter_lookup_insert. }
      split; [unfold attached; by destruct (at_end t)|].
      rewrite Hadd. unfold attach_segment. rewrite Ht, Hst1. cbn [snd].
      by rewrite combine_rings_attaches.
    + apply list_find_None in Hfind. done.
  - apply (Permutation_count_occ NodeRefSegment_eq_dec). intros k.
    fold (occurs k (all_segments
                      (Assembler.m_rings (snd (add_segment segment st))))).
    fold (occurs k (all_segments rings ++ [segment])).
    rewrite occurs_app.
    apply (add_segment_segments k segment rings st eq_refl).
  - unfold build_rings, bindM, gets.
    generalize (Assembler.m_segment_list st). intros l. clear rings.
    revert st.
    induction l as [|s l IH]; intros st; [done|].
    cbn [for_each foldl]. unfold bindM.
    destruct (add_segment s st) as [[] st1]. apply IH.
Qed.
End SegmentAttached.

(** * Rings are contiguous paths *)

Section Chains.
(** The second segment starts where the first ends. *)
Definition joined (a b : NodeRefSegment.t) : bool :=
  co_located (NodeRefSegment.second a) (NodeRefSegment.first b).

(** Every segment of the list starts where the one before it ends. *)
Fixpoint chained (l : list NodeRefSegment.t) : bool :=
  match l with
  | a :: (b :: _) as rest => joined a b && chained rest
  | _ => true
  end.

(** The second list starts where the first ends, if neither is empty. *)
Definition joint (l1 l2 : list NodeRefSegment.t) : bool :=
  match last l1, head l2 with
  | Some a, Some b => joined a b
  | _, _ => true
  end.

Lemma co_located_spec (a b : NodeRef.t) :
  co_located a b = true <-> NodeRef.location a = NodeRef.location b.
Proof.
  unfold co_located. rewrite Location_eqb_spec.
  destruct (NodeRef.location a), (NodeRef.location b). cbn.
  split; [by intros [-> ->]|by intros [= -> ->]].
Qed.

Lemma chained_app (l1 l2 : list NodeRefSegment.t) :
  chained (l1 ++ l2) = chained l1 && chained l2 && joint l1 l2.
Proof.
  induction l1 as [|a l1 IH].
  - cbn. by rewrite andb_true_r.
  - destruct l1 as [|b l1].
    + destruct l2 as [|c l2]; [done|].
      cbn. by rewrite andb_comm.
    + change (chained ((a :: b :: l1) ++ l2))
        with (joined a b && chained ((b :: l1) ++ l2)).
      rewrite IH.
      change (chained (a :: b :: l1)) with (joined a b && chained (b :: l1)).
      unfold joint. rewrite (last_cons_cons a b l1).
      by rewrite !andb_assoc.
Qed.

Lemma chained_take (k : nat) (l : list NodeRefSegment.t) :
  chained l = true -> chained (take k l) = true.
Proof.
  intros Hl. rewrite <- (take_drop k l), chained_app in Hl.
  by apply andb_true_iff in Hl as [[? _]%andb_true_iff _].
Qed.

Lemma chained_drop (k : nat) (l : list NodeRefSegment.t) :
  chained l = true -> chained (drop k l) = true.
Proof.
  intros Hl. rewrite <- (take_drop k l), chained_app in Hl.
  by apply andb_true_iff in Hl as [[_ ?]%andb_true_iff _].
Qed.

Lemma chained_lookup (l : list NodeRefSegment.t) (i : nat)
    (a b : NodeRefSegment.t) :
  chained l = true -> l !! i = Some a -> l !! S i = Some b ->
  joined a b = true.
Proof.
  revert i. induction l as [|x l IH]; intros i Hl Ha Hb; [done|].
  destruct l as [|y l]; [done|].
  change (chained (x :: y :: l)) with (joined x y && chained (y :: l)) in Hl.
  apply andb_true_iff in Hl as [Hxy Hl].
  destruct i as [|i].
  - cbn in Ha, Hb. by injection Ha as <-; injection Hb as <-.
  - by apply (IH i).
Qed.

Lemma joined_turned (a b : NodeRefSegment.t) :
  joined (NodeRefSegment.swap_locations b) (NodeRefSegment.swap_locations a)
  = joined a b.
Proof. unfold joined, co_located. cbn. apply Location_eqb_sym. Qed.

(** Turning a path around leaves it a path. *)
Lemma chained_turned (l : list NodeRefSegment.t) :
  chained (rev (map NodeRefSegment.swap_locations l)) = chained l.
Proof.
  induction l as [|a l IH]; [done|].
  cbn [map rev]. rewrite chained_app, IH. cbn [chained].
  rewrite andb_true_r. unfold joint. rewrite last_rev.
  destruct l as [|b l]; cbn [map head].
  - by rewrite andb_true_r.
  - rewrite joined_turned.
    change (chained (a :: b :: l)) with (joined a b && chained (b :: l)).
    apply andb_comm.
Qed.

(** Cutting a piece out of a path, between two segments that start at
    the same location, leaves a path. *)
Lemma chained_cut (segs : list NodeRefSegment.t) (i j : nat) :
  chained segs = true -> i <= j ->
  (forall a b, segs !! i = Some a -> segs !! j = Some b ->
               co_located (NodeRefSegment.first a) (NodeRefSegment.first b)
               = true) ->
  chained (take i segs ++ drop j segs) = true.
Proof.
  intros Hsegs Hij Hsame. rewrite chained_app.
  rewrite chained_take, chained_drop by done. cbn [andb].
  unfold joint.
  destruct (last (take i segs)) as [p|] eqn:Hp; [|done].
  destruct (head (drop j segs)) as [b|] eqn:Hb; [|done].
  rewrite head_lookup, lookup_drop, Nat.add_0_r in Hb.
  pose proof (lookup_lt_Some _ _ _ Hb) as Hj.
  rewrite last_lookup, length_take, Nat.min_l in Hp by lia.
  destruct i as [|i]; [done|]. cbn [pred] in Hp.
  rewrite lookup_take_lt in Hp by lia.
  destruct (lookup_lt_is_Some_2 segs (S i)) as [a Ha]; [lia|].
  pose proof (chained_lookup segs i p a Hsegs Hp Ha) as Hpa.
  specialize (Hsame a b Ha Hb).
  unfold joined in *. apply co_located_spec in Hpa, Hsame.
  apply co_located_spec. congruence.
Qed.

(** The node refs of a path that starts at [p] make up the polygon of
    its segments. *)
Lemma shoelace_of_path (p : NodeRef.t) (l : list NodeRefSegment.t) :
  chained l = true ->
  match head l with
  | Some a => co_located p (NodeRefSegment.first a) = true
  | None => True
  end ->
  shoelace (p :: map NodeRefSegment.second l) = ProtoRing.sum_of l.
Proof.
  revert p. induction l as [|a l IH]; intros p Hl Hp; [done|].
  cbn [map head] in *.
  change (shoelace (p :: NodeRefSegment.second a
                      :: map NodeRefSegment.second l))
    with ((Location.x (NodeRef.location p)
           * Location.y (NodeRef.location (NodeRefSegment.second a))
           - Location.x (NodeRef.location (NodeRefSegment.second a))
             * Location.y (NodeRef.location p)
           + shoelace (NodeRefSegment.second a
                         :: map NodeRefSegment.second l))%Z).
  rewrite IH.
  - apply co_located_spec in Hp. rewrite Hp.
    unfold ProtoRing.sum_of. cbn [foldr]. unfold ProtoRing.cross. lia.
  - destruct l as [|b l]; [done|].
    change (chained (a :: b :: l)) with (joined a b && chained (b :: l)) in Hl.
    by apply andb_true_iff in Hl as [_ ?].
  - destruct l as [|b l]; [done|]. cbn [head].
    change (chained (a :: b :: l)) with (joined a b && chained (b :: l)) in Hl.
    by apply andb_true_iff in Hl as [? _].
Qed.

Lemma co_located_refl (p : NodeRef.t) : co_located p p = true.
Proof. by apply co_located_spec. Qed.

(** The node sequence a ring builder receives has the signed area of
    the ring. *)
Lemma shoelace_node_refs (r : ProtoRing.t) :
  chained (ProtoRing.segments r) = true ->
  shoelace (ProtoRing.node_refs r) = ProtoRing.sum r.
Proof.
  intros Hr. unfold ProtoRing.node_refs, ProtoRing.sum.
  apply shoelace_of_path; [done|].
  unfold ProtoRing.first_segment.
  destruct (head (ProtoRing.segments r)); [|done].
  apply co_located_refl.
Qed.
End Chains.

Section ChainedRings.
Context {G : Geometry}.

(** Every ring of the ring list is a contiguous path. *)
Definition Chained (rings : list ProtoRing.t) : Prop :=
  Forall (fun r => chained (ProtoRing.segments r) = true) rings.

Lemma on_rings_and {A : Type} (rs0 : list ProtoRing.t) (m : M A)
    (Q1 Q2 : A -> list ProtoRing.t -> Prop) :
  on_rings rs0 m Q1 -> on_rings rs0 m Q2 ->
  on_rings rs0 m (fun a rs => Q1 a rs /\ Q2 a rs).
Proof. intros H1 H2 st Hst. split; [by apply H1|by apply H2]. Qed.

(** [has_same_location] answers whether the two locations are equal. *)
Lemma on_rings_same_location (rs0 : list ProtoRing.t) (nr1 nr2 : NodeRef.t)
    (Q : bool -> list ProtoRing.t -> Prop) :
  Q (co_located nr1 nr2) rs0 ->
  on_rings rs0 (has_same_location nr1 nr2) Q.
Proof.
  intros HQ st Hst. rewrite has_same_location_rings, Hst.
  destruct (co_located nr1 nr2) eqn:Hsame.
  - by rewrite has_same_location_true.
  - by rewrite has_same_location_false.
Qed.

Lemma Chained_split (rs0 : list ProtoRing.t) (n : nat) (r : ProtoRing.t)
    (kept cut : list NodeRefSegment.t) :
  Chained rs0 -> rs0 !! n = Some r ->
  chained kept = true -> chained cut = true ->
  Chained (alter (ProtoRing.set_segments kept) n rs0
           ++ [ProtoRing.of_segments cut]).
Proof.
  intros Hrs Hn Hkept Hcut. apply Forall_app. split.
  - apply Forall_alter; [done|]. by intros x _ _.
  - by repeat constructor.
Qed.

Lemma has_closed_subring_end_loop_chained (n : nat) (nr : NodeRef.t)
    (segs : list NodeRefSegment.t) (rs0 : list ProtoRing.t) (r : ProtoRing.t) :
  Chained rs0 -> rs0 !! n = Some r -> ProtoRing.segments r = segs ->
  forall its i,
    on_rings rs0 (has_closed_subring_end_loop n nr segs i its)
             (fun _ rs => Chained rs).
Proof.
  intros Hrs Hn Hsegs its.
  assert (chained segs = true) as Hchain.
  { rewrite <- Hsegs. by apply (Forall_lookup_1 _ _ _ _ Hrs Hn). }
  induction its as [|it its IH]; intros i.
  - by apply on_rings_ret.
  - cbn [has_closed_subring_end_loop]. apply on_rings_bind.
    apply on_rings_has_same_location. intros [|]; [|apply IH].
    apply on_rings_bind, on_rings_set_rings.
    apply on_rings_bind, on_rings_set_rings.
    apply on_rings_ret.
    replace (alter (ProtoRing.remove_segments i (length segs)) n rs0)
      with (alter (ProtoRing.set_segments (take i segs)) n rs0).
    + apply (Chained_split rs0 n r); [done|done| |].
      * by apply chained_take.
      * by apply chained_drop.
    + apply list_alter_ext; [|done]. intros x Hx.
      assert (x = r) as -> by congruence.
      unfold ProtoRing.remove_segments.
      by rewrite Hsegs, drop_all, app_nil_r.
Qed.

Lemma has_closed_subring_start_loop_chained (n : nat) (nr : NodeRef.t)
    (segs : list NodeRefSegment.t) (rs0 : list ProtoRing.t) (r : ProtoRing.t) :
  Chained rs0 -> rs0 !! n = Some r -> ProtoRing.segments r = segs ->
  forall its i,
    on_rings rs0 (has_closed_subring_start_loop n nr segs i its)
             (fun _ rs => Chained rs).
Proof.
  intros Hrs Hn Hsegs its.
  assert (chained segs = true) as Hchain.
  { rewrite <- Hsegs. by apply (Forall_lookup_1 _ _ _ _ Hrs Hn). }
  induction its as [|it its IH]; intros i.
  - by apply on_rings_ret.
  - cbn [has_closed_subring_start_loop]. apply on_rings_bind.
    apply on_rings_has_same_location. intros [|]; [|apply IH].
    apply on_rings_bind, on_rings_set_rings.
    apply on_rings_bind, on_rings_set_rings.
    apply on_rings_ret.
    replace (alter (ProtoRing.remove_segments 0 (S i)) n rs0)
      with (alter (ProtoRing.set_segments (drop (S i) segs)) n rs0).
    + apply (Chained_split rs0 n r); [done|done| |].
      * by apply chained_drop.
      * by apply chained_take.
    + apply list_alter_ext; [|done]. intros x Hx.
      assert (x = r) as -> by congruence.
      unfold ProtoRing.remove_segments. by rewrite Hsegs.
Qed.

Lemma has_closed_subring_end_chained (n : nat) (segment : NodeRefSegment.t)
    (rs0 : list ProtoRing.t) :
  Chained rs0 ->
  on_rings rs0 (has_closed_subring_end n segment) (fun _ rs => Chained rs).
Proof.
  intros Hrs. unfold has_closed_subring_end.
  apply on_rings_bind, on_rings_ring_at.
  destruct (_ <? 3) eqn:Hlen; [by apply on_rings_ret|].
  destruct (ring_with_segments rs0 n) as (r & Hn & Hr).
  { intros Hnil. rewrite Hnil in Hlen. done. }
  rewrite Hr. by apply (has_closed_subring_end_loop_chained n _ _ rs0 r).
Qed.

Lemma has_closed_subring_start_chained (n : nat) (segment : NodeRefSegment.t)
    (rs0 : list ProtoRing.t) :
  Chained rs0 ->
  on_rings rs0 (has_closed_subring_start n segment) (fun _ rs => Chained rs).
Proof.
  intros Hrs. unfold has_closed_subring_start.
  apply on_rings_bind, on_rings_ring_at.
  destruct (_ <? 3) eqn:Hlen; [by apply on_rings_ret|].
  destruct (ring_with_segments rs0 n) as (r & Hn & Hr).
  { intros Hnil. rewrite Hnil in Hlen. done. }
  rewrite Hr. by apply (has_closed_subring_start_loop_chained n _ _ rs0 r).
Qed.
End ChainedRings.

Section ChainedSubrings.
Context {G : Geometry}.

Lemma Chained_alter (rs0 : list ProtoRing.t) (n : nat) (r : ProtoRing.t)
    (f : ProtoRing.t -> ProtoRing.t) :
  Chained rs0 -> rs0 !! n = Some r ->
  chained (ProtoRing.segments (f r)) = true ->
  Chained (alter f n rs0).
Proof.
  intros Hrs Hn Hf. apply Forall_alter; [done|].
  intros x Hx _. by assert (x = r) as -> by congruence.
Qed.

Lemma segment_eqb_refl (s : NodeRefSegment.t) : NodeRefSegment.eqb s s = true.
Proof.
  unfold NodeRefSegment.eqb. apply andb_true_iff.
  split; by apply Location_eqb_spec.
Qed.

Lemma segment_eqb_first (a b : NodeRefSegment.t) :
  NodeRefSegment.eqb a b = true ->
  co_located (NodeRefSegment.first a) (NodeRefSegment.first b) = true.
Proof. unfold NodeRefSegment.eqb. by intros [? _]%andb_true_iff. Qed.

(** [std::find_first_of] finds a segment equal to the one looked for, if
    there is one. *)
Lemma find_first_of_found (segs : list NodeRefSegment.t) (s : NodeRefSegment.t) :
  s ∈ segs ->
  exists s', segs !! find_first_of segs s = Some s'
             /\ NodeRefSegment.eqb s' s = true.
Proof.
  induction segs as [|a segs IH]; [by intros ?%elem_of_nil|].
  intros Hin. cbn [find_first_of].
  destruct (NodeRefSegment.eqb a s) eqn:Ha; [by exists a|].
  apply elem_of_cons in Hin as [->|Hin].
  - by rewrite segment_eqb_refl in Ha.
  - by apply IH.
Qed.

(** [std::adjacent_find] answers with two segments of the list that
    start at the same location. *)
Lemma adjacent_find_same_first_found (l : list NodeRefSegment.t)
    (rs0 : list ProtoRing.t) :
  on_rings rs0 (adjacent_find_same_first l)
    (fun found rs =>
       rs = rs0
       /\ forall s1 s2, found = Some (s1, s2) ->
            s1 ∈ l /\ s2 ∈ l
            /\ co_located (NodeRefSegment.first s1) (NodeRefSegment.first s2)
               = true).
Proof.
  induction l as [|s1 l IH].
  - by apply on_rings_ret.
  - destruct l as [|s2 l].
    + by apply on_rings_ret.
    + change (adjacent_find_same_first (s1 :: s2 :: l))
        with (same <- has_same_location (NodeRefSegment.first s1)
                                        (NodeRefSegment.first s2);
              if same then mret (Some (s1, s2))
              else adjacent_find_same_first (s2 :: l)).
      apply on_rings_bind, on_rings_same_location.
      destruct (co_located _ _) eqn:Hsame.
      * apply on_rings_ret. split; [done|].
        intros ? ? [= <- <-]. split; [by left|].
        split; [right; by left|done].
      * eapply on_rings_conseq; [exact IH|].
        intros found rs [-> Hfound]. split; [done|].
        intros t1 t2 Ht. destruct (Hfound t1 t2 Ht) as (H1 & H2 & H3).
        split; [by right|]. split; [by right|done].
Qed.

Lemma check_for_closed_subring_chained (n : nat) (rs0 : list ProtoRing.t) :
  Chained rs0 ->
  on_rings rs0 (check_for_closed_subring n) (fun _ rs => Chained rs).
Proof.
  intros Hrs. unfold check_for_closed_subring.
  apply on_rings_bind, on_rings_ring_at.
  apply on_rings_bind.
  eapply on_rings_conseq; [apply adjacent_find_same_first_found|].
  intros found rs [-> Hfound]. cbn beta.
  destruct found as [[s1 s2]|]; [|by apply on_rings_ret].
  destruct (Hfound s1 s2 eq_refl) as (Hs1 & Hs2 & Hsame).
  rewrite std_sort_perm in Hs1, Hs2.
  destruct (ring_with_segments rs0 n) as (r & Hn & Hr).
  { intros Hnil. rewrite Hnil in Hs1. by apply elem_of_nil in Hs1. }
  rewrite Hr in *.
  assert (chained (ProtoRing.segments r) = true) as Hchain
    by (by apply (Forall_lookup_1 _ _ _ _ Hrs Hn)).
  destruct (find_first_of_found _ _ Hs1) as (a1 & Ha1 & He1).
  destruct (find_first_of_found _ _ Hs2) as (a2 & Ha2 & He2).
  apply segment_eqb_first, co_located_spec in He1, He2.
  apply co_located_spec in Hsame.
  apply on_rings_bind, on_rings_set_rings.
  apply on_rings_bind, on_rings_set_rings.
  apply on_rings_ret.
  apply Forall_app. split.
  - apply (Chained_alter rs0 n r); [done|done|].
    cbn [ProtoRing.remove_segments ProtoRing.set_segments ProtoRing.segments].
    apply chained_cut; [done|lia|].
    intros a b Ha Hb. apply co_located_spec.
    destruct (Nat.le_ge_cases
                (find_first_of (ProtoRing.segments r) s1)
                (find_first_of (ProtoRing.segments r) s2)) as [Hle|Hle].
    + rewrite Nat.min_l in Ha by done. rewrite Nat.max_r in Hb by done.
      congruence.
    + rewrite Nat.min_r in Ha by done. rewrite Nat.max_l in Hb by done.
      congruence.
  - repeat constructor. cbn [ProtoRing.of_segments ProtoRing.segments].
    by apply chained_take, chained_drop.
Qed.
End ChainedSubrings.

Section ChainedMerges.
Context {G : Geometry}.

Ltac ring_lookups :=
  repeat first
    [ rewrite list_lookup_alter_eq
    | rewrite list_lookup_alter_ne by congruence ].

Lemma joint_at_end (r it : ProtoRing.t) :
  co_located (NodeRefSegment.second (ProtoRing.last_segment r))
             (NodeRefSegment.first (ProtoRing.first_segment it)) = true ->
  joint (ProtoRing.segments r) (ProtoRing.segments it) = true.
Proof.
  unfold joint, joined, ProtoRing.last_segment, ProtoRing.first_segment.
  destruct (last (ProtoRing.segments r)); [|done].
  by destruct (head (ProtoRing.segments it)).
Qed.

Lemma joint_at_end_turned (r it : ProtoRing.t) :
  co_located (NodeRefSegment.second (ProtoRing.last_segment r))
             (NodeRefSegment.second (ProtoRing.last_segment it)) = true ->
  joint (ProtoRing.segments r)
        (rev (map NodeRefSegment.swap_locations (ProtoRing.segments it)))
  = true.
Proof.
  unfold joint, joined, ProtoRing.last_segment. rewrite head_rev.
  change (map NodeRefSegment.swap_locations (ProtoRing.segments it))
    with (NodeRefSegment.swap_locations <$> ProtoRing.segments it).
  rewrite fmap_last.
  destruct (last (ProtoRing.segments r)); [|done].
  by destruct (last (ProtoRing.segments it)).
Qed.

Lemma joint_at_start (r it : ProtoRing.t) :
  co_located (NodeRefSegment.first (ProtoRing.first_segment r))
             (NodeRefSegment.second (ProtoRing.last_segment it)) = true ->
  joint (ProtoRing.segments it) (ProtoRing.segments r) = true.
Proof.
  unfold joint, joined, ProtoRing.last_segment, ProtoRing.first_segment.
  destruct (last (ProtoRing.segments it)); [|done].
  destruct (head (ProtoRing.segments r)); [|done].
  unfold co_located. by rewrite Location_eqb_sym.
Qed.

Lemma joint_at_start_turned (r it : ProtoRing.t) :
  co_located (NodeRefSegment.first (ProtoRing.first_segment r))
             (NodeRefSegment.first (ProtoRing.first_segment it)) = true ->
  joint (rev (map NodeRefSegment.swap_locations (ProtoRing.segments r)))
        (ProtoRing.segments it)
  = true.
Proof.
  unfold joint, joined, ProtoRing.first_segment. rewrite last_rev.
  destruct (ProtoRing.segments r) as [|a l]; [done|]. cbn [map head default].
  by destruct (head (ProtoRing.segments it)).
Qed.

Lemma chained_ring (rs0 : list ProtoRing.t) (n : nat) (r : ProtoRing.t) :
  Chained rs0 -> rs0 !! n = Some r -> chained (ProtoRing.segments r) = true.
Proof. intros Hrs Hn. by apply (Forall_lookup_1 _ _ _ _ Hrs Hn). Qed.

Lemma possibly_combine_rings_end_loop_chained (n : nat) (nr : NodeRef.t)
    (rs0 : list ProtoRing.t) (r : ProtoRing.t) :
  Chained rs0 -> rs0 !! n = Some r ->
  nr = NodeRefSegment.second (ProtoRing.last_segment r) ->
  forall its j,
    drop j rs0 = its ->
    on_rings rs0 (possibly_combine_rings_end_loop n nr j its)
             (fun _ rs => Chained rs).
Proof.
  intros Hrs Hr -> its. induction its as [|it its IH]; intros j Hdrop.
  - by apply on_rings_ret.
  - apply lookup_of_drop in Hdrop as [Hj Hdrop].
    pose proof (chained_ring rs0 n r Hrs Hr) as Hcr.
    pose proof (chained_ring rs0 j it Hrs Hj) as Hcit.
    cbn [possibly_combine_rings_end_loop].
    destruct (negb (j =? n) && negb (ProtoRing.closed it)) eqn:Hcond;
      [|by apply IH].
    apply on_rings_bind, on_rings_same_location.
    destruct (co_located _ (NodeRefSegment.first _)) eqn:Hfirst.
    { apply on_rings_bind, on_rings_set_rings.
      apply on_rings_bind, on_rings_set_rings. apply on_rings_ret.
      apply Forall_delete, (Chained_alter rs0 n r); [done|done|].
      cbn [ProtoRing.merge_ring ProtoRing.set_segments ProtoRing.segments].
      by rewrite chained_app, Hcr, Hcit, joint_at_end. }
    apply on_rings_bind, on_rings_same_location.
    destruct (co_located _ (NodeRefSegment.second _)) eqn:Hlast;
      [|by apply IH].
    apply on_rings_bind, on_rings_set_rings.
    apply on_rings_bind, on_rings_set_rings. apply on_rings_ret.
    apply Forall_delete, (Chained_alter rs0 n r); [done|done|].
    cbn [ProtoRing.merge_ring_reverse ProtoRing.set_segments
         ProtoRing.segments].
    by rewrite chained_app, chained_turned, Hcr, Hcit, joint_at_end_turned.
Qed.

Lemma possibly_combine_rings_end_chained (n : nat) (rs0 : list ProtoRing.t) :
  Chained rs0 -> n < length rs0 ->
  on_rings rs0 (possibly_combine_rings_end n) (fun _ rs => Chained rs).
Proof.
  intros Hrs Hn. destruct (lookup_lt_is_Some_2 rs0 n Hn) as [r Hr].
  unfold possibly_combine_rings_end.
  apply on_rings_bind, on_rings_ring_at.
  apply on_rings_bind, on_rings_gets_rings. rewrite Hr. cbn [default].
  by apply (possibly_combine_rings_end_loop_chained n _ rs0 r).
Qed.

Lemma possibly_combine_rings_start_loop_chained (n : nat) (nr : NodeRef.t)
    (rs0 : list ProtoRing.t) (r : ProtoRing.t) :
  Chained rs0 -> rs0 !! n = Some r ->
  nr = NodeRefSegment.first (ProtoRing.first_segment r) ->
  forall its j,
    drop j rs0 = its ->
    on_rings rs0 (possibly_combine_rings_start_loop n nr j its)
             (fun _ rs => Chained rs).
Proof.
  intros Hrs Hr -> its. induction its as [|it its IH]; intros j Hdrop.
  - by apply on_rings_ret.
  - apply lookup_of_drop in Hdrop as [Hj Hdrop].
    pose proof (chained_ring rs0 n r Hrs Hr) as Hcr.
    pose proof (chained_ring rs0 j it Hrs Hj) as Hcit.
    cbn [possibly_combine_rings_start_loop].
    destruct (negb (j =? n) && negb (ProtoRing.closed it)) eqn:Hcond;
      [|by apply IH].
    apply andb_true_iff in Hcond as [Hne%negb_true_iff%Nat.eqb_neq _].
    apply on_rings_bind, on_rings_same_location.
    destruct (co_located _ (NodeRefSegment.second _)) eqn:Hlast.
    { apply on_rings_bind, on_rings_ring_at. rewrite Hr. cbn [default].
      apply on_rings_bind, on_rings_set_rings.
      apply on_rings_bind, on_rings_set_rings.
      apply on_rings_bind, on_rings_set_rings.
      apply on_rings_bind, on_rings_set_rings. apply on_rings_ret.
      apply Forall_delete.
      eapply Chained_alter;
        [eapply Chained_alter;
           [eapply Chained_alter; [exact Hrs|exact Hr|exact Hcit]
           |by ring_lookups; rewrite Hj
           |exact Hcr]
        |by ring_lookups; rewrite Hr|].
      cbn [ProtoRing.merge_ring ProtoRing.set_segments ProtoRing.segments].
      unfold id. by rewrite chained_app, Hcr, Hcit, joint_at_start. }
    apply on_rings_bind, on_rings_same_location.
    destruct (co_located _ (NodeRefSegment.first _)) eqn:Hfirst;
      [|by apply IH].
    apply on_rings_bind, on_rings_set_rings.
    apply on_rings_bind, on_rings_set_rings.
    apply on_rings_bind, on_rings_set_rings. apply on_rings_ret.
    apply Forall_delete.
    eapply Chained_alter;
      [eapply Chained_alter; [exact Hrs|exact Hr|]
      |by ring_lookups; rewrite Hr|].
    + cbn [ProtoRing.reverse ProtoRing.set_segments ProtoRing.segments].
      by rewrite chained_turned.
    + cbn [ProtoRing.merge_ring ProtoRing.reverse ProtoRing.set_segments
           ProtoRing.segments].
      by rewrite chained_app, chained_turned, Hcr, Hcit,
        joint_at_start_turned.
Qed.

Lemma possibly_combine_rings_start_chained (n : nat)
    (rs0 : list ProtoRing.t) :
  Chained rs0 -> n < length rs0 ->
  on_rings rs0 (possibly_combine_rings_start n) (fun _ rs => Chained rs).
Proof.
  intros Hrs Hn. destruct (lookup_lt_is_Some_2 rs0 n Hn) as [r Hr].
  unfold possibly_combine_rings_start.
  apply on_rings_bind, on_rings_ring_at.
  apply on_rings_bind, on_rings_gets_rings. rewrite Hr. cbn [default].
  by apply (possibly_combine_rings_start_loop_chained n _ rs0 r).
Qed.
End ChainedMerges.

Section StitchingMakesPaths.
Context {G : Geometry} (in_buffer : nat -> Way.t).

Lemma combine_rings_chained (segment : NodeRefSegment.t) (n : nat)
    (at_end : bool) (rs0 : list ProtoRing.t) (r : ProtoRing.t) :
  Chained rs0 -> rs0 !! n = Some r ->
  (if at_end
   then co_located (NodeRefSegment.second (ProtoRing.last_segment r))
                   (NodeRefSegment.first segment)
   else co_located (NodeRefSegment.first (ProtoRing.first_segment r))
                   (NodeRefSegment.second segment)) = true ->
  on_rings rs0 (combine_rings segment n at_end) (fun _ rs => Chained rs).
Proof.
  intros Hrs Hr Hjoin.
  pose proof (chained_ring rs0 n r Hrs Hr) as Hcr.
  pose proof (lookup_lt_Some _ _ _ Hr) as Hn.
  unfold combine_rings. destruct at_end.
  - apply on_rings_bind, on_rings_set_rings.
    assert (Chained (alter (ProtoRing.add_segment_end segment) n rs0))
      as Hrs1.
    { apply (Chained_alter rs0 n r); [done|done|].
      cbn [ProtoRing.add_segment_end ProtoRing.set_segments
           ProtoRing.segments].
      rewrite chained_app, Hcr. cbn [chained andb].
      unfold joint, joined. cbn [head].
      unfold ProtoRing.last_segment in Hjoin.
      by destruct (last (ProtoRing.segments r)). }
    apply on_rings_bind.
    eapply on_rings_conseq;
      [apply on_rings_and;
         [by apply has_closed_subring_end_chained
         |apply (has_closed_subring_end_segments segment)]|].
    intros ? rs2 [Hrs2 [_ Hlen2]]. rewrite length_alter in Hlen2.
    apply on_rings_bind.
    eapply on_rings_conseq;
      [apply on_rings_and;
         [apply possibly_combine_rings_end_chained; [done|lia]
         |apply (possibly_combine_rings_end_segments segment); lia]|].
    intros [combined n'] rs3 [Hrs3 _].
    destruct combined; [|by apply on_rings_ret].
    apply on_rings_bind.
    eapply on_rings_conseq; [by apply check_for_closed_subring_chained|].
    intros ? rs4 Hrs4. by apply on_rings_ret.
  - apply on_rings_bind, on_rings_set_rings.
    assert (Chained (alter (ProtoRing.add_segment_start segment) n rs0))
      as Hrs1.
    { apply (Chained_alter rs0 n r); [done|done|].
      cbn [ProtoRing.add_segment_start ProtoRing.set_segments
           ProtoRing.segments].
      change (segment :: ProtoRing.segments r)
        with ([segment] ++ ProtoRing.segments r).
      rewrite chained_app, Hcr. cbn [chained andb].
      unfold joint, joined. cbn [last].
      unfold ProtoRing.first_segment in Hjoin.
      destruct (head (ProtoRing.segments r)); [|done].
      unfold co_located in *. by rewrite Location_eqb_sym. }
    apply on_rings_bind.
    eapply on_rings_conseq;
      [apply on_rings_and;
         [by apply has_closed_subring_start_chained
         |apply (has_closed_subring_start_segments segment)]|].
    intros ? rs2 [Hrs2 [_ Hlen2]]. rewrite length_alter in Hlen2.
    apply on_rings_bind.
    eapply on_rings_conseq;
      [apply on_rings_and;
         [apply possibly_combine_rings_start_chained; [done|lia]
         |apply (possibly_combine_rings_start_segments segment); lia]|].
    intros [combined n'] rs3 [Hrs3 _].
    destruct combined; [|by apply on_rings_ret].
    apply on_rings_bind.
    eapply on_rings_conseq; [by apply check_for_closed_subring_chained|].
    intros ? rs4 Hrs4. by apply on_rings_ret.
Qed.

Lemma add_to_existing_ring_loop_chained (segment : NodeRefSegment.t)
    (rs0 : list ProtoRing.t) :
  Chained rs0 ->
  forall rings n,
    drop n rs0 = rings ->
    on_rings rs0 (add_to_existing_ring_loop segment n rings)
             (fun _ rs => Chained rs).
Proof.
  intros Hrs rings. induction rings as [|ring rings IH]; intros n Hdrop.
  - by apply on_rings_ret.
  - apply lookup_of_drop in Hdrop as [Hn Hdrop].
    cbn [add_to_existing_ring_loop].
    destruct (ProtoRing.closed ring); [by apply IH|].
    assert (forall (s : NodeRefSegment.t) (e : bool),
               (if e
                then co_located
                       (NodeRefSegment.second (ProtoRing.last_segment ring))
                       (NodeRefSegment.first s)
                else co_located
                       (NodeRefSegment.first (ProtoRing.first_segment ring))
                       (NodeRefSegment.second s)) = true ->
               on_rings rs0 (combine_rings s n e;; mret true)
                        (fun _ rs => Chained rs)) as Hcombine.
    { intros s e Hs. apply on_rings_bind.
      eapply on_rings_conseq;
        [by apply (combine_rings_chained s n e rs0 ring)|].
      intros [] rs Hchained. by apply on_rings_ret. }
    apply on_rings_bind, on_rings_same_location.
    destruct (co_located
                (NodeRefSegment.second (ProtoRing.last_segment ring))
                (NodeRefSegment.first segment)) eqn:H1;
      [by apply (Hcombine segment true)|].
    apply on_rings_bind, on_rings_same_location.
    destruct (co_located
                (NodeRefSegment.second (ProtoRing.last_segment ring))
                (NodeRefSegment.second segment)) eqn:H2;
      [by apply (Hcombine (NodeRefSegment.swap_locations segment) true)|].
    apply on_rings_bind, on_rings_same_location.
    destruct (co_located
                (NodeRefSegment.first (ProtoRing.first_segment ring))
                (NodeRefSegment.first segment)) eqn:H3;
      [by apply (Hcombine (NodeRefSegment.swap_locations segment) false)|].
    apply on_rings_bind, on_rings_same_location.
    destruct (co_located
                (NodeRefSegment.first (ProtoRing.first_segment ring))
                (NodeRefSegment.second segment)) eqn:H4;
      [by apply (Hcombine segment false)|].
    by apply IH.
Qed.

Lemma add_segment_chained (segment : NodeRefSegment.t)
    (rs0 : list ProtoRing.t) :
  Chained rs0 ->
  on_rings rs0 (add_segment segment) (fun _ rs => Chained rs).
Proof.
  intros Hrs. unfold add_segment, add_to_existing_ring. apply on_rings_bind.
  apply on_rings_bind, on_rings_gets_rings.
  eapply on_rings_conseq;
    [by apply (add_to_existing_ring_loop_chained segment rs0)|].
  intros [|] rs Hchained; cbn [negb].
  - by apply on_rings_ret.
  - apply on_rings_set_rings. apply Forall_app. split; [done|].
    by repeat constructor.
Qed.

Lemma for_each_add_segment_chained (l : list NodeRefSegment.t) :
  forall rs0,
    Chained rs0 ->
    on_rings rs0 (for_each l add_segment) (fun _ rs => Chained rs).
Proof.
  induction l as [|s l IH]; intros rs0 Hrs.
  - by apply on_rings_ret.
  - cbn [for_each]. apply on_rings_bind.
    eapply on_rings_conseq; [by apply add_segment_chained|].
    intros [] rs1 H1. by apply IH.
Qed.

(** Every ring the stitching leaves is a contiguous path: each of its
    segments starts at the location where the one before it ends. *)
Lemma stitched_chained (src : Source) (st : Assembler.t) :
  Chained (Assembler.m_rings
             (stitched in_buffer (stage2_input in_buffer src st))).
Proof.
  set (st0 := stage2_input in_buffer src st).
  assert (scanned in_buffer st0
          = report_all
              (intersection_problems in_buffer
                 (Assembler.m_object_id (prepared st0))
                 (found_intersections
                    (Assembler.m_segment_list (prepared st0))))
              (prepared st0)) as Hscanned.
  { unfold scanned. by rewrite find_intersections_eq. }
  destruct (stage2_input_fields in_buffer src st) as (Hrings & _).
  fold st0 in Hrings.
  assert (Assembler.m_rings (scanned in_buffer st0) = []) as Hr.
  { rewrite Hscanned. by destruct st0. }
  unfold stitched, build_rings, bindM, gets.
  apply (for_each_add_segment_chained _ [] ltac:(constructor)
           (scanned in_buffer st0) Hr).
Qed.
End StitchingMakesPaths.

(** * Winding of the rings of an area *)

Section WindingOfAreas.
Context {G : Geometry} (in_buffer : nat -> Way.t).

(** C1, as the code has it. In a successful assembly over more than one
    proto-ring, the loop after classification reverses exactly those
    outer rings that are not clockwise and those inner rings that are
    clockwise, and leaves the other rings as stitched; a ring is outer
    exactly when it is registered in [m_outer_rings] and inner exactly
    when it is registered in [m_inner_rings]. So every node sequence
    handed to an outer ring builder is that of a registered outer ring,
    starts and ends at the same location and has a signed area that is
    not positive (it is clockwise), and every node sequence handed to an
    inner ring builder is that of a registered inner ring, starts and ends
    at the same location and has a signed area that is not negative (it
    is counter-clockwise). The rings of the area in the buffer are those
    handed to the builders. (A single proto-ring is not normalised at
    all.) *)
Theorem winding_of_emitted_rings (src : Source) (buf : Buffer.t)
    (st st' : Assembler.t) :
  let st0 := stage2_input in_buffer src st in
  stage2 in_buffer st0 = (true, st') ->
  length (Assembler.m_rings st') <> 1 ->
  (forall n r0,
      Assembler.m_rings (stitched in_buffer st0) !! n = Some r0 ->
      exists r1,
        Assembler.m_rings st' !! n = Some r1
        /\ ((n ∈ Assembler.m_outer_rings st'
             /\ (n ∉ Assembler.m_inner_rings st')
             /\ ProtoRing.outer r1 = true
             /\ ProtoRing.segments r1
                = ProtoRing.segments
                    (if ProtoRing.is_cw r0 then r0 else ProtoRing.reverse r0))
            \/ (n ∈ Assembler.m_inner_rings st'
                /\ (n ∉ Assembler.m_outer_rings st')
                /\ ProtoRing.outer r1 = false
                /\ ProtoRing.segments r1
                   = ProtoRing.segments
                       (if ProtoRing.is_cw r0 then ProtoRing.reverse r0
                        else r0))))
  /\ (forall item, item ∈ emitted_rings st' ->
        match item with
        | OuterRing nodes =>
            exists n,
              n ∈ Assembler.m_outer_rings st'
              /\ nodes = ProtoRing.node_refs (ring_of st' n)
              /\ ProtoRing.is_cw (ring_of st' n) = true
              /\ nodes_closed nodes = true
              /\ (shoelace nodes <= 0)%Z
        | InnerRing nodes =>
            exists n,
              n ∈ Assembler.m_inner_rings st'
              /\ nodes = ProtoRing.node_refs (ring_of st' n)
              /\ (0 <= ProtoRing.sum (ring_of st' n))%Z
              /\ nodes_closed nodes = true
              /\ (0 <= shoelace nodes)%Z
        end)
  /\ (exists area rest,
        Buffer.written (fst (assemble in_buffer src buf st))
        = Buffer.written buf ++ area :: rest
        /\ Area.rings area = emitted_rings st').
Proof.
  intros st0 Hst Hlen.
  destruct (normalised_rings in_buffer src st st' Hst Hlen)
    as [Hrings Hitems].
  fold st0 in Hrings, Hitems.
  pose proof (stitched_chained in_buffer src st) as Hchained.
  fold st0 in Hchained.
  assert (forall n r0,
    Assembler.m_rings (stitched in_buffer st0) !! n = Some r0 ->
    chained (ProtoRing.segments (ring_of st' n)) = true
    /\ ProtoRing.closed (ring_of st' n) = true
    /\ (n ∈ Assembler.m_outer_rings st' ->
        ProtoRing.is_cw (ring_of st' n) = true)
    /\ (n ∈ Assembler.m_inner_rings st' ->
        (0 <= ProtoRing.sum (ring_of st' n))%Z)) as Hring.
  { intros n r0 Hn.
    destruct (Hrings n r0 Hn)
      as (r1 & Hr1 & Hc & Ho & Hi & Hs & Hcw & Hccw).
    assert (ring_of st' n = r1) as -> by (unfold ring_of; by rewrite Hr1).
    pose proof (chained_ring _ n r0 Hchained Hn) as Hr0.
    split; [|split; [done|split]].
    - rewrite Hs. destruct (if ProtoRing.outer r1 then _ else _); [|done].
      cbn [ProtoRing.reverse ProtoRing.set_segments ProtoRing.segments].
      by rewrite chained_turned.
    - intros Hin. by apply Hcw, Ho.
    - intros Hin. by apply Hccw, Hi. }
  split; [|split].
  - intros n r0 Hn.
    destruct (Hrings n r0 Hn)
      as (r1 & Hr1 & Hc & Ho & Hi & Hs & Hcw & Hccw).
    exists r1. split; [done|].
    destruct (ProtoRing.outer r1) eqn:Houter.
    + left. split; [by apply Ho|]. split; [rewrite Hi; congruence|].
      split; [done|]. rewrite Hs. by destruct (ProtoRing.is_cw r0).
    + right. split; [by apply Hi|]. split; [rewrite Ho; congruence|].
      split; [done|]. rewrite Hs. by destruct (ProtoRing.is_cw r0).
  - intros item Hitem.
    destruct (Hitems item Hitem) as (n & r0 & Hn & [[-> Hin]|[-> Hin]]);
      destruct (Hring n r0 Hn) as (Hpath & Hclosed & Hcw & Hccw);
      exists n; split; [done| |done|]; split; [done| |done|].
    + specialize (Hcw Hin). split; [done|].
      rewrite nodes_closed_of_ring, shoelace_node_refs by done.
      split; [done|]. by apply Z.leb_le in Hcw.
    + specialize (Hccw Hin). split; [done|].
      rewrite nodes_closed_of_ring, shoelace_node_refs by done.
      done.
  - destruct (assemble_written in_buffer src buf st) as (rest & Hw & _).
    fold st0 in Hw. rewrite Hst in Hw. cbn [fst snd] in Hw.
    eexists _, rest. split; [exact Hw|apply area_of_rings].
Qed.
End WindingOfAreas.

Section OnWindingOfAreas.
Import Sample.

(** The square with a hole: the outer ring is handed on clockwise, the
    inner ring counter-clockwise, both closed. *)
Lemma winding_of_square_with_hole :
  stage2 in_buffer (stage2_input in_buffer square_with_hole reporting)
  = (true, after_stage2 square_with_hole reporting)
  /\ length (Assembler.m_rings (after_stage2 square_with_hole reporting)) <> 1
  /\ Forall (fun item =>
               match item with
               | OuterRing nodes =>
                   nodes_closed nodes = true /\ (shoelace nodes <= 0)%Z
               | InnerRing nodes =>
                   nodes_closed nodes = true /\ (0 <= shoelace nodes)%Z
               end)
            (emitted_rings (after_stage2 square_with_hole reporting))
  /\ map (fun item =>
            match item with
            | OuterRing nodes => (true, shoelace nodes)
            | InnerRing nodes => (false, shoelace nodes)
            end)
         (emitted_rings (after_stage2 square_with_hole reporting))
     = [(true, (-200)%Z); (false, 128%Z)]
  /\ exists area rest,
       Buffer.written (fst (assemble in_buffer square_with_hole out_buffer
                                     reporting)) = area :: rest
       /\ Area.rings area
          = emitted_rings (after_stage2 square_with_hole reporting).
Proof.
  assert (stage2 in_buffer (stage2_input in_buffer square_with_hole reporting)
          = (true, after_stage2 square_with_hole reporting)) as Hst
    by (vm_compute; reflexivity).
  assert (length (Assembler.m_rings (after_stage2 square_with_hole reporting))
          <> 1) as Hlen by (vm_compute; discriminate).
  destruct (winding_of_emitted_rings in_buffer square_with_hole out_buffer
              reporting _ Hst Hlen) as (_ & Hwinding & Harea).
  split; [exact Hst|]. split; [exact Hlen|]. split.
  - apply Forall_forall. intros item Hitem.
    specialize (Hwinding item Hitem).
    destruct item as [nodes|nodes];
      destruct Hwinding as (n & _ & _ & _ & Hclosed & Hsign); done.
  - split; [vm_compute; reflexivity|exact Harea].
Defined.
End OnWindingOfAreas.

Section OnAreaTags.
Import Sample.

End OnAreaTags.
